(* ===== verification/_CoqProject ===== *)
-Q . S2P
Prelude.v
Types.v
Abi.v
Decoder.v
FixedCodecs.v
Disperse.v
MultiSend.v
Heuristic.v
Multicall.v
Chain.v
Parser.v
Workers.v
PoolSpec.v
Effects.v
Eris.v
Url.v
Connect.v
Config.v
Tx.v
JsonRpc.v
Runner.v
Graceful.v
Grpc.v
Supervise.v
Observer.v
