(* ===== verification/Prelude.v ===== *)
(** * A verification of the LiquidCats libraries

    The repository holds independent Go libraries: the decoder of EVM calldata into
    native-currency transfers (evm-lib), a generic worker pool (workers), an event subject
    (observer), transaction managers, connectors and migrations (db), a JSON-RPC client
    (jsonrpc), runners with graceful shutdown (graceful), a configuration loader (cfg) and
    network parameters (utxo-lib). This library models them in the shape of the source,
    one definition per function or method under the same name, and proves what makes them
    correct.

    ** Conventions

    - [Prelude] (this file): byte strings ([str], [byte_val]), Go errors ([error],
      [errors_is]), the outcomes of a call ([outcome]: a value, an error, a run-time panic,
      or [NoFuel] when a loop bound of the model was too small), 64-bit [int] arithmetic
      ([wrap64], the operations with a [!]), slices ([slice], [index], [copy] with their
      bounds checks as panics), loops ([for_range], [for_each], [loop]) with their
      invariant rules, big-endian words ([be_to_Z], [Z_to_be]), layout of bytes in a
      buffer ([holds_at]), and the hint databases [go], [len] and [run].
    - [Effects]: calls that thread a state ([io]), deferred calls ([defer]) and calls on
      record ([traced]), for the code that talks to the outside.
    - A [big.Int] pointer is an [option Z]; a slice is a list, except where the sharing of
      backing arrays is the point (Observer); an interface that may be nil is an option.
    - Code outside the repository is a parameter: a class of operations ([TxDriver],
      [PgxPool], [SqlDB], [MigrateLib], [Sources], [Eris] in the file of that name,
      [ErrGroup] in [Runner]) or a function of a Section; what is
      assumed of it is a named hypothesis, and every property that has one comes with a
      concrete instance that meets it. The parts of the Go standard library that are used
      are defined (encoding/hex, net/url, textproto header names, float64 comparisons),
      except HTTP, files and the tables of Unicode, which are parameters.

    ** The parts

    - src/evm-lib/parser/types/types.go: [Types] (addresses, selectors, transfers, and
      encoding/hex in [Hex]).
    - codecs/abi.go: [Abi]. Module [Abi] has the readers with their wrap-around, [AbiSpec]
      the layout predicates ([uint_at], [address_at], [bytes_at], ...) that say what
      calldata holds, [AbiEnc] the reference encoding, [AbiProps] the properties.
    - The interface [Decoder] of codecs/chain.go and [SubParser] of codecs/sub_parser.go:
      [Decoder], with the laws of a codec ([LawfulDecoder]) and of a sub-parser
      ([sub_safe]) against which the rest is proved.
    - The codecs: [FixedCodecs] (weth.go, aave_weth_gateway.go, uniswap_v2_router.go,
      uniswap_v3_payments.go, gnosis_safe.go), [Disperse] (disperse.go), [MultiSend]
      (gnosis_multisend.go), [Heuristic] (heuristic.go), [Multicall] (multicall.go, and
      multicall3.go in Module [Multicall3]). The wrapper codecs hand inner calldata to an
      abstract sub-parser.
    - codecs/chain.go: [Chain]. Chains and wrapper codecs are objects of a heap and may
      refer to one another in cycles; [SetSubParser] and [Add] change the heap,
      [ParseBytes] runs on it.
    - parser/parser.go: [Parser].
    - src/workers: [Workers]. Module [PoolConfig] has the options and [New], [Pool] the
      goroutines as a transition system in which every atomic operation and every channel
      operation of Submit, Close, Start, the autoscaler and the workers is a step.
      [PoolSpec] states what the pool promises as a bounded queue and proves that it is
      one.
    - src/observer/observer.go: [Observer], a transition system of Register, Notify, Run
      and its workers over shared backing arrays, with a group of [ErrGroup] for every
      call of Run and one for every event that a worker handles. Nil events and nil
      observers are in the model, with the panics they lead to.
    - src/db: [Tx] (tx.go of both packages, defined once over a driver and instantiated in
      Modules [Postgres] and [Sqlite]), [Url] (the part of net/url and net that builds the
      connection URL) and [Connect] (connector.go and migrator.go of both packages).
    - src/cfg and src/utxo-lib: [Config].
    - src/jsonrpc: [JsonRpc] (request.go, options.go, response.go, and client.go in Module
      [Transport]).
    - src/graceful, in two views. [Graceful] has the loops of graceful.go, tiker.go,
      worker.go and cron.go as functions of the sequence of things that happen to one
      runner, with what they log, and [Grpc] the options of the servers and the unary
      interceptors (grpc.go, and http.go in Module [Http]). [Runner] has runners as
      processes that take inputs under a context, groups of them (a [group_runner] is a
      runner again), errgroup as an interface with laws, and a reference errgroup in Module
      [RefGroup]; [Supervise] has the runners of
      the package as such processes: Signals, Ticker, Worker, ScheduleRunner, WaitContext,
      the HTTP server with its bounded shutdown and the gRPC server. The runner that a
      ticker calls is a process, too, and may ignore its context. The refinement lemmas
      [ticker_refines], [worker_refines] and [signals_refines] say that the two views
      agree.

    ** What the theorems show

    - Decoding. Each codec returns a result exactly when the calldata has the layout it
      looks for, and exactly the transfers that stand there ([MultiSend_Decode_spec],
      [Multicall_Decode_spec], [Multicall3_Decode_spec], [Disperse_Decode_iff],
      [fixed_codecs_Decode_iff]); the heuristic scan equals a reference definition
      ([Heuristic_Decode_reference]). No codec panics on calldata of any length that fits in memory; the readers are
      characterised on every branch ([ReadWordAt_branches], with the offsets near the
      maximum of [int] that do panic, and [ReadBytesArrayElements_spec]).
    - Recursion. Parsing through any graph of chains and wrappers, cycles included,
      terminates without a panic ([Chain_ParseBytes_total]), satisfies the equation of the
      source ([Chain_ParseBytes_equation]) and reads back the canonical encoding of a
      batch ([Chain_multicall_roundtrip]). [Parse] itself panics exactly on calldata
      shorter than a selector ([Parse_panics_iff]); [Parse_order] and [Parse_fallback] say
      what the registration order means;
      [codecs_well_typed] gives the type of all ten codecs of the package with no
      assumption left.
    - The pool. [New] on any options, in terms of the settings they make ([New_spec]).
      Invariants of all interleavings ([Pool_bounds], [Pool_items]), exactly which panics
      are reachable ([Pool_panics]: the send on the closed channel, and time.NewTicker with
      a frequency that is not positive), the refinement of a bounded queue ([Pool_refines_queue]), what a
      pool of one worker guarantees beyond it ([Pool_fifo]: order, and no loss), and the
      runs that break the promises of the interface ([Pool_can_starve], [Pool_close_races], [New_accepts_unusable]).
    - Shutdown. [WaitContext_terminates]: a group of runners that honour their contexts
      comes to an end once one has failed or the context is done; signals, schedules and
      both servers are such runners, so are tickers whose own runner is one, and groups of
      them again.
      [WaitContext_returns]: when and with what. [Server_shutdown]: the HTTP server stops
      within its five seconds and returns nil only when every request was answered.
      [idle_Worker_blocks]: a worker with an open, quiet channel is not such a runner.
    - Transactions are all or nothing over a snapshot semantics of the database, a commit
      that reports an error included, which has done nothing or everything
      ([Transactional_atomic]); they end exactly once, and the result is determined by that
      of the callback and of the call that ends them ([Transactional_protocol]). Resources
      are given back on every outcome ([MigrateUp_spec], [Load_spec], [Execute_log]).
    - Connection URLs keep settings apart ([ToDSN_roundtrip]); events are delivered once to
      all observers registered when they were looked up, workers wait for these calls and
      Run for its workers ([Observer_delivery]); the JSON-RPC
      client succeeds exactly when it should ([Execute_ok_iff]); panics of handlers are
      stopped by the recovery interceptor ([serve_recovers]); and the runners return what
      they should ([WaitContext_result], [Ticker_run], [Worker_run]).

    ** Fuel

    Three recursions are not structural. The entry loop of MultiSend and the scan of
    Heuristic run on the length of their input and one more ([loop]): each turn consumes
    bytes, and the theorems about [Decode] show that [NoFuel] does not come out.
    [Chain.ParseBytes] runs on the length of the calldata and one more: inner calldata is
    strictly shorter than the calldata around it (a selector and at least a head word
    precede it), and [Chain_ParseBytes_equation] shows that more fuel changes nothing.

    ** What is not modelled

    - Memory exhaustion: a [make] that Go would refuse for lack of memory succeeds.
    - Text of log messages; a logger is the list of what it was told.
    - Connections and bytes on the wire: of an HTTP server the states that ListenAndServe
      and Shutdown go through and the number of requests in progress, with time passing in
      inputs; of a gRPC server only the contract of Serve and GracefulStop ([Stoppable]).
      GracefulStop has no deadline, so a gRPC server stops when its calls end.
    - The running of cron tasks: the cron library runs them in goroutines of its own. The
      code does not wait for them, since it ignores the context that [cr.Stop] returns.
    - errgroup is the interface [ErrGroup] with the laws [LawfulErrGroup]; eris.Is and
      eris.Wrap are the interface [Eris] with the laws [LawfulEris]. The pool uses less of
      errgroup: cancellation may come at any time, and its [Wait] is not returned from.
    - What [Update] of an observer does, or a handler of the pool: they return, or not yet.
    - Goroutine scheduling is any interleaving; fairness is not assumed. Termination is
      therefore a bound on runs and the absence of stuck states ([settles]), and what is
      said of the pool and the observer is safety, and the liveness failure
      [Pool_can_starve], which holds in every continuation of its run.

    ** Plan

    Next: [Start] of the pool and [Run] of the observer as runners in the sense of
    [Runner] (the observer has its groups already), so that [WaitContext] over them is
    covered by [WaitContext_terminates] (a worker of the observer leaves a closed channel,
    one of the pool leaves when its context is done); the indices of [ReadWord] beyond the
    head, where [32 * idx] wraps; and a round trip through the JSON of a request over an
    abstract codec. *)

From Stdlib Require Export ZArith Lia.
From Stdlib.Strings Require Export Byte.
From Stdlib Require String.
From stdpp Require Export base tactics option list numbers strings gmap.

#[global] Set Warnings "-clear-no-such-hyp".
#[global] Open Scope Z_scope.
#[global] Set Default Proof Using "Type".

(** ** Bytes and byte strings *)

#[export] Instance byte_eq_dec : EqDecision byte := Byte.byte_eq_dec.

#[export] Program Instance byte_countable : Countable byte :=
  inj_countable Byte.to_N Byte.of_N _.
Next Obligation. intros b. apply Byte.of_to_N. Qed.

(** The value of a byte, in [0, 256). *)
Definition byte_val (b : byte) : Z := Z.of_N (Byte.to_N b).

(** Truncation to uint8. *)
Definition byte_of_Z (z : Z) : byte :=
  default x00 (Byte.of_N (Z.to_N (z mod 256))).

(** A Go string is a sequence of bytes; [str] injects a literal. *)
Definition str (s : string) : list byte := String.list_byte_of_string s.

Lemma byte_val_range b : 0 <= byte_val b < 256.
Proof. unfold byte_val. pose proof (Byte.to_N_bounded b). lia. Qed.

Lemma byte_val_of_Z z : byte_val (byte_of_Z z) = z mod 256.
Proof.
  unfold byte_val, byte_of_Z.
  pose proof (Z.mod_pos_bound z 256 ltac:(lia)) as Hz.
  destruct (Byte.of_N (Z.to_N (z mod 256))) as [b|] eqn:E; simpl.
  - apply Byte.to_of_N in E. rewrite E. lia.
  - apply Byte.of_N_None_iff in E. lia.
Qed.

Lemma byte_val_inj b1 b2 : byte_val b1 = byte_val b2 -> b1 = b2.
Proof.
  unfold byte_val. intros H%N2Z.inj.
  pose proof (Byte.of_to_N b1) as H1. pose proof (Byte.of_to_N b2) as H2.
  rewrite H in H1. congruence.
Qed.

Lemma byte_of_Z_val b : byte_of_Z (byte_val b) = b.
Proof.
  apply byte_val_inj. rewrite byte_val_of_Z.
  apply Z.mod_small, byte_val_range.
Qed.

(** ** Go errors

    A package-level sentinel ([errors.New] bound to a variable) is identified by
    its qualified name, an error that comes from code outside the repository by a
    number; [fmt.Errorf] keeps its format string and arguments, and the causes it
    wraps with [%w]. *)

Inductive arg :=
| AInt (z : Z)
| ABytes (b : list byte).

Inductive error :=
| ENew (name : string)
| EExt (id : Z)
| EFmt (fmt : string) (args : list arg)
| EWrap (fmt : string) (args : list arg) (cause : error)
| EWrap2 (fmt : string) (cause1 cause2 : error).

#[export] Instance arg_eq_dec : EqDecision arg.
Proof. solve_decision. Defined.
#[export] Instance error_eq_dec : EqDecision error.
Proof. solve_decision. Defined.

(** [errors.Is]: the error itself or one of the causes it wraps. *)
Fixpoint errors_is (e target : error) : bool :=
  bool_decide (e = target) ||
  match e with
  | EWrap _ _ c => errors_is c target
  | EWrap2 _ c1 c2 => errors_is c1 target || errors_is c2 target
  | _ => false
  end.

Lemma errors_is_refl e : errors_is e e = true.
Proof. destruct e; simpl; by rewrite bool_decide_eq_true_2. Qed.

(** ** Outcomes of a Go call

    The value/error pairs of the source carry a meaningful value exactly when the
    error is nil, so a call returns [Ok] or [Err]; [Panic] is a run-time panic, and
    [NoFuel] says that a loop bound given by the model was too small (the theorems
    show that it never is). *)

Inductive panic :=
| PSliceBounds
| PIndexRange
| PNilDeref
| PMakeChan
| PSendClosed
| PCloseClosed
| PValue (v : list byte).

#[export] Instance panic_eq_dec : EqDecision panic.
Proof. solve_decision. Defined.

Inductive outcome (A : Type) :=
| Ok (a : A)
| Err (e : error)
| Panic (p : panic)
| NoFuel.
Arguments Ok {A} a.
Arguments Err {A} e.
Arguments Panic {A} p.
Arguments NoFuel {A}.

#[export] Instance outcome_eq_dec `{EqDecision A} : EqDecision (outcome A).
Proof. solve_decision. Defined.

#[export] Instance outcome_ret : MRet outcome := @Ok.
#[export] Instance outcome_bind : MBind outcome := fun A B f m =>
  match m with
  | Ok a => f a
  | Err e => Err e
  | Panic p => Panic p
  | NoFuel => NoFuel
  end.

(** [if err != nil { return nil, fmt.Errorf(fmt, args..., err) }] *)
Definition wrap {A} (fmt : string) (args : list arg) (m : outcome A) : outcome A :=
  match m with
  | Err e => Err (EWrap fmt args e)
  | m => m
  end.

(** The call does not panic, is not cut by the fuel, and a value it returns
    satisfies [P]. *)
Definition safe {A} (P : A -> Prop) (m : outcome A) : Prop :=
  match m with
  | Ok a => P a
  | Err _ => True
  | Panic _ | NoFuel => False
  end.

Definition is_err {A} (m : outcome A) : Prop := exists e, m = Err e.

Lemma safe_mono {A} (P Q : A -> Prop) m :
  safe P m -> (forall a, P a -> Q a) -> safe Q m.
Proof. destruct m; simpl; auto. Qed.

Lemma safe_bind {A B} (P : A -> Prop) (Q : B -> Prop) (m : outcome A) (k : A -> outcome B) :
  safe P m -> (forall a, P a -> safe Q (k a)) -> safe Q (m ≫= k).
Proof. destruct m; simpl; auto. Qed.

Lemma safe_wrap {A} (P : A -> Prop) fmt args m : safe P m -> safe P (wrap fmt args m).
Proof. destruct m; simpl; auto. Qed.

Lemma safe_ok {A} (P : A -> Prop) a : P a -> safe P (Ok a).
Proof. done. Qed.

Lemma safe_err {A} (P : A -> Prop) e : safe P (Err e).
Proof. done. Qed.

Lemma safe_if {A} (P : A -> Prop) (b : bool) m1 m2 :
  (b = true -> safe P m1) -> (b = false -> safe P m2) -> safe P (if b then m1 else m2).
Proof. destruct b; auto. Qed.

Lemma safe_inv_ok {A} (P : A -> Prop) m a : safe P m -> m = Ok a -> P a.
Proof. by intros H ->. Qed.

Lemma safe_not_panic {A} (P : A -> Prop) m p : safe P m -> m <> Panic p.
Proof. by intros H ->. Qed.

Lemma safe_not_nofuel {A} (P : A -> Prop) m : safe P m -> m <> NoFuel.
Proof. by intros H ->. Qed.

Lemma bind_ok_inv {A B} (m : outcome A) (k : A -> outcome B) b :
  m ≫= k = Ok b -> exists a, m = Ok a /\ k a = Ok b.
Proof. destruct m; simpl; try discriminate. eauto. Qed.

Lemma ok_inj {A} (a b : A) : Ok a = Ok b -> a = b.
Proof. by intros [= ->]. Qed.

Lemma wrap_ok_inv {A} fmt args (m : outcome A) a : wrap fmt args m = Ok a -> m = Ok a.
Proof. by destruct m. Qed.

(** Proof search on [safe]: peel binds, wraps and tests, and close the leaves with
    the lemmas registered for the readers and decoders. *)
Create HintDb go discriminated.
#[export] Hint Resolve safe_ok safe_err safe_wrap : go.
#[export] Hint Extern 5 (_ <= _) => lia : go.
#[export] Hint Extern 5 (_ <= _ <= _) => lia : go.

Ltac go_safe :=
  repeat first
    [ apply safe_err
    | progress (apply safe_if; intros)
    | eapply safe_bind; [solve [apply safe_wrap; eauto with go | eauto with go]|intros; cbv beta in *]
    | apply safe_ok ].

(** Invert the success of a monadic computation. *)
Ltac inv_ok :=
  repeat match goal with
  | H : Ok _ = Ok _ |- _ => apply ok_inj in H
  | H : _ ≫= _ = Ok _ |- _ =>
      let a := fresh "a" in let Ha := fresh "Ha" in
      apply bind_ok_inv in H as (a & Ha & H)
  | H : wrap _ _ _ = Ok _ |- _ => apply wrap_ok_inv in H
  | H : (if ?b then _ else _) = Ok _ |- _ => destruct b eqn:?; [discriminate H|]
  | H : (if ?b then _ else Err _) = Ok _ |- _ => destruct b eqn:?; [|discriminate H]
  end.

(** ** Machine integers: [int] is 64 bits wide and wraps around. *)

Definition int64_min : Z := - 2 ^ 63.
Definition int64_max : Z := 2 ^ 63 - 1.
Definition MaxInt32 : Z := 2 ^ 31 - 1.

Definition wrap64 (z : Z) : Z := (z + 2 ^ 63) mod 2 ^ 64 - 2 ^ 63.

Declare Scope go_scope.
Delimit Scope go_scope with go.
Notation "a +! b" := (wrap64 (a + b)) (at level 50, left associativity) : go_scope.
Notation "a -! b" := (wrap64 (a - b)) (at level 50, left associativity) : go_scope.
Notation "a *! b" := (wrap64 (a * b)) (at level 40, left associativity) : go_scope.
#[global] Open Scope go_scope.

#[global] Arguments wrap64 : simpl never.

Lemma wrap64_small z : int64_min <= z <= int64_max -> wrap64 z = z.
Proof.
  unfold wrap64, int64_min, int64_max. intros Hz.
  rewrite Z.mod_small; lia.
Qed.

Lemma wrap64_range z : int64_min <= wrap64 z <= int64_max.
Proof.
  unfold wrap64, int64_min, int64_max.
  pose proof (Z.mod_pos_bound (z + 2 ^ 63) (2 ^ 64) ltac:(lia)). lia.
Qed.

(** Replace wrapping operations by exact ones when [lia] can show they fit. *)
Ltac unwrap :=
  repeat match goal with
  | |- context [wrap64 ?z] =>
      lazymatch z with
      | context [wrap64 _] => fail
      | _ => rewrite (wrap64_small z) by (unfold int64_min, int64_max in *; lia)
      end
  | H : context [wrap64 ?z] |- _ =>
      lazymatch z with
      | context [wrap64 _] => fail
      | _ => rewrite (wrap64_small z) in H by (unfold int64_min, int64_max in *; lia)
      end
  end.

(** ** Slices *)

(** [len(s)] *)
Definition len {A} (s : list A) : Z := Z.of_nat (length s).

(** [s[lo:hi]] for a slice whose capacity is its length. (Go bounds [hi] by the capacity;
    the source tests [len] before it cuts, and where it does not, the slice has just been
    made by the standard library, see [Parser.Parse].) *)
Definition slice {A} (s : list A) (lo hi : Z) : outcome (list A) :=
  if (0 <=? lo) && (lo <=? hi) && (hi <=? len s)
  then Ok (take (Z.to_nat (hi - lo)) (drop (Z.to_nat lo) s))
  else Panic PSliceBounds.

(** [s[lo:]] *)
Definition slice_from {A} (s : list A) (lo : Z) : outcome (list A) := slice s lo (len s).

(** [s[i]] *)
Definition index {A} (s : list A) (i : Z) : outcome A :=
  if (0 <=? i) && (i <? len s)
  then match s !! Z.to_nat i with Some a => Ok a | None => Panic PIndexRange end
  else Panic PIndexRange.

(** [copy(dst, src)], as the new contents of [dst]. *)
Definition copy {A} (dst src : list A) : list A :=
  take (length dst) src ++ drop (length src) dst.

(** The address space of the 64-bit runtime bounds every byte slice. *)
Definition go_slice (s : list byte) : Prop := len s <= 2 ^ 48.

Lemma len_nonneg {A} (s : list A) : 0 <= len s.
Proof. unfold len. lia. Qed.

Lemma len_nil {A} : len (@nil A) = 0.
Proof. done. Qed.

Lemma len_cons {A} (a : A) s : len (a :: s) = len s + 1.
Proof. unfold len. simpl. lia. Qed.

Lemma len_app {A} (s t : list A) : len (s ++ t) = len s + len t.
Proof. unfold len. rewrite length_app. lia. Qed.

Lemma len_replicate {A} n (x : A) : len (replicate n x) = Z.of_nat n.
Proof. unfold len. by rewrite length_replicate. Qed.

Create Rewrite HintDb len.
#[export] Hint Rewrite @len_nil @len_cons @len_app @len_replicate : len.

#[global] Arguments len : simpl never.
#[global] Arguments slice : simpl never.
#[global] Arguments index : simpl never.

Lemma slice_ok {A} (s : list A) lo hi :
  0 <= lo -> lo <= hi -> hi <= len s ->
  slice s lo hi = Ok (take (Z.to_nat (hi - lo)) (drop (Z.to_nat lo) s)).
Proof.
  intros. unfold slice.
  replace (_ && _ && _) with true; [done|].
  symmetry. rewrite !andb_true_iff, !Z.leb_le. lia.
Qed.

Lemma slice_safe {A} (s : list A) lo hi (P : list A -> Prop) :
  0 <= lo -> lo <= hi -> hi <= len s ->
  (forall t, len t = hi - lo -> P t) -> safe P (slice s lo hi).
Proof.
  intros Hlo Hhi Hs HP. rewrite slice_ok by done. apply HP.
  unfold len in *. rewrite length_take, length_drop. lia.
Qed.

(** The middle part of a concatenation, the way round-trip proofs meet it. *)
Lemma slice_app {A} (a b c : list A) :
  slice (a ++ b ++ c) (len a) (len a + len b) = Ok b.
Proof.
  rewrite slice_ok by (rewrite ?len_app; pose proof (len_nonneg a);
    pose proof (len_nonneg b); pose proof (len_nonneg c); lia).
  f_equal. unfold len.
  rewrite Nat2Z.id, drop_app_length.
  replace (Z.to_nat _) with (length b) by lia.
  apply take_app_length.
Qed.

Lemma slice_app_at {A} (a b c : list A) lo hi :
  lo = len a -> hi = len a + len b -> slice (a ++ b ++ c) lo hi = Ok b.
Proof. intros -> ->. apply slice_app. Qed.

Lemma slice_app_end {A} (a b : list A) lo hi :
  lo = len a -> hi = len a + len b -> slice (a ++ b) lo hi = Ok b.
Proof. intros. rewrite <-(app_nil_r (a ++ b)), <-app_assoc. by apply slice_app_at. Qed.

Lemma slice_app_start {A} (a b : list A) hi : hi = len a -> slice (a ++ b) 0 hi = Ok a.
Proof. intros ->. apply (slice_app_at [] a b); [done|]. by rewrite len_nil. Qed.

Lemma index_lookup {A} (s : list A) i x :
  0 <= i -> s !! Z.to_nat i = Some x -> index s i = Ok x.
Proof.
  intros Hi Hx. unfold index. pose proof (lookup_lt_Some _ _ _ Hx) as Hl.
  unfold len. rewrite (proj2 (Z.leb_le 0 i)), (proj2 (Z.ltb_lt i _)), Hx by lia. done.
Qed.

Lemma length_copy {A} (dst src : list A) : length (copy dst src) = length dst.
Proof. unfold copy. rewrite length_app, length_take, length_drop. lia. Qed.

Lemma copy_full {A} (dst src : list A) : length src = length dst -> copy dst src = src.
Proof.
  intros H. unfold copy.
  rewrite take_ge, drop_ge, app_nil_r by lia. done.
Qed.

(** ** Loops *)

(** [for i := range count { body }] over a state [S]; a body that fails leaves the
    loop with its error. *)
Fixpoint for_upto {S} (n : nat) (i : Z) (body : Z -> S -> outcome S) (s : S) : outcome S :=
  match n with
  | O => Ok s
  | Datatypes.S n => s' ← body i s; for_upto n (i + 1) body s'
  end.

Definition for_range {S} (count : Z) (body : Z -> S -> outcome S) (s : S) : outcome S :=
  for_upto (Z.to_nat count) 0 body s.

(** [for cond { body }] with early exits: [inl] goes on, [inr] leaves the loop. *)
Fixpoint loop {S R} (fuel : nat) (body : S -> outcome (S + R)) (s : S) : outcome R :=
  match fuel with
  | O => NoFuel
  | Datatypes.S fuel =>
      r ← body s;
      match r with
      | inl s' => loop fuel body s'
      | inr r => Ok r
      end
  end.

Section for_range.
Context {S : Type}.
Implicit Types (body : Z -> S -> outcome S) (I : Z -> S -> Prop).

Lemma for_upto_safe I body n i s :
  (forall j s, i <= j < i + Z.of_nat n -> I j s -> safe (I (j + 1)) (body j s)) ->
  I i s -> safe (I (i + Z.of_nat n)) (for_upto n i body s).
Proof.
  revert i s. induction n as [|n IH]; intros i s Hbody Hs; simpl for_upto.
  - by rewrite Z.add_0_r.
  - eapply safe_bind; [apply Hbody; [lia|done]|].
    intros s' Hs'. replace (i + _) with ((i + 1) + Z.of_nat n) by lia.
    apply IH; [|done]. intros j t Hj. apply Hbody. lia.
Qed.

(** The loop rule: an invariant kept by every iteration that the loop runs. *)
Lemma for_range_safe I body count s :
  0 <= count ->
  (forall i s, 0 <= i < count -> I i s -> safe (I (i + 1)) (body i s)) ->
  I 0 s -> safe (I count) (for_range count body s).
Proof.
  intros Hc Hbody Hs. unfold for_range.
  replace count with (0 + Z.of_nat (Z.to_nat count)) at 1 by lia.
  apply for_upto_safe; [|done]. intros j t Hj. apply Hbody. lia.
Qed.

Lemma for_upto_ok (st : Z -> S) body n i :
  (forall j, i <= j < i + Z.of_nat n -> body j (st j) = Ok (st (j + 1))) ->
  for_upto n i body (st i) = Ok (st (i + Z.of_nat n)).
Proof.
  revert i. induction n as [|n IH]; intros i Hbody; simpl for_upto.
  - by rewrite Z.add_0_r.
  - rewrite Hbody by lia. simpl. rewrite IH.
    + do 2 f_equal. lia.
    + intros j Hj. apply Hbody. lia.
Qed.

(** A loop whose successive states are known. *)
Lemma for_range_ok (st : Z -> S) body count :
  0 <= count ->
  (forall i, 0 <= i < count -> body i (st i) = Ok (st (i + 1))) ->
  for_range count body (st 0) = Ok (st count).
Proof.
  intros Hc Hbody. unfold for_range. rewrite for_upto_ok.
  - do 2 f_equal. lia.
  - intros j Hj. apply Hbody. lia.
Qed.

Lemma for_upto_ext body1 body2 n i s :
  (forall j s, i <= j < i + Z.of_nat n -> body1 j s = body2 j s) ->
  for_upto n i body1 s = for_upto n i body2 s.
Proof.
  revert i s. induction n as [|n IH]; intros i s H; simpl; [done|].
  rewrite H by lia. destruct (body2 i s); simpl; try done.
  apply IH. intros j t Hj. apply H. lia.
Qed.

Lemma for_range_ext body1 body2 count s :
  (forall i s, 0 <= i < count -> body1 i s = body2 i s) ->
  for_range count body1 s = for_range count body2 s.
Proof.
  intros H. apply for_upto_ext. intros j t Hj. apply H. lia.
Qed.
End for_range.

Section loop.
Context {S R : Type} (body : S -> outcome (S + R)).

(** A loop with an invariant and a decreasing variant terminates within a fuel
    above the variant, and its result satisfies [Q]. *)
Lemma loop_safe (I : S -> Prop) (variant : S -> nat) (Q : R -> Prop) fuel s :
  (forall s, I s ->
     safe (fun r => match r with
                    | inl s' => I s' /\ (variant s' < variant s)%nat
                    | inr r => Q r
                    end) (body s)) ->
  I s -> (variant s < fuel)%nat -> safe Q (loop fuel body s).
Proof.
  intros Hbody. revert s. induction fuel as [|fuel IH]; intros s Hs Hf; [lia|].
  simpl. eapply safe_bind; [by apply Hbody|].
  intros [s'|r] Hr; [|done]. destruct Hr. apply IH; [done|lia].
Qed.

(** Once the fuel is enough, more fuel changes nothing. *)
Lemma loop_mono fuel1 fuel2 s :
  (fuel1 <= fuel2)%nat -> loop fuel1 body s <> NoFuel ->
  loop fuel2 body s = loop fuel1 body s.
Proof.
  revert fuel2 s. induction fuel1 as [|f1 IH]; intros [|f2] s Hle; simpl; try done; try lia.
  destruct (body s) as [[s'|r]| | |]; simpl; try done.
  apply IH. lia.
Qed.
End loop.

(** ** Big-endian numbers: [new(big.Int).SetBytes] and [binary.BigEndian] *)

Definition be_to_Z (bs : list byte) : Z :=
  fold_left (fun acc b => acc * 256 + byte_val b) bs 0.

(** The [n] low bytes of [z], most significant first. *)
Fixpoint Z_to_be (n : nat) (z : Z) : list byte :=
  match n with
  | O => []
  | Datatypes.S n => Z_to_be n (z / 256) ++ [byte_of_Z z]
  end.

Lemma be_to_Z_snoc bs b : be_to_Z (bs ++ [b]) = be_to_Z bs * 256 + byte_val b.
Proof. unfold be_to_Z. by rewrite fold_left_app. Qed.

Lemma length_Z_to_be n z : length (Z_to_be n z) = n.
Proof.
  revert z. induction n as [|n IH]; intros z; simpl; [done|].
  rewrite length_app, IH. simpl. lia.
Qed.

Lemma len_Z_to_be n z : len (Z_to_be n z) = Z.of_nat n.
Proof. unfold len. by rewrite length_Z_to_be. Qed.
#[export] Hint Rewrite len_Z_to_be : len.

Lemma be_to_Z_to_be n z : be_to_Z (Z_to_be n z) = z mod 256 ^ Z.of_nat n.
Proof.
  revert z. induction n as [|n IH]; intros z; simpl Z_to_be.
  - by rewrite Z.mod_1_r.
  - rewrite be_to_Z_snoc, IH, byte_val_of_Z.
    replace (256 ^ Z.of_nat (Datatypes.S n)) with (256 * 256 ^ Z.of_nat n)
      by (rewrite Nat2Z.inj_succ, Z.pow_succ_r; lia).
    rewrite Z.rem_mul_r by (try apply Z.pow_nonzero; lia). lia.
Qed.

Lemma be_to_Z_bound bs : 0 <= be_to_Z bs < 256 ^ len bs.
Proof.
  induction bs as [|b bs IH] using rev_ind; [done|].
  rewrite be_to_Z_snoc, len_app. pose proof (byte_val_range b).
  change (len [b]) with 1. rewrite Z.pow_add_r by (pose proof (len_nonneg bs); lia).
  change (256 ^ 1) with 256. lia.
Qed.

Lemma Z_to_be_to_Z bs : Z_to_be (length bs) (be_to_Z bs) = bs.
Proof.
  induction bs as [|b bs IH] using rev_ind; [done|].
  rewrite length_app, Nat.add_comm. simpl. rewrite be_to_Z_snoc.
  pose proof (byte_val_range b).
  rewrite Z.div_add_l, (Z.div_small (byte_val b)), Z.add_0_r, IH by lia.
  do 2 f_equal. apply byte_val_inj. rewrite byte_val_of_Z.
  rewrite Z.add_comm, Z.mod_add, Z.mod_small by lia. done.
Qed.

Lemma be_to_Z_inj bs1 bs2 :
  length bs1 = length bs2 -> be_to_Z bs1 = be_to_Z bs2 -> bs1 = bs2.
Proof.
  intros Hl Hz. rewrite <-(Z_to_be_to_Z bs1), <-(Z_to_be_to_Z bs2). congruence.
Qed.

Lemma be_to_Z_app bs1 bs2 : be_to_Z (bs1 ++ bs2) = be_to_Z bs1 * 256 ^ len bs2 + be_to_Z bs2.
Proof.
  induction bs2 as [|b bs2 IH] using rev_ind.
  - rewrite app_nil_r. change (len []) with 0. change (be_to_Z []) with 0. lia.
  - rewrite app_assoc, !be_to_Z_snoc, IH, len_app. change (len [b]) with 1.
    rewrite Z.pow_add_r by (pose proof (len_nonneg bs2); lia). lia.
Qed.

(** ** Windows: [chunk] occurs in [params] at byte offset [off] *)

Definition holds_at (params : list byte) (off : Z) (chunk : list byte) : Prop :=
  exists a c, params = a ++ chunk ++ c /\ len a = off.

Lemma holds_at_app params off x y :
  holds_at params off (x ++ y) <-> holds_at params off x /\ holds_at params (off + len x) y.
Proof.
  split.
  - intros (a & c & -> & <-). split.
    + exists a, (y ++ c). by rewrite <-app_assoc.
    + exists (a ++ x), c. by rewrite len_app, <-!app_assoc.
  - intros [(a & c & -> & <-) (a' & c' & Heq & Hl)].
    exists a, c'. split; [|done].
    rewrite (app_assoc a x c) in Heq |- *.
    apply app_inj_1 in Heq as [<- ->].
    + by rewrite <-!app_assoc.
    + unfold len in Hl. rewrite length_app. lia.
Qed.

Lemma holds_at_bounds params off chunk :
  holds_at params off chunk -> 0 <= off /\ off + len chunk <= len params.
Proof.
  intros (a & c & -> & <-). rewrite !len_app.
  pose proof (len_nonneg a). pose proof (len_nonneg c). lia.
Qed.

Lemma holds_at_slice params off chunk hi :
  hi = off + len chunk -> holds_at params off chunk -> slice params off hi = Ok chunk.
Proof. intros -> (a & c & -> & <-). apply slice_app. Qed.

Lemma slice_holds_at params lo hi chunk :
  slice params lo hi = Ok chunk -> holds_at params lo chunk /\ len chunk = hi - lo.
Proof.
  unfold slice. case_match eqn:E; [|done]. intros [= <-].
  rewrite !andb_true_iff, !Z.leb_le in E. unfold len in *. split.
  - exists (take (Z.to_nat lo) params), (drop (Z.to_nat hi) params). split.
    + replace (Z.to_nat hi) with (Z.to_nat lo + Z.to_nat (hi - lo))%nat by lia.
      rewrite <-drop_drop, take_drop, take_drop. done.
    + unfold len. rewrite length_take. lia.
  - rewrite length_take, length_drop. lia.
Qed.

Lemma holds_at_check params off chunk :
  slice params off (off + len chunk) = Ok chunk -> holds_at params off chunk.
Proof. by intros [H _]%slice_holds_at. Qed.

Lemma holds_at_prefix params chunk rest : params = chunk ++ rest -> holds_at params 0 chunk.
Proof. intros ->. by exists [], rest. Qed.

Lemma holds_at_inj params off x y :
  len x = len y -> holds_at params off x -> holds_at params off y -> x = y.
Proof.
  intros Hl Hx Hy.
  apply (holds_at_slice _ _ _ _ eq_refl) in Hx. apply (holds_at_slice _ _ _ _ eq_refl) in Hy.
  rewrite Hl in Hx. congruence.
Qed.

(** The [i]-th record of a sequence of records of the same size. *)
Lemma holds_at_concat {A} params off (f : A -> list byte) size l i x :
  (forall x, len (f x) = size) -> holds_at params off (concat (map f l)) ->
  l !! i = Some x -> holds_at params (off + size * Z.of_nat i) (f x).
Proof.
  intros Hf. revert off i. induction l as [|y l IH]; intros off [|i] H Hi; try done; simpl in H.
  - injection Hi as ->. apply holds_at_app in H as [H _]. by rewrite Z.mul_0_r, Z.add_0_r.
  - apply holds_at_app in H as [_ H]. rewrite Hf in H.
    replace (off + size * _) with (off + size + size * Z.of_nat i) by lia. by apply IH.
Qed.

(** Any range within the bounds holds some chunk. *)
Lemma holds_at_exists params off n :
  0 <= off -> 0 <= n -> off + n <= len params ->
  exists chunk, len chunk = n /\ holds_at params off chunk.
Proof.
  intros. destruct (slice_holds_at params off (off + n) (take (Z.to_nat (off + n - off)) (drop (Z.to_nat off) params)))
    as [Hh Hl]; [apply slice_ok; lia|].
  eexists. split; [|exact Hh]. rewrite Hl. lia.
Qed.

Lemma holds_at_suffix params off :
  0 <= off <= len params -> holds_at params off (drop (Z.to_nat off) params).
Proof.
  intros. exists (take (Z.to_nat off) params), []. unfold len in *.
  rewrite app_nil_r, take_drop, length_take. split; [done|lia].
Qed.

(** ** Loops that collect results *)

Lemma for_upto_collect {X} (f : Z -> outcome (list X)) body n i acc l :
  (forall j acc, i <= j < i + Z.of_nat n -> body j acc = (xs ← f j; Ok (acc ++ xs))) ->
  for_upto n i body acc = Ok l <->
  exists ls, l = acc ++ concat ls /\ Forall2 (fun j xs => f j = Ok xs) (seqZ i (Z.of_nat n)) ls.
Proof.
  revert i acc. induction n as [|n IH]; intros i acc Hbody.
  - simpl. split.
    + intros [= <-]. exists []. by rewrite app_nil_r.
    + intros (ls & -> & H). inversion H; subst. simpl. by rewrite app_nil_r.
  - cbn [for_upto]. rewrite Hbody by lia.
    rewrite seqZ_cons by lia. replace (Z.pred _) with (Z.of_nat n) by lia.
    replace (Z.succ i) with (i + 1) by lia. split.
    + intros H. apply bind_ok_inv in H as (acc' & Ha & H).
      apply bind_ok_inv in Ha as (xs & Hxs & [= <-]).
      apply IH in H as (ls & -> & HF); [|intros; apply Hbody; lia].
      exists (xs :: ls). simpl. by rewrite app_assoc; eauto.
    + intros (ls & -> & HF). inversion HF as [|? xs ? ls' Hxs HF']; subst.
      rewrite Hxs. simpl. rewrite IH by (intros; apply Hbody; lia).
      exists ls'. simpl. by rewrite app_assoc.
Qed.

(** The loop returns the concatenation of what the iterations produce. *)
Lemma for_range_collect {X} (f : Z -> outcome (list X)) body count acc l :
  0 <= count ->
  (forall i acc, 0 <= i < count -> body i acc = (xs ← f i; Ok (acc ++ xs))) ->
  for_range count body acc = Ok l <->
  exists ls, l = acc ++ concat ls /\ Forall2 (fun i xs => f i = Ok xs) (seqZ 0 count) ls.
Proof.
  intros Hc Hbody. unfold for_range. rewrite (for_upto_collect f).
  - by rewrite Z2Nat.id.
  - intros. apply Hbody. lia.
Qed.

(** A table indexed by [0 .. length l - 1], as a relation on positions. *)
Lemma Forall2_seqZ_lookup {X} (R : Z -> X -> Prop) l count :
  Forall2 R (seqZ 0 count) l <->
  (0 <= count -> len l = count) /\ (count < 0 -> l = []) /\
  (forall i x, l !! i = Some x -> R (Z.of_nat i) x).
Proof.
  split.
  - intros H. pose proof (Forall2_length _ _ _ H) as Hl. rewrite length_seqZ in Hl.
    split_and!.
    + unfold len. lia.
    + intros. apply nil_length_inv. lia.
    + intros i x Hx. destruct (Forall2_lookup_r _ _ _ _ _ H Hx) as (j & Hj & HR).
      apply lookup_seqZ in Hj as [-> _]. by rewrite Z.add_0_l in HR.
  - intros (H1 & H2 & H3). apply Forall2_same_length_lookup. split.
    + rewrite length_seqZ. destruct (decide (0 <= count)) as [Hc|Hc].
      * specialize (H1 Hc). unfold len in H1. lia.
      * rewrite H2 by lia. simpl. lia.
    + intros i j x Hj Hx. apply lookup_seqZ in Hj as [-> _]. rewrite Z.add_0_l. by apply H3.
Qed.

Lemma wrap_ok_iff {A} fmt args (m : outcome A) a : wrap fmt args m = Ok a <-> m = Ok a.
Proof. by destruct m. Qed.

Lemma bind_ok_iff {A B} (m : outcome A) (k : A -> outcome B) b :
  m ≫= k = Ok b <-> exists a, m = Ok a /\ k a = Ok b.
Proof.
  split; [apply bind_ok_inv|]. by intros (a & -> & H).
Qed.

Lemma bind_Ok {A B} (a : A) (k : A -> outcome B) : Ok a ≫= k = k a.
Proof. done. Qed.

Lemma wrap_Ok {A} fmt args (a : A) : wrap fmt args (Ok a) = Ok a.
Proof. done. Qed.

(** Run the steps whose outcome is known. *)
Create Rewrite HintDb run.
#[export] Hint Rewrite @bind_Ok @wrap_Ok : run.

Lemma bind_assoc {A B C} (m : outcome A) (f : A -> outcome B) (g : B -> outcome C) :
  (m ≫= f) ≫= g = m ≫= (fun a => f a ≫= g).
Proof. by destruct m. Qed.

Lemma concat_singletons {A} (l : list A) : concat (map (fun x => [x]) l) = l.
Proof. induction l; simpl; congruence. Qed.

(** Loops that append one result per iteration. *)
Lemma for_range_collect1 {X} (f : Z -> outcome X) body count l :
  0 <= count ->
  (forall i acc, 0 <= i < count -> body i acc = (x ← f i; Ok (acc ++ [x]))) ->
  for_range count body [] = Ok l <->
  len l = count /\ (forall i x, l !! i = Some x -> f (Z.of_nat i) = Ok x).
Proof.
  intros Hc Hbody. rewrite (for_range_collect (fun i => x ← f i; Ok [x])) by
    (first [done | intros; rewrite Hbody by done; by rewrite bind_assoc]).
  transitivity (Forall2 (fun i x => f i = Ok x) (seqZ 0 count) l).
  - split.
    + intros (ls & -> & H). simpl.
      induction H as [|i xs js ls Hx H IH]; [constructor|].
      apply bind_ok_inv in Hx as (x & Hx & [= <-]). simpl. by constructor.
    + intros H. exists (map (fun x => [x]) l). rewrite concat_singletons. split; [done|].
      induction H as [|i x js l Hx H IH]; simpl; constructor; [by rewrite Hx|done].
  - rewrite Forall2_seqZ_lookup. split.
    + intros (H & _ & ?). split; [by apply H|done].
    + intros [H ?]. split_and!; [done|lia|done].
Qed.

(** [for _, x := range l { body }] *)
Fixpoint for_each {A S} (l : list A) (body : A -> S -> outcome S) (s : S) : outcome S :=
  match l with
  | [] => Ok s
  | x :: l => s' ← body x s; for_each l body s'
  end.

Section for_each.
Context {A S : Type}.

Lemma for_each_safe (P : S -> Prop) body (l : list A) s :
  (forall x s, x ∈ l -> P s -> safe P (body x s)) -> P s -> safe P (for_each l body s).
Proof.
  revert s. induction l as [|x l IH]; intros s Hbody Hs; simpl; [done|].
  eapply safe_bind; [apply Hbody; [left|done]|].
  intros s' Hs'. apply IH; [|done]. intros y t Hy. apply Hbody. by right.
Qed.

Lemma for_each_ext (l : list A) (body1 body2 : A -> S -> outcome S) s :
  (forall x s, x ∈ l -> body1 x s = body2 x s) -> for_each l body1 s = for_each l body2 s.
Proof.
  revert s. induction l as [|x l IH]; intros s H; simpl; [done|].
  rewrite H by left. destruct (body2 x s); simpl; try done.
  apply IH. intros y t Hy. apply H. by right.
Qed.

(** A loop whose body always succeeds is a fold. *)
Lemma for_each_fold (l : list A) (body : A -> S -> outcome S) (f : A -> S -> S) s :
  (forall x s, x ∈ l -> body x s = Ok (f x s)) ->
  for_each l body s = Ok (fold_left (fun s x => f x s) l s).
Proof.
  revert s. induction l as [|x l IH]; intros s H; simpl; [done|].
  rewrite H by left. simpl. apply IH. intros y t Hy. apply H. by right.
Qed.
End for_each.

Lemma bind_ext {A B} (m : outcome A) (f g : A -> outcome B) :
  (forall a, m = Ok a -> f a = g a) -> m ≫= f = m ≫= g.
Proof. destruct m; simpl; auto. Qed.

Lemma fold_left_app_concat {A B} (f : A -> list B) l acc :
  fold_left (fun acc x => acc ++ f x) l acc = acc ++ concat (map f l).
Proof.
  revert acc. induction l as [|x l IH]; intros acc; simpl; [by rewrite app_nil_r|].
  by rewrite IH, app_assoc.
Qed.

(** A loop that appends [g d] for each datum it reads is the loop that collects the data,
    followed by the map. *)
Lemma for_upto_fusion {X Y} (f : Z -> outcome X) (g : X -> list Y) body1 body2 n i acc :
  (forall j acc, i <= j < i + Z.of_nat n -> body1 j acc = (d ← f j; Ok (acc ++ g d))) ->
  (forall j acc, i <= j < i + Z.of_nat n -> body2 j acc = (d ← f j; Ok (acc ++ [d]))) ->
  for_upto n i body1 (concat (map g acc)) =
  (ds ← for_upto n i body2 acc; Ok (concat (map g ds))).
Proof.
  revert i acc. induction n as [|n IH]; intros i acc H1 H2; [done|].
  cbn [for_upto]. rewrite H1, H2, !bind_assoc by lia.
  apply bind_ext. intros d _. rewrite !bind_Ok.
  rewrite <-IH by (intros; (apply H1 || apply H2); lia).
  rewrite map_app, concat_app. simpl. by rewrite app_nil_r.
Qed.

Lemma for_range_fusion {X Y} (f : Z -> outcome X) (g : X -> list Y) body1 body2 count :
  0 <= count ->
  (forall i acc, 0 <= i < count -> body1 i acc = (d ← f i; Ok (acc ++ g d))) ->
  (forall i acc, 0 <= i < count -> body2 i acc = (d ← f i; Ok (acc ++ [d]))) ->
  for_range count body1 [] = (ds ← for_range count body2 []; Ok (concat (map g ds))).
Proof.
  intros Hc H1 H2. unfold for_range.
  apply (for_upto_fusion f g body1 body2 _ 0 []); intros; [apply H1|apply H2]; lia.
Qed.

(** ** Goroutines: one element of a list takes a step *)

Definition sum_map {A} (f : A -> Z) (l : list A) : Z := foldr (fun x z => f x + z) 0 l.

Lemma sum_map_cons {A} (f : A -> Z) x l : sum_map f (x :: l) = f x + sum_map f l.
Proof. done. Qed.

Lemma sum_map_app {A} (f : A -> Z) l k : sum_map f (l ++ k) = sum_map f l + sum_map f k.
Proof. induction l as [|x l IH]; simpl; [done|]. rewrite IH. lia. Qed.

Lemma sum_map_nonneg {A} (f : A -> Z) l : (forall x, 0 <= f x) -> 0 <= sum_map f l.
Proof. intros H. induction l as [|x l IH]; simpl; [done|]. specialize (H x). lia. Qed.

Lemma sum_map_le {A} (f g : A -> Z) l : (forall x, f x <= g x) -> sum_map f l <= sum_map g l.
Proof. intros H. induction l as [|x l IH]; simpl; [done|]. specialize (H x). lia. Qed.

Lemma sum_map_zero {A} (f : A -> Z) l : (forall x, x ∈ l -> f x = 0) -> sum_map f l = 0.
Proof.
  induction l as [|x l IH]; intros H; simpl; [done|].
  rewrite H, IH by (try left; intros; apply H; by right). done.
Qed.

Lemma sum_map_ge {A} (f : A -> Z) l x : (forall x, 0 <= f x) -> x ∈ l -> f x <= sum_map f l.
Proof.
  intros H Hx. induction l as [|y l IH]; [by apply not_elem_of_nil in Hx|].
  apply elem_of_cons in Hx as [->|Hx]; simpl; pose proof (sum_map_nonneg f l H); pose proof (H y);
    [lia|]. specialize (IH Hx). lia.
Qed.

#[export] Instance sum_map_perm {A} (f : A -> Z) : Proper ((≡ₚ) ==> (=)) (sum_map f).
Proof. induction 1; simpl; lia. Qed.

(** The element that steps, and all others. *)
Lemma thread_step {A} (ts : list A) i t t' new :
  ts !! i = Some t ->
  exists rest, ts ≡ₚ t :: rest /\ <[i := t']> ts ++ new ≡ₚ t' :: new ++ rest.
Proof.
  intros Hi. exists (delete i ts). split; [by apply delete_Permutation|].
  assert (<[i := t']> ts !! i = Some t') as Hi'
    by (apply list_lookup_insert_eq; by eapply lookup_lt_Some).
  rewrite (delete_Permutation _ _ _ Hi').
  assert (delete i (<[i := t']> ts) = delete i ts) as ->.
  { rewrite !delete_take_drop. by rewrite take_insert_ge, drop_insert_lt by lia. }
  solve_Permutation.
Qed.

#[export] Instance concat_map_perm {A B} (f : A -> list B) :
  Proper ((≡ₚ) ==> (≡ₚ)) (fun l => concat (map f l)).
Proof.
  intros l k H. induction H; simpl; [done|by f_equiv|solve_Permutation|by etrans].
Qed.
