(* ===== verification/Types.v ===== *)
(** The data of the calldata decoder (src/evm-lib/parser/types/types.go):
    addresses, selectors, transfers, and the hexadecimal text they are read from
    and printed to. [DecodeString] and [EncodeToString] are those of [encoding/hex] of the
    Go standard library. *)

From S2P Require Import Prelude.
#[local] Open Scope Z_scope.

(** ** encoding/hex *)
Module Hex.

(** The value of a hexadecimal digit, [None] for any other byte. *)
Definition digit_val (b : byte) : option Z :=
  let c := byte_val b in
  if (48 <=? c) && (c <=? 57) then Some (c - 48)
  else if (97 <=? c) && (c <=? 102) then Some (c - 87)
  else if (65 <=? c) && (c <=? 70) then Some (c - 55)
  else None.

Definition ErrLength : error := ENew "hex.ErrLength".
Definition InvalidByteError (b : byte) : error :=
  EFmt "encoding/hex: invalid byte: %#U" [AInt (byte_val b)].

(** [hex.DecodeString]: pairs of digits from the left; the digits of an odd-length
    text are checked before its length is reported. *)
Fixpoint DecodeString (s : list byte) : outcome (list byte) :=
  match s with
  | [] => Ok []
  | [p] => match digit_val p with
           | None => Err (InvalidByteError p)
           | Some _ => Err ErrLength
           end
  | p :: q :: s =>
      match digit_val p, digit_val q with
      | None, _ => Err (InvalidByteError p)
      | Some _, None => Err (InvalidByteError q)
      | Some a, Some b => bs ← DecodeString s; Ok (byte_of_Z (a * 16 + b) :: bs)
      end
  end.

Definition hextable : list byte := str "0123456789abcdef".

Definition digit (v : Z) : byte := default x00 (hextable !! Z.to_nat v).

(** [hex.EncodeToString] *)
Fixpoint EncodeToString (bs : list byte) : list byte :=
  match bs with
  | [] => []
  | b :: bs => digit (byte_val b / 16) :: digit (byte_val b mod 16) :: EncodeToString bs
  end.

Lemma digit_val_digit v : 0 <= v < 16 -> digit_val (digit v) = Some v.
Proof.
  intros Hv. assert (v = 0 \/ v = 1 \/ v = 2 \/ v = 3 \/ v = 4 \/ v = 5 \/ v = 6 \/ v = 7 \/
    v = 8 \/ v = 9 \/ v = 10 \/ v = 11 \/ v = 12 \/ v = 13 \/ v = 14 \/ v = 15) as H by lia.
  repeat (destruct H as [->|H]; [reflexivity|]). by subst v.
Qed.

Lemma digit_val_range b v : digit_val b = Some v -> 0 <= v < 16.
Proof.
  unfold digit_val. repeat case_match; intros [= <-];
    repeat match goal with H : _ && _ = true |- _ => apply andb_true_iff in H as [] end; lia.
Qed.

Lemma DecodeString_EncodeToString bs : DecodeString (EncodeToString bs) = Ok bs.
Proof.
  induction bs as [|b bs IH]; simpl; [done|].
  pose proof (byte_val_range b).
  rewrite !digit_val_digit by (first [apply Z.mod_pos_bound; lia |
    split; [apply Z.div_pos | apply Z.div_lt_upper_bound]; lia]).
  rewrite IH. simpl. do 2 f_equal.
  rewrite (Z.mul_comm _ 16), <-Z.div_mod by lia. apply byte_of_Z_val.
Qed.

Lemma length_EncodeToString bs : length (EncodeToString bs) = (2 * length bs)%nat.
Proof. induction bs as [|b bs IH]; simpl; [done|]. rewrite IH. lia. Qed.

(** A text decodes exactly when it has even length and only digits; the result has
    one byte per pair. *)
Lemma DecodeString_ok s :
  (exists bs, DecodeString s = Ok bs /\ length s = (2 * length bs)%nat) \/
  is_err (DecodeString s) /\ ~ (Nat.Even (length s) /\ Forall (fun b => is_Some (digit_val b)) s).
Proof.
  induction s as [s IH] using (induction_ltof1 _ (@length byte)); unfold ltof in IH.
  destruct s as [|p [|q s]]; simpl.
  - left. by exists [].
  - right. split.
    + destruct (digit_val p); eexists; done.
    + intros [[k Hk] _]. simpl in Hk. lia.
  - destruct (digit_val p) as [a|] eqn:Hp; [|right; split; [by eexists|]].
    2: { intros [_ [[? ?] _]%Forall_cons]. congruence. }
    destruct (digit_val q) as [b|] eqn:Hq; [|right; split; [by eexists|]].
    2: { intros [_ [_ [[? ?] _]%Forall_cons]%Forall_cons]. congruence. }
    destruct (IH s) as [(bs & -> & Hl)|[[e ->] Hn]]; simpl; [lia| |].
    + left. eexists. split; [done|]. simpl. lia.
    + right. split; [by eexists|]. intros [[k Hk] HF].
      apply Hn. split; [exists (k - 1)%nat; lia|].
      by apply Forall_cons in HF as [_ [_ HF]%Forall_cons].
Qed.

Lemma DecodeString_not_panic s : safe (fun bs => length s = (2 * length bs)%nat) (DecodeString s).
Proof. destruct (DecodeString_ok s) as [(bs & -> & H)|[[e ->] _]]; done. Qed.
End Hex.

(** ** types.go *)
Module Types.

Inductive Confidence := Deterministic | Likely | Possible.

#[export] Instance Confidence_eq_dec : EqDecision Confidence.
Proof. solve_decision. Defined.

(** The [uint8] behind a [Confidence] (the constants are numbered by iota). *)
Definition Confidence_of_uint8 (c : Z) : option Confidence :=
  if c =? 0 then Some Deterministic
  else if c =? 1 then Some Likely
  else if c =? 2 then Some Possible
  else None.

(** [Confidence.String], on any [uint8]. *)
Definition Confidence_String (c : Z) : list byte :=
  match Confidence_of_uint8 c with
  | Some Deterministic => str "deterministic"
  | Some Likely => str "likely"
  | Some Possible => str "possible"
  | None => str "unknown"
  end.

(** [[20]byte] and [[4]byte] values; the length is the invariant [address_wf]. *)
Definition Address := list byte.
Definition Selector := list byte.
Definition InputParams := list byte.
Definition RawInputData := list byte.

#[export] Instance Address_eq_dec : EqDecision Address := list_eq_dec.

Definition addressHexLen : Z := 2 * 20.
Definition ZeroAddress : Address := replicate 20 x00.
Definition zero_selector : Selector := replicate 4 x00.

Definition address_wf (a : Address) : Prop := length a = 20%nat.
Definition selector_wf (s : Selector) : Prop := length s = 4%nat.

(** [strings.TrimPrefix] *)
Definition TrimPrefix (s prefix : list byte) : list byte :=
  if bool_decide (take (length prefix) s = prefix) then drop (length prefix) s else s.

Definition AddressFromHex (s : list byte) : outcome Address :=
  let s := TrimPrefix (TrimPrefix s (str "0x")) (str "0X") in
  if negb (len s =? addressHexLen)
  then Err (EFmt "invalid address length: %d" [AInt (len s)])
  else
    b ← wrap "invalid hex: %w" [] (Hex.DecodeString s);
    Ok (copy ZeroAddress b).

Definition Address_Hex (a : Address) : list byte := str "0x" ++ Hex.EncodeToString a.
Definition Address_String (a : Address) : list byte := Address_Hex a.
Definition Address_IsZero (a : Address) : bool := bool_decide (a = ZeroAddress).

Definition Selector_Hex (s : Selector) : list byte := str "0x" ++ Hex.EncodeToString s.
Definition Selector_String (s : Selector) : list byte := Selector_Hex s.

Definition SelectorFromBytes (b : list byte) : Selector := copy zero_selector b.

(** A [*big.Int] field is [None] when it is nil. *)
Record Transfer := mkTransfer {
  From : Address;
  To : Address;
  Value : option Z;
  Conf : Confidence
}.

Record ParsedInputData := mkParsed {
  Sel : Selector;
  Transfers : list Transfer
}.

#[export] Instance Transfer_eq_dec : EqDecision Transfer.
Proof. solve_decision. Defined.
#[export] Instance ParsedInputData_eq_dec : EqDecision ParsedInputData.
Proof. solve_decision. Defined.

(** A composite literal [types.Transfer{To: to, Value: v, Confidence: c}]. *)
Definition transfer_to (to : Address) (v : option Z) (c : Confidence) : Transfer :=
  mkTransfer ZeroAddress to v c.

(** ** Well-formed results *)

Definition value_wf (v : option Z) : Prop := match v with None => True | Some z => 0 <= z < 2 ^ 256 end.

Definition transfer_wf (t : Transfer) : Prop :=
  address_wf (From t) /\ address_wf (To t) /\ value_wf (Value t).

Definition parsed_wf (sel : Selector) (p : ParsedInputData) : Prop :=
  Sel p = sel /\ Forall transfer_wf (Transfers p).

Lemma len_address a : address_wf a -> len a = 20.
Proof. unfold address_wf, len. lia. Qed.

Lemma ZeroAddress_wf : address_wf ZeroAddress.
Proof. done. Qed.

Lemma transfer_to_wf to v c : address_wf to -> value_wf v -> transfer_wf (transfer_to to v c).
Proof. done. Qed.

Lemma SelectorFromBytes_wf b : selector_wf (SelectorFromBytes b).
Proof. unfold selector_wf, SelectorFromBytes. by rewrite length_copy. Qed.

Lemma SelectorFromBytes_id b : selector_wf b -> SelectorFromBytes b = b.
Proof. intros H. by apply copy_full. Qed.

#[export] Hint Resolve ZeroAddress_wf transfer_to_wf SelectorFromBytes_wf : go.

Lemma Address_Hex_length a : address_wf a -> len (Address_Hex a) = 42.
Proof.
  unfold address_wf, Address_Hex, len. rewrite length_app, Hex.length_EncodeToString.
  intros ->. done.
Qed.

Lemma TrimPrefix_app p s : TrimPrefix (p ++ s) p = s.
Proof.
  unfold TrimPrefix. rewrite take_app_length, bool_decide_eq_true_2 by done.
  apply drop_app_length.
Qed.

Lemma TrimPrefix_ne p s : take (length p) s <> p -> TrimPrefix s p = s.
Proof. intros H. unfold TrimPrefix. by rewrite bool_decide_eq_false_2. Qed.

(** The text of an address has no upper-case [X] to trim. *)
Lemma EncodeToString_no_X bs : take 2 (Hex.EncodeToString bs) <> str "0X".
Proof.
  destruct bs as [|b bs]; [done|]. simpl. intros [= _ H].
  pose proof (Hex.digit_val_digit (byte_val b mod 16) ltac:(apply Z.mod_pos_bound; lia)) as Hd.
  rewrite H in Hd. discriminate Hd.
Qed.

(** Nothing to trim from a text of digits. *)
Lemma DecodeString_no_prefix s bs c :
  Hex.DecodeString s = Ok bs -> Hex.digit_val c = None -> TrimPrefix s [x30; c] = s.
Proof.
  intros H Hc. apply TrimPrefix_ne. intros Ht. destruct s as [|p [|q s]]; simpl in *; [done..|].
  injection Ht as -> ->. by rewrite Hc in H.
Qed.

(** The prefixes that the two [TrimPrefix] calls remove. *)
Definition hex_prefixes : list (list byte) := [[]; str "0x"; str "0X"; str "0x0X"].

Lemma TrimPrefix_inv s p : exists q, s = q ++ TrimPrefix s p /\ (q = [] \/ q = p).
Proof.
  unfold TrimPrefix. case_bool_decide as H; [|by exists []; eauto].
  exists p. split; [|by right]. rewrite <-H at 1. by rewrite take_drop.
Qed.

(** C39: [AddressFromHex] accepts exactly forty hexadecimal digits behind an optional
    ["0x"] and an optional ["0X"] (both together, even), never panics, and reads back
    what [Hex] prints. *)
Theorem AddressFromHex_spec :
  (forall s, safe address_wf (AddressFromHex s)) /\
  (forall s a, AddressFromHex s = Ok a <->
     exists pre body, s = pre ++ body /\ pre ∈ hex_prefixes /\ len body = 40 /\
       Hex.DecodeString body = Ok a) /\
  (forall a, address_wf a -> AddressFromHex (Address_Hex a) = Ok a).
Proof.
  assert (forall s a, AddressFromHex s = Ok a <->
     exists pre body, s = pre ++ body /\ pre ∈ hex_prefixes /\ len body = 40 /\
       Hex.DecodeString body = Ok a) as Hiff.
  { intros s a. unfold AddressFromHex. split.
    - destruct (TrimPrefix_inv s (str "0x")) as (q1 & Hs & Hq1).
      destruct (TrimPrefix_inv (TrimPrefix s (str "0x")) (str "0X")) as (q2 & Hs2 & Hq2).
      set (body := TrimPrefix (TrimPrefix s (str "0x")) (str "0X")) in *.
      unfold addressHexLen. destruct (Z.eqb_spec (len body) (2 * 20)) as [Hl|]; [|done].
      simpl negb. cbv iota. intros H. inv_ok.
      pose proof (safe_inv_ok _ _ _ (Hex.DecodeString_not_panic body) Ha) as Hlen. simpl in Hlen.
      rewrite copy_full in H by (unfold len in Hl; simpl; lia). subst a0.
      exists (q1 ++ q2), body. rewrite Hs2, app_assoc in Hs.
      split; [done|split; [|done]]. unfold hex_prefixes.
      destruct Hq1 as [->| ->], Hq2 as [->| ->]; simpl; set_solver.
    - intros (pre & body & -> & Hpre & Hl & Hd).
      assert (TrimPrefix (TrimPrefix (pre ++ body) (str "0x")) (str "0X") = body) as ->.
      { unfold hex_prefixes in Hpre. rewrite !elem_of_cons, elem_of_nil in Hpre.
        pose proof (DecodeString_no_prefix body a x78 Hd eq_refl : TrimPrefix _ (str "0x") = _) as H1.
        pose proof (DecodeString_no_prefix body a x58 Hd eq_refl : TrimPrefix _ (str "0X") = _) as H2.
        destruct_or! Hpre; subst pre.
        - cbn [app]. by rewrite H1.
        - by rewrite TrimPrefix_app.
        - rewrite (TrimPrefix_ne (str "0x")) by discriminate. by rewrite TrimPrefix_app.
        - change (str "0x0X" ++ body) with (str "0x" ++ (str "0X" ++ body)).
          by rewrite !TrimPrefix_app. }
      unfold addressHexLen. rewrite (proj2 (Z.eqb_eq _ _)) by lia. simpl negb. cbv iota.
      rewrite Hd. simpl. f_equal. apply copy_full.
      pose proof (safe_inv_ok _ _ _ (Hex.DecodeString_not_panic body) Hd) as Hlen. simpl in Hlen.
      unfold len in Hl. simpl. lia. }
  split; [|split; [exact Hiff|]].
  - intros s. unfold AddressFromHex. apply safe_if; intros _; [apply safe_err|].
    eapply safe_bind; [apply safe_wrap, Hex.DecodeString_not_panic|].
    intros b _. apply safe_ok. unfold address_wf. by rewrite length_copy.
  - intros a Ha. apply Hiff. exists (str "0x"), (Hex.EncodeToString a).
    split; [done|]. split; [unfold hex_prefixes; set_solver|]. split; [|apply Hex.DecodeString_EncodeToString].
    unfold len. rewrite Hex.length_EncodeToString. unfold address_wf in Ha. lia.
Qed.
End Types.
