(* ===== verification/Abi.v ===== *)
(** The ABI readers of the calldata decoder (src/evm-lib/parser/codecs/abi.go), the
    reference ABI encoding they invert, and their safety lemmas. Offsets are Go
    [int]s: every sum and product of the source wraps at 64 bits here. *)

From S2P Require Import Prelude Types.
Import Types.
#[local] Open Scope Z_scope.

Module Abi.

Definition wordSize : Z := 32.
Definition selectorSize : Z := 4.

(** ** Readers *)

Definition ReadWordAt (params : list byte) (offset : Z) : outcome (list byte) :=
  if (offset <? 0) || (len params <? offset +! wordSize)
  then Err (EFmt "ReadWordAt: out of bounds at offset %d (need %d, have %d)"
              [AInt offset; AInt (offset +! wordSize); AInt (len params)])
  else slice params offset (offset +! wordSize).

Definition ReadWord (params : list byte) (wordIdx : Z) : outcome (list byte) :=
  ReadWordAt params (wordIdx *! wordSize).

Definition ReadAddressAt (params : list byte) (offset : Z) : outcome Address :=
  word ← ReadWordAt params offset;
  w ← slice word 12 32;
  Ok (copy ZeroAddress w).

Definition ReadAddress (params : list byte) (wordIdx : Z) : outcome Address :=
  ReadAddressAt params (wordIdx *! wordSize).

Definition ReadUint256At (params : list byte) (offset : Z) : outcome Z :=
  word ← ReadWordAt params offset;
  Ok (be_to_Z word).

Definition ReadUint256 (params : list byte) (wordIdx : Z) : outcome Z :=
  ReadUint256At params (wordIdx *! wordSize).

Definition ReadUint64 (params : list byte) (wordIdx : Z) : outcome Z :=
  word ← ReadWord params wordIdx;
  w ← slice word 24 32;
  Ok (be_to_Z w).

Definition ReadBool (params : list byte) (wordIdx : Z) : outcome bool :=
  word ← ReadWord params wordIdx;
  b ← index word 31;
  Ok (negb (bool_decide (b = x00))).

(** [v.IsInt64()] *)
Definition IsInt64 (v : Z) : bool := (int64_min <=? v) && (v <=? int64_max).

Definition ReadOffsetAt (params : list byte) (offset : Z) : outcome Z :=
  v ← ReadUint256At params offset;
  if negb (IsInt64 v) || (MaxInt32 <? v)
  then Err (EFmt "offset is too large: %s" [AInt v])
  else Ok v.

Definition ReadOffset (params : list byte) (wordIdx : Z) : outcome Z :=
  ReadOffsetAt params (wordIdx *! wordSize).

Definition ReadDynamicBytesAt (params : list byte) (offset : Z) : outcome (list byte) :=
  if (offset <? 0) || (len params <? offset +! wordSize)
  then Err (EFmt "ReadDynamicBytesAt: length out of bounds at offset %d" [AInt offset])
  else
    w ← slice params offset (offset +! wordSize);
    let length := be_to_Z w in
    if negb (IsInt64 length) || (MaxInt32 <? length)
    then Err (EFmt "ReadDynamicBytesAt: unreasonable length %s" [AInt length])
    else
      let dataStart := offset +! wordSize in
      let dataEnd := dataStart +! length in
      if (dataEnd <? dataStart) || (len params <? dataEnd)
      then Err (EFmt "ReadDynamicBytesAt: data out of bounds: need %d, have %d"
                  [AInt dataEnd; AInt (len params)])
      else slice params dataStart dataEnd.

Definition ReadDynamicBytes (params : list byte) (wordIdx : Z) : outcome (list byte) :=
  offset ← wrap "ReadDynamicBytes: read offset: %w" [] (ReadOffset params wordIdx);
  ReadDynamicBytesAt params offset.

Definition ReadArrayLength (params : list byte) (offset : Z) : outcome Z :=
  if (offset <? 0) || (len params <? offset +! wordSize)
  then Err (EFmt "ReadArrayLength: out of bounds at offset %d" [AInt offset])
  else
    w ← slice params offset (offset +! wordSize);
    let n := be_to_Z w in
    if negb (IsInt64 n) || (10000 <? n)
    then Err (EFmt "ReadArrayLength: unreasonable length %s" [AInt n])
    else Ok n.

Definition ReadBytesArrayElements (params : list byte) (arrayOffset : Z)
    : outcome (list (list byte)) :=
  count ← wrap "ReadBytesArrayElements: %w" [] (ReadArrayLength params arrayOffset);
  let elemBase := arrayOffset +! wordSize in
  for_range count (fun i elements =>
    let ptrOffset := elemBase +! i *! wordSize in
    relOffset ← wrap "ReadBytesArrayElements: pointer %d: %w" [AInt i]
                  (ReadOffsetAt params ptrOffset);
    data ← wrap "ReadBytesArrayElements[%d]: %w" [AInt i]
             (ReadDynamicBytesAt params (elemBase +! relOffset));
    Ok (elements ++ [data])) [].

#[global] Arguments ReadWordAt : simpl never.
#[global] Arguments ReadAddressAt : simpl never.
#[global] Arguments ReadUint256At : simpl never.
#[global] Arguments ReadOffsetAt : simpl never.
#[global] Arguments ReadDynamicBytesAt : simpl never.
#[global] Arguments ReadArrayLength : simpl never.
#[global] Arguments ReadAddress : simpl never.
#[global] Arguments ReadUint256 : simpl never.
#[global] Arguments ReadOffset : simpl never.
#[global] Arguments ReadDynamicBytes : simpl never.
#[global] Arguments ReadBytesArrayElements : simpl never.

(** ** Safety

    Offsets up to [offset_max] leave room for every sum the decoders compute. *)

Definition offset_max : Z := 2 ^ 62.

Lemma len_sub {A} (s : list A) lo n :
  0 <= lo -> 0 <= n -> lo + n <= len s ->
  len (take (Z.to_nat n) (drop (Z.to_nat lo) s)) = n.
Proof. unfold len. intros. rewrite length_take, length_drop. lia. Qed.

(** Bounds checks that pass, as inequalities. *)
Lemma check_false a b c d : (a <? b) || (c <? d) = false -> b <= a /\ d <= c.
Proof. rewrite orb_false_iff, !Z.ltb_ge. done. Qed.

Lemma ReadWordAt_safe params offset :
  offset <= offset_max ->
  safe (fun w => len w = 32 /\ 0 <= offset /\ offset + 32 <= len params)
    (ReadWordAt params offset).
Proof.
  unfold ReadWordAt, offset_max, wordSize. intros Hoff.
  apply safe_if; [done|]. intros [Hlo Hhi]%check_false. unwrap.
  apply slice_safe; lia.
Qed.

Lemma ReadAddressAt_safe params offset :
  offset <= offset_max ->
  safe (fun a => address_wf a /\ 0 <= offset /\ offset + 32 <= len params)
    (ReadAddressAt params offset).
Proof.
  intros Hoff. eapply safe_bind; [by apply ReadWordAt_safe|].
  intros w (Hw & ?). rewrite slice_ok by lia. simpl. split; [|done].
  unfold address_wf. by rewrite length_copy.
Qed.

Lemma uint256_bound w : len w = 32 -> 0 <= be_to_Z w < 2 ^ 256.
Proof. intros Hw. pose proof (be_to_Z_bound w) as H. by rewrite Hw in H. Qed.

Lemma ReadUint256At_safe params offset :
  offset <= offset_max ->
  safe (fun v => 0 <= v < 2 ^ 256 /\ 0 <= offset /\ offset + 32 <= len params)
    (ReadUint256At params offset).
Proof.
  intros Hoff. eapply safe_bind; [by apply ReadWordAt_safe|].
  intros w (Hw & ?). split; [by apply uint256_bound|done].
Qed.

Lemma int_check v m : negb (IsInt64 v) || (m <? v) = false -> v <= m.
Proof. rewrite orb_false_iff, Z.ltb_ge. tauto. Qed.

Lemma ReadOffsetAt_safe params offset :
  offset <= offset_max ->
  safe (fun o => 0 <= o <= MaxInt32 /\ 0 <= offset /\ offset + 32 <= len params)
    (ReadOffsetAt params offset).
Proof.
  intros Hoff. eapply safe_bind; [by apply ReadUint256At_safe|].
  intros v (Hv & ?). apply safe_if; [done|]. intros ?%int_check. simpl. lia.
Qed.

Lemma ReadArrayLength_safe params offset :
  offset <= offset_max ->
  safe (fun n => 0 <= n <= 10000 /\ 0 <= offset /\ offset + 32 <= len params)
    (ReadArrayLength params offset).
Proof.
  unfold ReadArrayLength, offset_max, wordSize. intros Hoff.
  apply safe_if; [done|]. intros [Hlo Hhi]%check_false. unwrap.
  eapply (safe_bind (fun w => len w = 32)); [apply slice_safe; lia|].
  intros w Hw%uint256_bound. apply safe_if; [done|]. intros ?%int_check. simpl. lia.
Qed.

Lemma ReadDynamicBytesAt_safe params offset :
  offset <= offset_max ->
  safe (fun d => len d + 32 <= len params /\ len d <= MaxInt32)
    (ReadDynamicBytesAt params offset).
Proof.
  unfold ReadDynamicBytesAt, offset_max, wordSize. intros Hoff.
  apply safe_if; [done|]. intros [Hlo Hhi]%check_false. unwrap.
  eapply (safe_bind (fun w => len w = 32)); [apply slice_safe; lia|].
  intros w Hw%uint256_bound. apply safe_if; [done|]. intros Hl%int_check.
  unfold MaxInt32 in *. unwrap.
  apply safe_if; [done|]. intros [??]%check_false. apply slice_safe; lia.
Qed.

Lemma ReadOffset_safe params i :
  0 <= i <= 4 -> safe (fun o => 0 <= o <= MaxInt32) (ReadOffset params i).
Proof.
  unfold ReadOffset, wordSize. intros. unwrap.
  eapply safe_mono; [apply ReadOffsetAt_safe; unfold offset_max; lia|]. tauto.
Qed.

Lemma ReadAddress_safe params i : 0 <= i <= 4 -> safe address_wf (ReadAddress params i).
Proof.
  unfold ReadAddress, wordSize. intros. unwrap.
  eapply safe_mono; [apply ReadAddressAt_safe; unfold offset_max; lia|]. tauto.
Qed.

Lemma ReadUint256_safe params i :
  0 <= i <= 4 -> safe (fun v => value_wf (Some v)) (ReadUint256 params i).
Proof.
  unfold ReadUint256, wordSize. intros. unwrap.
  eapply safe_mono; [apply ReadUint256At_safe; unfold offset_max; lia|]. simpl. tauto.
Qed.

Lemma ReadDynamicBytes_safe params i :
  0 <= i <= 4 -> safe (fun d => len d + 32 <= len params /\ len d <= MaxInt32) (ReadDynamicBytes params i).
Proof.
  intros. eapply safe_bind; [by apply safe_wrap, ReadOffset_safe|].
  intros o Ho. apply ReadDynamicBytesAt_safe. unfold offset_max, MaxInt32 in *. lia.
Qed.

Lemma ReadBytesArrayElements_safe params arrayOffset :
  0 <= arrayOffset <= MaxInt32 ->
  safe (Forall (fun d => len d < len params)) (ReadBytesArrayElements params arrayOffset).
Proof.
  unfold MaxInt32. intros Ho.
  eapply safe_bind; [apply safe_wrap, ReadArrayLength_safe; unfold offset_max; lia|].
  intros count (Hc & _). unfold wordSize.
  eapply (for_range_safe (fun _ => Forall (fun d => len d < len params))); [lia| |done].
  intros i elems Hi Helems. unwrap.
  eapply safe_bind; [apply safe_wrap, ReadOffsetAt_safe; unfold offset_max; lia|].
  intros rel (Hrel & _). unfold MaxInt32 in Hrel. unwrap.
  eapply safe_bind; [apply safe_wrap, ReadDynamicBytesAt_safe; unfold offset_max; lia|].
  intros d [Hd _]. simpl. apply Forall_app. split; [done|].
  constructor; [lia|done].
Qed.

#[export] Hint Resolve ReadOffset_safe ReadAddress_safe ReadUint256_safe
  ReadDynamicBytes_safe ReadBytesArrayElements_safe : go.
#[export] Hint Extern 6 (0 <= ?i <= 4) => (is_ground i; split; vm_compute; discriminate) : go.
End Abi.

(** ** The ABI layout, declaratively

    What the readers promise: a reader returns a value exactly when the bytes of its
    encoding stand at the offset it is given. *)
Module AbiSpec.
Import Abi.

Definition enc_uint (v : Z) : list byte := Z_to_be 32 v.

Definition uint_at (params : list byte) (off v : Z) : Prop :=
  0 <= v < 2 ^ 256 /\ holds_at params off (enc_uint v).

(** The twelve high bytes of an address word are not looked at. *)
Definition address_at (params : list byte) (off : Z) (a : Address) : Prop :=
  address_wf a /\ exists top, length top = 12%nat /\ holds_at params off (top ++ a).

Definition offset_at (params : list byte) (off o : Z) : Prop :=
  uint_at params off o /\ o <= MaxInt32.

Definition count_at (params : list byte) (off n : Z) : Prop :=
  uint_at params off n /\ n <= 10000.

(** A length-prefixed byte string. *)
Definition bytes_at (params : list byte) (off : Z) (d : list byte) : Prop :=
  len d <= MaxInt32 /\ holds_at params off (enc_uint (len d) ++ d).

(** A [bytes[]]: the count, a table of offsets relative to the word after the count,
    and a byte string at each of these offsets. *)
Definition bytes_array_at (params : list byte) (off : Z) (ds : list (list byte)) : Prop :=
  count_at params off (len ds) /\
  forall i d, ds !! i = Some d ->
    exists rel, offset_at params (off + 32 + 32 * Z.of_nat i) rel /\
                bytes_at params (off + 32 + rel) d.

(** Decide layout facts about concrete calldata by evaluation. *)
Ltac by_layout :=
  unfold offset_at, count_at, uint_at, bytes_at;
  repeat match goal with
  | |- _ /\ _ => split
  | |- _ <= _ < _ => split
  end;
  first [apply holds_at_check; vm_compute; reflexivity | vm_compute; first [reflexivity | discriminate]].

Lemma len_enc_uint v : len (enc_uint v) = 32.
Proof. unfold enc_uint. by rewrite len_Z_to_be. Qed.

Lemma length_enc_uint v : length (enc_uint v) = 32%nat.
Proof. apply length_Z_to_be. Qed.

Lemma be_to_Z_enc_uint v : 0 <= v < 2 ^ 256 -> be_to_Z (enc_uint v) = v.
Proof. intros Hv. unfold enc_uint. rewrite be_to_Z_to_be. by apply Z.mod_small. Qed.

Lemma enc_uint_be_to_Z w : len w = 32 -> enc_uint (be_to_Z w) = w.
Proof.
  intros Hw. unfold enc_uint. replace 32%nat with (length w) by (unfold len in Hw; lia).
  apply Z_to_be_to_Z.
Qed.

#[global] Opaque enc_uint.

Lemma ReadWordAt_iff params off w :
  off <= offset_max ->
  ReadWordAt params off = Ok w <-> len w = 32 /\ holds_at params off w.
Proof.
  unfold ReadWordAt, offset_max, wordSize. intros Hoff. split.
  - intros H. inv_ok. apply check_false in Heqb as [??]. unwrap.
    apply slice_holds_at in H as [Hw Hl]. split; [lia|done].
  - intros [Hw H]. pose proof (holds_at_bounds _ _ _ H).
    rewrite wrap64_small by (unfold int64_min, int64_max; lia).
    replace (_ || _) with false
      by (symmetry; rewrite orb_false_iff, !Z.ltb_ge; lia).
    apply holds_at_slice; [lia|done].
Qed.

Lemma ReadUint256At_iff params off v :
  off <= offset_max -> ReadUint256At params off = Ok v <-> uint_at params off v.
Proof.
  intros Hoff. unfold ReadUint256At. split.
  - intros H. inv_ok. apply ReadWordAt_iff in Ha as [Hl Hw]; [|done]. subst v.
    split; [by apply uint256_bound|by rewrite enc_uint_be_to_Z].
  - intros [Hv Hw]. rewrite (proj2 (ReadWordAt_iff _ _ _ Hoff) (conj (len_enc_uint v) Hw)).
    simpl. by rewrite be_to_Z_enc_uint.
Qed.

Lemma ReadAddressAt_iff params off a :
  off <= offset_max -> ReadAddressAt params off = Ok a <-> address_at params off a.
Proof.
  intros Hoff. unfold ReadAddressAt. split.
  - intros H. inv_ok. subst a.
    apply ReadWordAt_iff in Ha as [Hl Hw]; [|done].
    apply slice_holds_at in Ha0 as ((top & rest & -> & Htop) & Ha1).
    rewrite !len_app in Hl. assert (rest = []) as ->.
    { apply nil_length_inv. unfold len in *. lia. }
    unfold len in *. rewrite copy_full by (simpl; lia).
    split; [unfold address_wf; lia|].
    rewrite app_nil_r in Hw. exists top. split; [lia|done].
  - intros [Ha (top & Htop & Hw)]. unfold address_wf in Ha.
    assert (len (top ++ a) = 32) as Hl by (rewrite len_app; unfold len; lia).
    rewrite (proj2 (ReadWordAt_iff _ _ _ Hoff) (conj Hl Hw)). simpl.
    rewrite <-(app_nil_r (top ++ a)), <-app_assoc.
    rewrite slice_app_at by (unfold len; lia). simpl. by rewrite copy_full.
Qed.

Lemma int_check_ok v m :
  int64_min <= v <= m -> m <= int64_max -> negb (IsInt64 v) || (m <? v) = false.
Proof.
  intros. unfold IsInt64. rewrite orb_false_iff, negb_false_iff, andb_true_iff, Z.ltb_ge, !Z.leb_le.
  lia.
Qed.

Lemma ReadOffsetAt_iff params off o :
  off <= offset_max -> ReadOffsetAt params off = Ok o <-> offset_at params off o.
Proof.
  intros Hoff. unfold ReadOffsetAt, offset_at. rewrite <-ReadUint256At_iff by done. split.
  - intros H. apply bind_ok_inv in H as (v & Hv & H). inv_ok.
    apply int_check in Heqb. by subst o.
  - intros [Hr Ho]. rewrite Hr. simpl.
    apply ReadUint256At_iff in Hr as [[? _] _]; [|done].
    rewrite int_check_ok; [done| |]; unfold MaxInt32, int64_min, int64_max in *; lia.
Qed.

Lemma ReadArrayLength_iff params off n :
  off <= offset_max -> ReadArrayLength params off = Ok n <-> count_at params off n.
Proof.
  intros Hoff. unfold count_at. rewrite <-ReadUint256At_iff by done.
  unfold ReadArrayLength, ReadUint256At, ReadWordAt.
  destruct ((off <? 0) || _); simpl; [split; [done|by intros [? _]]|].
  destruct (slice _ _ _) as [w| | |] eqn:Hw; simpl; try (split; [done|by intros [? _]]).
  apply slice_holds_at in Hw as [_ Hw]. split.
  - intros H. inv_ok. apply int_check in Heqb. subst n. done.
  - intros [[= <-] Hn]. pose proof (be_to_Z_bound w).
    rewrite int_check_ok; [done| |]; unfold int64_min, int64_max; lia.
Qed.

Lemma ReadDynamicBytesAt_iff params off d :
  off <= offset_max -> ReadDynamicBytesAt params off = Ok d <-> bytes_at params off d.
Proof.
  unfold ReadDynamicBytesAt, bytes_at, offset_max, wordSize. intros Hoff.
  rewrite holds_at_app, len_enc_uint. split.
  - intros H. destruct (_ || _) eqn:E1; [done|]. apply check_false in E1 as [??]. unwrap.
    apply bind_ok_inv in H as (w & Hw & H).
    apply slice_holds_at in Hw as [Hw Hlw].
    pose proof (uint256_bound w ltac:(lia)) as Hb.
    destruct (negb _ || _) eqn:E2; [done|]. apply int_check in E2. unfold MaxInt32 in E2. unwrap.
    destruct ((_ <? off + 32) || _) eqn:E3; [done|].
    apply slice_holds_at in H as [Hd Hld].
    replace (len d) with (be_to_Z w) by lia.
    rewrite enc_uint_be_to_Z by lia. split; [unfold MaxInt32; lia|done].
  - unfold MaxInt32. intros (Hd & Hl & Hh).
    pose proof (holds_at_bounds _ _ _ Hl). pose proof (holds_at_bounds _ _ _ Hh).
    pose proof (len_nonneg d). rewrite len_enc_uint in *.
    rewrite (wrap64_small (off + 32)) by (unfold int64_min, int64_max; lia).
    replace ((off <? 0) || _) with false
      by (symmetry; rewrite orb_false_iff, !Z.ltb_ge; lia).
    rewrite (holds_at_slice _ _ _ _ (f_equal (Z.add off) (eq_sym (len_enc_uint (len d)))) Hl). simpl.
    rewrite be_to_Z_enc_uint by lia.
    rewrite int_check_ok by (unfold int64_min, int64_max; lia).
    rewrite (wrap64_small (off + 32 + _)) by (unfold int64_min, int64_max; lia).
    replace ((_ <? _) || _) with false
      by (symmetry; rewrite orb_false_iff, !Z.ltb_ge; lia).
    by apply holds_at_slice.
Qed.

Lemma ReadDynamicBytesAt_wrap_iff params off fmt args d :
  off <= offset_max -> wrap fmt args (ReadDynamicBytesAt params off) = Ok d <-> bytes_at params off d.
Proof. intros. rewrite wrap_ok_iff. by apply ReadDynamicBytesAt_iff. Qed.

(** What one entry of a table of offsets has to hold for the readers to find [d]. *)
Lemma read_indirect_iff params base i fmt1 args1 fmt2 args2 d :
  0 <= base <= 2 ^ 40 -> 0 <= i <= 10000 ->
  (rel ← wrap fmt1 args1 (ReadOffsetAt params (base +! i *! wordSize));
   wrap fmt2 args2 (ReadDynamicBytesAt params (base +! rel))) = Ok d <->
  exists rel, offset_at params (base + 32 * i) rel /\ bytes_at params (base + rel) d.
Proof.
  unfold wordSize. intros Hb Hi. unwrap. rewrite bind_ok_iff.
  apply exist_proper. intros rel. rewrite wrap_ok_iff, wrap_ok_iff.
  replace (base + i * 32) with (base + 32 * i) by lia.
  rewrite ReadOffsetAt_iff by (unfold offset_max; lia).
  assert (offset_at params (base + 32 * i) rel -> 0 <= rel <= MaxInt32) as Hrel
    by (intros [[? _] ?]; lia).
  split; (intros [H1 H2]; specialize (Hrel H1); unfold MaxInt32 in Hrel;
    rewrite wrap64_small in * by (unfold int64_min, int64_max; lia);
    rewrite ReadDynamicBytesAt_iff in * by (unfold offset_max; lia); done).
Qed.

Lemma ReadBytesArrayElements_layout params off ds :
  0 <= off <= MaxInt32 ->
  ReadBytesArrayElements params off = Ok ds <-> bytes_array_at params off ds.
Proof.
  intros Hoff. unfold ReadBytesArrayElements, bytes_array_at, MaxInt32 in *.
  rewrite bind_ok_iff. setoid_rewrite wrap_ok_iff.
  setoid_rewrite ReadArrayLength_iff; [|unfold offset_max; lia].
  replace (off +! wordSize) with (off + 32) by (unfold wordSize; unwrap; lia).
  assert (forall count, 0 <= count <= 10000 -> forall l,
    for_range count (fun i elements =>
      relOffset ← wrap "ReadBytesArrayElements: pointer %d: %w" [AInt i]
                    (ReadOffsetAt params (off + 32 +! i *! wordSize));
      data ← wrap "ReadBytesArrayElements[%d]: %w" [AInt i]
               (ReadDynamicBytesAt params (off + 32 +! relOffset));
      Ok (elements ++ [data])) [] = Ok l <->
    len l = count /\ forall i d, l !! i = Some d ->
      exists rel, offset_at params (off + 32 + 32 * Z.of_nat i) rel /\
                  bytes_at params (off + 32 + rel) d) as Hloop.
  { intros count Hc l.
    rewrite (for_range_collect1 (fun i =>
      rel ← wrap "ReadBytesArrayElements: pointer %d: %w" [AInt i]
              (ReadOffsetAt params (off + 32 +! i *! wordSize));
      wrap "ReadBytesArrayElements[%d]: %w" [AInt i] (ReadDynamicBytesAt params (off + 32 +! rel))))
      by (first [lia | intros; by rewrite bind_assoc]).
    split; intros [Hl H]; (split; [done|]); intros i d Hi; specialize (H i d Hi);
      apply lookup_lt_Some in Hi; unfold len in Hl;
      [apply read_indirect_iff in H | apply read_indirect_iff]; (done || lia). }
  split.
  - intros (n & Hn & H). pose proof Hn as [[Hr _] ?].
    apply Hloop in H as [<- H]; [done|lia].
  - intros [Hn H]. exists (len ds). pose proof Hn as [[Hr _] ?].
    split; [done|]. apply Hloop; [lia|done].
Qed.

(** The same readers at a word index of the head. *)
Lemma ReadUint256_iff params i v :
  0 <= i <= 4 -> ReadUint256 params i = Ok v <-> uint_at params (32 * i) v.
Proof.
  intros. unfold ReadUint256, wordSize. unwrap. rewrite (Z.mul_comm i).
  apply ReadUint256At_iff. unfold offset_max. lia.
Qed.

Lemma ReadAddress_iff params i a :
  0 <= i <= 4 -> ReadAddress params i = Ok a <-> address_at params (32 * i) a.
Proof.
  intros. unfold ReadAddress, wordSize. unwrap. rewrite (Z.mul_comm i).
  apply ReadAddressAt_iff. unfold offset_max. lia.
Qed.

Lemma ReadOffset_iff params i o :
  0 <= i <= 4 -> ReadOffset params i = Ok o <-> offset_at params (32 * i) o.
Proof.
  intros. unfold ReadOffset, wordSize. unwrap. rewrite (Z.mul_comm i).
  apply ReadOffsetAt_iff. unfold offset_max. lia.
Qed.

Lemma ReadDynamicBytes_iff params i d :
  0 <= i <= 4 -> ReadDynamicBytes params i = Ok d <->
  exists off, offset_at params (32 * i) off /\ bytes_at params off d.
Proof.
  intros Hi. unfold ReadDynamicBytes. rewrite bind_ok_iff. setoid_rewrite wrap_ok_iff.
  setoid_rewrite ReadOffset_iff; [|lia].
  apply exist_proper. intros off.
  split; intros [Ho H]; (split; [done|]); pose proof Ho as [[? _] ?]; unfold MaxInt32 in *;
    (apply ReadDynamicBytesAt_iff in H || apply ReadDynamicBytesAt_iff);
    (done || unfold offset_max; lia).
Qed.
End AbiSpec.

(** ** The canonical encoder

    The standard encoding of [bytes] and [bytes[]]: padded byte strings after a table
    of offsets. It is one of the layouts above. *)
Module AbiEnc.
Import Abi AbiSpec.

Definition enc_address (a : Address) : list byte := replicate 12 x00 ++ a.

Definition pad32 (d : list byte) : list byte := replicate (Z.to_nat ((- len d) mod 32)) x00.

Definition enc_bytes (d : list byte) : list byte := enc_uint (len d) ++ d ++ pad32 d.

Fixpoint enc_offsets (base : Z) (ds : list (list byte)) : list Z :=
  match ds with
  | [] => []
  | d :: ds => base :: enc_offsets (base + len (enc_bytes d)) ds
  end.

Definition enc_bytes_array (ds : list (list byte)) : list byte :=
  enc_uint (len ds) ++ concat (map enc_uint (enc_offsets (32 * len ds) ds)) ++
  concat (map enc_bytes ds).

Lemma len_enc_address a : address_wf a -> len (enc_address a) = 32.
Proof. unfold address_wf, enc_address. intros Ha. rewrite len_app. unfold len. rewrite Ha. done. Qed.

Lemma len_enc_bytes d : len d + 32 <= len (enc_bytes d).
Proof.
  unfold enc_bytes. rewrite !len_app, len_enc_uint. pose proof (len_nonneg (pad32 d)). lia.
Qed.

Lemma len_enc_offsets base ds : len (enc_offsets base ds) = len ds.
Proof.
  revert base. induction ds as [|d ds IH]; intros; simpl; [done|].
  by rewrite !len_cons, IH.
Qed.

Lemma len_concat_enc_uint l : len (concat (map enc_uint l)) = 32 * len l.
Proof.
  induction l as [|v l IH]; [done|]. simpl. rewrite len_app, len_enc_uint, len_cons. lia.
Qed.

Lemma address_at_enc params off a :
  address_wf a -> holds_at params off (enc_address a) -> address_at params off a.
Proof. intros Ha H. split; [done|]. by exists (replicate 12 x00). Qed.

Lemma bytes_at_enc params off d :
  len d <= MaxInt32 -> holds_at params off (enc_bytes d) -> bytes_at params off d.
Proof.
  intros Hd H. split; [done|]. unfold enc_bytes in H. rewrite app_assoc in H.
  by apply holds_at_app in H as [H _].
Qed.

(** The [i]-th offset points at the [i]-th string. *)
Lemma enc_offsets_at params off base ds i d :
  holds_at params off (concat (map enc_bytes ds)) -> ds !! i = Some d ->
  exists rel, enc_offsets base ds !! i = Some (base + rel) /\ 0 <= rel /\
    holds_at params (off + rel) (enc_bytes d).
Proof.
  revert off base i. induction ds as [|x ds IH]; intros off base [|i] H Hi; try done; simpl in H |- *.
  - injection Hi as ->. exists 0. rewrite !Z.add_0_r.
    apply holds_at_app in H as [H _]. done.
  - apply holds_at_app in H as [_ H].
    destruct (IH _ (base + len (enc_bytes x)) i H Hi) as (rel & -> & Hrel & Hd).
    exists (len (enc_bytes x) + rel). pose proof (len_nonneg (enc_bytes x)).
    rewrite !Z.add_assoc. split_and!; [done|lia|done].
Qed.

Lemma enc_bytes_array_layout params off ds :
  0 <= off -> len ds <= 10000 -> len (enc_bytes_array ds) <= MaxInt32 ->
  holds_at params off (enc_bytes_array ds) -> bytes_array_at params off ds.
Proof.
  unfold enc_bytes_array.
  rewrite !len_app, !holds_at_app, len_enc_uint, len_concat_enc_uint, len_enc_offsets.
  intros Hoff Hn Hsz (Hc & Hp & Hd). pose proof (len_nonneg ds).
  split; [split; [split; [lia|done]|done]|].
  intros i d Hi.
  destruct (enc_offsets_at _ _ (32 * len ds) _ _ _ Hd Hi) as (rel & Ho & Hrel & Hb).
  pose proof (holds_at_concat _ _ _ _ _ _ _ len_enc_uint Hp Ho) as Hptr.
  pose proof (len_enc_bytes d) as Hld.
  assert (rel + len (enc_bytes d) <= len (concat (map enc_bytes ds))) as Hin.
  { clear -Hi Ho. assert (forall b, enc_offsets b ds !! i = Some (b + rel) ->
      rel + len (enc_bytes d) <= len (concat (map enc_bytes ds))) as G; [|by eapply G].
    clear Ho. revert i rel Hi. induction ds as [|x ds IH]; intros [|i] rel Hi b Ho; try done; simpl in *.
    - injection Hi as ->. injection Ho as Ho. rewrite len_app.
      pose proof (len_nonneg (concat (map enc_bytes ds))). lia.
    - rewrite len_app.
      replace (b + rel) with (b + len (enc_bytes x) + (rel - len (enc_bytes x))) in Ho by lia.
      specialize (IH i _ Hi _ Ho). lia. }
  exists (32 * len ds + rel). pose proof (len_nonneg d).
  split; [split; [split; [unfold MaxInt32 in *; lia|done]|lia]|].
  replace (off + 32 + (32 * len ds + rel)) with (off + 32 + 32 * len ds + rel) by lia.
  apply bytes_at_enc; [lia|done].
Qed.
End AbiEnc.

(** ** Properties of the readers *)
Module AbiProps.
Import Abi AbiSpec AbiEnc.

(** C30: [ReadWordAt] on every [int] offset: it returns the 32 bytes at the offset when
    they exist, an error naming the three numbers when they do not, and it panics
    exactly on the offsets above [MaxInt64 - 32], where [offset + wordSize] wraps to a
    negative bound that passes the check. *)
Theorem ReadWordAt_branches params offset :
  int64_min <= offset <= int64_max ->
  ReadWordAt params offset =
    if int64_max - 32 <? offset then Panic PSliceBounds
    else if (0 <=? offset) && (offset + 32 <=? len params)
    then Ok (take 32 (drop (Z.to_nat offset) params))
    else Err (EFmt "ReadWordAt: out of bounds at offset %d (need %d, have %d)"
                [AInt offset; AInt (offset + 32); AInt (len params)]).
Proof.
  intros Hoff. unfold ReadWordAt, wordSize. destruct (Z.ltb_spec (int64_max - 32) offset) as [H|H].
  - assert (offset +! 32 = offset + 32 - 2 ^ 64) as ->.
    { unfold wrap64, int64_max in *.
      replace (offset + 32 + 2 ^ 63) with (offset + 32 - 2 ^ 63 + 1 * 2 ^ 64) by lia.
      rewrite Z.mod_add, Z.mod_small by lia. lia. }
    pose proof (len_nonneg params). unfold int64_max in *.
    rewrite (proj2 (Z.ltb_ge offset 0)), (proj2 (Z.ltb_ge (len params) _)) by lia. simpl.
    unfold slice. rewrite (proj2 (Z.leb_gt offset _)) by lia. by rewrite andb_false_r.
  - rewrite (wrap64_small (offset + 32)) by lia.
    destruct (Z.leb_spec 0 offset), (Z.leb_spec (offset + 32) (len params)); simpl;
      rewrite ?(proj2 (Z.ltb_ge offset 0)), ?(proj2 (Z.ltb_lt offset 0)),
        ?(proj2 (Z.ltb_lt (len params) _)), ?(proj2 (Z.ltb_ge (len params) _)) by lia;
      simpl; try done.
    rewrite slice_ok by lia. do 3 f_equal. lia.
Qed.

Lemma ReadWordAt_branches_witness :
  ReadWordAt (replicate 40 xff) int64_max = Panic PSliceBounds /\
  ReadWordAt (replicate 40 xff) 8 = Ok (replicate 32 xff).
Proof.
  split.
  - rewrite ReadWordAt_branches by (unfold int64_min, int64_max; lia). reflexivity.
  - rewrite ReadWordAt_branches by (unfold int64_min, int64_max; lia). reflexivity.
Defined.

(** C26: [ReadBytesArrayElements] implements the ABI layout of [bytes[]]: for an array
    offset that [ReadOffset] can return, it never panics, and it returns the strings
    [ds] exactly when the count, the table of relative offsets and the length-prefixed
    strings stand in the calldata; in particular the canonical encoding of any [ds]
    within the limits is read back. *)
Theorem ReadBytesArrayElements_spec params off :
  0 <= off <= MaxInt32 ->
  (forall p, ReadBytesArrayElements params off <> Panic p) /\
  (forall ds, ReadBytesArrayElements params off = Ok ds <-> bytes_array_at params off ds) /\
  (forall ds, holds_at params off (enc_bytes_array ds) -> len ds <= 10000 ->
     len (enc_bytes_array ds) <= MaxInt32 -> ReadBytesArrayElements params off = Ok ds).
Proof.
  intros Hoff. split_and!.
  - intros p. eapply safe_not_panic, ReadBytesArrayElements_safe. done.
  - intros ds. by apply ReadBytesArrayElements_layout.
  - intros ds H Hn Hl. apply ReadBytesArrayElements_layout; [done|].
    apply enc_bytes_array_layout; [lia|done..].
Qed.

Lemma ReadBytesArrayElements_spec_witness :
  ReadBytesArrayElements (enc_bytes_array [str "ab"; []; str "xyz"]) 0 = Ok [str "ab"; []; str "xyz"].
Proof.
  apply (ReadBytesArrayElements_spec _ 0); [unfold MaxInt32; lia| |vm_compute; discriminate..].
  exists [], []. by rewrite app_nil_r.
Defined.

(** [ReadDynamicBytes] follows the pointer in a head word: it never panics, and it
    returns [d] exactly when the word holds an offset of at most [MaxInt32] and the
    string stands there with its length; so no out-of-range read is ever returned. *)
Theorem ReadDynamicBytes_spec params wordIdx :
  0 <= wordIdx <= 4 ->
  (forall p, ReadDynamicBytes params wordIdx <> Panic p) /\
  (forall d, ReadDynamicBytes params wordIdx = Ok d <->
     exists off, offset_at params (32 * wordIdx) off /\ bytes_at params off d).
Proof.
  intros Hi. split.
  - intros p. eapply safe_not_panic, ReadDynamicBytes_safe. done.
  - intros d. by apply ReadDynamicBytes_iff.
Qed.

Lemma ReadDynamicBytes_spec_witness :
  ReadDynamicBytes (enc_uint 32 ++ enc_bytes (str "hello")) 0 = Ok (str "hello").
Proof.
  apply (ReadDynamicBytes_spec _ 0); [lia|]. exists 32.
  split; [split; [split; [lia|]|unfold MaxInt32; lia]|apply bytes_at_enc; [vm_compute; discriminate|]].
  - apply (holds_at_prefix _ _ (enc_bytes (str "hello"))). done.
  - exists (enc_uint 32), []. split; [by rewrite app_nil_r|apply len_enc_uint].
Defined.
End AbiProps.
