(* ===== verification/Decoder.v ===== *)
(** The interfaces between the decoder's parts: [Decoder]
    (src/evm-lib/parser/codecs/chain.go, src/evm-lib/parser/parser/parser.go) and
    [SubParser] (src/evm-lib/parser/codecs/sub_parser.go), with the laws that every
    codec of the package discharges and that the chain and the parser rely on. *)

From S2P Require Import Prelude Types Abi.
Import Types.
#[local] Open Scope Z_scope.

Module Iface.

(** A returned [*ParsedInputData] is [None] when the pointer is nil. *)
Abbreviation result := (outcome (option ParsedInputData)).

Class Decoder (D : Type) := {
  CanDecode : D -> Selector -> bool;
  Decode : D -> Selector -> InputParams -> result
}.

(** A [SubParser] value. *)
Abbreviation SubParser := (list byte -> outcome (option ParsedInputData)).

(** What a decoder promises: on any selector and parameters it does not panic and
    reports well-formed transfers under the selector it was given; and it answers
    with an error when it said it could not decode the selector. *)
Definition result_ok (sel : Selector) (r : option ParsedInputData) : Prop :=
  exists p, r = Some p /\ parsed_wf sel p.

Class LawfulDecoder `{Decoder D} (d : D) : Prop := {
  decode_safe sel params :
    go_slice params -> safe (result_ok sel) (Decode d sel params);
  decode_reject sel params :
    CanDecode d sel = false -> is_err (Decode d sel params)
}.

(** What a sub-parser promises on calldata shorter than [bound]. *)
Definition sub_safe (bound : Z) (sub : SubParser) : Prop :=
  forall raw, len raw < bound ->
    safe (fun r => exists sel, result_ok sel r) (sub raw).

(** An interface value: a decoder together with its methods. *)
Record decoder := mkDecoder {
  d_can : Selector -> bool;
  d_decode : Selector -> InputParams -> result
}.

#[export] Instance decoder_Decoder : Decoder decoder :=
  {| CanDecode := d_can; Decode := d_decode |}.

Definition pack `{Decoder D} (d : D) : decoder := mkDecoder (CanDecode d) (Decode d).

#[export] Instance pack_lawful `{LawfulDecoder D d} : LawfulDecoder (pack d).
Proof.
  split.
  - intros sel params. apply (decode_safe (d := d)).
  - intros sel params. apply (decode_reject (d := d)).
Qed.

Lemma result_ok_one sel t :
  transfer_wf t -> result_ok sel (Some (mkParsed sel [t])).
Proof. intros Ht. eexists. split; [done|]. split; [done|]. by constructor. Qed.

Lemma result_ok_two sel t1 t2 :
  transfer_wf t1 -> transfer_wf t2 -> result_ok sel (Some (mkParsed sel [t1; t2])).
Proof. intros. eexists. split; [done|]. split; [done|]. by apply Forall_cons_2, Forall_cons_2. Qed.

Lemma result_ok_intro sel ts :
  Forall transfer_wf ts -> result_ok sel (Some (mkParsed sel ts)).
Proof. intros. eexists. split; [done|]. by split. Qed.

#[export] Hint Resolve result_ok_one result_ok_two result_ok_intro : go.

(** Close the goals about well-formed results that [go_safe] leaves. *)
Ltac solve_wf :=
  repeat first
    [ apply result_ok_one | apply result_ok_two | apply result_ok_intro
    | apply transfer_to_wf | apply ZeroAddress_wf | apply Forall_nil_2
    | apply Forall_cons_2 | assumption | exact I ].

(** Selectors are compared with the ones a codec claims. *)
Ltac dispatch :=
  repeat match goal with
  | |- context [bool_decide (?a = ?b)] =>
      destruct (bool_decide_reflect (a = b)); cbn [negb orb andb]
  | H : context [bool_decide (?a = ?b)] |- _ =>
      destruct (bool_decide_reflect (a = b)); cbn [negb orb andb] in H
  | H : true = false |- _ => discriminate H
  | H : _ || true = false |- _ => rewrite orb_true_r in H; discriminate H
  | |- is_err (Err _) => eexists; reflexivity
  end.
End Iface.
