(* ===== verification/FixedCodecs.v ===== *)
(** The codecs whose transfers sit at fixed words of the calldata head:
    [WETHDecoder] (weth.go), [AaveWETHGatewayDecoder] (aave_weth_gateway.go),
    [UniswapV2RouterDecoder] (uniswap_v2_router.go), [UniswapV3PaymentsDecoder]
    (uniswap_v3_payments.go) and [GnosisSafeDecoder] (gnosis_safe.go), all under
    src/evm-lib/parser/codecs/. *)

From S2P Require Import Prelude Types Abi Decoder.
Import Types Abi AbiSpec Iface.
#[local] Open Scope Z_scope.

Module WETH.
Inductive WETHDecoder := NewWETHDecoder.

Definition selWETHWithdraw : Selector := [x2e; x1a; x7d; x4d].

Definition CanDecode (d : WETHDecoder) (s : Selector) : bool := bool_decide (s = selWETHWithdraw).

Definition Decode (d : WETHDecoder) (sel : Selector) (params : InputParams) : result :=
  if negb (bool_decide (sel = selWETHWithdraw))
  then Err (EFmt "weth: unsupported selector %s" [ABytes sel])
  else
    amount ← wrap "weth.withdraw amount: %w" [] (ReadUint256 params 0);
    Ok (Some (mkParsed sel [transfer_to ZeroAddress (Some amount) Likely])).

#[global] Instance WETH_Decoder : Decoder WETHDecoder :=
  {| Iface.CanDecode := CanDecode; Iface.Decode := Decode |}.
End WETH.

Module AaveWETHGateway.
Inductive AaveWETHGatewayDecoder := NewAaveWETHGatewayDecoder.

Definition aaveWordTo : Z := 2.
Definition selAaveWithdrawETH : Selector := [x80; x50; x0d; x20].

Definition CanDecode (d : AaveWETHGatewayDecoder) (s : Selector) : bool :=
  bool_decide (s = selAaveWithdrawETH).

Definition Decode (d : AaveWETHGatewayDecoder) (sel : Selector) (params : InputParams) : result :=
  if negb (bool_decide (sel = selAaveWithdrawETH))
  then Err (EFmt "aave_weth_gateway: unsupported selector %s" [ABytes sel])
  else
    amount ← wrap "aave_weth_gateway: amount: %w" [] (ReadUint256 params 1);
    to ← wrap "aave_weth_gateway: to: %w" [] (ReadAddress params aaveWordTo);
    Ok (Some (mkParsed sel [transfer_to to (Some amount) Deterministic])).

#[global] Instance Aave_Decoder : Decoder AaveWETHGatewayDecoder :=
  {| Iface.CanDecode := CanDecode; Iface.Decode := Decode |}.
End AaveWETHGateway.

Module UniswapV2Router.
Inductive UniswapV2RouterDecoder := NewUniswapV2RouterDecoder.

Definition v2WordRecipient : Z := 3.
Definition selV2SwapExactTokensForETH : Selector := [x18; xcb; xaf; xe5].
Definition selV2SwapTokensForExactETH : Selector := [x4a; x25; xd9; x4a].
Definition selV2SwapExactTokensForETHFOT : Selector := [x79; x1a; xc9; x47].

Definition CanDecode (d : UniswapV2RouterDecoder) (s : Selector) : bool :=
  bool_decide (s = selV2SwapExactTokensForETH) ||
  bool_decide (s = selV2SwapTokensForExactETH) ||
  bool_decide (s = selV2SwapExactTokensForETHFOT).

Definition Decode (d : UniswapV2RouterDecoder) (sel : Selector) (params : InputParams) : result :=
  if negb (CanDecode d sel)
  then Err (EFmt "uniswap_v2_router: unsupported selector %s" [ABytes sel])
  else
    recipient ← wrap "uniswap_v2_router: recipient: %w" [] (ReadAddress params v2WordRecipient);
    if bool_decide (sel = selV2SwapTokensForExactETH)
    then
      amountOut ← wrap "uniswap_v2_router: amountOut: %w" [] (ReadUint256 params 0);
      Ok (Some (mkParsed sel [transfer_to recipient (Some amountOut) Likely]))
    else
      amountOutMin ← wrap "uniswap_v2_router: amountOutMin: %w" [] (ReadUint256 params 1);
      Ok (Some (mkParsed sel [transfer_to recipient (Some amountOutMin) Likely])).

#[global] Instance V2_Decoder : Decoder UniswapV2RouterDecoder :=
  {| Iface.CanDecode := CanDecode; Iface.Decode := Decode |}.
End UniswapV2Router.

Module UniswapV3Payments.
Inductive UniswapV3PaymentsDecoder := NewUniswapV3PaymentsDecoder.

Definition v3WordFeeRecipient : Z := 3.
Definition selUnwrapWETH9 : Selector := [x49; x40; x4b; x7c].
Definition selUnwrapWETH9WithFee : Selector := [x9b; x2c; x0a; x37].
Definition selRefundETH : Selector := [x12; x21; x0e; x8a].

Definition CanDecode (d : UniswapV3PaymentsDecoder) (s : Selector) : bool :=
  bool_decide (s = selUnwrapWETH9) || bool_decide (s = selUnwrapWETH9WithFee) ||
  bool_decide (s = selRefundETH).

(** The [Value] of the fee and refund hints is left nil. *)
Definition Decode (d : UniswapV3PaymentsDecoder) (sel : Selector) (params : InputParams) : result :=
  if bool_decide (sel = selUnwrapWETH9)
  then
    amountMin ← wrap "uniswap_v3.unwrapWETH9 amountMin: %w" [] (ReadUint256 params 0);
    recipient ← wrap "uniswap_v3.unwrapWETH9 recipient: %w" [] (ReadAddress params 1);
    Ok (Some (mkParsed sel [transfer_to recipient (Some amountMin) Likely]))
  else if bool_decide (sel = selUnwrapWETH9WithFee)
  then
    amountMin ← wrap "uniswap_v3.unwrapWETH9WithFee amountMin: %w" [] (ReadUint256 params 0);
    recipient ← wrap "uniswap_v3.unwrapWETH9WithFee recipient: %w" [] (ReadAddress params 1);
    feeRecipient ← wrap "uniswap_v3.unwrapWETH9WithFee feeRecipient: %w" []
                     (ReadAddress params v3WordFeeRecipient);
    Ok (Some (mkParsed sel [transfer_to recipient (Some amountMin) Likely;
                            transfer_to feeRecipient None Possible]))
  else if bool_decide (sel = selRefundETH)
  then Ok (Some (mkParsed sel [transfer_to ZeroAddress None Possible]))
  else Err (EFmt "uniswap_v3_payments: unsupported selector %s" [ABytes sel]).

#[global] Instance V3_Decoder : Decoder UniswapV3PaymentsDecoder :=
  {| Iface.CanDecode := CanDecode; Iface.Decode := Decode |}.
End UniswapV3Payments.

Module GnosisSafe.
Inductive GnosisSafeDecoder := NewGnosisSafeDecoder.

Definition selSafeExecTransaction : Selector := [x6a; x76; x12; x02].

Definition CanDecode (d : GnosisSafeDecoder) (s : Selector) : bool :=
  bool_decide (s = selSafeExecTransaction).

Definition Decode (d : GnosisSafeDecoder) (sel : Selector) (params : InputParams) : result :=
  if negb (bool_decide (sel = selSafeExecTransaction))
  then Err (EFmt "gnosis_safe: unsupported selector %s" [ABytes sel])
  else
    to ← wrap "gnosis_safe: to: %w" [] (ReadAddress params 0);
    value ← wrap "gnosis_safe: value: %w" [] (ReadUint256 params 1);
    let out := [] in
    if 0 <? value
    then Ok (Some (mkParsed sel (out ++ [transfer_to to (Some value) Deterministic])))
    else Ok (Some (mkParsed sel out)).

#[global] Instance Safe_Decoder : Decoder GnosisSafeDecoder :=
  {| Iface.CanDecode := CanDecode; Iface.Decode := Decode |}.
End GnosisSafe.

(** ** Laws and functional behaviour *)
Module FixedProps.

(** Both laws of a codec that claims a few selectors, by cases on the selector. *)
Ltac lawful f can :=
  split; simpl; unfold f, can; intros; dispatch; go_safe; solve_wf.

#[global] Instance WETH_lawful (d : WETH.WETHDecoder) : LawfulDecoder d.
Proof. lawful WETH.Decode WETH.CanDecode. Qed.

#[global] Instance Aave_lawful (d : AaveWETHGateway.AaveWETHGatewayDecoder) : LawfulDecoder d.
Proof. lawful AaveWETHGateway.Decode AaveWETHGateway.CanDecode. Qed.

#[global] Instance V2_lawful (d : UniswapV2Router.UniswapV2RouterDecoder) : LawfulDecoder d.
Proof. lawful UniswapV2Router.Decode UniswapV2Router.CanDecode. Qed.

#[global] Instance V3_lawful (d : UniswapV3Payments.UniswapV3PaymentsDecoder) : LawfulDecoder d.
Proof. lawful UniswapV3Payments.Decode UniswapV3Payments.CanDecode. Qed.

#[global] Instance Safe_lawful (d : GnosisSafe.GnosisSafeDecoder) : LawfulDecoder d.
Proof. lawful GnosisSafe.Decode GnosisSafe.CanDecode. Qed.

(** What a head word holds. *)
Definition uint_word (params : list byte) (i v : Z) : Prop := uint_at params (32 * i) v.
Definition address_word (params : list byte) (i : Z) (a : Address) : Prop :=
  address_at params (32 * i) a.

Lemma read_uint_step {B} params i fmt args (k : Z -> outcome B) b :
  0 <= i <= 4 ->
  wrap fmt args (ReadUint256 params i) ≫= k = Ok b <->
  exists v, uint_word params i v /\ k v = Ok b.
Proof.
  intros Hi. rewrite bind_ok_iff. apply exist_proper. intros v.
  by rewrite wrap_ok_iff, ReadUint256_iff.
Qed.

Lemma read_address_step {B} params i fmt args (k : Address -> outcome B) b :
  0 <= i <= 4 ->
  wrap fmt args (ReadAddress params i) ≫= k = Ok b <->
  exists a, address_word params i a /\ k a = Ok b.
Proof.
  intros Hi. rewrite bind_ok_iff. apply exist_proper. intros a.
  by rewrite wrap_ok_iff, ReadAddress_iff.
Qed.

(** Words of concrete parameters. *)
Ltac by_word :=
  unfold uint_word, address_word;
  lazymatch goal with
  | |- address_at _ _ _ => split; [done|exists (replicate 12 x00); by_layout]
  | |- _ => by_layout
  end.

(** Turn the success of a codec into facts about the head words. *)
Ltac by_words :=
  repeat first
    [ setoid_rewrite read_uint_step; [|lia || (split; vm_compute; discriminate)]
    | setoid_rewrite read_address_step; [|lia || (split; vm_compute; discriminate)] ].

(** The WETH codec accepts exactly [withdraw(uint256)] calls with an amount word,
    and reports the amount with Likely confidence and unknown parties. *)
Lemma WETH_Decode_iff d sel params r :
  WETH.Decode d sel params = Ok r <->
  sel = WETH.selWETHWithdraw /\ exists amount, uint_word params 0 amount /\
    r = Some (mkParsed sel [mkTransfer ZeroAddress ZeroAddress (Some amount) Likely]).
Proof.
  unfold WETH.Decode. dispatch; [|naive_solver]. by_words. naive_solver.
Qed.

Example WETH_Decode_example :
  WETH.Decode WETH.NewWETHDecoder WETH.selWETHWithdraw (enc_uint 9) =
  Ok (Some (mkParsed WETH.selWETHWithdraw [transfer_to ZeroAddress (Some 9) Likely])).
Proof.
  apply WETH_Decode_iff. split; [done|]. exists 9. split; [by_word|done].
Qed.

(** The Aave gateway codec accepts exactly [withdrawETH] calls whose head holds an
    amount (word 1) and a recipient (word 2), and reports that transfer as
    deterministic. *)
Lemma Aave_Decode_iff d sel params r :
  AaveWETHGateway.Decode d sel params = Ok r <->
  sel = AaveWETHGateway.selAaveWithdrawETH /\ exists amount to,
    uint_word params 1 amount /\ address_word params 2 to /\
    r = Some (mkParsed sel [mkTransfer ZeroAddress to (Some amount) Deterministic]).
Proof.
  unfold AaveWETHGateway.Decode. dispatch; [|naive_solver]. by_words.
  unfold AaveWETHGateway.aaveWordTo, transfer_to. naive_solver.
Qed.

Example Aave_Decode_example :
  AaveWETHGateway.Decode AaveWETHGateway.NewAaveWETHGatewayDecoder AaveWETHGateway.selAaveWithdrawETH (enc_uint 0 ++ enc_uint 9 ++ AbiEnc.enc_address (replicate 20 x11)) =
  Ok (Some (mkParsed AaveWETHGateway.selAaveWithdrawETH [transfer_to (replicate 20 x11) (Some 9) Deterministic])).
Proof.
  apply Aave_Decode_iff. split; [done|]. exists 9, (replicate 20 x11). split; [by_word|split; [by_word|done]].
Qed.

(** The Uniswap V2 codec accepts exactly the three ETH-paying swaps with a recipient
    in word 3; the amount is word 0 for [swapTokensForExactETH] (the exact output) and
    word 1 (the minimum) for the other two. *)
Lemma V2_Decode_iff d sel params r :
  UniswapV2Router.Decode d sel params = Ok r <->
  UniswapV2Router.CanDecode d sel = true /\ exists to amount,
    address_word params 3 to /\
    uint_word params (if bool_decide (sel = UniswapV2Router.selV2SwapTokensForExactETH)
                      then 0 else 1) amount /\
    r = Some (mkParsed sel [mkTransfer ZeroAddress to (Some amount) Likely]).
Proof.
  unfold UniswapV2Router.Decode, UniswapV2Router.v2WordRecipient.
  destruct (UniswapV2Router.CanDecode d sel); simpl; [|naive_solver].
  case_bool_decide; by_words; unfold transfer_to; naive_solver.
Qed.

Example V2_Decode_example :
  UniswapV2Router.Decode UniswapV2Router.NewUniswapV2RouterDecoder UniswapV2Router.selV2SwapTokensForExactETH (enc_uint 9 ++ enc_uint 8 ++ enc_uint 160 ++ AbiEnc.enc_address (replicate 20 x11)) =
  Ok (Some (mkParsed UniswapV2Router.selV2SwapTokensForExactETH [transfer_to (replicate 20 x11) (Some 9) Likely])).
Proof.
  apply V2_Decode_iff. split; [done|]. exists (replicate 20 x11), 9. split; [by_word|split; [by_word|done]].
Qed.

(** The Uniswap V3 payments codec: [unwrapWETH9] gives the minimum to the recipient,
    [unwrapWETH9WithFee] adds the fee recipient without a value, [refundETH] gives one
    hint without recipient or value whatever the parameters are; nothing else decodes. *)
Lemma V3_Decode_iff d sel params r :
  UniswapV3Payments.Decode d sel params = Ok r <->
  (sel = UniswapV3Payments.selUnwrapWETH9 /\ exists amount to,
     uint_word params 0 amount /\ address_word params 1 to /\
     r = Some (mkParsed sel [mkTransfer ZeroAddress to (Some amount) Likely])) \/
  (sel = UniswapV3Payments.selUnwrapWETH9WithFee /\ exists amount to fee,
     uint_word params 0 amount /\ address_word params 1 to /\ address_word params 3 fee /\
     r = Some (mkParsed sel [mkTransfer ZeroAddress to (Some amount) Likely;
                             mkTransfer ZeroAddress fee None Possible])) \/
  (sel = UniswapV3Payments.selRefundETH /\
     r = Some (mkParsed sel [mkTransfer ZeroAddress ZeroAddress None Possible])).
Proof.
  unfold UniswapV3Payments.Decode, UniswapV3Payments.v3WordFeeRecipient.
  dispatch; subst; try (by_words; unfold transfer_to; naive_solver).
Qed.

Example V3_Decode_example :
  UniswapV3Payments.Decode UniswapV3Payments.NewUniswapV3PaymentsDecoder UniswapV3Payments.selUnwrapWETH9WithFee (enc_uint 9 ++ AbiEnc.enc_address (replicate 20 x11) ++ enc_uint 5 ++ AbiEnc.enc_address (replicate 20 x11)) =
  Ok (Some (mkParsed UniswapV3Payments.selUnwrapWETH9WithFee [transfer_to (replicate 20 x11) (Some 9) Likely; transfer_to (replicate 20 x11) None Possible])).
Proof.
  apply V3_Decode_iff. right; left. split; [done|]. exists 9, (replicate 20 x11), (replicate 20 x11). do 3 (split; [by_word|]). done.
Qed.

(** The Safe codec accepts exactly [execTransaction] calls with a target (word 0) and
    a value (word 1), and reports the transfer iff the value is positive. *)
Lemma Safe_Decode_iff d sel params r :
  GnosisSafe.Decode d sel params = Ok r <->
  sel = GnosisSafe.selSafeExecTransaction /\ exists to value,
    address_word params 0 to /\ uint_word params 1 value /\
    r = Some (mkParsed sel
          (if 0 <? value then [mkTransfer ZeroAddress to (Some value) Deterministic] else [])).
Proof.
  unfold GnosisSafe.Decode. dispatch; [|naive_solver]. by_words.
  unfold transfer_to. split.
  - intros (to & Ht & v & Hv & H). split; [done|]. exists to, v.
    destruct (0 <? v); naive_solver.
  - intros [_ (to & v & Ht & Hv & ->)]. exists to. split; [done|]. exists v. split; [done|].
    by destruct (0 <? v).
Qed.

Example Safe_Decode_example :
  GnosisSafe.Decode GnosisSafe.NewGnosisSafeDecoder GnosisSafe.selSafeExecTransaction (AbiEnc.enc_address (replicate 20 x11) ++ enc_uint 9) =
  Ok (Some (mkParsed GnosisSafe.selSafeExecTransaction [transfer_to (replicate 20 x11) (Some 9) Deterministic])).
Proof.
  apply Safe_Decode_iff. split; [done|]. exists (replicate 20 x11), 9. split; [by_word|split; [by_word|done]].
Qed.
(** C38: what the five codecs with transfers at fixed words decode, and into what, on any
    selector and parameters: WETH withdrawals (unknown parties), Aave withdrawals
    (recipient in word 2), the three ETH-paying swaps of Uniswap V2 (the exact output of
    [swapTokensForExactETH], the minimum of the others), the Uniswap V3 payments (the fee
    recipient without a value, the refund from any parameters), and Safe transactions,
    reported only with a positive value. Everything else is an error. *)
Theorem fixed_codecs_Decode_iff sel params r :
  (forall d, WETH.Decode d sel params = Ok r <->
    sel = WETH.selWETHWithdraw /\ exists amount, uint_word params 0 amount /\
    r = Some (mkParsed sel [mkTransfer ZeroAddress ZeroAddress (Some amount) Likely])) /\
  (forall d, AaveWETHGateway.Decode d sel params = Ok r <->
    sel = AaveWETHGateway.selAaveWithdrawETH /\ exists amount to,
    uint_word params 1 amount /\ address_word params 2 to /\
    r = Some (mkParsed sel [mkTransfer ZeroAddress to (Some amount) Deterministic])) /\
  (forall d, UniswapV2Router.Decode d sel params = Ok r <->
    UniswapV2Router.CanDecode d sel = true /\ exists to amount,
    address_word params 3 to /\
    uint_word params (if bool_decide (sel = UniswapV2Router.selV2SwapTokensForExactETH)
                      then 0 else 1) amount /\
    r = Some (mkParsed sel [mkTransfer ZeroAddress to (Some amount) Likely])) /\
  (forall d, UniswapV3Payments.Decode d sel params = Ok r <->
    (sel = UniswapV3Payments.selUnwrapWETH9 /\ exists amount to,
       uint_word params 0 amount /\ address_word params 1 to /\
       r = Some (mkParsed sel [mkTransfer ZeroAddress to (Some amount) Likely])) \/
    (sel = UniswapV3Payments.selUnwrapWETH9WithFee /\ exists amount to fee,
       uint_word params 0 amount /\ address_word params 1 to /\ address_word params 3 fee /\
       r = Some (mkParsed sel [mkTransfer ZeroAddress to (Some amount) Likely;
                               mkTransfer ZeroAddress fee None Possible])) \/
    (sel = UniswapV3Payments.selRefundETH /\
       r = Some (mkParsed sel [mkTransfer ZeroAddress ZeroAddress None Possible]))) /\
  (forall d, GnosisSafe.Decode d sel params = Ok r <->
    sel = GnosisSafe.selSafeExecTransaction /\ exists to value,
    address_word params 0 to /\ uint_word params 1 value /\
    r = Some (mkParsed sel
          (if 0 <? value then [mkTransfer ZeroAddress to (Some value) Deterministic] else []))).
Proof.
  split_and!; intros d.
  - apply WETH_Decode_iff.
  - apply Aave_Decode_iff.
  - apply V2_Decode_iff.
  - apply V3_Decode_iff.
  - apply Safe_Decode_iff.
Qed.

Lemma fixed_codecs_Decode_iff_witness :
  let to := replicate 20 x11 in
  let params := AbiEnc.enc_address to ++ enc_uint 9 in
  GnosisSafe.Decode GnosisSafe.NewGnosisSafeDecoder GnosisSafe.selSafeExecTransaction params =
    Ok (Some (mkParsed GnosisSafe.selSafeExecTransaction [transfer_to to (Some 9) Deterministic])) /\
  UniswapV3Payments.Decode UniswapV3Payments.NewUniswapV3PaymentsDecoder UniswapV3Payments.selRefundETH params =
    Ok (Some (mkParsed UniswapV3Payments.selRefundETH [transfer_to ZeroAddress None Possible])).
Proof.
  intros to params. split.
  - apply fixed_codecs_Decode_iff. split; [done|]. exists to, 9.
    split; [by_word|split; [by_word|done]].
  - apply fixed_codecs_Decode_iff. right; right. done.
Defined.
End FixedProps.
