(* ===== verification/Disperse.v ===== *)
(** [DisperseDecoder] (src/evm-lib/parser/codecs/disperse.go): the parallel arrays of
    [disperseEther(address[],uint256[])] become one transfer per pair. *)

From S2P Require Import Prelude Types Abi Decoder.
Import Types Abi AbiSpec AbiEnc Iface.
#[local] Open Scope Z_scope.

Module Disperse.
Inductive DisperseDecoder := NewDisperseDecoder.

Definition selDisperseEther : Selector := [xe6; x3d; x38; xed].

Definition CanDecode (d : DisperseDecoder) (s : Selector) : bool :=
  bool_decide (s = selDisperseEther).

Definition Decode (d : DisperseDecoder) (sel : Selector) (params : InputParams) : result :=
  if negb (bool_decide (sel = selDisperseEther))
  then Err (EFmt "disperse: unsupported selector %s" [ABytes sel])
  else
    recipientsOff ← wrap "disperse: recipients offset: %w" [] (ReadOffset params 0);
    valuesOff ← wrap "disperse: values offset: %w" [] (ReadOffset params 1);
    recipientsLen ← wrap "disperse: recipients length: %w" [] (ReadArrayLength params recipientsOff);
    valuesLen ← wrap "disperse: values length: %w" [] (ReadArrayLength params valuesOff);
    if negb (recipientsLen =? valuesLen)
    then Err (EFmt "disperse: array length mismatch: %d vs %d" [AInt recipientsLen; AInt valuesLen])
    else
      transfers ← for_range recipientsLen (fun i transfers =>
        addr ← wrap "disperse: recipient[%d]: %w" [AInt i]
                 (ReadAddressAt params (recipientsOff +! wordSize +! i *! wordSize));
        val ← wrap "disperse: value[%d]: %w" [AInt i]
                (ReadUint256At params (valuesOff +! wordSize +! i *! wordSize));
        Ok (transfers ++ [transfer_to addr (Some val) Deterministic])) [];
      Ok (Some (mkParsed sel transfers)).

#[global] Instance Disperse_Decoder : Decoder DisperseDecoder :=
  {| Iface.CanDecode := CanDecode; Iface.Decode := Decode |}.

(** ** Layout of the two arrays *)

(** The transfer of the [i]-th pair when the arrays stand at [ro] and [vo]. *)
Definition pair_at (params : list byte) (ro vo : Z) (i : Z) (t : Transfer) : Prop :=
  exists addr val,
    address_at params (ro + 32 + 32 * i) addr /\ uint_at params (vo + 32 + 32 * i) val /\
    t = transfer_to addr (Some val) Deterministic.

Definition disperse_at (params : list byte) (ts : list Transfer) : Prop :=
  exists ro vo,
    offset_at params 0 ro /\ offset_at params 32 vo /\
    count_at params ro (len ts) /\ count_at params vo (len ts) /\
    forall i t, ts !! i = Some t -> pair_at params ro vo (Z.of_nat i) t.

Definition read_pair (params : list byte) (ro vo i : Z) : outcome Transfer :=
  addr ← wrap "disperse: recipient[%d]: %w" [AInt i]
           (ReadAddressAt params (ro +! wordSize +! i *! wordSize));
  val ← wrap "disperse: value[%d]: %w" [AInt i]
          (ReadUint256At params (vo +! wordSize +! i *! wordSize));
  Ok (transfer_to addr (Some val) Deterministic).

Lemma read_pair_iff params ro vo i t :
  0 <= ro <= MaxInt32 -> 0 <= vo <= MaxInt32 -> 0 <= i <= 10000 ->
  read_pair params ro vo i = Ok t <-> pair_at params ro vo i t.
Proof.
  unfold read_pair, pair_at, wordSize, MaxInt32. intros. unwrap.
  rewrite (Z.mul_comm i 32).
  rewrite bind_ok_iff. apply exist_proper. intros addr.
  rewrite wrap_ok_iff, ReadAddressAt_iff by (unfold offset_max; lia).
  rewrite bind_ok_iff. setoid_rewrite wrap_ok_iff.
  setoid_rewrite ReadUint256At_iff; [|unfold offset_max; lia].
  naive_solver.
Qed.

(** One iteration of the loop. *)
Lemma read_pair_step params ro vo i (ts : list Transfer) :
  (addr ← wrap "disperse: recipient[%d]: %w" [AInt i]
            (ReadAddressAt params (ro +! wordSize +! i *! wordSize));
   val ← wrap "disperse: value[%d]: %w" [AInt i]
           (ReadUint256At params (vo +! wordSize +! i *! wordSize));
   Ok (ts ++ [transfer_to addr (Some val) Deterministic])) =
  (t ← read_pair params ro vo i; Ok (ts ++ [t])).
Proof.
  unfold read_pair. destruct (wrap _ _ (ReadAddressAt _ _)); simpl; [|done..].
  by destruct (wrap _ _ (ReadUint256At _ _)).
Qed.

Lemma read_pair_safe params ro vo i :
  0 <= ro <= MaxInt32 -> 0 <= vo <= MaxInt32 -> 0 <= i <= 10000 ->
  safe transfer_wf (read_pair params ro vo i).
Proof.
  unfold read_pair, wordSize, MaxInt32. intros. unwrap.
  eapply safe_bind; [apply safe_wrap, ReadAddressAt_safe; unfold offset_max; lia|].
  intros addr [Ha _].
  eapply safe_bind; [apply safe_wrap, ReadUint256At_safe; unfold offset_max; lia|].
  intros val [Hv _]. by apply safe_ok, transfer_to_wf.
Qed.

Lemma offset_at_range params off o : offset_at params off o -> 0 <= o <= MaxInt32.
Proof. intros [[? _] ?]. lia. Qed.

Lemma count_at_range params off n : count_at params off n -> 0 <= n <= 10000.
Proof. intros [[? _] ?]. lia. Qed.

Lemma count_at_inj params off n m : count_at params off n -> count_at params off m -> n = m.
Proof.
  intros [[Hn H1] _] [[Hm H2] _].
  rewrite <-(be_to_Z_enc_uint n), <-(be_to_Z_enc_uint m) by done.
  f_equal. eapply holds_at_inj; [|done..]. by rewrite !len_enc_uint.
Qed.

#[global] Instance Disperse_lawful (d : DisperseDecoder) : LawfulDecoder d.
Proof.
  split; simpl; unfold Decode, CanDecode; intros; dispatch; go_safe.
  eapply safe_bind.
  { apply safe_wrap, ReadArrayLength_safe. unfold offset_max, MaxInt32 in *. lia. }
  intros n [Hn _]. eapply safe_bind.
  { apply safe_wrap, ReadArrayLength_safe. unfold offset_max, MaxInt32 in *. lia. }
  intros m _. apply safe_if; intros; [done|].
  eapply (safe_bind (Forall transfer_wf)); [|intros ts Hts; by apply result_ok_intro].
  apply (for_range_safe (fun _ => Forall transfer_wf)); [lia| |done].
  intros i ts Hi Hts. rewrite read_pair_step.
  eapply safe_bind; [apply read_pair_safe; lia|]. intros t Ht. apply safe_ok, Forall_app. auto.
Qed.

(** C40: the Disperse codec implements its layout: it returns the transfers [ts] exactly
    when the two head words point at arrays of the same length that hold, index by
    index, the recipients and the values of [ts]; every pair becomes one deterministic
    transfer, in order, and nothing else is ever returned. *)
Theorem Disperse_Decode_iff d sel params r :
  Decode d sel params = Ok r <->
  sel = selDisperseEther /\ exists ts, r = Some (mkParsed sel ts) /\ disperse_at params ts.
Proof.
  unfold Decode. dispatch; [|naive_solver]. split.
  - intros H. inv_ok. split; [done|].
    apply ReadOffset_iff in Ha; [|lia]. apply ReadOffset_iff in Ha0; [|lia].
    pose proof (offset_at_range _ _ _ Ha). pose proof (offset_at_range _ _ _ Ha0).
    unfold MaxInt32 in *.
    apply ReadArrayLength_iff in Ha1; [|unfold offset_max; lia].
    apply ReadArrayLength_iff in Ha2; [|unfold offset_max; lia].
    pose proof (count_at_range _ _ _ Ha1).
    apply negb_false_iff, Z.eqb_eq in Heqb. subst a2.
    apply (for_range_collect1 (read_pair params a a0)) in Ha3 as [Hl Ht];
      [|lia|intros; apply read_pair_step].
    exists a3. split; [done|]. exists a, a0. rewrite Hl. split_and!; try done.
    intros i t Hi. specialize (Ht i t Hi). apply lookup_lt_Some in Hi. unfold len in Hl.
    apply read_pair_iff in Ht; [done|unfold MaxInt32; lia..].
  - intros [_ (ts & -> & ro & vo & Hro & Hvo & Hrl & Hvl & Ht)].
    pose proof (offset_at_range _ _ _ Hro). pose proof (offset_at_range _ _ _ Hvo).
    pose proof (count_at_range _ _ _ Hrl). unfold MaxInt32 in *.
    rewrite (proj2 (ReadOffset_iff _ 0 _ ltac:(lia)) Hro). autorewrite with run.
    rewrite (proj2 (ReadOffset_iff _ 1 _ ltac:(lia)) Hvo). autorewrite with run.
    rewrite (proj2 (ReadArrayLength_iff _ ro _ ltac:(unfold offset_max; lia)) Hrl). autorewrite with run.
    rewrite (proj2 (ReadArrayLength_iff _ vo _ ltac:(unfold offset_max; lia)) Hvl). autorewrite with run.
    rewrite Z.eqb_refl. cbn [negb]. rewrite bind_ok_iff. exists ts. split; [|done].
    apply (for_range_collect1 (read_pair params ro vo)); [lia|intros; apply read_pair_step|].
    split; [done|]. intros i t Hi. pose proof (Ht i t Hi). apply lookup_lt_Some in Hi.
    apply read_pair_iff; unfold len, MaxInt32 in *; (lia || done).
Qed.

Lemma Disperse_Decode_iff_witness :
  Decode NewDisperseDecoder selDisperseEther
    (enc_uint 64 ++ enc_uint 128 ++ enc_uint 1 ++ AbiEnc.enc_address (replicate 20 x11) ++
     enc_uint 1 ++ enc_uint 9) =
  Ok (Some (mkParsed selDisperseEther [transfer_to (replicate 20 x11) (Some 9) Deterministic])).
Proof.
  apply Disperse_Decode_iff. split; [done|].
  exists [transfer_to (replicate 20 x11) (Some 9) Deterministic]. split; [done|].
  exists 64, 128. do 4 (split; [by_layout|]). intros [|i] t Ht; [|done]. injection Ht as <-.
  exists (replicate 20 x11), 9. split; [|split; [by_layout|done]].
  split; [done|exists (replicate 12 x00); by_layout].
Defined.
End Disperse.
