(* ===== verification/MultiSend.v ===== *)
(** [GnosisMultiSendDecoder] (src/evm-lib/parser/codecs/gnosis_multisend.go): the packed
    sequence of entries of [multiSend(bytes)] is walked by a loop whose position is an
    [int]; the fuel is one more than the number of bytes, and the variant is the number
    of bytes left. *)

From S2P Require Import Prelude Types Abi Decoder.
Import Types Abi AbiSpec Iface.
#[local] Open Scope Z_scope.

Module MultiSend.
Inductive GnosisMultiSendDecoder := NewGnosisMultiSendDecoder.

Definition selMultiSend : Selector := [x8d; x80; xff; x0a].

Definition CanDecode (d : GnosisMultiSendDecoder) (s : Selector) : bool :=
  bool_decide (s = selMultiSend).

(** operation + to + value + dataLen *)
Definition entryHeader : Z := 1 + 20 + 32 + 32.

(** One turn of the loop from position [i]. *)
Definition entry_step (blob : list byte) (st : Z * list Transfer)
    : outcome ((Z * list Transfer) + list Transfer) :=
  let '(i, transfers) := st in
  if negb (i <? len blob) then Ok (inr transfers)
  else if len blob <? i +! entryHeader
  then Err (EFmt "gnosis_multisend: truncated entry at byte %d" [AInt i])
  else
    to ← slice blob (i +! 1) (i +! 21);
    let addr := copy ZeroAddress to in
    v ← slice blob (i +! 21) (i +! 53);
    let value := be_to_Z v in
    dataLenWord ← slice blob (i +! 53) (i +! 85);
    b0 ← index dataLenWord 0;
    b1 ← index dataLenWord 1;
    if negb (bool_decide (b0 = x00)) || negb (bool_decide (b1 = x00))
    then Err (EFmt "gnosis_multisend: unreasonable dataLen at byte %d" [AInt i])
    else
      low ← slice dataLenWord 24 32;
      let dataLen := be_to_Z low in
      let remaining := (len blob -! i -! entryHeader) mod 2 ^ 64 in
      if remaining <? dataLen
      then Err (EFmt "gnosis_multisend: data overflow at byte %d" [AInt i])
      else
        let dataSize := wrap64 dataLen in
        let transfers :=
          if 0 <? value
          then transfers ++ [transfer_to addr (Some value) Deterministic]
          else transfers in
        Ok (inl (i +! (entryHeader +! dataSize), transfers)).

Definition Decode (d : GnosisMultiSendDecoder) (sel : Selector) (params : InputParams) : result :=
  if negb (bool_decide (sel = selMultiSend))
  then Err (EFmt "gnosis_multisend: unsupported selector %s" [ABytes sel])
  else
    blob ← wrap "gnosis_multisend: read transactions: %w" [] (ReadDynamicBytes params 0);
    transfers ← loop (S (length blob)) (entry_step blob) (0, []);
    Ok (Some (mkParsed sel transfers)).

#[global] Instance MultiSend_Decoder : Decoder GnosisMultiSendDecoder :=
  {| Iface.CanDecode := CanDecode; Iface.Decode := Decode |}.

#[global] Arguments entry_step : simpl never.

(** ** The packed format *)

Record entry := mkEntry {
  e_op : byte;
  e_to : Address;
  e_value : Z;
  e_lenword : list byte;
  e_data : list byte
}.

Definition enc_entry (e : entry) : list byte :=
  [e_op e] ++ e_to e ++ enc_uint (e_value e) ++ e_lenword e ++ e_data e.

(** The length word as the code reads it: two zero bytes, twenty-two bytes that are
    not looked at, and the length of the data in the low eight. *)
Definition lenword_ok (w : list byte) (n : Z) : Prop :=
  exists mid low, w = [x00; x00] ++ mid ++ low /\ len mid = 22 /\ len low = 8 /\ be_to_Z low = n.

Definition entry_wf (e : entry) : Prop :=
  address_wf (e_to e) /\ 0 <= e_value e < 2 ^ 256 /\ lenword_ok (e_lenword e) (len (e_data e)).

Definition entry_transfers (e : entry) : list Transfer :=
  if 0 <? e_value e then [transfer_to (e_to e) (Some (e_value e)) Deterministic] else [].

(** An entry with the standard encoding of the length of its data. *)
Definition call_entry (op : byte) (to : Address) (value : Z) (data : list byte) : entry :=
  mkEntry op to value (enc_uint (len data)) data.

#[global] Arguments enc_entry : simpl never.
#[global] Arguments entry_transfers : simpl never.

Lemma len_lenword w n : lenword_ok w n -> len w = 32.
Proof. intros (mid & low & -> & Hm & Hl & _). rewrite !len_app, Hm, Hl. done. Qed.

Lemma len_enc_entry e : entry_wf e -> len (enc_entry e) = 85 + len (e_data e).
Proof.
  intros (Ha%len_address & _ & Hw%len_lenword). unfold enc_entry.
  rewrite !len_app, len_enc_uint, Hw, Ha. change (len [e_op e]) with 1. lia.
Qed.

(** The first two bytes and the low eight bytes of a length word. *)
Lemma lenword_reads w n :
  len w = 32 ->
  (index w 0 = Ok x00 /\ index w 1 = Ok x00 /\ (exists low, slice w 24 32 = Ok low /\ be_to_Z low = n))
  <-> lenword_ok w n.
Proof.
  intros Hw. split.
  - intros (H0 & H1 & low & Hlow & Hn).
    destruct w as [|b0 [|b1 w]]; [done..|].
    unfold index in H0, H1. rewrite !len_cons in Hw.
    rewrite !len_cons in H0, H1. replace (len w + 1 + 1) with 32 in H0, H1.
    simpl in H0, H1. injection H0 as ->. injection H1 as ->.
    apply slice_holds_at in Hlow as ((a & c & Heq & Ha) & Hl).
    assert (len c = 0) as Hc.
    { apply (f_equal len) in Heq. rewrite !len_app, !len_cons in Heq. lia. }
    assert (c = []) as -> by (apply nil_length_inv; unfold len in Hc; lia).
    rewrite app_nil_r in Heq.
    destruct a as [|? [|? mid]]; [done..|]. simpl in Heq. injection Heq as <- <- ->.
    exists mid, low. rewrite !len_cons in Ha. split_and!; try done; lia.
  - intros (mid & low & -> & Hm & Hl & Hn).
    split_and!; [by unfold index; rewrite !len_app, Hm, Hl..|].
    exists low. split; [|done].
    change ([x00; x00] ++ mid ++ low) with (([x00; x00] ++ mid) ++ low).
    rewrite slice_app_end; [done|by rewrite len_app, Hm|by rewrite len_app, Hm, Hl].
Qed.

(** ** The loop *)

(** One successful turn consumes exactly one entry. *)
Lemma entry_step_iff blob i ts i' ts' :
  len blob <= 2 ^ 48 -> 0 <= i < len blob ->
  entry_step blob (i, ts) = Ok (inl (i', ts')) <->
  exists e, entry_wf e /\ holds_at blob i (enc_entry e) /\
    i' = i + len (enc_entry e) /\ ts' = ts ++ entry_transfers e.
Proof.
  intros Hb Hi. unfold entry_step, entryHeader. change (1 + 20 + 32 + 32) with 85.
  rewrite (proj2 (Z.ltb_lt i (len blob))) by lia. cbn [negb]. unwrap.
  destruct (Z.ltb_spec (len blob) (i + 85)) as [H85|H85].
  { split; [done|]. intros (e & Hwf & H & _). apply holds_at_bounds in H.
    rewrite len_enc_entry in H by done. pose proof (len_nonneg (e_data e)). lia. }
  split.
  - intros H. inv_ok. apply orb_false_iff in Heqb as [Hz0 Hz1].
    rewrite negb_false_iff, bool_decide_eq_true in Hz0, Hz1. subst a2 a3.
    apply Z.ltb_ge in Heqb0. rewrite Z.mod_small in Heqb0 by lia.
    apply slice_holds_at in Ha as [Hto Hlto], Ha0 as [Hv Hlv].
    pose proof (slice_holds_at _ _ _ _ Ha1) as [Hw Hlw].
    assert (lenword_ok a1 (be_to_Z a4)) as Hok by (apply lenword_reads; [lia|eauto]).
    pose proof (uint256_bound a0 ltac:(lia)) as Hvb.
    pose proof (be_to_Z_bound a4) as [Hlb _].
    rewrite (wrap64_small (be_to_Z a4)) in H by (unfold int64_min, int64_max; lia).
    destruct (holds_at_exists blob i 1) as (opb & Hlop & Hop); [lia..|].
    destruct (holds_at_exists blob (i + 85) (be_to_Z a4)) as (data & Hld & Hd); [lia..|].
    destruct opb as [|op [|? rest]]; [done| |rewrite !len_cons in Hlop; pose proof (len_nonneg rest); lia].
    unwrap. injection H as <- <-.
    rewrite copy_full by (unfold len in Hlto; simpl; lia).
    assert (entry_wf (mkEntry op a (be_to_Z a0) a1 data)) as Hwf.
    { split; [unfold address_wf, len in *; simpl in *; lia|]. split; [done|]. simpl. by rewrite Hld. }
    exists (mkEntry op a (be_to_Z a0) a1 data).
    split; [done|split; [|split; [rewrite len_enc_entry by done; simpl; lia|]]].
    + unfold enc_entry; simpl e_op; simpl e_to; simpl e_value; simpl e_lenword; simpl e_data.
      rewrite !holds_at_app, len_enc_uint, enc_uint_be_to_Z by lia.
      change (len [op]) with 1. rewrite Hlto, Hlw.
      replace (i + 1 + (i + 21 - (i + 1))) with (i + 21) by lia.
      replace (i + 21 + 32) with (i + 53) by lia.
      replace (i + 53 + (i + 85 - (i + 53))) with (i + 85) by lia. done.
    + unfold entry_transfers. simpl. destruct (0 <? be_to_Z a0); [done|by rewrite app_nil_r].
  - intros (e & Hwf & H & -> & ->). pose proof (holds_at_bounds _ _ _ H) as Hbd.
    rewrite len_enc_entry in * by done. destruct Hwf as (Ha & Hv & Hw).
    pose proof (len_lenword _ _ Hw) as Hlw. pose proof (len_address _ Ha) as Hla.
    pose proof (len_nonneg (e_data e)).
    unfold enc_entry in H. rewrite !holds_at_app, len_enc_uint, Hla, Hlw in H.
    change (len [e_op e]) with 1 in H. destruct H as (_ & Hto & Hval & Hlen & _).
    replace (i + 1 + 20) with (i + 21) in * by lia. replace (i + 21 + 32) with (i + 53) in * by lia.
    rewrite (holds_at_slice blob (i + 1) (e_to e)) by (exact Hto || (rewrite Hla; lia)).
    rewrite bind_Ok, (holds_at_slice blob (i + 21) (enc_uint (e_value e)))
      by (exact Hval || (rewrite len_enc_uint; lia)).
    rewrite bind_Ok, (holds_at_slice blob (i + 53) (e_lenword e))
      by (exact Hlen || (rewrite Hlw; lia)).
    apply lenword_reads in Hw as (H0' & H1' & low & Hlow & Hn); [|done].
    rewrite bind_Ok, H0', bind_Ok, H1', bind_Ok, Hlow.
    rewrite be_to_Z_enc_uint by done. cbn [negb orb]. rewrite bool_decide_eq_true_2 by done. cbn [negb orb].
    rewrite bind_Ok, Hn, Z.mod_small by lia. rewrite (proj2 (Z.ltb_ge _ (len (e_data e)))) by lia.
    rewrite copy_full by (unfold address_wf in Ha; simpl; lia).
    rewrite (wrap64_small (len (e_data e))) by (unfold int64_min, int64_max; lia). unwrap.
    do 3 f_equal.
    unfold entry_transfers. destruct (0 <? e_value e); [done|by rewrite app_nil_r].
Qed.

Lemma entry_step_done blob i ts :
  len blob <= i -> entry_step blob (i, ts) = Ok (inr ts).
Proof. intros H. unfold entry_step. by rewrite (proj2 (Z.ltb_ge i (len blob))) by lia. Qed.

(** A turn never panics; it moves forward by at least a header and stays in the blob. *)
Lemma entry_step_safe blob i ts :
  len blob <= 2 ^ 48 -> 0 <= i <= len blob -> Forall transfer_wf ts ->
  safe (fun r => match r with
                 | inl (i', ts') => i < i' <= len blob /\ i < len blob /\ Forall transfer_wf ts'
                 | inr out => len blob <= i /\ out = ts
                 end) (entry_step blob (i, ts)).
Proof.
  intros Hb Hi Hts. unfold entry_step, entryHeader. change (1 + 20 + 32 + 32) with 85.
  destruct (Z.ltb_spec i (len blob)); cbn [negb]; [|done]. unwrap.
  apply safe_if; [done|]. intros H85%Z.ltb_ge.
  eapply (safe_bind (fun w => len w = 20)); [apply slice_safe; lia|]. intros to Hto.
  eapply (safe_bind (fun w => len w = 32)); [apply slice_safe; lia|]. intros v Hv%uint256_bound.
  eapply (safe_bind (fun w => len w = 32)); [apply slice_safe; lia|]. intros w Hw.
  assert (forall k, 0 <= k < 32 -> safe (fun _ : byte => True) (index w k)) as Hix.
  { intros k Hk. unfold index. rewrite Hw, (proj2 (Z.leb_le 0 k)), (proj2 (Z.ltb_lt k 32)) by lia. simpl.
    destruct (w !! Z.to_nat k) eqn:E; [done|]. apply lookup_ge_None in E. unfold len in Hw. lia. }
  eapply safe_bind; [apply Hix; lia|]. intros b0 _.
  eapply safe_bind; [apply Hix; lia|]. intros b1 _.
  apply safe_if; [done|]. intros _.
  eapply (safe_bind (fun l => len l = 8)); [apply slice_safe; lia|]. intros l Hl.
  apply safe_if; [done|]. rewrite Z.mod_small by lia. intros Hr%Z.ltb_ge.
  pose proof (be_to_Z_bound l) as [Hl0 _].
  rewrite (wrap64_small (be_to_Z l)) by (unfold int64_min, int64_max; lia). unwrap.
  apply safe_ok. split_and!; [lia..|].
  destruct (0 <? be_to_Z v); [|done]. apply Forall_app. split; [done|].
  constructor; [|done]. apply transfer_to_wf; [|done].
  unfold address_wf. by rewrite length_copy.
Qed.

Definition left (blob : list byte) (st : Z * list Transfer) : nat :=
  (length blob - Z.to_nat (fst st))%nat.

(** The loop ends within its fuel. *)
Lemma entries_safe blob :
  len blob <= 2 ^ 48 ->
  safe (Forall transfer_wf) (loop (S (length blob)) (entry_step blob) (0, [])).
Proof.
  intros Hb.
  apply (loop_safe (entry_step blob)
    (fun st => 0 <= fst st <= len blob /\ Forall transfer_wf (snd st)) (left blob)).
  - intros [i ts] [Hi Hts]. simpl in Hi, Hts.
    eapply safe_mono; [by apply entry_step_safe|].
    intros [[i' ts']|out]; simpl; [|by intros [_ ->]].
    intros (? & ? & ?). unfold left, len in *. simpl. split; [split; [lia|done]|lia].
  - split; [|done]. simpl. pose proof (len_nonneg blob). lia.
  - unfold left. lia.
Qed.

#[global] Instance MultiSend_lawful (d : GnosisMultiSendDecoder) : LawfulDecoder d.
Proof.
  split; simpl; unfold Decode, CanDecode; intros; dispatch; go_safe.
  eapply safe_bind; [apply entries_safe; unfold MaxInt32 in *; lia|].
  intros ts Hts. by apply result_ok_intro.
Qed.

(** The loop reads exactly the concatenations of entries. *)
Lemma entries_iff blob fuel i ts out :
  len blob <= 2 ^ 48 -> 0 <= i <= len blob -> (left blob (i, ts) < fuel)%nat ->
  loop fuel (entry_step blob) (i, ts) = Ok out <->
  exists es, Forall entry_wf es /\ holds_at blob i (concat (map enc_entry es)) /\
    i + len (concat (map enc_entry es)) = len blob /\
    out = ts ++ concat (map entry_transfers es).
Proof.
  intros Hb. revert i ts. induction fuel as [|fuel IH]; intros i ts Hi Hf; [lia|].
  simpl loop. destruct (decide (i = len blob)) as [->|Hne].
  - rewrite entry_step_done by lia. simpl. split.
    + intros [= <-]. exists []. simpl. rewrite app_nil_r. split_and!; try done; [|rewrite len_nil; lia].
      exists blob, []. by rewrite app_nil_r.
    + intros (es & Hes & _ & Hl & ->). destruct es as [|e es]; cbn [map concat] in *; [by rewrite app_nil_r|].
      apply Forall_cons in Hes as [He _]. rewrite len_app, len_enc_entry in Hl by done.
      pose proof (len_nonneg (e_data e)). pose proof (len_nonneg (concat (map enc_entry es))). lia.
  - assert (forall r, entry_step blob (i, ts) = Ok (inr r) -> False) as Hno.
    { intros r Hr. unfold entry_step in Hr. rewrite (proj2 (Z.ltb_lt i (len blob))) in Hr by lia.
      cbn [negb] in Hr. inv_ok. discriminate. }
    rewrite bind_ok_iff. split.
    + intros ([[i' ts']|r] & Hstep & H); [|by apply Hno in Hstep].
      apply entry_step_iff in Hstep as (e & He & Hat & -> & ->); [|lia..].
      pose proof (holds_at_bounds _ _ _ Hat) as [_ Hle].
      assert (0 < len (enc_entry e)) as Hpos.
      { rewrite len_enc_entry by done. pose proof (len_nonneg (e_data e)). lia. }
      apply IH in H as (es & Hes & Hats & Hl & ->); [|lia|unfold left, len in *; simpl in *; lia].
      exists (e :: es). cbn [map concat]. rewrite holds_at_app, len_app, app_assoc.
      split_and!; try done; [by constructor|lia].
    + intros (es & Hes & Hat & Hl & ->). destruct es as [|e es]; cbn [map concat] in *.
      { rewrite len_nil in Hl. lia. }
      apply Forall_cons in Hes as [He Hes]. apply holds_at_app in Hat as [Hat Hats].
      rewrite len_app in Hl.
      pose proof (holds_at_bounds _ _ _ Hats) as [_ Hle].
      assert (0 < len (enc_entry e)) as Hpos.
      { rewrite len_enc_entry by done. pose proof (len_nonneg (e_data e)). lia. }
      exists (inl (i + len (enc_entry e), ts ++ entry_transfers e)). split.
      { apply entry_step_iff; [lia..|]. by exists e. }
      pose proof (len_nonneg (concat (map enc_entry es))).
      apply IH; [lia|unfold left, len in *; simpl in *; lia|].
      exists es. rewrite app_assoc. split_and!; try done; lia.
Qed.

Lemma call_entry_wf op to value data :
  address_wf to -> 0 <= value < 2 ^ 256 -> len data <= MaxInt32 ->
  entry_wf (call_entry op to value data).
Proof.
  intros Ha Hv Hd. split; [done|split; [done|]]. simpl.
  pose proof (len_nonneg data). unfold MaxInt32 in Hd.
  assert (be_to_Z (Z_to_be 8 (len data)) = len data) as Hlow
    by (rewrite be_to_Z_to_be; change (256 ^ Z.of_nat 8) with (2 ^ 64); apply Z.mod_small; lia).
  assert (enc_uint (len data) = replicate 24 x00 ++ Z_to_be 8 (len data)) as ->.
  { apply be_to_Z_inj.
    - by rewrite length_enc_uint, length_app, length_replicate, length_Z_to_be.
    - rewrite be_to_Z_enc_uint by lia. rewrite be_to_Z_app, Hlow.
      change (be_to_Z (replicate 24 x00)) with 0. lia. }
  exists (replicate 22 x00), (Z_to_be 8 (len data)). split_and!; try done.
Qed.

(** C11: the MultiSend codec implements the packed format: for any parameters it returns
    without a panic (the loop over the blob always ends), and it returns the transfers
    [ts] exactly when the pointed-to blob is a concatenation of well-formed entries
    whose positive values are, in order, the deterministic transfers [ts]. *)
Theorem MultiSend_Decode_spec d sel params :
  safe (fun _ => True) (Decode d sel params) /\
  forall r, Decode d sel params = Ok r <->
    sel = selMultiSend /\ exists off es,
      offset_at params 0 off /\ bytes_at params off (concat (map enc_entry es)) /\
      Forall entry_wf es /\ r = Some (mkParsed sel (concat (map entry_transfers es))).
Proof.
  unfold Decode. split.
  - dispatch; [|done]. eapply safe_bind; [apply safe_wrap, ReadDynamicBytes_safe; lia|].
    intros blob [_ Hb]. eapply safe_bind; [apply entries_safe; unfold MaxInt32 in *; lia|done].
  - intros r. dispatch; [|naive_solver].
    assert (forall b, wrap "gnosis_multisend: read transactions: %w" [] (ReadDynamicBytes params 0) = Ok b <->
      exists off, offset_at params 0 off /\ bytes_at params off b) as Hblob.
    { intros b. rewrite wrap_ok_iff. apply ReadDynamicBytes_iff. lia. }
    assert (forall b out, len b <= MaxInt32 ->
      loop (S (length b)) (entry_step b) (0, []) = Ok out <->
      exists es, Forall entry_wf es /\ b = concat (map enc_entry es) /\
        out = concat (map entry_transfers es)) as Hloop.
    { intros b out Hb. pose proof (len_nonneg b). unfold MaxInt32 in Hb.
      rewrite entries_iff by (unfold left; lia).
      apply exist_proper. intros es. split.
      - intros (? & (a & c & -> & Ha) & Hl & ->). split_and!; try done.
        rewrite !len_app in Hl. pose proof (len_nonneg a). pose proof (len_nonneg c).
        assert (a = []) as -> by (apply nil_length_inv; unfold len in *; lia).
        assert (c = []) as -> by (apply nil_length_inv; unfold len in *; lia).
        by rewrite app_nil_r.
      - intros (? & -> & ->). split_and!; try done. exists [], []. by rewrite app_nil_r. }
    split.
    + intros H. inv_ok. split; [done|]. apply ReadDynamicBytes_iff in Ha as (off & Ho & Hb); [|lia].
      apply Hloop in Ha0 as (es & Hes & -> & ->); [|by destruct Hb].
      by exists off, es.
    + intros (_ & off & es & Ho & Hb & Hes & ->).
      rewrite (proj2 (Hblob _) (ex_intro _ off (conj Ho Hb))), bind_Ok.
      rewrite (proj2 (Hloop _ (concat (map entry_transfers es)) (proj1 Hb))); [done|by exists es].
Qed.

Lemma MultiSend_Decode_spec_witness :
  Decode NewGnosisMultiSendDecoder selMultiSend
    (enc_uint 32 ++ AbiEnc.enc_bytes (concat (map enc_entry
       [call_entry x00 (replicate 20 x11) 9 (str "call"); call_entry x01 (replicate 20 x22) 0 []]))) =
  Ok (Some (mkParsed selMultiSend [transfer_to (replicate 20 x11) (Some 9) Deterministic])).
Proof.
  apply MultiSend_Decode_spec. split; [done|].
  exists 32, [call_entry x00 (replicate 20 x11) 9 (str "call"); call_entry x01 (replicate 20 x22) 0 []].
  split; [by_layout|]. split; [by_layout|]. split; [|reflexivity].
  repeat constructor; try (vm_compute; discriminate).
  - exists (replicate 22 x00), (Z_to_be 8 4). repeat split; vm_compute; reflexivity.
  - exists (replicate 22 x00), (Z_to_be 8 0). repeat split; vm_compute; reflexivity.
Defined.

(** Bytes 2 to 23 of an entry's length word are not looked at: whatever they are, the
    entry decodes to the same transfer as with a proper length, so a [dataLen] far
    beyond the calldata (as a uint256) is accepted. *)
Theorem MultiSend_dataLen_mid_ignored op to value mid data :
  address_wf to -> 0 < value < 2 ^ 256 -> len mid = 22 -> len data <= 2 ^ 30 ->
  let blob := enc_entry (mkEntry op to value ([x00; x00] ++ mid ++ Z_to_be 8 (len data)) data) in
  Decode NewGnosisMultiSendDecoder selMultiSend (enc_uint 32 ++ enc_uint (len blob) ++ blob) =
    Ok (Some (mkParsed selMultiSend [transfer_to to (Some value) Deterministic])).
Proof.
  intros Ha Hv Hm Hd blob. subst blob. set (e := mkEntry op to value _ data).
  pose proof (len_nonneg data).
  assert (entry_wf e) as Hwf.
  { split; [done|split; [simpl; lia|]]. exists mid, (Z_to_be 8 (len data)).
    split_and!; try done. rewrite be_to_Z_to_be.
    change (256 ^ Z.of_nat 8) with (2 ^ 64). change (e_data e) with data. apply Z.mod_small. lia. }
  assert (bytes_at (enc_uint 32 ++ enc_uint (len (enc_entry e)) ++ enc_entry e) 32
    (concat (map enc_entry [e]))) as Hb.
  { cbn [map concat]. rewrite app_nil_r. split.
    - rewrite len_enc_entry by done. simpl. unfold MaxInt32. lia.
    - exists (enc_uint 32), []. by rewrite app_nil_r. }
  unfold Decode. rewrite bool_decide_eq_true_2 by done. cbn [negb].
  assert (ReadDynamicBytes (enc_uint 32 ++ enc_uint (len (enc_entry e)) ++ enc_entry e) 0 =
    Ok (concat (map enc_entry [e]))) as ->.
  { apply ReadDynamicBytes_iff; [lia|]. exists 32. split; [|done].
    split; [split; [lia|]|unfold MaxInt32; lia]. by eapply holds_at_prefix. }
  rewrite wrap_Ok, bind_Ok.
  assert (forall b, b = concat (map enc_entry [e]) ->
    loop (S (length b)) (entry_step b) (0, []) = Ok [transfer_to to (Some value) Deterministic]) as ->; [|done..].
  intros b Hbe. destruct Hb as [Hl _]. rewrite <-Hbe in Hl. unfold MaxInt32 in Hl.
  pose proof (len_nonneg b).
  apply entries_iff; [lia|lia|unfold left; lia|]. exists [e]. split_and!.
  - by constructor.
  - rewrite <-Hbe. exists [], []. by rewrite app_nil_r.
  - by rewrite <-Hbe.
  - cbn [map concat]. unfold entry_transfers. simpl e_value.
    rewrite (proj2 (Z.ltb_lt 0 value)) by lia. done.
Qed.

Lemma MultiSend_dataLen_mid_ignored_witness :
  let params := enc_uint 32 ++ enc_uint 85 ++
    enc_entry (mkEntry x00 (replicate 20 xaa) 7 ([x00; x00] ++ replicate 22 xff ++ Z_to_be 8 0) []) in
  2 ^ 64 < be_to_Z ([x00; x00] ++ replicate 22 xff ++ Z_to_be 8 0) /\
  Decode NewGnosisMultiSendDecoder selMultiSend params =
    Ok (Some (mkParsed selMultiSend [transfer_to (replicate 20 xaa) (Some 7) Deterministic])).
Proof.
  split; [vm_compute; reflexivity|].
  apply (MultiSend_dataLen_mid_ignored x00 (replicate 20 xaa) 7 (replicate 22 xff) []);
    [done|lia|done|vm_compute; discriminate].
Defined.
End MultiSend.
