(* ===== verification/Heuristic.v ===== *)
(** [HeuristicDecoder] (src/evm-lib/parser/codecs/heuristic.go): the fallback that scans
    the calldata word by word for plausible (address, amount) pairs, and the reference
    definition of the list it returns. *)

From stdpp Require Import pretty.
From S2P Require Import Prelude Types Abi Decoder.
Import Types Abi AbiSpec Iface.
#[local] Open Scope Z_scope.

Module Heuristic.

Definition defaultMaxTransfers : Z := 64.
Definition maxValueBits : Z := 240.

(** The limits are pointers, which may be nil. *)
Record HeuristicDecoder := mkHeuristic {
  maxTransfers : Z;
  minValue : option Z;
  maxValue : option Z
}.

Definition NewHeuristicDecoder : HeuristicDecoder :=
  mkHeuristic defaultMaxTransfers (Some 0) (Some (Z.shiftl 1 maxValueBits)).

Definition CanDecode (d : HeuristicDecoder) (s : Selector) : bool := true.

Definition plausibleAddressWord (word : list byte) : outcome (Address * bool) :=
  if negb (len word =? wordSize) then Ok (ZeroAddress, false)
  else
    top ← slice word 0 12;
    if existsb (fun b => negb (bool_decide (b = x00))) top then Ok (ZeroAddress, false)
    else
      b12 ← index word 12;
      b13 ← index word 13;
      b14 ← index word 14;
      b15 ← index word 15;
      if bool_decide (b12 = x00) && bool_decide (b13 = x00) &&
         bool_decide (b14 = x00) && bool_decide (b15 = x00)
      then Ok (ZeroAddress, false)
      else
        low ← slice_from word 12;
        Ok (copy ZeroAddress low, true).

(** [*p], as [Cmp] does it to its argument. *)
Definition deref (p : option Z) : outcome Z :=
  match p with Some v => Ok v | None => Panic PNilDeref end.

Definition plausibleValue (d : HeuristicDecoder) (v : Z) : outcome bool :=
  if v <=? 0 then Ok false
  else
    lo ← deref (minValue d);
    if v <? lo then Ok false
    else
      hi ← deref (maxValue d);
      if hi <? v then Ok false
      else Ok true.

(** The key of the [seen] map: the address and the decimal text of the value. *)
Definition key := (list byte * string)%type.

(** One turn of the scan: position, seen keys, transfers so far. *)
Definition scan_step (d : HeuristicDecoder) (params : list byte) (st : Z * gset key * list Transfer)
    : outcome ((Z * gset key * list Transfer) + list Transfer) :=
  let '(i, seen, transfers) := st in
  if negb (i +! 2 * wordSize <=? len params) then Ok (inr transfers)
  else
    w ← slice params i (i +! wordSize);
    r ← plausibleAddressWord w;
    let '(addr, ok) := r in
    if negb ok then Ok (inl (i +! wordSize, seen, transfers))
    else
      v ← slice params (i +! wordSize) (i +! 2 * wordSize);
      let val := be_to_Z v in
      plausible ← plausibleValue d val;
      if negb plausible then Ok (inl (i +! wordSize, seen, transfers))
      else
        let k : key := (addr, pretty val) in
        if bool_decide (k ∈ seen) then Ok (inl (i +! wordSize, seen, transfers))
        else
          let transfers := transfers ++ [transfer_to addr (Some val) Possible] in
          if maxTransfers d <=? len transfers then Ok (inr transfers)
          else Ok (inl (i +! wordSize, {[k]} ∪ seen, transfers)).

Definition Decode (d : HeuristicDecoder) (sel : Selector) (params : InputParams) : result :=
  if len params <? 2 * wordSize then Ok (Some (mkParsed sel []))
  else
    transfers ← loop (S (length params)) (scan_step d params) (0, ∅, []);
    Ok (Some (mkParsed sel transfers)).

#[global] Instance Heuristic_Decoder : Decoder HeuristicDecoder :=
  {| Iface.CanDecode := CanDecode; Iface.Decode := Decode |}.

#[global] Arguments scan_step : simpl never.

(** ** Reference definition *)

(** The address in a word that is zero in its first twelve bytes and not in the next
    four. *)
Definition address_of_word (w : list byte) : option Address :=
  if bool_decide (take 12 w = replicate 12 x00) && negb (bool_decide (take 4 (drop 12 w) = replicate 4 x00))
  then Some (drop 12 w) else None.

Definition nth_word (params : list byte) (i : Z) : list byte := take 32 (drop (Z.to_nat (32 * i)) params).

(** The limits of a decoder that has both. *)
Definition within (d : HeuristicDecoder) (v : Z) : bool :=
  match minValue d, maxValue d with
  | Some lo, Some hi => (lo <=? v) && (v <=? hi)
  | _, _ => false
  end.

Definition bounded (d : HeuristicDecoder) : Prop := is_Some (minValue d) /\ is_Some (maxValue d).

(** The guess at the [j]-th word, if the word and its successor are plausible. *)
Definition candidate (d : HeuristicDecoder) (params : list byte) (j : Z) : option Transfer :=
  match address_of_word (nth_word params j) with
  | Some a =>
      let v := be_to_Z (nth_word params (j + 1)) in
      if (0 <? v) && within d v
      then Some (transfer_to a (Some v) Possible) else None
  | None => None
  end.

(** The candidates of all adjacent pairs of whole words, in order. *)
Definition candidates (d : HeuristicDecoder) (params : list byte) : list Transfer :=
  omap (candidate d params) (seqZ 0 (len params / 32 - 1)).

(** First occurrences, without the elements of [excl]. *)
Fixpoint fresh (excl : list Transfer) (l : list Transfer) : list Transfer :=
  match l with
  | [] => []
  | t :: l => if bool_decide (t ∈ excl) then fresh excl l else t :: fresh (t :: excl) l
  end.

Definition guesses (d : HeuristicDecoder) (params : list byte) : list Transfer :=
  take (Z.to_nat (maxTransfers d)) (fresh [] (candidates d params)).

(** ** The scan computes the reference *)

Lemma existsb_nonzero l :
  existsb (fun b => negb (bool_decide (b = x00))) l =
  negb (bool_decide (l = replicate (length l) x00)).
Proof.
  induction l as [|b l IH]; simpl; [done|].
  rewrite IH. destruct (bool_decide_reflect (b = x00)) as [->|Hb]; simpl.
  - apply (f_equal negb), bool_decide_ext. split; [by intros <-|by intros [= <-]].
  - by rewrite bool_decide_eq_false_2 by congruence.
Qed.

Lemma plausibleAddressWord_spec w :
  len w = 32 ->
  plausibleAddressWord w =
    Ok (match address_of_word w with Some a => (a, true) | None => (ZeroAddress, false) end).
Proof.
  intros Hw. unfold plausibleAddressWord, address_of_word.
  rewrite Hw. cbn [negb Z.eqb Pos.eqb wordSize].
  assert (exists top b12 b13 b14 b15 rest, w = top ++ [b12; b13; b14; b15] ++ rest /\
    length top = 12%nat /\ length rest = 16%nat) as (top & b12 & b13 & b14 & b15 & rest & -> & Ht & Hr).
  { assert (length (take 4 (drop 12 w)) = 4%nat) as H4
      by (rewrite length_take, length_drop; unfold len in Hw; lia).
    destruct (take 4 (drop 12 w)) as [|b12 [|b13 [|b14 [|b15 [|]]]]] eqn:E4; try done.
    exists (take 12 w), b12, b13, b14, b15, (drop 4 (drop 12 w)).
    rewrite <-E4, take_drop, take_drop, !length_take, !length_drop.
    unfold len in Hw. split_and!; [done|lia..]. }
  rewrite slice_app_start by (unfold len; rewrite Ht; done). rewrite bind_Ok, existsb_nonzero, Ht.
  rewrite take_app_length', drop_app_length' by done. rewrite (take_app_length' [b12; b13; b14; b15]) by done.
  destruct (bool_decide_reflect (top = replicate 12 x00)); cbn [negb andb]; [|done].
  assert (forall k b, [b12; b13; b14; b15] !! k = Some b ->
    index (top ++ [b12; b13; b14; b15] ++ rest) (12 + Z.of_nat k) = Ok b) as Hix.
  { intros k b Hk. apply index_lookup; [lia|].
    rewrite lookup_app_r, Ht by lia. replace (Z.to_nat _ - 12)%nat with k by lia.
    by apply lookup_app_l_Some. }
  rewrite (Hix 0%nat b12 eq_refl : index _ 12 = _), bind_Ok.
  rewrite (Hix 1%nat b13 eq_refl : index _ 13 = _), bind_Ok.
  rewrite (Hix 2%nat b14 eq_refl : index _ 14 = _), bind_Ok.
  rewrite (Hix 3%nat b15 eq_refl : index _ 15 = _), bind_Ok.
  rewrite <-!bool_decide_and.
  replace (bool_decide ([b12; b13; b14; b15] = replicate 4 x00))
    with (bool_decide (((b12 = x00 /\ b13 = x00) /\ b14 = x00) /\ b15 = x00))
    by (apply bool_decide_ext; naive_solver).
  destruct (bool_decide _); cbn [negb]; [done|].
  unfold slice_from. rewrite slice_app_end; [|unfold len; rewrite Ht; done|by rewrite len_app].
  rewrite bind_Ok, copy_full; [done|]. simpl. lia.
Qed.

Lemma address_of_word_wf w a : len w = 32 -> address_of_word w = Some a -> address_wf a.
Proof.
  unfold address_of_word. intros Hw. case_match; [|done]. intros [= <-].
  unfold address_wf, len in *. rewrite length_drop. lia.
Qed.

Definition key_of (t : Transfer) : key := (To t, pretty (default 0 (Value t))).

Lemma candidate_shape d params j t :
  candidate d params j = Some t -> t = transfer_to (To t) (Some (default 0 (Value t))) Possible.
Proof. unfold candidate. repeat case_match; try done. by intros [= <-]. Qed.

(** One turn at a word that has a successor, by the two words. *)
Lemma scan_step_eq d params j seen ts :
  go_slice params -> 0 <= j -> 32 * (j + 2) <= len params ->
  scan_step d params (32 * j, seen, ts) =
    match address_of_word (nth_word params j) with
    | None => Ok (inl (32 * (j + 1), seen, ts))
    | Some a =>
        let v := be_to_Z (nth_word params (j + 1)) in
        plausible ← plausibleValue d v;
        if negb plausible then Ok (inl (32 * (j + 1), seen, ts))
        else if bool_decide ((a, pretty v) ∈ seen) then Ok (inl (32 * (j + 1), seen, ts))
        else
          let ts := ts ++ [transfer_to a (Some v) Possible] in
          if maxTransfers d <=? len ts then Ok (inr ts)
          else Ok (inl (32 * (j + 1), {[(a, pretty v)]} ∪ seen, ts))
    end.
Proof.
  unfold go_slice. intros Hs Hj Hl. unfold scan_step, wordSize. unwrap.
  rewrite (proj2 (Z.leb_le _ (len params))) by lia. cbn [negb].
  rewrite !slice_ok by lia. rewrite bind_Ok.
  replace (32 * j + 32 - 32 * j) with 32 by lia.
  rewrite plausibleAddressWord_spec by (apply len_sub; lia). rewrite bind_Ok.
  unfold nth_word. change (Z.to_nat 32) with 32%nat.
  replace (32 * (j + 1)) with (32 * j + 32) by lia.
  destruct (address_of_word _) as [a|]; cbn [negb]; [|done].
  rewrite bind_Ok. by replace (32 * j + 2 * 32 - (32 * j + 32)) with 32 by lia.
Qed.

(** One turn at a word that has a successor. *)
Lemma scan_step_spec d params j seen ts :
  go_slice params -> bounded d -> 0 <= j -> 32 * (j + 2) <= len params ->
  scan_step d params (32 * j, seen, ts) =
    match candidate d params j with
    | None => Ok (inl (32 * (j + 1), seen, ts))
    | Some t =>
        if bool_decide (key_of t ∈ seen) then Ok (inl (32 * (j + 1), seen, ts))
        else if maxTransfers d <=? len (ts ++ [t]) then Ok (inr (ts ++ [t]))
        else Ok (inl (32 * (j + 1), {[key_of t]} ∪ seen, ts ++ [t]))
    end.
Proof.
  intros Hs [[lo Hlo] [hi Hhi]] Hj Hl. rewrite scan_step_eq by done. unfold candidate, within, plausibleValue.
  rewrite Hlo, Hhi. destruct (address_of_word _) as [a|]; [|done]. cbn [deref].
  set (v := be_to_Z _). rewrite (Z.ltb_antisym v 0), (Z.leb_antisym v lo), (Z.leb_antisym hi v).
  destruct (v <=? 0); rewrite !bind_Ok; cbn [negb andb]; [done|].
  destruct (v <? lo); rewrite ?bind_Ok; cbn [negb andb]; [done|].
  destruct (hi <? v); rewrite ?bind_Ok; cbn [negb andb]; done.
Qed.

Lemma scan_step_done d params j seen ts :
  go_slice params -> 0 <= j <= len params -> len params < 32 * (j + 2) ->
  scan_step d params (32 * j, seen, ts) = Ok (inr ts).
Proof.
  unfold go_slice. intros Hs Hj Hl. unfold scan_step, wordSize. unwrap.
  by rewrite (proj2 (Z.leb_gt _ (len params))) by lia.
Qed.

(** The keys seen so far are those of the transfers emitted so far. *)
Definition seen_inv (seen : gset key) (ts : list Transfer) : Prop :=
  forall a v, (a, pretty v) ∈ seen <-> transfer_to a (Some v) Possible ∈ ts.

Lemma seen_inv_snoc seen ts a v :
  seen_inv seen ts ->
  seen_inv ({[(a, pretty v)]} ∪ seen) (ts ++ [transfer_to a (Some v) Possible]).
Proof.
  intros H b w. rewrite elem_of_union, elem_of_singleton, elem_of_app, list_elem_of_singleton, (H b w).
  unfold transfer_to. split.
  - intros [[= -> Hv]|?]; [right|by left]. apply (inj pretty) in Hv. by subst.
  - intros [?|[= -> ->]]; [by right|by left].
Qed.

Lemma fresh_ext e1 e2 l : (forall t, t ∈ e1 <-> t ∈ e2) -> fresh e1 l = fresh e2 l.
Proof.
  revert e1 e2. induction l as [|t l IH]; intros e1 e2 He; simpl; [done|].
  rewrite (bool_decide_ext (t ∈ e1) (t ∈ e2)) by done.
  case_bool_decide; [by apply IH|]. f_equal. apply IH. set_solver.
Qed.

Lemma scan_loop d params fuel n j seen ts :
  go_slice params -> bounded d -> 0 <= j <= len params ->
  Z.of_nat n = Z.max 0 (len params / 32 - 1 - j) -> (n < fuel)%nat ->
  seen_inv seen ts -> len ts < maxTransfers d ->
  loop fuel (scan_step d params) (32 * j, seen, ts) =
    Ok (ts ++ take (Z.to_nat (maxTransfers d - len ts))
                (fresh ts (omap (candidate d params) (seqZ j (Z.of_nat n))))).
Proof.
  intros Hs Hb. revert n j seen ts. induction fuel as [|fuel IH]; intros n j seen ts Hj Hn Hf Hseen Hts; [lia|].
  pose proof (Z.div_mod (len params) 32 ltac:(lia)). pose proof (Z.mod_pos_bound (len params) 32 ltac:(lia)).
  cbn [loop]. destruct n as [|n].
  - rewrite scan_step_done by (done || lia). rewrite bind_Ok. simpl. by rewrite take_nil, app_nil_r.
  - rewrite scan_step_spec by (done || lia).
    rewrite seqZ_cons by lia. replace (Z.pred (Z.of_nat (S n))) with (Z.of_nat n) by lia.
    replace (Z.succ j) with (j + 1) by lia. cbn [omap list_omap].
    destruct (candidate d params j) as [t|] eqn:Ht; rewrite ?bind_Ok.
    + pose proof (candidate_shape _ _ _ _ Ht) as Hshape. cbn [fresh].
      assert (key_of t ∈ seen <-> t ∈ ts) as Hin by (rewrite Hshape at 2; apply Hseen).
      rewrite (bool_decide_ext _ _ Hin).
      destruct (bool_decide_reflect (t ∈ ts)) as [Hold|Hnew].
      * rewrite bind_Ok. apply IH; (done || lia).
      * assert (Z.to_nat (maxTransfers d - len ts) = S (Z.to_nat (maxTransfers d - (len ts + 1)))) as -> by lia.
        cbn [take]. rewrite len_app, len_cons, len_nil, Z.add_0_l.
        destruct (Z.leb_spec (maxTransfers d) (len ts + 1)) as [Hm|Hm].
        -- rewrite bind_Ok. replace (Z.to_nat (maxTransfers d - (len ts + 1))) with 0%nat by lia. done.
        -- rewrite bind_Ok. rewrite (IH n); [|lia|lia|lia| |by rewrite len_app, len_cons, len_nil; lia].
           ++ rewrite len_app, len_cons, len_nil, Z.add_0_l, <-app_assoc. simpl.
              do 4 f_equal. apply fresh_ext. set_solver.
           ++ rewrite Hshape. by apply seen_inv_snoc.
    + apply IH; (done || lia).
Qed.

Lemma Decode_guesses d sel params :
  go_slice params -> 0 < maxTransfers d -> bounded d ->
  Decode d sel params = Ok (Some (mkParsed sel (guesses d params))).
Proof.
  intros Hs Hm Hb. unfold Decode, guesses, candidates, wordSize.
  pose proof (len_nonneg params).
  pose proof (Z.div_mod (len params) 32 ltac:(lia)). pose proof (Z.mod_pos_bound (len params) 32 ltac:(lia)).
  destruct (Z.ltb_spec (len params) (2 * 32)).
  - rewrite seqZ_nil by lia. simpl. by rewrite take_nil.
  - rewrite <-(Z2Nat.id (len params / 32 - 1)) by lia.
    replace (0, ∅, []) with (32 * 0, (∅ : gset key), @nil Transfer) by done.
    rewrite (scan_loop _ _ _ (Z.to_nat (len params / 32 - 1)));
      [|done|done|lia|lia|unfold len in *; lia| |rewrite len_nil; lia].
    + rewrite bind_Ok, len_nil, Z.sub_0_r. done.
    + intros a v. set_solver.
Qed.

(** ** A decoder without a limit *)

(** The pair of words at [j] makes [plausibleValue] read a limit that is not there. *)
Definition reads_nil (d : HeuristicDecoder) (params : list byte) (j : Z) : bool :=
  match address_of_word (nth_word params j) with
  | Some _ =>
      let v := be_to_Z (nth_word params (j + 1)) in
      (0 <? v) &&
      match minValue d, maxValue d with
      | None, _ => true
      | Some lo, None => lo <=? v
      | Some _, Some _ => false
      end
  | None => false
  end.

Lemma scan_step_unbounded d params j seen ts :
  go_slice params -> ~ bounded d -> 0 <= j -> 32 * (j + 2) <= len params ->
  scan_step d params (32 * j, seen, ts) =
    if reads_nil d params j then Panic PNilDeref else Ok (inl (32 * (j + 1), seen, ts)).
Proof.
  intros Hs Hb Hj Hl. rewrite scan_step_eq by done. unfold reads_nil, plausibleValue.
  destruct (address_of_word _) as [a|]; [|done].
  set (v := be_to_Z _). cbv zeta. rewrite (Z.ltb_antisym v 0).
  destruct (v <=? 0); rewrite ?bind_Ok; cbn [negb andb]; [done|].
  destruct (minValue d) as [lo|] eqn:Elo; cbn [deref]; [|done]. rewrite bind_Ok.
  destruct (maxValue d) as [hi|] eqn:Ehi; [destruct Hb; by split; eexists|].
  rewrite (Z.leb_antisym v lo). by destruct (v <? lo).
Qed.

(** A decoder with a nil limit, such as the zero value of the type, panics exactly when it
    comes to compare a value with it, and otherwise finds nothing. *)
Theorem Heuristic_Decode_nil_limit d sel params :
  go_slice params -> ~ bounded d ->
  Decode d sel params =
    if existsb (reads_nil d params) (seqZ 0 (len params / 32 - 1)) then Panic PNilDeref
    else Ok (Some (mkParsed sel [])).
Proof.
  intros Hs Hb. unfold Decode, wordSize. pose proof (len_nonneg params).
  pose proof (Z.div_mod (len params) 32 ltac:(lia)). pose proof (Z.mod_pos_bound (len params) 32 ltac:(lia)).
  destruct (Z.ltb_spec (len params) (2 * 32)); [by rewrite seqZ_nil by lia|].
  assert (forall n fuel j seen, Z.of_nat n = Z.max 0 (len params / 32 - 1 - j) -> (n < fuel)%nat ->
    0 <= j <= len params ->
    loop fuel (scan_step d params) (32 * j, seen, []) =
      if existsb (reads_nil d params) (seqZ j (Z.of_nat n)) then Panic PNilDeref else Ok []) as Hloop.
  { induction n as [|n IH]; intros [|fuel] j seen Hn Hf Hj; try lia; cbn [loop].
    - by rewrite scan_step_done by (done || lia).
    - rewrite scan_step_unbounded by (done || lia). rewrite seqZ_cons by lia. cbn [existsb].
      destruct (reads_nil d params j); [done|]. rewrite bind_Ok, IH by lia.
      by replace (Z.pred (Z.of_nat (S n))) with (Z.of_nat n) by lia. }
  rewrite (Hloop (Z.to_nat (len params / 32 - 1)) _ 0) by (unfold len in *; lia).
  rewrite Z2Nat.id by lia. by destruct (existsb _ _).
Qed.

(** ** Properties of the guesses *)

Lemma fresh_NoDup excl l : NoDup (fresh excl l) /\ (forall t, t ∈ fresh excl l -> (t ∉ excl) /\ t ∈ l).
Proof.
  revert excl. induction l as [|t l IH]; intros excl; simpl.
  - split; [constructor|]. intros t Ht. by apply not_elem_of_nil in Ht.
  - case_bool_decide as Ht.
    + destruct (IH excl) as [Hn He]. split; [done|]. intros u Hu. specialize (He u Hu). set_solver.
    + destruct (IH (t :: excl)) as [Hn He]. split.
      * constructor; [|done]. intros Hu. apply He in Hu. set_solver.
      * intros u [->|Hu]%elem_of_cons; [set_solver|]. specialize (He u Hu). set_solver.
Qed.

(** What a guess claims: an address word with a non-zero high part, a positive value
    within the limits of the decoder. *)
Definition plausible (d : HeuristicDecoder) (t : Transfer) : Prop :=
  From t = ZeroAddress /\ address_wf (To t) /\ take 4 (To t) <> replicate 4 x00 /\
  Conf t = Possible /\ exists v, Value t = Some v /\ 0 < v /\ within d v /\ v < 2 ^ 256.

Lemma candidate_plausible d params j t :
  0 <= j -> 32 * (j + 2) <= len params -> candidate d params j = Some t -> plausible d t.
Proof.
  intros Hj Hl. unfold candidate.
  destruct (address_of_word _) as [a|] eqn:Ha; [|done].
  destruct (_ && _) eqn:Hv; [|done]. intros [= <-].
  rewrite andb_true_iff, Z.ltb_lt in Hv. destruct Hv as [??].
  split; [done|]. split.
  { eapply address_of_word_wf; [|exact Ha]. apply (len_sub params (32 * j) 32); lia. }
  split.
  { unfold address_of_word in Ha. destruct (_ && _) eqn:E; [|done]. injection Ha as <-.
    apply andb_true_iff in E as [_ E]. by apply negb_true_iff, bool_decide_eq_false in E. }
  split; [done|]. eexists. split; [done|]. split; [done|]. split; [by apply Is_true_true|].
  apply uint256_bound. apply (len_sub params (32 * (j + 1)) 32); lia.
Qed.

Lemma guesses_sound d params :
  NoDup (guesses d params) /\ Forall (plausible d) (guesses d params) /\
  (0 <= maxTransfers d -> len (guesses d params) <= maxTransfers d).
Proof.
  unfold guesses. destruct (fresh_NoDup [] (candidates d params)) as [Hn He]. split_and!.
  - by eapply sublist_NoDup, sublist_take.
  - apply Forall_forall. intros t Ht. apply elem_of_take in Ht as (i & Hi & _).
    apply list_elem_of_lookup_2, He in Hi as [_ Hi].
    unfold candidates in Hi. apply list_elem_of_omap in Hi as (j & Hj & Hc).
    apply elem_of_seqZ in Hj.
    pose proof (Z.div_mod (len params) 32 ltac:(lia)). pose proof (Z.mod_pos_bound (len params) 32 ltac:(lia)).
    eapply candidate_plausible; [| |done]; lia.
  - intros Hm. unfold len. rewrite length_take. lia.
Qed.

Lemma NewHeuristicDecoder_bounded : bounded NewHeuristicDecoder.
Proof. by split; eexists. Qed.
#[export] Hint Resolve NewHeuristicDecoder_bounded : core.

Lemma plausible_wf d t : plausible d t -> transfer_wf t.
Proof.
  intros (Hf & Ht & _ & _ & v & Hv & ? & _ & ?). unfold transfer_wf. rewrite Hf, Hv.
  split; [done|split; [done|]]. simpl. lia.
Qed.

#[global] Instance Heuristic_lawful : LawfulDecoder NewHeuristicDecoder.
Proof.
  split; simpl; [|done]. intros sel params Hs. rewrite Decode_guesses by done.
  apply safe_ok, result_ok_intro. eapply Forall_impl; [apply guesses_sound|apply plausible_wf].
Qed.

(** C12: the scan with its [seen] map and its early exit computes the reference
    definition: the first occurrences, in order and up to the limit, of the plausible
    (address, value) pairs at adjacent words. *)
Theorem Heuristic_Decode_reference d sel params :
  go_slice params -> 0 < maxTransfers d -> bounded d ->
  Decode d sel params = Ok (Some (mkParsed sel (guesses d params))).
Proof. apply Decode_guesses. Qed.

Lemma Heuristic_Decode_reference_witness :
  Decode NewHeuristicDecoder [xde; xad; xbe; xef]
    (replicate 12 x00 ++ replicate 20 xaa ++ enc_uint 5 ++
     replicate 12 x00 ++ replicate 20 xaa ++ enc_uint 5 ++ [x01]) =
  Ok (Some (mkParsed [xde; xad; xbe; xef] [transfer_to (replicate 20 xaa) (Some 5) Possible])).
Proof.
  rewrite Heuristic_Decode_reference; [|vm_compute; discriminate|done|by split; eexists].
  vm_compute. reflexivity.
Defined.

(** What the fallback reports about any calldata: at most 64 guesses, no guess twice,
    each with Possible confidence, no sender, a 20-byte recipient whose first four
    bytes are not all zero, and a value in (0, 2^240]. *)
Theorem Heuristic_Decode_plausible sel params p :
  go_slice params -> Decode NewHeuristicDecoder sel params = Ok (Some p) ->
  len (Transfers p) <= 64 /\ NoDup (Transfers p) /\
  Forall (fun t => From t = ZeroAddress /\ address_wf (To t) /\ take 4 (To t) <> replicate 4 x00 /\
    Conf t = Possible /\ exists v, Value t = Some v /\ 0 < v <= 2 ^ 240) (Transfers p).
Proof.
  intros Hs. rewrite Decode_guesses by done. intros [= <-]. simpl.
  destruct (guesses_sound NewHeuristicDecoder params) as (Hn & Hp & Hl).
  split; [by apply Hl|]. split; [done|].
  eapply Forall_impl; [exact Hp|]. intros t (? & ? & ? & ? & v & ? & ? & Hv & ?).
  split_and!; try done. exists v. unfold within in Hv. simpl in Hv.
  apply Is_true_true, andb_true_iff in Hv as [_ Hv%Z.leb_le]. done.
Qed.

Lemma Heuristic_Decode_plausible_witness :
  let params := replicate 12 x00 ++ replicate 20 xaa ++ enc_uint 5 in
  len (guesses NewHeuristicDecoder params) <= 64.
Proof.
  intros params.
  apply (Heuristic_Decode_plausible (replicate 4 x01) params (mkParsed (replicate 4 x01) (guesses NewHeuristicDecoder params)));
    vm_compute; [discriminate|reflexivity].
Defined.

(** The upper limit of a plausible value is inclusive: the decoder built by
    [NewHeuristicDecoder] accepts exactly the values in (0, 2^240], so 2^240 itself is
    reported although the constant's comment rejects values at or above 2^240. *)
Theorem Heuristic_limit_inclusive v :
  plausibleValue NewHeuristicDecoder v = Ok true <-> 0 < v <= 2 ^ 240.
Proof.
  unfold plausibleValue, NewHeuristicDecoder. cbn [minValue maxValue deref]. rewrite !bind_Ok.
  change (Z.shiftl 1 maxValueBits) with (2 ^ 240).
  destruct (Z.leb_spec v 0); [split; [done|lia]|].
  destruct (Z.ltb_spec v 0); [lia|]. rewrite ?bind_Ok.
  destruct (Z.ltb_spec (2 ^ 240) v); split; try done; lia.
Qed.
End Heuristic.
