(* ===== verification/Multicall.v ===== *)
(** The wrapper codecs, which hand inner calldata to a [SubParser]:
    [MulticallDecoder] (src/evm-lib/parser/codecs/multicall.go) and
    [Multicall3ValueDecoder] (src/evm-lib/parser/codecs/multicall3.go). They are proved
    against the interface only: what they need of the sub-parser is [sub_safe]. *)

From S2P Require Import Prelude Types Abi Decoder.
Import Types Abi AbiSpec Iface.
#[local] Open Scope Z_scope.

Module Multicall.

(** [sub] is [None] when the interface value is nil. *)
Record MulticallDecoder := NewMulticallDecoder { sub : option SubParser }.

Definition SetSubParser (d : MulticallDecoder) (s : SubParser) : MulticallDecoder :=
  NewMulticallDecoder (Some s).

Definition selMulticallBytes : Selector := [xac; x96; x50; xd8].
Definition selMulticallDeadline : Selector := [x5a; xe4; x01; xdc].
Definition selMulticallPrevHash : Selector := [x1f; x04; x64; xd1].
Definition selMC3Aggregate3 : Selector := [x82; xad; x56; xcb].
Definition selMC3TryAggregate : Selector := [xbc; xe3; x8b; xd7].
Definition selMC3Aggregate : Selector := [x25; x2d; xba; x42].

Definition can_decode (s : Selector) : bool :=
  bool_decide (s = selMulticallBytes) || bool_decide (s = selMulticallDeadline) ||
  bool_decide (s = selMulticallPrevHash) || bool_decide (s = selMC3Aggregate3) ||
  bool_decide (s = selMC3TryAggregate) || bool_decide (s = selMC3Aggregate).

Definition CanDecode (d : MulticallDecoder) (s : Selector) : bool := can_decode s.

(** The transfers of [out] after the call. *)
Definition appendSub (s : SubParser) (out : list Transfer) (raw : list byte)
    : outcome (list Transfer) :=
  if len raw <? selectorSize then Ok out
  else match s raw with
       | Ok (Some inner) => Ok (out ++ Transfers inner)
       | Ok None | Err _ => Ok out
       | Panic p => Panic p
       | NoFuel => NoFuel
       end.

Definition recurseBytesArray (s : SubParser) (sel : Selector) (params : list byte) (arrOff : Z) : result :=
  elems ← wrap "multicall: read elements: %w" [] (ReadBytesArrayElements params arrOff);
  out ← for_each elems (fun raw out => appendSub s out raw) [];
  Ok (Some (mkParsed sel out)).

Definition recurseTupleArray (s : SubParser) (sel : Selector) (params : list byte)
    (arrayHeadWord : Z) (bytesWordIdxInStruct : list Z) : result :=
  arrOff ← wrap "multicall: tuple array offset: %w" [] (ReadOffset params arrayHeadWord);
  count ← wrap "multicall: tuple array length: %w" [] (ReadArrayLength params arrOff);
  let headBase := arrOff +! wordSize in
  out ← for_range count (fun i out =>
    relOff ← wrap "multicall: tuple[%d] offset: %w" [AInt i]
               (ReadOffsetAt params (headBase +! i *! wordSize));
    let structBase := headBase +! relOff in
    for_each bytesWordIdxInStruct (fun wIdx out =>
      bytesRelOff ← wrap "multicall: tuple[%d] bytes offset: %w" [AInt i]
                      (ReadOffsetAt params (structBase +! wIdx *! wordSize));
      data ← wrap "multicall: tuple[%d] bytes: %w" [AInt i]
               (ReadDynamicBytesAt params (structBase +! bytesRelOff));
      appendSub s out data) out) [];
  Ok (Some (mkParsed sel out)).

Definition Decode (d : MulticallDecoder) (sel : Selector) (params : InputParams) : result :=
  match sub d with
  | None => Err (EFmt "multicall: no sub-parser configured" [])
  | Some s =>
      if bool_decide (sel = selMulticallBytes) then
        arrOff ← wrap "multicall: array offset: %w" [] (ReadOffset params 0);
        recurseBytesArray s sel params arrOff
      else if bool_decide (sel = selMulticallDeadline) || bool_decide (sel = selMulticallPrevHash) then
        arrOff ← wrap "multicall: array offset: %w" [] (ReadOffset params 1);
        recurseBytesArray s sel params arrOff
      else if bool_decide (sel = selMC3Aggregate3) then recurseTupleArray s sel params 0 [2]
      else if bool_decide (sel = selMC3TryAggregate) then recurseTupleArray s sel params 1 [1]
      else if bool_decide (sel = selMC3Aggregate) then recurseTupleArray s sel params 0 [1]
      else Err (EFmt "multicall: unsupported selector %s" [ABytes sel])
  end.

#[global] Instance Multicall_Decoder : Decoder MulticallDecoder :=
  {| Iface.CanDecode := CanDecode; Iface.Decode := Decode |}.

(** ** Inner calldata is always shorter than the parameters *)

Definition sub_transfers (s : SubParser) (raw : list byte) : list Transfer :=
  if len raw <? selectorSize then []
  else match s raw with Ok (Some inner) => Transfers inner | _ => [] end.

Lemma appendSub_safe s bound out raw :
  sub_safe bound s -> len raw < bound ->
  appendSub s out raw = Ok (out ++ sub_transfers s raw) /\ Forall transfer_wf (sub_transfers s raw).
Proof.
  intros Hs Hr. unfold appendSub, sub_transfers.
  destruct (len raw <? selectorSize); [by rewrite app_nil_r|].
  specialize (Hs raw Hr). destruct (s raw) as [[p|]| | |]; simpl in *; try done;
    rewrite ?app_nil_r; try done.
  destruct Hs as (sel & q & [= <-] & _ & Hwf). done.
Qed.

Lemma appendSub_ext s1 s2 bound out raw :
  (forall r, len r < bound -> s1 r = s2 r) -> len raw < bound ->
  appendSub s1 out raw = appendSub s2 out raw.
Proof. intros H Hr. unfold appendSub. by rewrite H. Qed.

(** The byte string in field [w] of the [i]-th struct. *)
Definition read_tuple_bytes (params : list byte) (headBase w i : Z) : outcome (list byte) :=
  relOff ← wrap "multicall: tuple[%d] offset: %w" [AInt i]
             (ReadOffsetAt params (headBase +! i *! wordSize));
  let structBase := headBase +! relOff in
  bytesRelOff ← wrap "multicall: tuple[%d] bytes offset: %w" [AInt i]
                  (ReadOffsetAt params (structBase +! w *! wordSize));
  wrap "multicall: tuple[%d] bytes: %w" [AInt i] (ReadDynamicBytesAt params (structBase +! bytesRelOff)).

(** One iteration of the tuple loop, for the one-field lists of [Decode]. *)
Lemma tuple_step s params headBase w i out :
  (relOff ← wrap "multicall: tuple[%d] offset: %w" [AInt i]
              (ReadOffsetAt params (headBase +! i *! wordSize));
   for_each [w] (fun wIdx out =>
     bytesRelOff ← wrap "multicall: tuple[%d] bytes offset: %w" [AInt i]
                     (ReadOffsetAt params (headBase +! relOff +! wIdx *! wordSize));
     data ← wrap "multicall: tuple[%d] bytes: %w" [AInt i]
              (ReadDynamicBytesAt params (headBase +! relOff +! bytesRelOff));
     appendSub s out data) out) =
  (data ← read_tuple_bytes params headBase w i; appendSub s out data).
Proof.
  unfold read_tuple_bytes. rewrite bind_assoc. apply bind_ext. intros rel _. cbn [for_each].
  rewrite bind_assoc. destruct (wrap _ _ (ReadOffsetAt _ _)); try done. rewrite !bind_Ok.
  destruct (wrap _ _ (ReadDynamicBytesAt _ _)); try done. rewrite !bind_Ok.
  by destruct (appendSub _ _ _).
Qed.

Lemma read_tuple_bytes_safe params headBase w i :
  0 <= headBase <= 2 ^ 40 -> 0 <= w <= 4 -> 0 <= i <= 10000 ->
  safe (fun d => len d < len params) (read_tuple_bytes params headBase w i).
Proof.
  unfold read_tuple_bytes, wordSize. intros. unwrap.
  eapply safe_bind; [apply safe_wrap, ReadOffsetAt_safe; unfold offset_max; lia|].
  intros rel [Hrel _]. unfold MaxInt32 in Hrel. unwrap.
  eapply safe_bind; [apply safe_wrap, ReadOffsetAt_safe; unfold offset_max; lia|].
  intros brel [Hbrel _]. unfold MaxInt32 in Hbrel. unwrap.
  eapply safe_mono; [apply safe_wrap, ReadDynamicBytesAt_safe; unfold offset_max; lia|].
  simpl. lia.
Qed.

Definition tuple_bytes_at (params : list byte) (headBase w : Z) (i : Z) (d : list byte) : Prop :=
  exists rel brel,
    offset_at params (headBase + 32 * i) rel /\
    offset_at params (headBase + rel + 32 * w) brel /\
    bytes_at params (headBase + rel + brel) d.

Lemma read_tuple_bytes_iff params headBase w i d :
  0 <= headBase <= 2 ^ 40 -> 0 <= w <= 4 -> 0 <= i <= 10000 ->
  read_tuple_bytes params headBase w i = Ok d <-> tuple_bytes_at params headBase w i d.
Proof.
  unfold read_tuple_bytes, tuple_bytes_at, wordSize. intros. unwrap.
  rewrite (Z.mul_comm i), (Z.mul_comm w), bind_ok_iff. apply exist_proper. intros rel.
  rewrite wrap_ok_iff, ReadOffsetAt_iff by (unfold offset_max; lia).
  rewrite bind_ok_iff. split.
  - intros [Hrel (brel & Hb & Hd)]. pose proof Hrel as [[? _] ?]. unfold MaxInt32 in *. unwrap.
    rewrite wrap_ok_iff, ReadOffsetAt_iff in Hb by (unfold offset_max; lia).
    pose proof Hb as [[? _] ?]. unfold MaxInt32 in *. unwrap.
    rewrite wrap_ok_iff, ReadDynamicBytesAt_iff in Hd by (unfold offset_max; lia). by exists brel.
  - intros (brel & Hrel & Hb & Hd). split; [done|]. exists brel.
    pose proof Hrel as [[? _] ?]. pose proof Hb as [[? _] ?]. unfold MaxInt32 in *. unwrap.
    rewrite !wrap_ok_iff, ReadOffsetAt_iff, ReadDynamicBytesAt_iff by (unfold offset_max; lia). done.
Qed.

(** All the byte strings of a tuple array. *)
Definition read_tuples (params : list byte) (headBase w count : Z) : outcome (list (list byte)) :=
  for_range count (fun i acc => d ← read_tuple_bytes params headBase w i; Ok (acc ++ [d])) [].

Lemma read_tuples_safe params headBase w count :
  0 <= headBase <= 2 ^ 40 -> 0 <= w <= 4 -> 0 <= count <= 10000 ->
  safe (Forall (fun d => len d < len params)) (read_tuples params headBase w count).
Proof.
  intros. apply (for_range_safe (fun _ => Forall (fun d => len d < len params))); [lia| |done].
  intros i acc Hi Hacc. eapply safe_bind; [apply read_tuple_bytes_safe; lia|].
  intros d Hd. apply safe_ok, Forall_app. auto.
Qed.

Lemma read_tuples_iff params headBase w count ds :
  0 <= headBase <= 2 ^ 40 -> 0 <= w <= 4 -> 0 <= count <= 10000 ->
  read_tuples params headBase w count = Ok ds <->
  len ds = count /\ forall i d, ds !! i = Some d -> tuple_bytes_at params headBase w (Z.of_nat i) d.
Proof.
  intros. unfold read_tuples. rewrite (for_range_collect1 (read_tuple_bytes params headBase w)) by (done || lia).
  split; intros [Hl H']; (split; [done|]); intros i d Hi; specialize (H' i d Hi);
    apply lookup_lt_Some in Hi; unfold len in Hl;
    [apply read_tuple_bytes_iff in H' | apply read_tuple_bytes_iff]; (done || lia).
Qed.

(** ** The wrappers, with a safe sub-parser: read all payloads, then concatenate *)
Section safe_sub.
Context (s : SubParser) (params : list byte) (Hs : sub_safe (len params) s).

Definition payload_transfers (ds : list (list byte)) : list Transfer :=
  concat (map (sub_transfers s) ds).

Lemma payload_transfers_wf ds :
  Forall (fun d => len d < len params) ds -> Forall transfer_wf (payload_transfers ds).
Proof using Hs.
  intros Hds. apply Forall_concat, Forall_map. eapply Forall_impl; [done|].
  intros d Hd. by eapply (appendSub_safe s (len params) []).
Qed.

Lemma recurseBytesArray_eq sel arrOff :
  0 <= arrOff <= MaxInt32 ->
  recurseBytesArray s sel params arrOff =
    (elems ← wrap "multicall: read elements: %w" [] (ReadBytesArrayElements params arrOff);
     Ok (Some (mkParsed sel (payload_transfers elems)))).
Proof using Hs.
  intros Ho. unfold recurseBytesArray. apply bind_ext. intros ds Hds%wrap_ok_inv.
  pose proof (safe_inv_ok _ _ _ (ReadBytesArrayElements_safe params arrOff Ho) Hds) as Hlen.
  rewrite Forall_forall in Hlen.
  rewrite (for_each_fold ds _ (fun d out => out ++ sub_transfers s d)).
  - by rewrite bind_Ok, fold_left_app_concat.
  - intros d out Hd. apply (appendSub_safe s (len params)); [done|]. by apply Hlen.
Qed.

Lemma recurseTupleArray_eq sel h w :
  0 <= h <= 4 -> 0 <= w <= 4 ->
  recurseTupleArray s sel params h [w] =
    (arrOff ← wrap "multicall: tuple array offset: %w" [] (ReadOffset params h);
     count ← wrap "multicall: tuple array length: %w" [] (ReadArrayLength params arrOff);
     ds ← read_tuples params (arrOff + 32) w count;
     Ok (Some (mkParsed sel (payload_transfers ds)))).
Proof using Hs.
  intros Hh Hw. unfold recurseTupleArray. apply bind_ext. intros off Hoff%wrap_ok_inv.
  pose proof (safe_inv_ok _ _ _ (ReadOffset_safe params h Hh) Hoff) as Ho. simpl in Ho.
  apply bind_ext. intros count Hcount%wrap_ok_inv.
  assert (off <= offset_max) as Hom by (unfold offset_max, MaxInt32 in *; lia).
  pose proof (safe_inv_ok _ _ _ (ReadArrayLength_safe params off Hom) Hcount) as [Hc _].
  unfold MaxInt32 in Ho.
  replace (off +! wordSize) with (off + 32) by (unfold wordSize; unwrap; lia).
  rewrite (for_range_fusion (read_tuple_bytes params (off + 32) w) (sub_transfers s) _
    (fun i acc => d ← read_tuple_bytes params (off + 32) w i; Ok (acc ++ [d]))) by
    (first [lia | done | intros i acc Hi; rewrite tuple_step; apply bind_ext; intros d Hd;
       apply (appendSub_safe s (len params)); [done|];
       eapply (safe_inv_ok (fun d => len d < len params)); [apply read_tuple_bytes_safe|exact Hd]; lia]).
  by rewrite bind_assoc.
Qed.
End safe_sub.

Lemma payload_transfers_ext s1 s2 bound ds :
  (forall r, len r < bound -> s1 r = s2 r) -> Forall (fun d => len d < bound) ds ->
  payload_transfers s1 ds = payload_transfers s2 ds.
Proof.
  intros H Hds. unfold payload_transfers. f_equal.
  induction Hds as [|d ds Hd _ IH]; simpl; [done|]. rewrite IH. unfold sub_transfers. by rewrite H.
Qed.

Lemma recurseBytesArray_safe s sel params arrOff :
  sub_safe (len params) s -> 0 <= arrOff <= MaxInt32 ->
  safe (result_ok sel) (recurseBytesArray s sel params arrOff).
Proof.
  intros Hs Ho. rewrite recurseBytesArray_eq by done.
  eapply safe_bind; [by apply safe_wrap, ReadBytesArrayElements_safe|].
  intros ds Hds. apply safe_ok, result_ok_intro. by eapply payload_transfers_wf.
Qed.

Lemma recurseBytesArray_ext s1 s2 sel params arrOff :
  sub_safe (len params) s1 -> sub_safe (len params) s2 ->
  (forall r, len r < len params -> s1 r = s2 r) -> 0 <= arrOff <= MaxInt32 ->
  recurseBytesArray s1 sel params arrOff = recurseBytesArray s2 sel params arrOff.
Proof.
  intros H1 H2 H Ho. rewrite !recurseBytesArray_eq by done.
  apply bind_ext. intros ds Hds%wrap_ok_inv. do 3 f_equal.
  eapply payload_transfers_ext; [exact H|].
  exact (safe_inv_ok _ _ _ (ReadBytesArrayElements_safe params arrOff Ho) Hds).
Qed.

(** The head of a tuple-array call: what follows runs on a checked offset and count. *)
Lemma tuple_head_safe {A} (P : A -> Prop) params h fmt1 fmt2 (k : Z -> Z -> outcome A) :
  0 <= h <= 4 ->
  (forall off count, 0 <= off <= MaxInt32 -> 0 <= count <= 10000 -> safe P (k off count)) ->
  safe P (off ← wrap fmt1 [] (ReadOffset params h);
          count ← wrap fmt2 [] (ReadArrayLength params off); k off count).
Proof.
  intros Hh Hk. eapply safe_bind; [by apply safe_wrap, ReadOffset_safe|].
  intros off Ho. eapply safe_bind.
  { apply safe_wrap, ReadArrayLength_safe. unfold offset_max, MaxInt32 in *. lia. }
  intros count [Hc _]. by apply Hk.
Qed.

Lemma tuple_head_iff {A} params h fmt1 fmt2 (k : Z -> Z -> outcome A) a :
  0 <= h <= 4 ->
  (off ← wrap fmt1 [] (ReadOffset params h);
   count ← wrap fmt2 [] (ReadArrayLength params off); k off count) = Ok a <->
  exists off count, offset_at params (32 * h) off /\ count_at params off count /\ k off count = Ok a.
Proof.
  intros Hh. rewrite bind_ok_iff. apply exist_proper. intros off.
  rewrite wrap_ok_iff, ReadOffset_iff, bind_ok_iff by done. setoid_rewrite wrap_ok_iff.
  split.
  - intros (Ho & count & Hc & Hk). pose proof Ho as [[? _] ?].
    rewrite ReadArrayLength_iff in Hc by (unfold offset_max, MaxInt32 in *; lia). eauto.
  - intros (count & Ho & Hc & Hk). pose proof Ho as [[? _] ?]. split; [done|]. exists count.
    rewrite ReadArrayLength_iff by (unfold offset_max, MaxInt32 in *; lia). done.
Qed.

Lemma recurseTupleArray_safe s sel params h w :
  sub_safe (len params) s -> 0 <= h <= 4 -> 0 <= w <= 4 ->
  safe (result_ok sel) (recurseTupleArray s sel params h [w]).
Proof.
  intros Hs Hh Hw. rewrite recurseTupleArray_eq by done. apply tuple_head_safe; [done|].
  unfold MaxInt32. intros off count Ho Hc.
  eapply safe_bind; [apply read_tuples_safe; lia|].
  intros ds Hds. apply safe_ok, result_ok_intro. by eapply payload_transfers_wf.
Qed.

Lemma recurseTupleArray_ext s1 s2 sel params h w :
  sub_safe (len params) s1 -> sub_safe (len params) s2 ->
  (forall r, len r < len params -> s1 r = s2 r) -> 0 <= h <= 4 -> 0 <= w <= 4 ->
  recurseTupleArray s1 sel params h [w] = recurseTupleArray s2 sel params h [w].
Proof.
  intros H1 H2 H Hh Hw. rewrite !recurseTupleArray_eq by done.
  apply bind_ext. intros off Hoff%wrap_ok_inv.
  pose proof (safe_inv_ok _ _ _ (ReadOffset_safe params h Hh) Hoff) as Ho.
  unfold MaxInt32 in Ho. simpl in Ho.
  apply bind_ext. intros count Hcount%wrap_ok_inv.
  assert (off <= offset_max) as Hom by (unfold offset_max; lia).
  pose proof (safe_inv_ok _ _ _ (ReadArrayLength_safe params off Hom) Hcount) as [Hc _].
  apply bind_ext. intros ds Hds. do 3 f_equal.
  eapply payload_transfers_ext; [exact H|].
  eapply (safe_inv_ok _ _ _ (read_tuples_safe params (off + 32) w count ltac:(lia) Hw Hc)); exact Hds.
Qed.

Lemma Decode_safe d sel params :
  (forall s, sub d = Some s -> sub_safe (len params) s) -> safe (result_ok sel) (Decode d sel params).
Proof.
  unfold Decode. destruct (sub d) as [s|]; [|done]. intros Hs. specialize (Hs s eq_refl).
  repeat (apply safe_if; intros _);
    try (eapply safe_bind; [apply safe_wrap, ReadOffset_safe; lia|];
         intros; by apply recurseBytesArray_safe);
    try (apply recurseTupleArray_safe; [done|lia..]); done.
Qed.

Lemma Decode_ext s1 s2 sel params :
  sub_safe (len params) s1 -> sub_safe (len params) s2 ->
  (forall r, len r < len params -> s1 r = s2 r) ->
  Decode (NewMulticallDecoder (Some s1)) sel params = Decode (NewMulticallDecoder (Some s2)) sel params.
Proof.
  intros H1 H2 H. unfold Decode. simpl sub. cbv iota.
  repeat case_bool_decide; cbn [orb];
    try (apply bind_ext; intros off Hoff%wrap_ok_inv; apply recurseBytesArray_ext; try done;
         eapply (safe_inv_ok _ _ _ (ReadOffset_safe params _ _)); exact Hoff);
    try (apply recurseTupleArray_ext; (done || lia)); done.
  Unshelve. all: lia.
Qed.

Lemma Decode_reject d sel params : CanDecode d sel = false -> is_err (Decode d sel params).
Proof.
  unfold CanDecode, can_decode, Decode. rewrite !orb_false_iff, !bool_decide_eq_false.
  intros [[[[[? ?] ?] ?] ?] ?]. destruct (sub d); [|by eexists].
  rewrite !bool_decide_eq_false_2 by done. by eexists.
Qed.

(** ** Layout of the payloads *)

Definition bytes_payloads (params : list byte) (h : Z) (ds : list (list byte)) : Prop :=
  exists off, offset_at params (32 * h) off /\ bytes_array_at params off ds.

Definition tuple_payloads (params : list byte) (h w : Z) (ds : list (list byte)) : Prop :=
  exists off, offset_at params (32 * h) off /\ count_at params off (len ds) /\
    forall i d, ds !! i = Some d -> tuple_bytes_at params (off + 32) w (Z.of_nat i) d.

(** Where each of the six selectors keeps its inner calldata. *)
Definition payloads_at (sel : Selector) (params : list byte) (ds : list (list byte)) : Prop :=
  (sel = selMulticallBytes /\ bytes_payloads params 0 ds) \/
  ((sel = selMulticallDeadline \/ sel = selMulticallPrevHash) /\ bytes_payloads params 1 ds) \/
  (sel = selMC3Aggregate3 /\ tuple_payloads params 0 2 ds) \/
  (sel = selMC3TryAggregate /\ tuple_payloads params 1 1 ds) \/
  (sel = selMC3Aggregate /\ tuple_payloads params 0 1 ds).

Lemma recurseBytesArray_iff s sel params h fmt r :
  sub_safe (len params) s -> 0 <= h <= 4 ->
  (off ← wrap fmt [] (ReadOffset params h); recurseBytesArray s sel params off) = Ok r <->
  exists ds, bytes_payloads params h ds /\ r = Some (mkParsed sel (payload_transfers s ds)).
Proof.
  intros Hs Hh. rewrite bind_ok_iff. unfold bytes_payloads. split.
  - intros (off & Hoff & Hr). rewrite wrap_ok_iff, ReadOffset_iff in Hoff by done.
    pose proof Hoff as [[? _] ?]. rewrite recurseBytesArray_eq in Hr by (done || lia).
    inv_ok. apply ReadBytesArrayElements_layout in Ha; [|lia]. exists a. eauto.
  - intros (ds & (off & Hoff & Hds) & ->). exists off. rewrite wrap_ok_iff, ReadOffset_iff by done.
    pose proof Hoff as [[? _] ?]. split; [done|]. rewrite recurseBytesArray_eq by (done || lia).
    rewrite (proj2 (ReadBytesArrayElements_layout params off ds ltac:(lia)) Hds). done.
Qed.

Lemma recurseTupleArray_iff s sel params h w r :
  sub_safe (len params) s -> 0 <= h <= 4 -> 0 <= w <= 4 ->
  recurseTupleArray s sel params h [w] = Ok r <->
  exists ds, tuple_payloads params h w ds /\ r = Some (mkParsed sel (payload_transfers s ds)).
Proof.
  intros Hs Hh Hw. rewrite recurseTupleArray_eq, tuple_head_iff by done. unfold tuple_payloads. split.
  - intros (off & count & Ho & Hc & H). pose proof Ho as [[? _] ?]. pose proof Hc as [[? _] ?].
    unfold MaxInt32 in *. inv_ok. apply read_tuples_iff in Ha as [<- Ha]; [|lia..]. exists a. eauto.
  - intros (ds & (off & Ho & Hc & Hds) & ->). exists off, (len ds).
    pose proof Ho as [[? _] ?]. pose proof Hc as [[? _] ?]. unfold MaxInt32 in *.
    split; [done|split; [done|]].
    rewrite (proj2 (read_tuples_iff params (off + 32) w (len ds) ds ltac:(lia) Hw ltac:(lia))); [done|].
    by split.
Qed.

Lemma Decode_iff s sel params r :
  sub_safe (len params) s ->
  Decode (NewMulticallDecoder (Some s)) sel params = Ok r <->
  exists ds, payloads_at sel params ds /\ r = Some (mkParsed sel (payload_transfers s ds)).
Proof.
  intros Hs. unfold Decode, payloads_at. simpl sub. cbv iota.
  repeat case_bool_decide; subst; cbn [orb];
    rewrite ?recurseBytesArray_iff, ?recurseTupleArray_iff by (assumption || lia);
    try (apply exist_proper; intros ds; naive_solver).
  naive_solver.
Qed.

(** C4: the multicall codec against any well-behaved sub-parser: it never panics; it
    succeeds exactly when the inner payloads [ds] stand where the selector's signature
    puts them, and then reports the concatenation, in order, of what the sub-parser
    finds in each payload, where a payload that is too short or does not parse adds
    nothing and does not fail the batch. *)
Theorem Multicall_Decode_spec s sel params :
  sub_safe (len params) s ->
  safe (result_ok sel) (Decode (NewMulticallDecoder (Some s)) sel params) /\
  forall r, Decode (NewMulticallDecoder (Some s)) sel params = Ok r <->
    exists ds, payloads_at sel params ds /\
      r = Some (mkParsed sel (concat (map (sub_transfers s) ds))).
Proof.
  intros Hs. split; [apply Decode_safe; by intros ? [= <-]|].
  intros r. fold (payload_transfers s). by apply Decode_iff.
Qed.

(** A sub-parser that knows five-byte calldata only, and a batch of three calls. *)
Lemma Multicall_Decode_spec_witness :
  Decode (NewMulticallDecoder (Some (fun raw => if len raw =? 5
      then Ok (Some (mkParsed (take 4 raw) [transfer_to ZeroAddress (Some 7) Likely]))
      else Err (EFmt "no decoder" [])))) selMulticallBytes
    (AbiSpec.enc_uint 32 ++ AbiEnc.enc_bytes_array [str "ab"; str "abcde"; str "abcdef"]) =
  Ok (Some (mkParsed selMulticallBytes [transfer_to ZeroAddress (Some 7) Likely])).
Proof.
  apply Multicall_Decode_spec.
  - intros raw _. destruct (Z.eqb_spec (len raw) 5) as [Hl|]; [|apply safe_err].
    apply safe_ok. exists (take 4 raw). apply result_ok_one, transfer_to_wf; [apply ZeroAddress_wf|].
    unfold value_wf. lia.
  - exists [str "ab"; str "abcde"; str "abcdef"]. split; [|reflexivity].
    left. split; [done|]. exists 32. split; [by_layout|].
    apply AbiEnc.enc_bytes_array_layout; [lia|vm_compute; discriminate..|by_layout].
Defined.
End Multicall.

Module Multicall3.
Import Multicall.

Record Multicall3ValueDecoder := NewMulticall3ValueDecoder { sub : option SubParser }.

Definition SetSubParser (d : Multicall3ValueDecoder) (s : SubParser) : Multicall3ValueDecoder :=
  NewMulticall3ValueDecoder (Some s).

Definition selMC3Aggregate3Value : Selector := [x17; x4d; xea; x71].

Definition CanDecode (d : Multicall3ValueDecoder) (s : Selector) : bool :=
  bool_decide (s = selMC3Aggregate3Value).

(** The transfers of [out] after the inner calldata was offered to the sub-parser. *)
Definition append_inner (s : option SubParser) (out : list Transfer) (callData : list byte)
    : outcome (list Transfer) :=
  match s with
  | Some s =>
      if 4 <=? len callData then
        match s callData with
        | Ok (Some inner) => Ok (out ++ Transfers inner)
        | Ok None | Err _ => Ok out
        | Panic p => Panic p
        | NoFuel => NoFuel
        end
      else Ok out
  | None => Ok out
  end.

Definition Decode (d : Multicall3ValueDecoder) (sel : Selector) (params : InputParams) : result :=
  if negb (bool_decide (sel = selMC3Aggregate3Value))
  then Err (EFmt "multicall3: unsupported selector %s" [ABytes sel])
  else
    arrOff ← wrap "multicall3: array offset: %w" [] (ReadOffset params 0);
    count ← wrap "multicall3: array length: %w" [] (ReadArrayLength params arrOff);
    let headBase := arrOff +! wordSize in
    out ← for_range count (fun i out =>
      relOff ← wrap "multicall3: tuple[%d] offset: %w" [AInt i]
                 (ReadOffsetAt params (headBase +! i *! wordSize));
      let structBase := headBase +! relOff in
      target ← wrap "multicall3: tuple[%d] target: %w" [AInt i]
                 (ReadAddressAt params (structBase +! 0 *! wordSize));
      value ← wrap "multicall3: tuple[%d] value: %w" [AInt i]
                (ReadUint256At params (structBase +! 2 *! wordSize));
      bytesRelOff ← wrap "multicall3: tuple[%d] bytes offset: %w" [AInt i]
                      (ReadOffsetAt params (structBase +! 3 *! wordSize));
      callData ← wrap "multicall3: tuple[%d] callData: %w" [AInt i]
                   (ReadDynamicBytesAt params (structBase +! bytesRelOff));
      let out := if 0 <? value
                 then out ++ [transfer_to target (Some value) Deterministic] else out in
      append_inner (sub d) out callData) [];
    Ok (Some (mkParsed sel out)).

#[global] Instance Multicall3_Decoder : Decoder Multicall3ValueDecoder :=
  {| Iface.CanDecode := CanDecode; Iface.Decode := Decode |}.

(** ** One call of the batch *)

Record call := mkCall { c_target : Address; c_value : Z; c_data : list byte }.

Definition read_call (params : list byte) (headBase i : Z) : outcome call :=
  relOff ← wrap "multicall3: tuple[%d] offset: %w" [AInt i]
             (ReadOffsetAt params (headBase +! i *! wordSize));
  let structBase := headBase +! relOff in
  target ← wrap "multicall3: tuple[%d] target: %w" [AInt i]
             (ReadAddressAt params (structBase +! 0 *! wordSize));
  value ← wrap "multicall3: tuple[%d] value: %w" [AInt i]
            (ReadUint256At params (structBase +! 2 *! wordSize));
  bytesRelOff ← wrap "multicall3: tuple[%d] bytes offset: %w" [AInt i]
                  (ReadOffsetAt params (structBase +! 3 *! wordSize));
  callData ← wrap "multicall3: tuple[%d] callData: %w" [AInt i]
               (ReadDynamicBytesAt params (structBase +! bytesRelOff));
  Ok (mkCall target value callData).

Definition call_at (params : list byte) (headBase i : Z) (c : call) : Prop :=
  exists rel brel,
    offset_at params (headBase + 32 * i) rel /\
    address_at params (headBase + rel) (c_target c) /\
    uint_at params (headBase + rel + 64) (c_value c) /\
    offset_at params (headBase + rel + 96) brel /\
    bytes_at params (headBase + rel + brel) (c_data c).

Definition inner_transfers (s : option SubParser) (raw : list byte) : list Transfer :=
  match s with Some s => sub_transfers s raw | None => [] end.

(** The transfer of the call itself, then those found in its calldata. *)
Definition call_transfers (s : option SubParser) (c : call) : list Transfer :=
  (if 0 <? c_value c then [transfer_to (c_target c) (Some (c_value c)) Deterministic] else []) ++
  inner_transfers s (c_data c).

Lemma append_inner_safe s bound out raw :
  (forall s', s = Some s' -> sub_safe bound s') -> len raw < bound ->
  append_inner s out raw = Ok (out ++ inner_transfers s raw) /\
  Forall transfer_wf (inner_transfers s raw).
Proof.
  intros Hs Hr. destruct s as [s|]; simpl; [|by rewrite app_nil_r].
  destruct (appendSub_safe s bound out raw (Hs s eq_refl) Hr) as [He Hwf]. split; [|done].
  rewrite <-He. unfold appendSub, selectorSize. rewrite Z.leb_antisym.
  by destruct (len raw <? 4).
Qed.

Lemma read_call_safe params headBase i :
  0 <= headBase <= 2 ^ 40 -> 0 <= i <= 10000 ->
  safe (fun c => address_wf (c_target c) /\ value_wf (Some (c_value c)) /\ len (c_data c) < len params)
    (read_call params headBase i).
Proof.
  unfold read_call, wordSize. intros. unwrap.
  eapply safe_bind; [apply safe_wrap, ReadOffsetAt_safe; unfold offset_max; lia|].
  intros rel [Hrel _]. unfold MaxInt32 in Hrel. unwrap.
  eapply safe_bind; [apply safe_wrap, ReadAddressAt_safe; unfold offset_max; lia|].
  intros target [Ht _].
  eapply safe_bind; [apply safe_wrap, ReadUint256At_safe; unfold offset_max; lia|].
  intros value [Hv _].
  eapply safe_bind; [apply safe_wrap, ReadOffsetAt_safe; unfold offset_max; lia|].
  intros brel [Hbrel _]. unfold MaxInt32 in Hbrel. unwrap.
  eapply safe_bind; [apply safe_wrap, ReadDynamicBytesAt_safe; unfold offset_max; lia|].
  intros data [Hd _]. apply safe_ok. simpl. split; [done|split; [done|lia]].
Qed.

Lemma read_call_iff params headBase i c :
  0 <= headBase <= 2 ^ 40 -> 0 <= i <= 10000 ->
  read_call params headBase i = Ok c <-> call_at params headBase i c.
Proof.
  unfold read_call, call_at, wordSize. intros. unwrap. rewrite (Z.mul_comm i). split.
  - intros H'. inv_ok.
    apply ReadOffsetAt_iff in Ha; [|unfold offset_max; lia].
    pose proof Ha as [[? _] ?]. unfold MaxInt32 in *. unwrap. rewrite Z.add_0_r in Ha0.
    apply ReadAddressAt_iff in Ha0; [|unfold offset_max; lia].
    apply ReadUint256At_iff in Ha1; [|unfold offset_max; lia].
    apply ReadOffsetAt_iff in Ha2; [|unfold offset_max; lia].
    pose proof Ha2 as [[? _] ?]. unfold MaxInt32 in *. unwrap.
    apply ReadDynamicBytesAt_iff in Ha3; [|unfold offset_max; lia].
    subst c. exists a, a2. done.
  - intros (rel & brel & Hr & Ht & Hv & Hb & Hd).
    pose proof Hr as [[? _] ?]. pose proof Hb as [[? _] ?]. unfold MaxInt32 in *. unwrap.
    rewrite (proj2 (ReadOffsetAt_iff params (headBase + 32 * i) rel ltac:(unfold offset_max; lia)) Hr).
    autorewrite with run. unwrap. rewrite Z.add_0_r.
    rewrite (proj2 (ReadAddressAt_iff params (headBase + rel) (c_target c) ltac:(unfold offset_max; lia)) Ht).
    autorewrite with run.
    rewrite (proj2 (ReadUint256At_iff params (headBase + rel + 64) (c_value c) ltac:(unfold offset_max; lia)) Hv : ReadUint256At _ (headBase + rel + 2 * 32) = _).
    autorewrite with run.
    rewrite (proj2 (ReadOffsetAt_iff params (headBase + rel + 96) brel ltac:(unfold offset_max; lia)) Hb : ReadOffsetAt _ (headBase + rel + 3 * 32) = _).
    autorewrite with run. unwrap.
    rewrite (proj2 (ReadDynamicBytesAt_iff params (headBase + rel + brel) (c_data c) ltac:(unfold offset_max; lia)) Hd).
    by destruct c.
Qed.

Definition read_calls (params : list byte) (headBase count : Z) : outcome (list call) :=
  for_range count (fun i acc => c ← read_call params headBase i; Ok (acc ++ [c])) [].

Definition call_wf (params : list byte) (c : call) : Prop :=
  address_wf (c_target c) /\ value_wf (Some (c_value c)) /\ len (c_data c) < len params.

Lemma read_calls_safe params headBase count :
  0 <= headBase <= 2 ^ 40 -> 0 <= count <= 10000 ->
  safe (Forall (call_wf params)) (read_calls params headBase count).
Proof.
  intros. apply (for_range_safe (fun _ => Forall (call_wf params))); [lia| |done].
  intros i acc Hi Hacc. eapply safe_bind; [apply read_call_safe; lia|].
  intros c Hc. apply safe_ok, Forall_app. auto.
Qed.

Lemma read_calls_iff params headBase count cs :
  0 <= headBase <= 2 ^ 40 -> 0 <= count <= 10000 ->
  read_calls params headBase count = Ok cs <->
  len cs = count /\ forall i c, cs !! i = Some c -> call_at params headBase (Z.of_nat i) c.
Proof.
  intros. unfold read_calls. rewrite (for_range_collect1 (read_call params headBase)) by (done || lia).
  split; intros [Hl H']; (split; [done|]); intros i c Hi; specialize (H' i c Hi);
    apply lookup_lt_Some in Hi; unfold len in Hl;
    [apply read_call_iff in H' | apply read_call_iff]; (done || lia).
Qed.

Lemma call_transfers_wf s params c :
  (forall s', s = Some s' -> sub_safe (len params) s') -> call_wf params c ->
  Forall transfer_wf (call_transfers s c).
Proof.
  intros Hs (Ht & Hv & Hd). unfold call_transfers. apply Forall_app. split.
  - destruct (0 <? c_value c); [|done]. constructor; [by apply transfer_to_wf|done].
  - by eapply (append_inner_safe s (len params) []).
Qed.

(** With a safe sub-parser the batch is read first and concatenated afterwards. *)
Lemma Decode_eq d params :
  (forall s', sub d = Some s' -> sub_safe (len params) s') ->
  Decode d selMC3Aggregate3Value params =
    (off ← wrap "multicall3: array offset: %w" [] (ReadOffset params 0);
     count ← wrap "multicall3: array length: %w" [] (ReadArrayLength params off);
     cs ← read_calls params (off + 32) count;
     Ok (Some (mkParsed selMC3Aggregate3Value (concat (map (call_transfers (sub d)) cs))))).
Proof.
  intros Hs. unfold Decode. rewrite bool_decide_eq_true_2 by done. cbn [negb].
  apply bind_ext. intros off Hoff%wrap_ok_inv.
  pose proof (safe_inv_ok _ _ _ (ReadOffset_safe params 0 ltac:(lia)) Hoff) as Ho.
  simpl in Ho. unfold MaxInt32 in Ho.
  apply bind_ext. intros count Hcount%wrap_ok_inv.
  assert (off <= offset_max) as Hom by (unfold offset_max; lia).
  pose proof (safe_inv_ok _ _ _ (ReadArrayLength_safe params off Hom) Hcount) as [Hc _].
  replace (off +! wordSize) with (off + 32) by (unfold wordSize; unwrap; lia).
  rewrite (for_range_fusion (read_call params (off + 32)) (call_transfers (sub d)) _
    (fun i acc => c ← read_call params (off + 32) i; Ok (acc ++ [c]))); [|lia| |done].
  - by rewrite bind_assoc.
  - intros i acc Hi.
    transitivity (c ← read_call params (off + 32) i;
      append_inner (sub d) (if 0 <? c_value c
        then acc ++ [transfer_to (c_target c) (Some (c_value c)) Deterministic] else acc) (c_data c)).
    { unfold read_call. cbv zeta. repeat (rewrite bind_assoc; apply bind_ext; intros ? _). done. }
    apply bind_ext. intros c Hcall.
    pose proof (safe_inv_ok _ _ _ (read_call_safe params (off + 32) i ltac:(lia) ltac:(lia)) Hcall) as (_ & _ & Hd).
    destruct (append_inner_safe (sub d) (len params)
      (if 0 <? c_value c then acc ++ [transfer_to (c_target c) (Some (c_value c)) Deterministic] else acc)
      (c_data c) Hs Hd) as [-> _].
    unfold call_transfers. destruct (0 <? c_value c); [|done]. by rewrite <-app_assoc.
Qed.

Lemma Decode3_reject d sel params : CanDecode d sel = false -> is_err (Decode d sel params).
Proof. unfold CanDecode, Decode. intros ->. by eexists. Qed.

Lemma Decode3_safe d sel params :
  (forall s, sub d = Some s -> sub_safe (len params) s) -> safe (result_ok sel) (Decode d sel params).
Proof.
  intros Hs. destruct (decide (sel = selMC3Aggregate3Value)) as [->|Hne].
  - rewrite Decode_eq by done. apply tuple_head_safe; [lia|]. unfold MaxInt32. intros off count Ho Hc.
    eapply safe_bind; [apply read_calls_safe; lia|]. intros cs Hcs.
    apply safe_ok, result_ok_intro, Forall_concat, Forall_map.
    eapply Forall_impl; [done|]. intros c Hcall. by eapply call_transfers_wf.
  - unfold Decode. by rewrite bool_decide_eq_false_2.
Qed.

Lemma Decode3_ext s1 s2 sel params :
  sub_safe (len params) s1 -> sub_safe (len params) s2 ->
  (forall r, len r < len params -> s1 r = s2 r) ->
  Decode (NewMulticall3ValueDecoder (Some s1)) sel params =
  Decode (NewMulticall3ValueDecoder (Some s2)) sel params.
Proof.
  intros H1 H2 H. destruct (decide (sel = selMC3Aggregate3Value)) as [->|Hne].
  - rewrite !Decode_eq by (by intros ? [= <-]). simpl sub.
    apply bind_ext. intros off Hoff%wrap_ok_inv.
    pose proof (safe_inv_ok _ _ _ (ReadOffset_safe params 0 ltac:(lia)) Hoff) as Ho.
    simpl in Ho. unfold MaxInt32 in Ho.
    apply bind_ext. intros count Hcount%wrap_ok_inv.
    assert (off <= offset_max) as Hom by (unfold offset_max; lia).
    pose proof (safe_inv_ok _ _ _ (ReadArrayLength_safe params off Hom) Hcount) as [Hc _].
    apply bind_ext. intros cs Hcs. do 3 f_equal.
    assert (Forall (call_wf params) cs) as Hwf
      by exact (safe_inv_ok _ _ _ (read_calls_safe params (off + 32) count ltac:(lia) Hc) Hcs).
    f_equal. clear Hcs. induction Hwf as [|c cs (_ & _ & Hd) _ IH]; cbn [map]; [done|].
    rewrite IH. unfold call_transfers, inner_transfers, sub_transfers. by rewrite H.
  - unfold Decode. by rewrite bool_decide_eq_false_2.
Qed.

(** C27: [aggregate3Value] against any well-behaved sub-parser (or none): the codec never
    panics, and it succeeds exactly when the array of call structs is laid out in the
    parameters; each call then contributes, in order, a deterministic transfer of its
    positive value to its target and what the sub-parser finds in its calldata. *)
Theorem Multicall3_Decode_spec d sel params :
  (forall s, sub d = Some s -> sub_safe (len params) s) ->
  safe (result_ok sel) (Decode d sel params) /\
  forall r, Decode d sel params = Ok r <->
    sel = selMC3Aggregate3Value /\ exists off cs,
      offset_at params 0 off /\ count_at params off (len cs) /\
      (forall i c, cs !! i = Some c -> call_at params (off + 32) (Z.of_nat i) c) /\
      r = Some (mkParsed sel (concat (map (call_transfers (sub d)) cs))).
Proof.
  intros Hs. split; [by apply Decode3_safe|]. intros r.
  destruct (decide (sel = selMC3Aggregate3Value)) as [->|Hne];
    [|unfold Decode; rewrite bool_decide_eq_false_2 by done; naive_solver].
  rewrite Decode_eq, tuple_head_iff by (done || lia). split.
  - intros (off & count & Ho & Hc & H). split; [done|].
    pose proof Ho as [[? _] ?]. pose proof Hc as [[? _] ?]. unfold MaxInt32 in *.
    inv_ok. apply read_calls_iff in Ha as [<- Ha]; [|lia..]. by exists off, a.
  - intros (_ & off & cs & Ho & Hc & Hcs & ->). exists off, (len cs).
    pose proof Ho as [[? _] ?]. pose proof Hc as [[? _] ?]. unfold MaxInt32 in *.
    split; [done|split; [done|]].
    rewrite (proj2 (read_calls_iff params (off + 32) (len cs) cs ltac:(lia) ltac:(lia))); [done|].
    by split.
Qed.

Lemma Multicall3_Decode_spec_witness :
  Decode (NewMulticall3ValueDecoder None) selMC3Aggregate3Value
    (AbiSpec.enc_uint 32 ++ AbiSpec.enc_uint 1 ++ AbiSpec.enc_uint 32 ++
     AbiEnc.enc_address (replicate 20 x11) ++ AbiSpec.enc_uint 0 ++ AbiSpec.enc_uint 9 ++
     AbiSpec.enc_uint 128 ++ AbiEnc.enc_bytes (str "call")) =
  Ok (Some (mkParsed selMC3Aggregate3Value [transfer_to (replicate 20 x11) (Some 9) Deterministic])).
Proof.
  apply (Multicall3_Decode_spec (NewMulticall3ValueDecoder None)); [done|].
  split; [done|]. exists 32, [mkCall (replicate 20 x11) 9 (str "call")].
  split; [by_layout|split; [by_layout|split]].
  - intros [|i] c Hi; [|done]. injection Hi as <-. exists 32, 128.
    split; [by_layout|split; [|by_layout]].
    split; [done|exists (replicate 12 x00); by_layout].
  - reflexivity.
Defined.
End Multicall3.
