(* ===== verification/Chain.v ===== *)
(** [Chain] (src/evm-lib/parser/codecs/chain.go): the list of decoders that the wrapper
    codecs recurse through. Chains and wrapper codecs are shared mutable objects that may
    refer to one another in cycles (that is what [SetSubParser] and [Add] are for), so
    they live in a heap, and [ParseBytes] is defined on heaps with a fuel that bounds
    the nesting of calldata; the theorems show that the length of the calldata is always
    enough fuel. *)

From S2P Require Import Prelude Types Abi Decoder FixedCodecs Multicall.
Import Types Abi AbiSpec AbiEnc Iface.
#[local] Open Scope Z_scope.

Module Chain.

Definition loc := positive.

(** A [SubParser] interface value: nil, a [*Chain], or an implementation of the caller. *)
Inductive sub_ref :=
| SubNil
| SubChain (c : loc)
| SubOther (s : SubParser).

(** A [Decoder] interface value: one of the stateless codecs (or a decoder of the
    caller), or a pointer to a wrapper codec. *)
Inductive dec_ref :=
| Stateless (d : decoder)
| MulticallRef (l : loc)
| Multicall3Ref (l : loc).

Record heap := mkHeap {
  chains : gmap loc (list dec_ref);
  multicalls : gmap loc sub_ref;
  multicall3s : gmap loc sub_ref
}.

Definition empty_heap : heap := mkHeap ∅ ∅ ∅.

(** ** Construction and late binding *)

Definition fresh_loc {A} (m : gmap loc A) : loc := fresh (dom m).

(** The decoders are listed at the call, so the slice belongs to the chain. (A slice with
    spare capacity that is spread into two calls would share its backing array between
    the chains, and [Add] of one could overwrite what [Add] of the other appended.) *)
Definition NewChain (decoders : list dec_ref) (h : heap) : loc * heap :=
  let c := fresh_loc (chains h) in
  (c, mkHeap (<[c := decoders]> (chains h)) (multicalls h) (multicall3s h)).

Definition Add (c : loc) (d : dec_ref) (h : heap) : outcome heap :=
  match chains h !! c with
  | None => Panic PNilDeref
  | Some ds => Ok (mkHeap (<[c := ds ++ [d]]> (chains h)) (multicalls h) (multicall3s h))
  end.

Definition NewMulticallDecoder (sub : sub_ref) (h : heap) : dec_ref * heap :=
  let l := fresh_loc (multicalls h) in
  (MulticallRef l, mkHeap (chains h) (<[l := sub]> (multicalls h)) (multicall3s h)).

Definition NewMulticall3ValueDecoder (sub : sub_ref) (h : heap) : dec_ref * heap :=
  let l := fresh_loc (multicall3s h) in
  (Multicall3Ref l, mkHeap (chains h) (multicalls h) (<[l := sub]> (multicall3s h))).

(** [SetSubParser] of the two wrappers; the stateless codecs have no such method. *)
Definition SetSubParser (d : dec_ref) (sub : sub_ref) (h : heap) : outcome heap :=
  match d with
  | Stateless _ => Ok h
  | MulticallRef l =>
      match multicalls h !! l with
      | None => Panic PNilDeref
      | Some _ => Ok (mkHeap (chains h) (<[l := sub]> (multicalls h)) (multicall3s h))
      end
  | Multicall3Ref l =>
      match multicall3s h !! l with
      | None => Panic PNilDeref
      | Some _ => Ok (mkHeap (chains h) (multicalls h) (<[l := sub]> (multicall3s h)))
      end
  end.

(** ** Dispatch *)

(** [CanDecode] reads no field of its receiver. *)
Definition can_decode (d : dec_ref) (sel : Selector) : bool :=
  match d with
  | Stateless d => d_can d sel
  | MulticallRef _ => Multicall.CanDecode (Multicall.NewMulticallDecoder None) sel
  | Multicall3Ref _ => Multicall3.CanDecode (Multicall3.NewMulticall3ValueDecoder None) sel
  end.

(** The sub-parser behind a reference, where [rec] parses through a chain. *)
Definition sub_fun (rec : loc -> SubParser) (s : sub_ref) : option SubParser :=
  match s with
  | SubNil => None
  | SubChain c => Some (rec c)
  | SubOther s => Some s
  end.

Definition decode_ref (rec : loc -> SubParser) (h : heap) (d : dec_ref)
    (sel : Selector) (params : InputParams) : result :=
  match d with
  | Stateless d => d_decode d sel params
  | MulticallRef l =>
      match multicalls h !! l with
      | None => Panic PNilDeref
      | Some s => Multicall.Decode (Multicall.NewMulticallDecoder (sub_fun rec s)) sel params
      end
  | Multicall3Ref l =>
      match multicall3s h !! l with
      | None => Panic PNilDeref
      | Some s => Multicall3.Decode (Multicall3.NewMulticall3ValueDecoder (sub_fun rec s)) sel params
      end
  end.

(** [for _, dec := range decoders { if !dec.CanDecode(sel) { continue }; return ... }] *)
Fixpoint first_match {A} (ds : list dec_ref) (sel : Selector)
    (found : dec_ref -> A) (none : A) : A :=
  match ds with
  | [] => none
  | d :: ds => if negb (can_decode d sel) then first_match ds sel found none else found d
  end.

(** The body of [ParseBytes], where [rec] stands for its recursive calls. *)
Definition parse_body (rec : loc -> SubParser) (h : heap) (c : loc) (raw : list byte) : result :=
  if len raw <? selectorSize
  then Err (EFmt "chain: calldata shorter than selector (%d bytes)" [AInt (len raw)])
  else
    head ← slice raw 0 selectorSize;
    let sel := SelectorFromBytes head in
    params ← slice_from raw selectorSize;
    match chains h !! c with
    | None => Panic PNilDeref
    | Some decoders =>
        first_match decoders sel (fun dec => decode_ref rec h dec sel params)
          (Err (EFmt "chain: no decoder for selector %s" [ABytes sel]))
    end.

Fixpoint ParseBytes (fuel : nat) (h : heap) (c : loc) (raw : list byte) : result :=
  match fuel with
  | O => NoFuel
  | S fuel => parse_body (ParseBytes fuel h) h c raw
  end.

(** [c.ParseBytes(raw)]: nested calldata is strictly shorter at every level. *)
Definition parse_bytes (h : heap) (c : loc) (raw : list byte) : result :=
  ParseBytes (S (length raw)) h c raw.

(** ** Well-formed heaps *)

Definition sub_ref_ok (h : heap) (s : sub_ref) : Prop :=
  match s with
  | SubNil => True
  | SubChain c => is_Some (chains h !! c)
  | SubOther s => sub_safe (2 ^ 48) s
  end.

Definition dec_ref_ok (h : heap) (d : dec_ref) : Prop :=
  match d with
  | Stateless d => LawfulDecoder d
  | MulticallRef l => is_Some (multicalls h !! l)
  | Multicall3Ref l => is_Some (multicall3s h !! l)
  end.

(** No dangling reference, and only decoders and sub-parsers that keep their
    promises. Cycles are allowed. *)
Record heap_ok (h : heap) : Prop := {
  ok_chains c ds : chains h !! c = Some ds -> Forall (dec_ref_ok h) ds;
  ok_multicalls l s : multicalls h !! l = Some s -> sub_ref_ok h s;
  ok_multicall3s l s : multicall3s h !! l = Some s -> sub_ref_ok h s
}.

(** The heaps a program can build out of lawful parts. *)
Inductive build : heap -> Prop :=
| build_empty : build empty_heap
| build_NewChain h ds :
    build h -> Forall (dec_ref_ok h) ds -> build (snd (NewChain ds h))
| build_Add h h' c d :
    build h -> dec_ref_ok h d -> Add c d h = Ok h' -> build h'
| build_Multicall h s :
    build h -> sub_ref_ok h s -> build (snd (NewMulticallDecoder s h))
| build_Multicall3 h s :
    build h -> sub_ref_ok h s -> build (snd (NewMulticall3ValueDecoder s h))
| build_SetSubParser h h' d s :
    build h -> sub_ref_ok h s -> SetSubParser d s h = Ok h' -> build h'.

(** Objects are never freed. *)
Record heap_le (h1 h2 : heap) : Prop := {
  le_chains : dom (chains h1) ⊆ dom (chains h2);
  le_multicalls : dom (multicalls h1) ⊆ dom (multicalls h2);
  le_multicall3s : dom (multicall3s h1) ⊆ dom (multicall3s h2)
}.

Lemma is_Some_dom {A} (m1 m2 : gmap loc A) i :
  dom m1 ⊆ dom m2 -> is_Some (m1 !! i) -> is_Some (m2 !! i).
Proof. rewrite <-!elem_of_dom. set_solver. Qed.

Lemma sub_ref_ok_le h1 h2 s : heap_le h1 h2 -> sub_ref_ok h1 s -> sub_ref_ok h2 s.
Proof. intros []. destruct s; simpl; [done| |done]. by apply is_Some_dom. Qed.

Lemma dec_ref_ok_le h1 h2 d : heap_le h1 h2 -> dec_ref_ok h1 d -> dec_ref_ok h2 d.
Proof. intros []. destruct d; simpl; [done|by apply is_Some_dom|by apply is_Some_dom]. Qed.

(** A heap stays well formed when it only grows and every object that is new or
    overwritten is fine in it. *)
Lemma heap_ok_extend h h' :
  heap_ok h -> heap_le h h' ->
  (forall c ds, chains h' !! c = Some ds -> chains h !! c = Some ds \/ Forall (dec_ref_ok h') ds) ->
  (forall l s, multicalls h' !! l = Some s -> multicalls h !! l = Some s \/ sub_ref_ok h' s) ->
  (forall l s, multicall3s h' !! l = Some s -> multicall3s h !! l = Some s \/ sub_ref_ok h' s) ->
  heap_ok h'.
Proof.
  intros [H1 H2 H3] Hle K1 K2 K3. split.
  - intros c ds [Hc|?]%K1; [|done]. eapply Forall_impl; [by eapply H1|].
    intros d. by apply dec_ref_ok_le.
  - intros l s [Hl|?]%K2; [|done]. eapply sub_ref_ok_le, H2; done.
  - intros l s [Hl|?]%K3; [|done]. eapply sub_ref_ok_le, H3; done.
Qed.

(** Where an updated map differs from the old one. *)
Lemma lookup_insert_or {A} (m : gmap loc A) i j x y (P : Prop) :
  <[i := x]> m !! j = Some y -> (x = y -> P) -> m !! j = Some y \/ P.
Proof. intros [[_ ->]|[_ ?]]%lookup_insert_Some; auto. Qed.

Ltac heap_grows :=
  split; simpl; try done; rewrite dom_insert; set_solver.

Lemma build_ok h : build h -> heap_ok h.
Proof.
  induction 1 as [|h ds _ IH Hds|h h' c d _ IH Hd Ha|h s _ IH Hs|h s _ IH Hs|h h' d s _ IH Hs Ha].
  - split; simpl; intros ??; by rewrite lookup_empty.
  - assert (heap_le h (snd (NewChain ds h))) as Hle by heap_grows.
    eapply heap_ok_extend; [exact IH|exact Hle|..]; simpl; try tauto.
    intros c ds' Hc. eapply lookup_insert_or; [exact Hc|intros <-].
    eapply Forall_impl; [exact Hds|]. intros d. by apply dec_ref_ok_le.
  - unfold Add in Ha. destruct (chains h !! c) as [ds|] eqn:Hc; [|done]. apply ok_inj in Ha.
    assert (heap_le h h') as Hle by (subst h'; heap_grows).
    eapply heap_ok_extend; [exact IH|exact Hle|..]; subst h'; simpl; try tauto.
    intros c' ds' Hc'. eapply lookup_insert_or; [exact Hc'|intros <-].
    eapply Forall_impl; [|intros d'; by apply dec_ref_ok_le].
    apply Forall_app. split; [by eapply ok_chains|by constructor].
  - assert (heap_le h (snd (NewMulticallDecoder s h))) as Hle by heap_grows.
    eapply heap_ok_extend; [exact IH|exact Hle|..]; simpl; try tauto.
    intros l' s' Hl. eapply lookup_insert_or; [exact Hl|intros <-]. by eapply sub_ref_ok_le.
  - assert (heap_le h (snd (NewMulticall3ValueDecoder s h))) as Hle by heap_grows.
    eapply heap_ok_extend; [exact IH|exact Hle|..]; simpl; try tauto.
    intros l' s' Hl. eapply lookup_insert_or; [exact Hl|intros <-]. by eapply sub_ref_ok_le.
  - destruct d as [d|l|l]; simpl in Ha; [by apply ok_inj in Ha as <-|..].
    all: case_match; [|done]; apply ok_inj in Ha;
      assert (heap_le h h') as Hle by (subst h'; heap_grows);
      eapply heap_ok_extend; [exact IH|exact Hle|..]; subst h'; simpl; try tauto;
      intros l' s' Hl; eapply lookup_insert_or; [exact Hl|intros <-]; by eapply sub_ref_ok_le.
Qed.

(** ** Termination, safety, and the recursive equation *)

Lemma first_match_ind {A} (P : A -> Prop) ds sel found none :
  (forall d, d ∈ ds -> can_decode d sel = true -> P (found d)) -> P none ->
  P (first_match ds sel found none).
Proof.
  intros H Hn. induction ds as [|d ds IH]; simpl; [done|].
  destruct (can_decode d sel) eqn:E; simpl; [by apply H; [left|]|].
  apply IH. intros d' Hd'. apply H. by right.
Qed.

Lemma first_match_ext {A} ds sel (f1 f2 : dec_ref -> A) none :
  (forall d, d ∈ ds -> f1 d = f2 d) -> first_match ds sel f1 none = first_match ds sel f2 none.
Proof.
  intros H. induction ds as [|d ds IH]; simpl; [done|].
  rewrite IH by (intros d' Hd'; apply H; by right). by rewrite H by left.
Qed.

(** The two cuts of the calldata. *)
Lemma parse_body_eq rec h c raw :
  selectorSize <= len raw ->
  parse_body rec h c raw =
    match chains h !! c with
    | None => Panic PNilDeref
    | Some ds =>
        first_match ds (SelectorFromBytes (take 4 raw))
          (fun dec => decode_ref rec h dec (SelectorFromBytes (take 4 raw)) (drop 4 raw))
          (Err (EFmt "chain: no decoder for selector %s" [ABytes (SelectorFromBytes (take 4 raw))]))
    end.
Proof.
  unfold parse_body, selectorSize. intros Hl.
  rewrite (proj2 (Z.ltb_ge (len raw) 4)) by lia. unfold slice_from.
  rewrite !slice_ok by lia. rewrite !bind_Ok. cbv zeta.
  change (Z.to_nat (4 - 0)) with 4%nat. change (Z.to_nat 0) with 0%nat.
  change (Z.to_nat 4) with 4%nat. rewrite drop_0.
  rewrite (take_ge (drop 4 raw)); [done|].
  unfold len in *. rewrite length_drop. lia.
Qed.

Definition parsed_ok (r : option ParsedInputData) : Prop := exists sel, result_ok sel r.

(** What the recursive calls promise on calldata shorter than [bound]. *)
Definition rec_safe (h : heap) (bound : Z) (rec : loc -> SubParser) : Prop :=
  forall c, is_Some (chains h !! c) -> sub_safe bound (rec c).

Lemma sub_safe_le b1 b2 s : b2 <= b1 -> sub_safe b1 s -> sub_safe b2 s.
Proof. intros Hb Hs raw Hr. apply Hs. lia. Qed.

Lemma sub_fun_safe h rec bound s s' :
  bound <= 2 ^ 48 -> rec_safe h bound rec -> sub_ref_ok h s -> sub_fun rec s = Some s' ->
  sub_safe bound s'.
Proof.
  intros Hb Hrec Hs. destruct s; simpl in *; intros [= <-]; [by apply Hrec|].
  by eapply sub_safe_le.
Qed.

Lemma decode_ref_safe rec h d sel params :
  heap_ok h -> dec_ref_ok h d -> go_slice params -> rec_safe h (len params) rec ->
  safe (result_ok sel) (decode_ref rec h d sel params).
Proof.
  intros Hh Hd Hp Hrec. destruct d as [d|l|l]; unfold decode_ref, dec_ref_ok in *.
  - exact (decode_safe sel params Hp).
  - destruct Hd as [s Hs]. rewrite Hs. apply Multicall.Decode_safe.
    intros s'. eapply sub_fun_safe; [exact Hp|exact Hrec|]. by eapply ok_multicalls.
  - destruct Hd as [s Hs]. rewrite Hs. apply Multicall3.Decode3_safe.
    intros s'. eapply sub_fun_safe; [exact Hp|exact Hrec|]. by eapply ok_multicall3s.
Qed.

Lemma decode_ref_ext rec1 rec2 h d sel params :
  heap_ok h -> dec_ref_ok h d -> rec_safe h (len params) rec1 -> rec_safe h (len params) rec2 ->
  (forall c raw, is_Some (chains h !! c) -> len raw < len params -> rec1 c raw = rec2 c raw) ->
  decode_ref rec1 h d sel params = decode_ref rec2 h d sel params.
Proof.
  intros Hh Hd H1 H2 He. destruct d as [d|l|l]; unfold decode_ref, dec_ref_ok in *; [done|..];
    destruct Hd as [s Hs]; rewrite Hs;
    [apply (ok_multicalls _ Hh) in Hs | apply (ok_multicall3s _ Hh) in Hs];
    (destruct s as [|c|s]; [reflexivity| |reflexivity]); cbn [sub_fun sub_ref_ok] in *;
    [apply Multicall.Decode_ext | apply Multicall3.Decode3_ext]; auto.
Qed.

Lemma parse_body_safe rec h c raw :
  heap_ok h -> is_Some (chains h !! c) -> go_slice raw -> rec_safe h (len raw - 4) rec ->
  safe parsed_ok (parse_body rec h c raw).
Proof.
  intros Hh [ds Hc] Hr Hrec. destruct (decide (selectorSize <= len raw)) as [Hl|Hl].
  - rewrite parse_body_eq, Hc by done. unfold selectorSize in Hl.
    assert (len (drop 4 raw) = len raw - 4) as Hp
      by (unfold len in *; rewrite length_drop; lia).
    apply first_match_ind; [|apply safe_err]. intros d Hd _.
    apply (ok_chains _ Hh), Forall_forall with (x := d) in Hc; [|done].
    eapply safe_mono; [apply decode_ref_safe; try done|].
    + unfold go_slice in *. lia.
    + by rewrite Hp.
    + intros r Hok. by eexists.
  - unfold parse_body. rewrite (proj2 (Z.ltb_lt _ _)) by lia. apply safe_err.
Qed.

Lemma ParseBytes_safe fuel h c raw :
  heap_ok h -> is_Some (chains h !! c) -> go_slice raw -> (length raw < fuel)%nat ->
  safe parsed_ok (ParseBytes fuel h c raw).
Proof.
  intros Hh. revert c raw. induction fuel as [|fuel IH]; intros c raw Hc Hr Hf; [lia|].
  cbn [ParseBytes]. apply parse_body_safe; try done.
  intros c' Hc' raw' Hl. unfold go_slice, len in *. apply IH; [done|unfold go_slice, len; lia|lia].
Qed.

Lemma rec_safe_parse fuel h raw :
  heap_ok h -> go_slice raw -> (length raw <= fuel)%nat -> rec_safe h (len raw - 4) (ParseBytes fuel h).
Proof.
  intros Hh Hr Hf c' Hc' raw' Hl. unfold go_slice, len in *.
  apply ParseBytes_safe; [done|done|unfold go_slice, len; lia|lia].
Qed.

Lemma parse_body_ext rec1 rec2 h c raw :
  heap_ok h -> rec_safe h (len raw - 4) rec1 -> rec_safe h (len raw - 4) rec2 ->
  (forall c raw', is_Some (chains h !! c) -> len raw' < len raw -> rec1 c raw' = rec2 c raw') ->
  parse_body rec1 h c raw = parse_body rec2 h c raw.
Proof.
  intros Hh H1 H2 He. destruct (decide (selectorSize <= len raw)) as [Hl|Hl].
  - rewrite !parse_body_eq by done. unfold selectorSize in Hl.
    destruct (chains h !! c) as [ds|] eqn:Hc; [|done].
    assert (len (drop 4 raw) = len raw - 4) as Hp
      by (unfold len in *; rewrite length_drop; lia).
    apply first_match_ext. intros d Hd.
    apply (ok_chains _ Hh), Forall_forall with (x := d) in Hc; [|done].
    apply decode_ref_ext; rewrite ?Hp; try done. intros c' raw' Hc' Hl'. apply He; [done|lia].
  - unfold parse_body. by rewrite (proj2 (Z.ltb_lt _ _)) by lia.
Qed.

Lemma ParseBytes_fuel fuel1 fuel2 h c raw :
  heap_ok h -> go_slice raw -> (length raw < fuel1)%nat -> (length raw < fuel2)%nat ->
  ParseBytes fuel1 h c raw = ParseBytes fuel2 h c raw.
Proof.
  intros Hh. revert fuel2 c raw.
  induction fuel1 as [|f1 IH]; intros [|f2] c raw Hr Hf1 Hf2; try lia.
  cbn [ParseBytes]. apply parse_body_ext; [done|apply rec_safe_parse; (done || lia)..|].
  intros c' raw' _ Hl. unfold go_slice, len in *. apply IH; [unfold go_slice, len|..]; lia.
Qed.

Lemma parse_bytes_eq h c raw :
  heap_ok h -> go_slice raw -> parse_bytes h c raw = parse_body (parse_bytes h) h c raw.
Proof.
  intros Hh Hr. unfold parse_bytes at 1. cbn [ParseBytes].
  apply parse_body_ext; [done|by apply rec_safe_parse| |].
  - intros c' Hc' raw' Hl. unfold go_slice, len in *.
    apply ParseBytes_safe; [done|done|unfold go_slice, len; lia|lia].
  - intros c' raw' _ Hl. unfold go_slice, len in *.
    apply ParseBytes_fuel; [done|unfold go_slice, len; lia|lia|lia].
Qed.

Lemma first_match_some {A} ds sel (found : dec_ref -> A) none :
  first_match ds sel found none =
  match first_match ds sel Some None with Some d => found d | None => none end.
Proof. induction ds as [|d ds IH]; simpl; [done|]. by destruct (can_decode d sel). Qed.

(** ** Properties *)

(** C2: whatever a program builds out of lawful decoders with [NewChain], [Add],
    [NewMulticallDecoder], [NewMulticall3ValueDecoder] and [SetSubParser], cyclic
    references included, parsing any calldata terminates without a panic and a value it
    returns is a well-formed list of transfers. *)
Theorem Chain_ParseBytes_total h c raw :
  build h -> is_Some (chains h !! c) -> go_slice raw ->
  safe parsed_ok (parse_bytes h c raw).
Proof.
  intros Hh Hc Hr. apply ParseBytes_safe; [by apply build_ok|done|done|lia].
Qed.

(** C9: [parse_bytes] is the function the source defines: it satisfies the recursive
    equation of [ParseBytes], in which the wrappers call back into the chains, and any
    fuel above the length of the calldata gives the same result. *)
Theorem Chain_ParseBytes_equation h c raw :
  build h -> go_slice raw ->
  parse_bytes h c raw = parse_body (parse_bytes h) h c raw /\
  forall fuel, (length raw < fuel)%nat -> ParseBytes fuel h c raw = parse_bytes h c raw.
Proof.
  intros Hh%build_ok Hr. split; [by apply parse_bytes_eq|].
  intros fuel Hf. apply ParseBytes_fuel; [done|done|done|lia].
Qed.

Lemma first_match_app {A} ds1 ds2 sel (found : dec_ref -> A) none :
  first_match (ds1 ++ ds2) sel found none =
  first_match ds1 sel found (first_match ds2 sel found none).
Proof. induction ds1 as [|d ds IH]; simpl; [done|]. by rewrite IH. Qed.

Lemma first_match_none {A} ds sel (found : dec_ref -> A) none :
  Forall (fun d => can_decode d sel = false) ds -> first_match ds sel found none = none.
Proof. induction 1 as [|d ds Hd _ IH]; simpl; [done|]. by rewrite Hd. Qed.

Lemma first_match_shadow {A} ds d sel (found : dec_ref -> A) none :
  Exists (fun d' => can_decode d' sel = true) ds \/ can_decode d sel = false ->
  first_match ds sel found (first_match [d] sel found none) = first_match ds sel found none.
Proof.
  intros [H|H]; [|simpl; by rewrite H].
  induction ds as [|d' ds IH]; [by apply Exists_nil in H|].
  cbn [first_match]. destruct (can_decode d' sel) eqn:E; simpl negb; [done|].
  apply IH. apply Exists_cons in H as [H|H]; [congruence|done].
Qed.

(** Dispatch in registration order: the decoder that [Add] appends is consulted
    only for the selectors no earlier decoder of the chain claims, and for those it
    gets the four selector bytes and the rest of the calldata as they stand; other
    selectors are parsed as before (the recursive calls being equal). *)
Theorem Chain_Add_dispatch rec h h' c ds d raw :
  chains h !! c = Some ds -> Add c d h = Ok h' -> selectorSize <= len raw ->
  let sel := take 4 raw in
  (Forall (fun d' => can_decode d' sel = false) ds -> can_decode d sel = true ->
     parse_body rec h' c raw = decode_ref rec h' d sel (drop 4 raw)) /\
  (Exists (fun d' => can_decode d' sel = true) ds \/ can_decode d sel = false ->
     parse_body rec h' c raw = parse_body rec h c raw).
Proof.
  unfold Add. intros Hc. rewrite Hc. intros Ha%ok_inj Hl. set (sel := take 4 raw). subst h'.
  rewrite !parse_body_eq by done. simpl chains. rewrite lookup_insert_eq, Hc.
  assert (SelectorFromBytes (take 4 raw) = sel) as ->.
  { apply SelectorFromBytes_id. unfold selector_wf, selectorSize, len, sel in *. rewrite length_take. lia. }
  rewrite first_match_app. split.
  - intros Hn Hd. rewrite first_match_none by done. simpl. by rewrite Hd.
  - intros H. change (decode_ref rec _) with (decode_ref rec h). by apply first_match_shadow.
Qed.

(** C10: round trip through a recursive wrapper: when a chain first offers
    [multicall(bytes[])] to a multicall codec bound back to a chain, the canonical
    encoding of any batch within the limits parses, and the result lists, in order, the
    transfers that each element of the batch yields when parsed by that chain alone. *)
Theorem Chain_multicall_roundtrip h c c' ds l batch :
  build h -> chains h !! c = Some ds -> multicalls h !! l = Some (SubChain c') ->
  first_match ds Multicall.selMulticallBytes Some None = Some (MulticallRef l) ->
  len batch <= 10000 -> len (enc_bytes_array batch) <= MaxInt32 ->
  parse_bytes h c (Multicall.selMulticallBytes ++ enc_uint 32 ++ enc_bytes_array batch) =
    Ok (Some (mkParsed Multicall.selMulticallBytes
          (concat (map (Multicall.sub_transfers (parse_bytes h c')) batch)))).
Proof.
  intros Hb Hc Hl Hf Hn He. set (params := enc_uint 32 ++ enc_bytes_array batch).
  assert (len params = 32 + len (enc_bytes_array batch)) as Hp
    by (unfold params; by rewrite len_app, len_enc_uint).
  assert (go_slice (Multicall.selMulticallBytes ++ params)) as Hgo.
  { unfold go_slice, MaxInt32 in *. rewrite len_app, Hp. change (len Multicall.selMulticallBytes) with 4. lia. }
  rewrite (parse_bytes_eq h c _ (build_ok h Hb) Hgo).
  rewrite parse_body_eq, Hc by (rewrite len_app, Hp; pose proof (len_nonneg (enc_bytes_array batch)); change (len Multicall.selMulticallBytes) with 4; unfold selectorSize; lia).
  change (SelectorFromBytes (take 4 (Multicall.selMulticallBytes ++ params))) with Multicall.selMulticallBytes.
  change (drop 4 (Multicall.selMulticallBytes ++ params)) with params.
  rewrite first_match_some, Hf. unfold decode_ref. rewrite Hl. cbn [sub_fun].
  assert (sub_safe (len params) (parse_bytes h c')) as Hsub.
  { intros raw Hraw. unfold MaxInt32 in *.
    apply ParseBytes_safe; [by apply build_ok| |unfold go_slice; lia|lia].
    apply (ok_multicalls _ (build_ok h Hb) l _ Hl). }
  apply (Multicall.Decode_iff _ _ _ _ Hsub). exists batch. split; [|done].
  left. split; [done|]. exists 32. split.
  - split; [split; [lia|]|unfold MaxInt32; lia]. by eapply holds_at_prefix.
  - apply enc_bytes_array_layout; [lia|done|done|].
    exists (enc_uint 32), []. unfold params. by rewrite app_nil_r, len_enc_uint.
Qed.

(** A chain with the WETH codec and a multicall codec that is bound to the chain. *)
Definition demo : heap :=
  let '(c, h) := NewChain [Stateless (pack WETH.NewWETHDecoder)] empty_heap in
  let '(m, h) := NewMulticallDecoder (SubChain c) h in
  match Add c m h with Ok h => h | _ => h end.

Lemma demo_build : build demo.
Proof.
  apply (build_Add (snd (NewMulticallDecoder (SubChain 1%positive)
            (snd (NewChain [Stateless (pack WETH.NewWETHDecoder)] empty_heap))))
          demo 1%positive (MulticallRef 1%positive)); [|by eexists|reflexivity].
  apply (build_Multicall _ (SubChain 1%positive)); [|by eexists].
  apply (build_NewChain _ [Stateless (pack WETH.NewWETHDecoder)]); [constructor|].
  constructor; [|constructor]. simpl. apply _.
Qed.

Definition demo_withdraw (v : Z) : list byte := WETH.selWETHWithdraw ++ enc_uint v.

Definition demo_batch : list byte :=
  Multicall.selMulticallBytes ++ enc_uint 32 ++
  enc_bytes_array [demo_withdraw 5; str "abcde"; demo_withdraw 7].

(** A batch inside a batch, parsed through the cycle. *)
Lemma Chain_multicall_roundtrip_witness :
  parse_bytes demo 1%positive
    (Multicall.selMulticallBytes ++ enc_uint 32 ++ enc_bytes_array [demo_batch; demo_withdraw 9]) =
  Ok (Some (mkParsed Multicall.selMulticallBytes
        (map (fun v => transfer_to ZeroAddress (Some v) Likely) [5; 7; 9]))).
Proof.
  rewrite (Chain_multicall_roundtrip demo 1%positive 1%positive _ 1%positive _ demo_build eq_refl eq_refl);
    [vm_compute; reflexivity..|vm_compute; discriminate|vm_compute; discriminate].
Defined.

Lemma Chain_ParseBytes_total_witness :
  safe parsed_ok (parse_bytes demo 1%positive demo_batch).
Proof.
  apply (Chain_ParseBytes_total demo 1%positive demo_batch demo_build);
    [by eexists|vm_compute; discriminate].
Defined.

Lemma Chain_ParseBytes_equation_witness :
  ParseBytes 1000 demo 1%positive demo_batch = parse_body (parse_bytes demo) demo 1%positive demo_batch.
Proof.
  destruct (Chain_ParseBytes_equation demo 1%positive demo_batch demo_build) as [<- H];
    [vm_compute; discriminate|]. apply H, Nat.ltb_lt. vm_compute. reflexivity.
Defined.

Lemma Chain_Add_dispatch_witness :
  parse_body (parse_bytes demo) demo 1%positive (demo_withdraw 5) =
  parse_body (parse_bytes demo) (snd (NewMulticallDecoder (SubChain 1%positive)
      (snd (NewChain [Stateless (pack WETH.NewWETHDecoder)] empty_heap)))) 1%positive (demo_withdraw 5).
Proof.
  apply (Chain_Add_dispatch (parse_bytes demo) _ demo 1%positive
           [Stateless (pack WETH.NewWETHDecoder)] (MulticallRef 1%positive));
    [reflexivity|reflexivity|vm_compute; discriminate|].
  left. constructor. reflexivity.
Defined.
End Chain.
