(* ===== verification/Parser.v ===== *)
(** [Parser] (src/evm-lib/parser/parser/parser.go): hexadecimal calldata in, the first
    matching codec's transfers out. *)

From S2P Require Import Prelude Types Abi Decoder FixedCodecs Disperse MultiSend Heuristic Multicall Chain.
Import Types Hex Abi AbiSpec Iface Chain.
#[local] Open Scope Z_scope.

Module Parser.

Record Parser := mkParser { decoders : list dec_ref }.

Definition New (codecs : list dec_ref) : Parser := mkParser codecs.

(** The cuts at 4 are made without a test of the length. ([hexData[:4]] is bounded by the
    capacity, which can exceed the length; [hexData[4:]] is bounded by the length, so a
    short slice panics in any case.) *)
Definition Parse (h : heap) (p : Parser) (data : RawInputData) : result :=
  hexData ← wrap "invalid hex data: %w" [] (DecodeString data);
  head ← slice hexData 0 4;
  let sel := SelectorFromBytes head in
  params ← slice_from hexData 4;
  first_match (decoders p) sel
    (fun codec =>
       result ← wrap "decoding failed: %w" [] (decode_ref (parse_bytes h) h codec sel params);
       Ok result)
    (Err (EFmt "no decoder found for selector: %s" [ABytes sel])).

(** A parser over a heap the program built, with decoders that keep their promises. *)
Record parser_ok (h : heap) (p : Parser) : Prop := {
  parser_heap : build h;
  parser_decoders : Forall (dec_ref_ok h) (decoders p)
}.

(** ** After the hexadecimal text is decoded *)

Definition dispatch_bytes (h : heap) (p : Parser) (bs : list byte) : result :=
  first_match (decoders p) (take 4 bs)
    (fun codec => wrap "decoding failed: %w" [] (decode_ref (parse_bytes h) h codec (take 4 bs) (drop 4 bs)))
    (Err (EFmt "no decoder found for selector: %s" [ABytes (take 4 bs)])).

Lemma bind_ret {A} (m : outcome A) : m ≫= Ok = m.
Proof. by destruct m. Qed.

Lemma Parse_bytes h p data bs :
  DecodeString data = Ok bs ->
  Parse h p data = if len bs <? 4 then Panic PSliceBounds else dispatch_bytes h p bs.
Proof.
  intros Hd. unfold Parse. rewrite Hd, wrap_Ok, bind_Ok.
  destruct (Z.ltb_spec (len bs) 4) as [Hl|Hl].
  - unfold slice at 1. rewrite (proj2 (Z.leb_gt 4 (len bs))) by done. by rewrite andb_false_r.
  - unfold slice_from. rewrite !slice_ok by lia. rewrite !bind_Ok. cbv zeta.
    change (Z.to_nat (4 - 0)) with 4%nat. change (Z.to_nat 0) with 0%nat.
    change (Z.to_nat 4) with 4%nat. rewrite drop_0.
    rewrite (take_ge (drop 4 bs)) by (unfold len in *; rewrite length_drop; lia).
    rewrite SelectorFromBytes_id by (unfold selector_wf, len in *; rewrite length_take; lia).
    apply first_match_ext. intros d _. apply bind_ret.
Qed.

Lemma Parse_err h p data e :
  DecodeString data = Err e -> Parse h p data = Err (EWrap "invalid hex data: %w" [] e).
Proof. intros Hd. unfold Parse. by rewrite Hd. Qed.

Lemma decode_ref_parse_safe h d sel params :
  build h -> dec_ref_ok h d -> go_slice params ->
  safe (result_ok sel) (decode_ref (parse_bytes h) h d sel params).
Proof.
  intros Hb Hd Hp. apply build_ok in Hb. apply decode_ref_safe; try done.
  intros c Hc raw Hl. unfold go_slice, len in *.
  apply ParseBytes_safe; [done|done|unfold go_slice, len; lia|lia].
Qed.

Lemma dispatch_bytes_safe h p bs :
  parser_ok h p -> go_slice bs -> safe (result_ok (take 4 bs)) (dispatch_bytes h p bs).
Proof.
  intros [Hb Hds] Hg. unfold dispatch_bytes. apply first_match_ind; [|apply safe_err].
  intros d Hd _. apply safe_wrap, decode_ref_parse_safe; [done| |].
  - by apply (proj1 (Forall_forall _ _) Hds).
  - unfold go_slice, len in *. rewrite length_drop. lia.
Qed.

Lemma DecodeString_go_slice data bs : go_slice data -> DecodeString data = Ok bs -> go_slice bs.
Proof.
  intros Hd H. pose proof (safe_inv_ok _ _ _ (DecodeString_not_panic data) H) as Hl. simpl in Hl.
  unfold go_slice, len in *. lia.
Qed.

(** ** Properties *)

(** C1: with well-behaved decoders, [Parse] panics exactly on hexadecimal text that
    decodes to fewer than four bytes (the empty text, say); on every other text it
    returns, and a value it returns carries the first four bytes as its selector and
    well-formed transfers. *)
Theorem Parse_panics_iff h p data :
  parser_ok h p -> go_slice data ->
  ((exists pn, Parse h p data = Panic pn) <->
     exists bs, DecodeString data = Ok bs /\ len bs < 4) /\
  ((forall bs, DecodeString data = Ok bs -> 4 <= len bs) ->
     safe (fun r => exists bs, DecodeString data = Ok bs /\ result_ok (take 4 bs) r) (Parse h p data)).
Proof.
  intros Hp Hd. destruct (DecodeString data) as [bs|e|pn|] eqn:E.
  - rewrite (Parse_bytes _ _ _ _ E). pose proof (DecodeString_go_slice _ _ Hd E) as Hg.
    pose proof (dispatch_bytes_safe h p bs Hp Hg) as Hs. destruct (Z.ltb_spec (len bs) 4).
    + split; [naive_solver|]. intros H'. specialize (H' bs eq_refl). lia.
    + split.
      * split; [|intros (? & [= <-] & ?); lia]. intros [pn Hpn]. rewrite Hpn in Hs. done.
      * intros _. eapply safe_mono; [exact Hs|]. intros r Hr. by exists bs.
  - rewrite (Parse_err _ _ _ _ E). split; [naive_solver|]. intros _. apply safe_err.
  - pose proof (DecodeString_not_panic data) as H. rewrite E in H. done.
  - pose proof (DecodeString_not_panic data) as H. rewrite E in H. done.
Qed.

(** [Parse] has no tolerance for a ["0x"] prefix: the text is rejected before any
    decoder is asked, whatever follows. *)
Theorem Parse_rejects_0x h p s :
  Parse h p (str "0x" ++ s) = Err (EWrap "invalid hex data: %w" [] (InvalidByteError x78)).
Proof. by apply Parse_err. Qed.

Lemma Parse_panics_iff_witness :
  (exists pn, Parse empty_heap (New [Stateless (pack WETH.NewWETHDecoder)]) (str "2e1a7d") = Panic pn) /\
  safe (fun r => exists bs, DecodeString (str "2e1a7d4d") = Ok bs /\ result_ok (take 4 bs) r)
    (Parse empty_heap (New [Stateless (pack WETH.NewWETHDecoder)]) (str "2e1a7d4d")).
Proof.
  assert (parser_ok empty_heap (New [Stateless (pack WETH.NewWETHDecoder)])) as Hp.
  { split; [constructor|]. constructor; [|constructor]. simpl. apply _. }
  split.
  - apply (Parse_panics_iff _ _ _ Hp); [vm_compute; discriminate|].
    exists [x2e; x1a; x7d]. split; [reflexivity|]. unfold len. simpl. lia.
  - apply (Parse_panics_iff _ _ _ Hp); [vm_compute; discriminate|].
    vm_compute. intros bs [= <-]. discriminate.
Defined.

(** ** Registration order *)

Definition claims (ds : list dec_ref) (sel : Selector) : list dec_ref :=
  filter (fun d => can_decode d sel = true) ds.

(** At most one of the decoders claims any selector. *)
Definition disjoint_claims (ds : list dec_ref) : Prop :=
  forall sel, (length (claims ds sel) <= 1)%nat.

Lemma first_match_claims {A} ds sel (found : dec_ref -> A) none :
  first_match ds sel found none = match claims ds sel with [] => none | d :: _ => found d end.
Proof.
  unfold claims. induction ds as [|d ds IH]; simpl; [done|].
  rewrite filter_cons. destruct (can_decode d sel) eqn:E; simpl negb; cbv iota.
  - by rewrite decide_True.
  - by rewrite decide_False.
Qed.

Lemma first_match_perm {A} ds1 ds2 sel (found : dec_ref -> A) none :
  ds1 ≡ₚ ds2 -> disjoint_claims ds2 ->
  first_match ds1 sel found none = first_match ds2 sel found none.
Proof.
  intros Hp Hd. rewrite !first_match_claims. specialize (Hd sel).
  assert (claims ds1 sel ≡ₚ claims ds2 sel) as Hc by (unfold claims; by rewrite Hp).
  destruct (claims ds2 sel) as [|d [|d' ds]]; simpl in Hd; [| |lia].
  - apply Permutation_nil_r in Hc. by rewrite Hc.
  - apply Permutation_singleton_r in Hc. by rewrite Hc.
Qed.

(** Decoders that dispatch alike parse alike. *)
Lemma Parse_dispatch_ext h ds1 ds2 data :
  (forall A sel (found : dec_ref -> A) none,
     first_match ds1 sel found none = first_match ds2 sel found none) ->
  Parse h (New ds1) data = Parse h (New ds2) data.
Proof.
  intros H. destruct (DecodeString data) as [bs|e|pn|] eqn:E.
  - rewrite !(Parse_bytes _ _ _ _ E). unfold dispatch_bytes. simpl decoders. by rewrite H.
  - by rewrite !(Parse_err _ _ _ _ E).
  - unfold Parse. by rewrite E.
  - unfold Parse. by rewrite E.
Qed.

(** The codecs of the package that claim selectors, for a pair of wrapper codecs. *)
Definition claiming (l l3 : loc) : list dec_ref :=
  [ Stateless (pack WETH.NewWETHDecoder);
    Stateless (pack UniswapV2Router.NewUniswapV2RouterDecoder);
    Stateless (pack UniswapV3Payments.NewUniswapV3PaymentsDecoder);
    Stateless (pack AaveWETHGateway.NewAaveWETHGatewayDecoder);
    Stateless (pack Disperse.NewDisperseDecoder);
    Stateless (pack GnosisSafe.NewGnosisSafeDecoder);
    Stateless (pack MultiSend.NewGnosisMultiSendDecoder);
    MulticallRef l; Multicall3Ref l3 ].

Definition heuristic : dec_ref := Stateless (pack Heuristic.NewHeuristicDecoder).

(** Every selector that some codec of [claiming] claims. *)
Definition known_selectors : list Selector :=
  [ WETH.selWETHWithdraw;
    UniswapV2Router.selV2SwapTokensForExactETH; UniswapV2Router.selV2SwapExactTokensForETH;
    UniswapV2Router.selV2SwapExactTokensForETHFOT;
    UniswapV3Payments.selUnwrapWETH9; UniswapV3Payments.selUnwrapWETH9WithFee;
    UniswapV3Payments.selRefundETH;
    AaveWETHGateway.selAaveWithdrawETH; Disperse.selDisperseEther;
    GnosisSafe.selSafeExecTransaction; MultiSend.selMultiSend;
    Multicall.selMulticallBytes; Multicall.selMulticallDeadline; Multicall.selMulticallPrevHash;
    Multicall.selMC3Aggregate3; Multicall.selMC3TryAggregate; Multicall.selMC3Aggregate;
    Multicall3.selMC3Aggregate3Value ].

Lemma claims_known l l3 sel d :
  d ∈ claiming l l3 -> can_decode d sel = true -> sel ∈ known_selectors.
Proof.
  unfold claiming. rewrite !elem_of_cons, elem_of_nil.
  intros H Hd. destruct_or! H; subst d; try done; revert Hd; cbn [can_decode pack d_can];
    cbv [CanDecode WETH.WETH_Decoder UniswapV2Router.V2_Decoder UniswapV3Payments.V3_Decoder
      AaveWETHGateway.Aave_Decoder Disperse.Disperse_Decoder GnosisSafe.Safe_Decoder
      MultiSend.MultiSend_Decoder WETH.CanDecode UniswapV2Router.CanDecode
      UniswapV3Payments.CanDecode AaveWETHGateway.CanDecode Disperse.CanDecode
      GnosisSafe.CanDecode MultiSend.CanDecode Multicall.CanDecode Multicall.can_decode
      Multicall3.CanDecode];
    rewrite ?orb_true_iff, ?bool_decide_eq_true; intros Hd; destruct_or? Hd; subst sel;
    unfold known_selectors; repeat (first [left; reflexivity | right]).
Qed.

Lemma claiming_disjoint l l3 : disjoint_claims (claiming l l3).
Proof.
  intros sel. destruct (decide (sel ∈ known_selectors)) as [Hk|Hk].
  - assert (Forall (fun sel => (length (claims (claiming l l3) sel) <= 1)%nat) known_selectors) as H
      by (repeat constructor; apply Nat.leb_le; vm_compute; reflexivity).
    by apply (proj1 (Forall_forall _ _) H).
  - destruct (claims (claiming l l3) sel) as [|d ds] eqn:E; simpl; [lia|].
    assert (d ∈ claims (claiming l l3) sel) as Hd by (rewrite E; left).
    apply list_elem_of_filter in Hd as [Hc Hd]. by apply (claims_known l l3) in Hc.
Qed.

Lemma heuristic_claims sel : can_decode heuristic sel = true.
Proof. done. Qed.

(** C28: "decoder order matters: the heuristic must stay last", and nothing else: with the
    heuristic registered last, the nine codecs that claim selectors can be registered in
    any order, and registered first the heuristic hides all of them. *)
Theorem Parse_order h l l3 ds data :
  ds ≡ₚ claiming l l3 ->
  Parse h (New (ds ++ [heuristic])) data = Parse h (New (claiming l l3 ++ [heuristic])) data /\
  Parse h (New (heuristic :: ds)) data = Parse h (New [heuristic]) data.
Proof.
  intros Hp. split; [|by apply Parse_dispatch_ext].
  apply Parse_dispatch_ext. intros A sel found none. rewrite !first_match_app.
  apply first_match_perm; [done|apply claiming_disjoint].
Qed.

Lemma Parse_order_witness :
  Parse empty_heap (New (rev (claiming 1%positive 1%positive) ++ [heuristic])) (str "12210e8a") =
  Parse empty_heap (New (claiming 1%positive 1%positive ++ [heuristic])) (str "12210e8a").
Proof. apply (Parse_order empty_heap 1%positive 1%positive (rev (claiming 1%positive 1%positive))). by rewrite <-Permutation_rev. Defined.

(** C29: with the heuristic last every selector finds a decoder: the text of a call that
    no other codec claims parses to the heuristic's own result, which is never an error,
    and the errors of [Parse] are those of the hexadecimal text and of a codec that
    claimed the selector and rejected its parameters. *)
Theorem Parse_fallback h ds bs :
  parser_ok h (New ds) -> go_slice bs -> 4 <= len bs ->
  let p := New (ds ++ [heuristic]) in
  (claims ds (take 4 bs) = [] ->
     Parse h p (EncodeToString bs) =
       Heuristic.Decode Heuristic.NewHeuristicDecoder (take 4 bs) (drop 4 bs) /\
     ~ is_err (Parse h p (EncodeToString bs))) /\
  (forall e, Parse h p (EncodeToString bs) = Err e ->
     exists d e', d ∈ ds /\ can_decode d (take 4 bs) = true /\
       decode_ref (parse_bytes h) h d (take 4 bs) (drop 4 bs) = Err e' /\
       e = EWrap "decoding failed: %w" [] e').
Proof.
  intros [Hb Hds] Hg Hl p. unfold p. clear p.
  assert (forall e, Heuristic.Decode Heuristic.NewHeuristicDecoder (take 4 bs) (drop 4 bs) <> Err e) as Hh
    by (intros e; rewrite Heuristic.Decode_guesses;
      [done|unfold go_slice, len in *; rewrite length_drop; lia|reflexivity|apply Heuristic.NewHeuristicDecoder_bounded]).
  rewrite (Parse_bytes h _ _ bs (DecodeString_EncodeToString bs)), (proj2 (Z.ltb_ge _ _)) by done.
  unfold dispatch_bytes. simpl decoders. rewrite first_match_app, first_match_claims.
  destruct (claims ds (take 4 bs)) as [|d l] eqn:E.
  - assert (forall m : result, (forall e, m <> Err e) -> wrap "decoding failed: %w" [] m = m) as Hw
      by (intros [] Hm; naive_solver).
    simpl first_match. cbn [decode_ref heuristic pack d_decode]. rewrite Hw by done.
    split; [intros _; split; [done|]; intros [e He]; by apply Hh in He|].
    intros e He. by apply Hh in He.
  - split; [done|]. intros e He.
    assert (d ∈ claims ds (take 4 bs)) as Hd by (rewrite E; left).
    apply list_elem_of_filter in Hd as [Hc Hd]. exists d.
    destruct (decode_ref _ _ _ _ _) as [r|e'|pn|] eqn:Ed; simpl in He; try discriminate He.
    injection He as <-. by exists e'.
Qed.

Lemma Parse_fallback_witness :
  let p := New ([Stateless (pack WETH.NewWETHDecoder)] ++ [heuristic]) in
  ~ is_err (Parse empty_heap p (EncodeToString [x00; x00; x00; x01])) /\
  exists e', Parse empty_heap p (EncodeToString WETH.selWETHWithdraw) = Err (EWrap "decoding failed: %w" [] e').
Proof.
  assert (parser_ok empty_heap (New [Stateless (pack WETH.NewWETHDecoder)])) as Hp.
  { split; [constructor|]. constructor; [|constructor]. simpl. apply _. }
  split.
  - apply (Parse_fallback _ _ [x00; x00; x00; x01] Hp); vm_compute; (discriminate || reflexivity).
  - destruct (proj2 (Parse_fallback _ _ WETH.selWETHWithdraw Hp ltac:(vm_compute; discriminate)
      ltac:(vm_compute; discriminate)) _ eq_refl) as (d & e' & _ & _ & _ & He).
    exists e'. rewrite <-He. reflexivity.
Defined.

(** ** The typing of the codecs *)

(** The ten codecs of the package, over the wrapper codecs at [l] and [l3]. *)
Definition package_codecs (l l3 : loc) : list dec_ref := claiming l l3 ++ [heuristic].

Lemma package_codecs_ok h l l3 :
  is_Some (multicalls h !! l) -> is_Some (multicall3s h !! l3) ->
  Forall (dec_ref_ok h) (package_codecs l l3).
Proof.
  intros Hl Hl3. unfold package_codecs, claiming, heuristic.
  do 7 (apply Forall_cons_2; [apply pack_lawful|]).
  apply Forall_cons_2; [exact Hl|]. apply Forall_cons_2; [exact Hl3|].
  apply Forall_cons_2; [apply pack_lawful|apply Forall_nil_2].
Qed.

Lemma decode_ref_reject rec h d sel params :
  dec_ref_ok h d -> can_decode d sel = false -> is_err (decode_ref rec h d sel params).
Proof.
  destruct d as [d|l|l]; simpl; [|intros [s ->]..].
  - intros H. exact (decode_reject sel params).
  - intros H. by apply Multicall.Decode_reject.
  - intros H. by apply Multicall3.Decode3_reject.
Qed.

Lemma known_claims l l3 sel :
  sel ∈ known_selectors -> Exists (fun d => can_decode d sel = true) (claiming l l3).
Proof.
  intros Hk. apply Exists_exists.
  assert (Forall (fun sel => (length (claims (claiming l l3) sel) =? 1)%nat = true) known_selectors) as H
    by (repeat (apply Forall_cons_2; [vm_compute; reflexivity|]); apply Forall_nil_2).
  pose proof (proj1 (Forall_forall _ _) H _ Hk) as Hne. cbv beta in Hne.
  destruct (claims (claiming l l3) sel) as [|d ds] eqn:E; [discriminate Hne|].
  assert (d ∈ claims (claiming l l3) sel) as Hd by (rewrite E; left).
  apply list_elem_of_filter in Hd as [? ?]. by exists d.
Qed.

(** C3: the type of every codec of the package, with no assumption on any of them: for a
    selector and parameters of any shape, and wrapper codecs bound to any chain, a codec
    returns either an error or a non-nil result that carries the selector it was given
    and transfers between 20-byte addresses of amounts below 2^256; it answers a selector
    it does not claim with an error; and the selectors that the codecs other than the
    heuristic claim are exactly the eighteen of [known_selectors]. *)
Theorem codecs_well_typed h l l3 d sel params :
  build h -> is_Some (multicalls h !! l) -> is_Some (multicall3s h !! l3) ->
  d ∈ package_codecs l l3 -> go_slice params ->
  match decode_ref (parse_bytes h) h d sel params with
  | Ok r => exists p, r = Some p /\ Sel p = sel /\
      Forall (fun t => len (From t) = 20 /\ len (To t) = 20 /\
                match Value t with Some v => 0 <= v < 2 ^ 256 | None => True end) (Transfers p)
  | Err _ => True
  | Panic _ | NoFuel => False
  end /\
  (can_decode d sel = false -> is_err (decode_ref (parse_bytes h) h d sel params)) /\
  (Exists (fun d => can_decode d sel = true) (claiming l l3) <-> sel ∈ known_selectors).
Proof.
  intros Hb Hl Hl3 Hd Hp.
  pose proof (proj1 (Forall_forall _ _) (package_codecs_ok h l l3 Hl Hl3) d Hd) as Hok.
  split; [|split; [by apply decode_ref_reject|split; [|apply known_claims]]].
  - pose proof (decode_ref_parse_safe h d sel params Hb Hok Hp) as Hs.
    destruct (decode_ref _ _ _ _ _) as [r|e|pn|]; simpl in Hs; [|done..].
    destruct Hs as (p & -> & Hsel & Hts). exists p. split; [done|]. split; [done|].
    eapply Forall_impl; [exact Hts|]. intros t (Hf & Ht & Hv).
    split; [by apply len_address|]. split; [by apply len_address|]. exact Hv.
  - intros (d' & Hd' & Hc)%Exists_exists. by eapply claims_known.
Qed.

(** A heap with one wrapper of each kind, without a sub-parser. *)
Definition bare_heap : heap :=
  snd (NewMulticall3ValueDecoder SubNil (snd (NewMulticallDecoder SubNil empty_heap))).

Lemma codecs_well_typed_witness :
  is_err (decode_ref (parse_bytes bare_heap) bare_heap (MulticallRef 1%positive) WETH.selWETHWithdraw []).
Proof.
  assert (build bare_heap) as Hb
    by (apply build_Multicall3; [apply build_Multicall; [constructor|exact I]|exact I]).
  apply (codecs_well_typed bare_heap 1%positive 1%positive (MulticallRef 1%positive) WETH.selWETHWithdraw []
    Hb ltac:(by eexists) ltac:(by eexists)); [|vm_compute; discriminate|reflexivity].
  unfold package_codecs, claiming. simpl. rewrite !elem_of_cons. tauto.
Defined.
End Parser.
