(* ===== verification/Workers.v ===== *)
(** The generic worker pool (src/workers/worker.go, options.go, errors.go): the options
    and the validation of [New] with [float64] loads as IEEE 754 values, and the pool as a
    transition system whose steps are the atomic operations and channel operations of
    [Submit], [Close], [Start], the autoscaler and the workers, in any interleaving. *)

From Stdlib Require Import Floats.SpecFloat.
From S2P Require Import Prelude.
#[local] Open Scope Z_scope.

(** ** float64 *)
Module Float64.

Definition prec : Z := 53.
Definition emax : Z := 1024.

Definition float64 := spec_float.

(** [float64(n)] *)
Definition of_Z (n : Z) : float64 := binary_normalize prec emax n 0 false.

Definition div (x y : float64) : float64 := SFdiv prec emax x y.

(** [x < y], [x <= y], [x > y], [x >= y]: all false on NaN. *)
Definition lt (x y : float64) : bool := SFltb x y.
Definition le (x y : float64) : bool := SFleb x y.
Definition gt (x y : float64) : bool := SFltb y x.
Definition ge (x y : float64) : bool := SFleb y x.

Definition is_nan (x : float64) : bool := match x with S754_nan => true | _ => false end.

(** The doubles nearest to 0.7 and 0.3. *)
Definition f0_7 : float64 := S754_finite false 6305039478318694 (-53).
Definition f0_3 : float64 := S754_finite false 5404319552844595 (-54).

Lemma compare_total x y : is_nan x = false -> is_nan y = false -> is_Some (SFcompare x y).
Proof. destruct x, y; simpl; intros; try discriminate; eexists; reflexivity. Qed.

Lemma compare_sym x y : SFcompare y x = option_map CompOpp (SFcompare x y).
Proof.
  destruct x as [[]|[]| |[] m e], y as [[]|[]| |[] m' e']; try reflexivity; simpl; f_equal;
    rewrite (Z.compare_antisym e e'), (Pos.compare_antisym m m' : Pos.compare_cont Eq m' m = _);
    change (Pos.compare_cont Eq m m') with (m ?= m')%positive;
    destruct (e ?= e'), (m ?= m')%positive; reflexivity.
Qed.

(** On ordered values, the negation of [>] is [<=] and that of [>=] is [<]. *)
Lemma not_gt x y : is_nan x = false -> is_nan y = false -> gt x y = false -> le x y = true.
Proof.
  unfold gt, le, SFltb, SFleb. intros Hx Hy. rewrite compare_sym.
  destruct (compare_total x y Hx Hy) as [c ->]. by destruct c.
Qed.

Lemma not_ge x y : is_nan x = false -> is_nan y = false -> ge x y = false -> lt x y = true.
Proof.
  unfold ge, lt, SFltb, SFleb. intros Hx Hy. rewrite compare_sym.
  destruct (compare_total x y Hx Hy) as [c ->]. by destruct c.
Qed.
End Float64.

(** ** Options and validation *)
Module PoolConfig.
Import Float64.

Definition DefaultMinWorkerCount : Z := 3.
Definition DefaultMaxWorkerCount : Z := 5.
Definition DefaultPollingFrequency : Z := 300 * 1000000.
Definition DefaultMaxLoad : float64 := f0_7.
Definition DefaultMinLoad : float64 := f0_3.
Definition DefaultScalingCooldown : Z := 5 * 1000000000.

(** [min] and [max] are int32, durations are int64 nanoseconds. *)
Record config := mkConfig {
  pollingFreq : Z;
  min : Z;
  max : Z;
  maxLoad : float64;
  minLoad : float64;
  scalingCooldown : Z
}.

Definition Opt := config -> config.

Definition WithMinWorkerCount (count : Z) : Opt := fun cfg =>
  mkConfig (pollingFreq cfg) count (max cfg) (maxLoad cfg) (minLoad cfg) (scalingCooldown cfg).
Definition WithMaxWorkerCount (count : Z) : Opt := fun cfg =>
  mkConfig (pollingFreq cfg) (min cfg) count (maxLoad cfg) (minLoad cfg) (scalingCooldown cfg).
Definition WithPollingFrequency (f : Z) : Opt := fun cfg =>
  mkConfig f (min cfg) (max cfg) (maxLoad cfg) (minLoad cfg) (scalingCooldown cfg).
Definition WithMaxLoad (l : float64) : Opt := fun cfg =>
  mkConfig (pollingFreq cfg) (min cfg) (max cfg) l (minLoad cfg) (scalingCooldown cfg).
Definition WithMinLoad (l : float64) : Opt := fun cfg =>
  mkConfig (pollingFreq cfg) (min cfg) (max cfg) (maxLoad cfg) l (scalingCooldown cfg).
Definition WithScalingCooldown (cooldown : Z) : Opt := fun cfg =>
  mkConfig (pollingFreq cfg) (min cfg) (max cfg) (maxLoad cfg) (minLoad cfg) cooldown.

Definition ErrInvalidMinWorkerCount : error := ENew "invalid min worker count".
Definition ErrInvalidMaxWorkerCount : error := ENew "invalid max worker count".
Definition ErrInvalidMinMaxWorkerCount : error :=
  ENew "max worker count must be greater than min worker count".
Definition ErrInvalidPollingFrequency : error := ENew "invalid polling frequency".
Definition ErrInvalidMaxLoad : error := ENew "max load must be between 0 and 1".
Definition ErrInvalidMinLoad : error := ENew "min load must be less than max load and >= 0".
Definition ErrPoolClosed : error := ENew "pool is closed".

Definition default_config : config :=
  mkConfig DefaultPollingFrequency DefaultMinWorkerCount DefaultMaxWorkerCount
    DefaultMaxLoad DefaultMinLoad DefaultScalingCooldown.

(** [for _, opt := range opts { opt(&cfg) }] *)
Definition apply_opts (opts : list Opt) (cfg : config) : config :=
  fold_left (fun cfg opt => opt cfg) opts cfg.

Definition validate (cfg : config) : option error :=
  if min cfg =? 0 then Some ErrInvalidMinWorkerCount
  else if max cfg =? 0 then Some ErrInvalidMaxWorkerCount
  else if max cfg <? min cfg then Some ErrInvalidMinMaxWorkerCount
  else if pollingFreq cfg =? 0 then Some ErrInvalidPollingFrequency
  else if gt (maxLoad cfg) (of_Z 1) || le (maxLoad cfg) (of_Z 0) then Some ErrInvalidMaxLoad
  else if lt (minLoad cfg) (of_Z 0) || ge (minLoad cfg) (maxLoad cfg) then Some ErrInvalidMinLoad
  else None.

(** [make(chan T, size)]: the capacity, or a panic on a negative size. *)
Definition make_chan (size : Z) : outcome Z := if size <? 0 then Panic PMakeChan else Ok size.

(** A new pool: its configuration and the capacities of its two channels; the counters
    and flags are zero. *)
Record Pool := mkPool { cfg : config; dataCap : Z; deflateCap : Z }.

Definition New (opts : list Opt) : outcome Pool :=
  let cfg := apply_opts opts default_config in
  match validate cfg with
  | Some e => Err e
  | None =>
      dataCap ← make_chan (max cfg);
      deflateCap ← make_chan (max cfg);
      Ok (mkPool cfg dataCap deflateCap)
  end.

(** What the validation guarantees of the loads when none of them is NaN. *)
Definition loads_ok (c : config) : Prop :=
  is_nan (maxLoad c) = false -> is_nan (minLoad c) = false ->
  le (of_Z 0) (minLoad c) = true /\ lt (minLoad c) (maxLoad c) = true /\
  lt (of_Z 0) (maxLoad c) = true /\ le (maxLoad c) (of_Z 1) = true.

Lemma validate_loads c : validate c = None -> loads_ok c.
Proof.
  unfold validate. repeat case_match; try discriminate. intros _ Hx Hn.
  repeat match goal with H : _ || _ = false |- _ => apply orb_false_iff in H as [? ?] end.
  assert (is_nan (of_Z 0) = false /\ is_nan (of_Z 1) = false) as [N0 N1] by done.
  split; [|split; [|split]].
  - apply not_gt; done.
  - apply not_ge; done.
  - apply not_ge; done.
  - apply not_gt; done.
Qed.

Lemma validate_counts c :
  validate c = None -> min c <> 0 /\ max c <> 0 /\ min c <= max c /\ pollingFreq c <> 0.
Proof. unfold validate. repeat case_match; try discriminate. lia. Qed.

(** The settings that the options of the package make; there are no others, since the
    fields of the configuration cannot be named outside of it. *)
Inductive setting :=
| SMin (count : Z) | SMax (count : Z) | SFreq (f : Z)
| SMaxLoad (l : float64) | SMinLoad (l : float64) | SCooldown (d : Z).

Definition denote (x : setting) : Opt :=
  match x with
  | SMin n => WithMinWorkerCount n
  | SMax n => WithMaxWorkerCount n
  | SFreq f => WithPollingFrequency f
  | SMaxLoad l => WithMaxLoad l
  | SMinLoad l => WithMinLoad l
  | SCooldown d => WithScalingCooldown d
  end.

(** The last setting of a kind, or the default. *)
Definition chosen {A} (kind : setting -> option A) (default_value : A) (xs : list setting) : A :=
  default default_value (last (omap kind xs)).

Definition min_of := chosen (fun x => match x with SMin n => Some n | _ => None end) 3.
Definition max_of := chosen (fun x => match x with SMax n => Some n | _ => None end) 5.
Definition freq_of := chosen (fun x => match x with SFreq f => Some f | _ => None end) 300000000.
Definition maxLoad_of := chosen (fun x => match x with SMaxLoad l => Some l | _ => None end) f0_7.
Definition minLoad_of := chosen (fun x => match x with SMinLoad l => Some l | _ => None end) f0_3.
Definition cooldown_of := chosen (fun x => match x with SCooldown d => Some d | _ => None end) 5000000000.

Lemma chosen_snoc {A} (kind : setting -> option A) d xs x :
  chosen kind d (xs ++ [x]) = match kind x with Some a => a | None => chosen kind d xs end.
Proof.
  unfold chosen. rewrite omap_app. simpl. destruct (kind x); simpl.
  - by rewrite last_snoc.
  - by rewrite app_nil_r.
Qed.

Lemma apply_opts_snoc opts o c : apply_opts (opts ++ [o]) c = o (apply_opts opts c).
Proof. unfold apply_opts. by rewrite fold_left_app. Qed.

Lemma apply_settings xs :
  apply_opts (map denote xs) default_config =
  mkConfig (freq_of xs) (min_of xs) (max_of xs) (maxLoad_of xs) (minLoad_of xs) (cooldown_of xs).
Proof.
  induction xs as [|x xs IH] using rev_ind; [reflexivity|].
  rewrite map_app. change (map denote [x]) with [denote x]. rewrite apply_opts_snoc, IH.
  unfold freq_of, min_of, max_of, maxLoad_of, minLoad_of, cooldown_of.
  rewrite !chosen_snoc. by destruct x.
Qed.

(** What can be wrong with the settings, in the order in which it is reported. *)
Definition faults (xs : list setting) : list (bool * error) :=
  [ (min_of xs =? 0, ENew "invalid min worker count");
    (max_of xs =? 0, ENew "invalid max worker count");
    (max_of xs <? min_of xs, ENew "max worker count must be greater than min worker count");
    (freq_of xs =? 0, ENew "invalid polling frequency");
    (lt (of_Z 1) (maxLoad_of xs) || le (maxLoad_of xs) (of_Z 0), ENew "max load must be between 0 and 1");
    (lt (minLoad_of xs) (of_Z 0) || le (maxLoad_of xs) (minLoad_of xs),
       ENew "min load must be less than max load and >= 0") ].

(** Error [e] stands in [l] behind faults that are all absent. *)
Definition first_fault (l : list (bool * error)) (e : error) : Prop :=
  exists pre post, l = pre ++ (true, e) :: post /\ Forall (fun x => fst x = false) pre.

Definition no_fault (l : list (bool * error)) : Prop := Forall (fun x => fst x = false) l.

Fixpoint report (l : list (bool * error)) : option error :=
  match l with [] => None | (b, e) :: l => if b then Some e else report l end.

Lemma report_Some l e : report l = Some e <-> first_fault l e.
Proof.
  induction l as [|[b e'] l IH]; simpl.
  - split; [done|]. by intros ([] & post & ? & _).
  - destruct b.
    + split.
      * intros [= ->]. by exists [], l.
      * intros ([|x pre] & post & E & Hpre); simpl in E; injection E; [congruence|].
        apply Forall_cons in Hpre as [Hx _]. intros _ <-. done.
    + rewrite IH. split.
      * intros (pre & post & -> & Hpre). exists ((false, e') :: pre), post. split; [done|by constructor].
      * intros ([|x pre] & post & E & Hpre); simpl in E; [done|].
        apply Forall_cons in Hpre as [_ Hpre]. injection E as _ ->. by exists pre, post.
Qed.

Lemma report_None l : report l = None <-> no_fault l.
Proof.
  unfold no_fault. induction l as [|[b e] l IH]; simpl; [by split; [constructor|]|].
  rewrite Forall_cons. destruct b; simpl; [split; [done|by intros []]|]. rewrite IH. tauto.
Qed.

Lemma validate_report xs : validate (apply_opts (map denote xs) default_config) = report (faults xs).
Proof. by rewrite apply_settings. Qed.

(** C35: [New] with any options of the package. Each setting is the last one that was made,
    or the default; [New] reports the first fault of these settings, and otherwise returns
    the pool with exactly these settings and with two channels of capacity [max], or
    panics if [max] is negative, as it can be when [min] is, too. Settings without a fault
    have nonzero counts with [min <= max], a nonzero frequency and, unless a load is NaN,
    loads with [0 <= minLoad < maxLoad <= 1]. *)
Theorem New_spec xs :
  let c := mkConfig (freq_of xs) (min_of xs) (max_of xs) (maxLoad_of xs) (minLoad_of xs) (cooldown_of xs) in
  (forall e, New (map denote xs) = Err e <-> first_fault (faults xs) e) /\
  (forall p, New (map denote xs) = Ok p <->
     no_fault (faults xs) /\ 0 < max_of xs /\ p = mkPool c (max_of xs) (max_of xs)) /\
  (forall pn, New (map denote xs) = Panic pn <-> no_fault (faults xs) /\ max_of xs < 0 /\ pn = PMakeChan) /\
  (no_fault (faults xs) ->
     min_of xs <> 0 /\ max_of xs <> 0 /\ min_of xs <= max_of xs /\ freq_of xs <> 0 /\ loads_ok c).
Proof.
  intros c. pose proof (validate_report xs) as Hv. pose proof (apply_settings xs) as Hc. fold c in Hc.
  unfold New, make_chan. rewrite Hv, Hc. rewrite Hc in Hv.
  split; [|split; [|split]].
  - intros e. rewrite <-report_Some. destruct (report (faults xs)) as [e'|]; [naive_solver|].
    destruct (Z.ltb_spec (max c) 0); simpl; done.
  - intros p. rewrite <-report_None. destruct (report (faults xs)) as [e'|] eqn:E; [naive_solver|].
    pose proof (validate_counts c Hv) as Hm. simpl in *.
    destruct (Z.ltb_spec (max_of xs) 0); simpl; [split; [done|lia]|]. split.
    + intros [= <-]. split; [done|split; [lia|done]].
    + by intros (_ & _ & ->).
  - intros pn. rewrite <-report_None. destruct (report (faults xs)) as [e'|] eqn:E; [naive_solver|].
    simpl. destruct (Z.ltb_spec (max_of xs) 0); simpl; [naive_solver|]. split; [done|lia].
  - rewrite <-report_None. intros E. rewrite E in Hv. pose proof (validate_counts c Hv) as (? & ? & ? & ?).
    pose proof (validate_loads c Hv). done.
Qed.

(** Settings that the validation lets through although no working pool has them: a
    negative minimum (no worker is ever started), a negative polling frequency (which
    [time.NewTicker] does not accept), NaN loads, and two negative counts, which panic. *)
Theorem New_accepts_unusable :
  (exists p, New [WithMinWorkerCount (-1)] = Ok p /\ min (cfg p) = -1) /\
  (exists p, New [WithPollingFrequency (-1)] = Ok p /\ pollingFreq (cfg p) = -1) /\
  (exists p, New [WithMaxLoad S754_nan; WithMinLoad S754_nan] = Ok p) /\
  New [WithMinWorkerCount (-2); WithMaxWorkerCount (-1)] = Panic PMakeChan.
Proof. repeat split; try (eexists; split); try eexists; vm_compute; reflexivity. Qed.
End PoolConfig.

(** ** The pool as a transition system

    The state is what the goroutines share (the atomics, the two channels, the context)
    and the program counter of every goroutine that has been started: workers, autoscaler,
    and the calls of [Submit], [Close] and [Start] in flight. A step executes one atomic
    operation, one channel operation or one branch of one goroutine. *)
Module Pool.
Import Float64 PoolConfig.

Definition wrap32 (z : Z) : Z := (z + 2 ^ 31) mod 2 ^ 32 - 2 ^ 31.

Lemma wrap32_small z : - 2 ^ 31 <= z < 2 ^ 31 -> wrap32 z = z.
Proof. intros. unfold wrap32. rewrite Z.mod_small; lia. Qed.

#[global] Arguments wrap32 : simpl never.

(** Case analysis of one step of a goroutine. *)
Ltac step_cases H :=
  repeat match type of H with
  | context [match ?x with _ => _ end] => destruct x eqn:?; simpl in H; try discriminate H
  end;
  simplify_eq/=.

(** [time.NewTicker] of an interval that is not positive. *)
Definition PNewTicker : panic := PValue (str "non-positive interval for NewTicker").

Section pool.
Context {T : Type}.

(** The goroutine started by [spawn]. *)
Inductive worker_pc :=
| WSpawned                  (* before [activeWorkers.Load()] *)
| WCas (current : Z)        (* before [CompareAndSwap] *)
| WLoop                     (* at the [select] *)
| WNotOk                    (* received from the closed channel *)
| WGot (d : T)              (* before [stopping.Load()] *)
| WStart (d : T)            (* before [busyWorkers.Add(1)] *)
| WHandling (d : T)         (* in the handler *)
| WHandled (err : option error)  (* before [busyWorkers.Add(-1)] *)
| WExit (err : option error)     (* before the deferred [activeWorkers.Add(-1)] *)
| WDone (err : option error).

(** The goroutine of [autoscaler]. *)
Inductive scaler_pc :=
| STicker                   (* before [time.NewTicker] *)
| SSelect
| SActive
| SBusy (active : Z)
| SNow (active busy : Z)
| SSpawn (now : Z)
| SShrink (now : Z) (todo : Z)
| SStore (now : Z)
| SDone (err : error).

Inductive submit_pc :=
| SubStart (d : T)
| SubSelect (d : T)
| SubDone (err : option error).

Inductive close_pc := CloStart | CloClose | CloDone.

Inductive start_pc :=
| StStart
| StSpawn (todo : Z)
| StWait
| StDone (err : error).

Inductive thread :=
| TWorker (w : worker_pc)
| TScaler (s : scaler_pc)
| TSubmit (s : submit_pc)
| TClose (c : close_pc)
| TStart (s : start_pc).

(** [accepted], [started] and [dropped] record the history of the items: sent on the
    channel, handed to the handler, received and thrown away. *)
Record shared := mkShared {
  activeWorkers : Z;
  busyWorkers : Z;
  lastScalingTime : Z;
  stopping : bool;
  closed : bool;
  dataCh : list T;
  dataClosed : bool;
  deflateCh : Z;
  ctxDone : bool;
  crashed : option panic;
  accepted : list T;
  started : list T;
  dropped : list T
}.

Definition init : shared :=
  mkShared 0 0 0 false false [] false 0 false None [] [] [].

Definition set_active (a : Z) (s : shared) : shared :=
  mkShared a (busyWorkers s) (lastScalingTime s) (stopping s) (closed s) (dataCh s)
    (dataClosed s) (deflateCh s) (ctxDone s) (crashed s) (accepted s) (started s) (dropped s).
Definition set_busy (b : Z) (s : shared) : shared :=
  mkShared (activeWorkers s) b (lastScalingTime s) (stopping s) (closed s) (dataCh s)
    (dataClosed s) (deflateCh s) (ctxDone s) (crashed s) (accepted s) (started s) (dropped s).
Definition set_last (t : Z) (s : shared) : shared :=
  mkShared (activeWorkers s) (busyWorkers s) t (stopping s) (closed s) (dataCh s)
    (dataClosed s) (deflateCh s) (ctxDone s) (crashed s) (accepted s) (started s) (dropped s).
Definition set_stopping (s : shared) : shared :=
  mkShared (activeWorkers s) (busyWorkers s) (lastScalingTime s) true (closed s) (dataCh s)
    (dataClosed s) (deflateCh s) (ctxDone s) (crashed s) (accepted s) (started s) (dropped s).
Definition set_closed (s : shared) : shared :=
  mkShared (activeWorkers s) (busyWorkers s) (lastScalingTime s) (stopping s) true (dataCh s)
    (dataClosed s) (deflateCh s) (ctxDone s) (crashed s) (accepted s) (started s) (dropped s).
Definition set_data (q : list T) (s : shared) : shared :=
  mkShared (activeWorkers s) (busyWorkers s) (lastScalingTime s) (stopping s) (closed s) q
    (dataClosed s) (deflateCh s) (ctxDone s) (crashed s) (accepted s) (started s) (dropped s).
Definition close_data (s : shared) : shared :=
  mkShared (activeWorkers s) (busyWorkers s) (lastScalingTime s) (stopping s) (closed s) (dataCh s)
    true (deflateCh s) (ctxDone s) (crashed s) (accepted s) (started s) (dropped s).
Definition set_deflate (n : Z) (s : shared) : shared :=
  mkShared (activeWorkers s) (busyWorkers s) (lastScalingTime s) (stopping s) (closed s) (dataCh s)
    (dataClosed s) n (ctxDone s) (crashed s) (accepted s) (started s) (dropped s).
Definition cancel (s : shared) : shared :=
  mkShared (activeWorkers s) (busyWorkers s) (lastScalingTime s) (stopping s) (closed s) (dataCh s)
    (dataClosed s) (deflateCh s) true (crashed s) (accepted s) (started s) (dropped s).
Definition crash (p : panic) (s : shared) : shared :=
  mkShared (activeWorkers s) (busyWorkers s) (lastScalingTime s) (stopping s) (closed s) (dataCh s)
    (dataClosed s) (deflateCh s) (ctxDone s) (Some p) (accepted s) (started s) (dropped s).
Definition log_accepted (d : T) (s : shared) : shared :=
  mkShared (activeWorkers s) (busyWorkers s) (lastScalingTime s) (stopping s) (closed s) (dataCh s)
    (dataClosed s) (deflateCh s) (ctxDone s) (crashed s) (accepted s ++ [d]) (started s) (dropped s).
Definition log_started (d : T) (s : shared) : shared :=
  mkShared (activeWorkers s) (busyWorkers s) (lastScalingTime s) (stopping s) (closed s) (dataCh s)
    (dataClosed s) (deflateCh s) (ctxDone s) (crashed s) (accepted s) (started s ++ [d]) (dropped s).
Definition log_dropped (d : T) (s : shared) : shared :=
  mkShared (activeWorkers s) (busyWorkers s) (lastScalingTime s) (stopping s) (closed s) (dataCh s)
    (dataClosed s) (deflateCh s) (ctxDone s) (crashed s) (accepted s) (started s) (dropped s ++ [d]).

(** The metrics of the pool. *)
Definition ActiveWorkers (s : shared) : Z := activeWorkers s.
Definition BusyWorkers (s : shared) : Z := busyWorkers s.
Definition QueueSize (s : shared) : Z := len (dataCh s).

(** What the scheduler and the outside decide: the case a [select] takes, the clock,
    the handler's answer, the error of a context that is done. *)
Inductive choice :=
| ChNone
| ChCtx (err : error)
| ChDeflate
| ChData
| ChTick
| ChNow (now : Z)
| ChReturn (err : option error).

Context (p : Pool).
#[local] Abbreviation cfg := (cfg p).

Definition worker_step (c : choice) (s : shared) (w : worker_pc) : option (shared * worker_pc) :=
  match w, c with
  | WSpawned, ChNone =>
      let current := activeWorkers s in
      if max cfg <=? current then Some (s, WDone None) else Some (s, WCas current)
  | WCas current, ChNone =>
      if activeWorkers s =? current then Some (set_active (wrap32 (current + 1)) s, WLoop)
      else Some (s, WSpawned)
  | WLoop, ChCtx err => if ctxDone s then Some (s, WExit (Some err)) else None
  | WLoop, ChDeflate =>
      if 0 <? deflateCh s then Some (set_deflate (deflateCh s - 1) s, WExit None) else None
  | WLoop, ChData =>
      match dataCh s with
      | d :: q => Some (set_data q s, WGot d)
      | [] => if dataClosed s then Some (s, WNotOk) else None
      end
  | WNotOk, ChNone => Some (set_stopping s, WExit None)
  | WGot d, ChNone =>
      if stopping s then Some (log_dropped d s, WExit None) else Some (s, WStart d)
  | WStart d, ChNone =>
      Some (log_started d (set_busy (wrap32 (busyWorkers s + 1)) s), WHandling d)
  | WHandling d, ChReturn err => Some (s, WHandled err)
  | WHandled err, ChNone =>
      Some (set_busy (wrap32 (busyWorkers s - 1)) s,
            match err with Some e => WExit (Some e) | None => WLoop end)
  | WExit err, ChNone => Some (set_active (wrap32 (activeWorkers s - 1)) s, WDone err)
  | _, _ => None
  end.

(** What one tick of the autoscaler decides. *)
Inductive decision := Grow | Shrink (toRemove : Z) | Keep.

Definition decide_scaling (c : config) (active busy : Z) : decision :=
  let busyRatio := div (of_Z busy) (of_Z active) in
  if ge busyRatio (maxLoad c) && (active <? max c) then Grow
  else if (min c <? active) && lt busyRatio (minLoad c) then
    let excess := wrap32 (active - min c) in
    Shrink (Z.min excess (Z.max 1 (Z.quot active 2)))
  else Keep.

Definition scaler_step (c : choice) (s : shared) (pc : scaler_pc)
    : option (shared * scaler_pc * list thread) :=
  match pc, c with
  | STicker, ChNone =>
      if pollingFreq cfg <=? 0 then Some (crash PNewTicker s, SSelect, []) else Some (s, SSelect, [])
  | SSelect, ChTick => Some (s, SActive, [])
  | SSelect, ChCtx err => if ctxDone s then Some (s, SDone err, []) else None
  | SActive, ChNone => Some (s, SBusy (activeWorkers s), [])
  | SBusy active, ChNone =>
      let busy := busyWorkers s in
      if active =? 0 then Some (s, SSelect, []) else Some (s, SNow active busy, [])
  | SNow active busy, ChNow now =>
      let lastScaling := lastScalingTime s in
      if now -! lastScaling <? scalingCooldown cfg then Some (s, SSelect, [])
      else match decide_scaling cfg active busy with
           | Grow => Some (s, SSpawn now, [])
           | Shrink n => Some (s, SShrink now n, [])
           | Keep => Some (s, SSelect, [])
           end
  | SSpawn now, ChNone =>
      Some (s, SStore now, if stopping s then [] else [TWorker WSpawned])
  | SShrink now todo, ChNone =>
      if todo <=? 0 then Some (s, SStore now, [])
      else Some (if deflateCh s <? deflateCap p then set_deflate (deflateCh s + 1) s else s,
                 SShrink now (todo - 1), [])
  | SStore now, ChNone => Some (set_last now s, SSelect, [])
  | _, _ => None
  end.

Definition submit_step (c : choice) (s : shared) (pc : submit_pc) : option (shared * submit_pc) :=
  match pc, c with
  | SubStart d, ChNone =>
      if closed s then Some (s, SubDone (Some ErrPoolClosed)) else Some (s, SubSelect d)
  | SubSelect d, ChData =>
      if dataClosed s then Some (crash PSendClosed s, SubDone None)
      else if len (dataCh s) <? dataCap p
           then Some (log_accepted d (set_data (dataCh s ++ [d]) s), SubDone None)
           else None
  | SubSelect d, ChCtx err => Some (s, SubDone (Some err))
  | _, _ => None
  end.

Definition close_step (c : choice) (s : shared) (pc : close_pc) : option (shared * close_pc) :=
  match pc, c with
  | CloStart, ChNone =>
      if closed s then Some (s, CloDone) else Some (set_closed s, CloClose)
  | CloClose, ChNone =>
      if dataClosed s then Some (crash PCloseClosed s, CloDone) else Some (close_data s, CloDone)
  | _, _ => None
  end.

Definition start_step (c : choice) (s : shared) (pc : start_pc)
    : option (shared * start_pc * list thread) :=
  match pc, c with
  | StStart, ChNone =>
      if closed s then Some (s, StDone ErrPoolClosed, [])
      else Some (s, StSpawn (min cfg), [TScaler STicker])
  | StSpawn todo, ChNone =>
      if todo <=? 0 then Some (s, StWait, [])
      else Some (s, StSpawn (todo - 1), if stopping s then [] else [TWorker WSpawned])
  | _, _ => None
  end.

(** One step of a goroutine: the new shared state, where the goroutine goes on, and the
    goroutines it starts. *)
Definition tstep (c : choice) (s : shared) (t : thread) : option (shared * thread * list thread) :=
  match t with
  | TWorker w => '(s', w') ← worker_step c s w; Some (s', TWorker w', [])
  | TScaler pc => '(s', pc', new) ← scaler_step c s pc; Some (s', TScaler pc', new)
  | TSubmit pc => '(s', pc') ← submit_step c s pc; Some (s', TSubmit pc', [])
  | TClose pc => '(s', pc') ← close_step c s pc; Some (s', TClose pc', [])
  | TStart pc => '(s', pc', new) ← start_step c s pc; Some (s', TStart pc', new)
  end.

Record state := mkState { sh : shared; threads : list thread }.

(** An API call that starts. *)
Definition entry (t : thread) : Prop :=
  t = TClose CloStart \/ t = TStart StStart \/ exists d, t = TSubmit (SubStart d).

Inductive step : state -> state -> Prop :=
| step_run s ts i c t s' t' new :
    crashed s = None -> ts !! i = Some t -> tstep c s t = Some (s', t', new) ->
    step (mkState s ts) (mkState s' (<[i := t']> ts ++ new))
| step_call s ts t : entry t -> step (mkState s ts) (mkState s (ts ++ [t]))
| step_cancel s ts : step (mkState s ts) (mkState (cancel s) ts).

Definition reachable (st : state) : Prop := rtc step (mkState init []) st.

(** ** The invariant *)

(** Between the successful [CompareAndSwap] and the deferred decrement. *)
Definition live (t : thread) : Z :=
  match t with
  | TWorker (WSpawned | WCas _ | WDone _) => 0
  | TWorker _ => 1
  | _ => 0
  end.

(** Between the two updates of [busyWorkers]. *)
Definition busy (t : thread) : Z :=
  match t with TWorker (WHandling _ | WHandled _) => 1 | _ => 0 end.

(** The item a worker has received and not yet handed to the handler. *)
Definition held (t : thread) : list T :=
  match t with TWorker (WGot d | WStart d) => [d] | _ => [] end.

Definition closing (t : thread) : Z :=
  match t with TClose CloClose => 1 | _ => 0 end.

(** What a program counter remembers about the shared state. *)
Definition pc_ok (s : shared) (t : thread) : Prop :=
  match t with
  | TWorker (WCas current) => current < max cfg
  | TWorker WNotOk => dataCh s = [] /\ dataClosed s = true
  | _ => True
  end.

Record inv (s : shared) (ts : list thread) : Prop := {
  inv_active : activeWorkers s = sum_map live ts;
  inv_busy : busyWorkers s = sum_map busy ts;
  inv_max : activeWorkers s <= max cfg;
  inv_data : len (dataCh s) <= dataCap p;
  inv_deflate : 0 <= deflateCh s <= deflateCap p;
  inv_items : accepted s ≡ₚ dataCh s ++ concat (map held ts) ++ started s ++ dropped s;
  inv_pcs : Forall (pc_ok s) ts;
  inv_closing : crashed s = None -> sum_map closing ts + Z.b2z (dataClosed s) = Z.b2z (closed s);
  inv_stopping : stopping s = true -> dataCh s = [] /\ dataClosed s = true;
  inv_dropped : dropped s <> [] -> stopping s = true;
  inv_crash : forall e, crashed s = Some e ->
    (e = PSendClosed /\ dataClosed s = true) \/ (e = PNewTicker /\ pollingFreq cfg <= 0)
}.

Lemma live_range t : 0 <= live t.
Proof. destruct t as [[]| | | |]; simpl; lia. Qed.

Lemma busy_range t : 0 <= busy t <= live t.
Proof. destruct t as [[]| | | |]; simpl; lia. Qed.

Lemma closing_range t : 0 <= closing t.
Proof. destruct t as [| | |[]|]; simpl; lia. Qed.

Lemma inv_perm s ts1 ts2 : ts1 ≡ₚ ts2 -> inv s ts1 -> inv s ts2.
Proof.
  intros Hp []. split; try done; rewrite <-?Hp; try done.
Qed.

Lemma inv_counts s ts : inv s ts -> 0 <= busyWorkers s <= activeWorkers s.
Proof.
  intros []. rewrite inv_active0, inv_busy0. split.
  - apply sum_map_nonneg. intros t. apply busy_range.
  - apply sum_map_le. intros t. apply busy_range.
Qed.

(** A pool that [New] returns. *)
Definition pool_ok : Prop :=
  0 < max cfg < 2 ^ 31 /\ dataCap p = max cfg /\ deflateCap p = max cfg.

Context (Hp : pool_ok).
#[local] Set Default Proof Using "All".

Ltac inv_split :=
  split; cbn [activeWorkers busyWorkers lastScalingTime stopping closed dataCh dataClosed
    deflateCh ctxDone crashed accepted started dropped set_active set_busy set_last set_stopping
    set_closed set_data close_data set_deflate cancel crash log_accepted log_started log_dropped
    app map concat held] in *;
  rewrite ?sum_map_cons in *; simpl live in *; simpl busy in *; simpl closing in *.

Lemma pc_ok_mono s s' ts :
  (dataCh s = [] -> dataClosed s = true -> dataCh s' = [] /\ dataClosed s' = true) ->
  Forall (pc_ok s) ts -> Forall (pc_ok s') ts.
Proof.
  intros H HF. eapply Forall_impl; [exact HF|]. intros [[]| | | |]; simpl; try done. intros []. auto.
Qed.

(** Close the fields of the invariant that a step touches. *)
Ltac finish Hit Hpcs :=
  repeat match goal with
  | E : dataCh ?s = _ |- context [dataCh ?s] => rewrite E
  | E : dataClosed ?s = _ |- context [dataClosed ?s] => rewrite E
  | E : stopping ?s = _ |- context [stopping ?s] => rewrite E
  end;
  lazymatch goal with
  | H : len (_ :: _) <= _ |- len _ <= _ => rewrite len_cons in H; lia
  | |- Forall _ (_ :: _) =>
      constructor; [simpl; rewrite ?Z.leb_gt in *; first [exact I | assumption | lia | tauto]
                   | eapply pc_ok_mono; [|exact Hpcs]; simpl; first [tauto | congruence]]
  | |- _ ≡ₚ _ => rewrite Hit; solve_Permutation
  | |- context [wrap32 _] => rewrite wrap32_small by lia; rewrite ?Z.eqb_eq in *; lia
  | |- _ => rewrite ?Z.eqb_eq in *; first [assumption | lia | tauto | intuition congruence]
  end.

Lemma worker_step_inv c s w s' w' rest :
  inv s (TWorker w :: rest) -> worker_step c s w = Some (s', w') -> inv s' (TWorker w' :: rest).
Proof.
  intros Hi H. pose proof (inv_counts _ _ Hi) as Hc.
  destruct Hi as [Ha Hb Hm Hd Hf Hit Hpc Hcl Hst Hdr Hcr]. destruct Hp as (Hmax & Hdc & Hfc).
  apply Forall_cons in Hpc as [Hpc Hpcs].
  assert (0 <= sum_map live rest) by (apply sum_map_nonneg, live_range).
  assert (0 <= sum_map busy rest) by (apply sum_map_nonneg; intros t; apply busy_range).
  assert (sum_map busy rest <= sum_map live rest) by (apply sum_map_le; intros t; apply busy_range).
  unfold worker_step in H. destruct w, c; try discriminate H; step_cases H.
  all: inv_split; try assumption; try lia.
  all: finish Hit Hpcs.
Qed.

(** Steps that start goroutines start none that counts yet. *)
Lemma inv_spawn s ts t :
  live t = 0 -> busy t = 0 -> held t = [] -> closing t = 0 -> pc_ok s t ->
  inv s ts -> inv s (t :: ts).
Proof.
  intros Hl Hb Hh Hc Hpc []. split; cbn [map concat]; rewrite ?sum_map_cons, ?Hh; simpl;
    rewrite ?Hl, ?Hb, ?Hc; try done. by constructor.
Qed.

(** Steps that change neither counters, channels nor flags. *)
Lemma inv_pc s t t' rest :
  live t' = live t -> busy t' = busy t -> held t' = held t -> closing t' = closing t -> pc_ok s t' ->
  inv s (t :: rest) -> inv s (t' :: rest).
Proof.
  intros Hl Hb Hh Hc Hpc []. split; cbn [map concat] in *; rewrite ?sum_map_cons in *;
    rewrite ?Hl, ?Hb, ?Hc, ?Hh; try done. constructor; [done|]. by eapply Forall_inv_tail.
Qed.

Lemma inv_set_last s ts n : inv s ts -> inv (set_last n s) ts.
Proof. intros []. split; simpl; done. Qed.

Lemma inv_set_deflate s ts n : 0 <= n <= deflateCap p -> inv s ts -> inv (set_deflate n s) ts.
Proof. intros Hn []. split; simpl; done. Qed.

Lemma inv_crash_ticker s ts : pollingFreq cfg <= 0 -> inv s ts -> inv (crash PNewTicker s) ts.
Proof. intros Hf []. split; simpl; try done. intros e [= <-]. by right. Qed.

Lemma inv_cancel s ts : inv s ts -> inv (cancel s) ts.
Proof. intros []. split; simpl; done. Qed.

Lemma scaler_step_inv c s pc s' pc' new rest :
  inv s (TScaler pc :: rest) -> scaler_step c s pc = Some (s', pc', new) ->
  inv s' (TScaler pc' :: new ++ rest).
Proof.
  intros Hi H. pose proof (inv_deflate _ _ Hi) as Hd.
  unfold scaler_step in H. destruct pc, c; try discriminate H; step_cases H;
    try (by eapply inv_pc; [..|exact Hi]).
  - eapply inv_pc; [..|apply inv_crash_ticker; [|exact Hi]]; try done. rewrite ?Z.leb_le in *. lia.
  - eapply inv_perm; [apply perm_swap|]. apply inv_spawn; [done..|]. by eapply inv_pc; [..|exact Hi].
  - eapply inv_pc; [..|apply inv_set_deflate; [|exact Hi]]; try done.
    rewrite ?Z.ltb_lt in *. lia.
  - eapply inv_pc; [..|apply inv_set_last; exact Hi]; done.
Qed.

Lemma start_step_inv c s pc s' pc' new rest :
  inv s (TStart pc :: rest) -> start_step c s pc = Some (s', pc', new) ->
  inv s' (TStart pc' :: new ++ rest).
Proof.
  intros Hi H. unfold start_step in H. destruct pc, c; try discriminate H; step_cases H;
    try (by eapply inv_pc; [..|exact Hi]);
    (eapply inv_perm; [apply perm_swap|]; apply inv_spawn; [done..|]; by eapply inv_pc; [..|exact Hi]).
Qed.

Lemma submit_step_inv c s pc s' pc' rest :
  inv s (TSubmit pc :: rest) -> submit_step c s pc = Some (s', pc') -> inv s' (TSubmit pc' :: rest).
Proof.
  intros Hi H. unfold submit_step in H. destruct pc, c; try discriminate H; step_cases H;
    try (by eapply inv_pc; [..|exact Hi]).
  all: destruct Hi as [Ha Hb Hm Hd Hf Hit Hpc Hcl Hst Hdr Hcr]; apply Forall_cons in Hpc as [Hpc Hpcs].
  all: inv_split; try assumption; try done.
  all: rewrite ?Z.ltb_lt in *; autorewrite with len.
  all: try finish Hit Hpcs.
Qed.

Lemma close_step_inv c s pc s' pc' rest :
  inv s (TClose pc :: rest) -> crashed s = None ->
  close_step c s pc = Some (s', pc') -> inv s' (TClose pc' :: rest).
Proof.
  intros Hi Hcr0 H. unfold close_step in H. destruct pc, c; try discriminate H; step_cases H;
    try (by eapply inv_pc; [..|exact Hi]).
  all: pose proof (sum_map_nonneg closing rest closing_range).
  all: destruct Hi as [Ha Hb Hm Hd Hf Hit Hpc Hcl Hst Hdr Hcr]; apply Forall_cons in Hpc as [Hpc Hpcs].
  all: specialize (Hcl Hcr0).
  all: inv_split; try assumption; try done.
  all: try finish Hit Hpcs.
  all: intros; destruct (dataClosed s), (closed s); simpl in *; first [discriminate | lia].
Qed.

Lemma tstep_inv c s t s' t' new rest :
  crashed s = None -> inv s (t :: rest) -> tstep c s t = Some (s', t', new) ->
  inv s' (t' :: new ++ rest).
Proof.
  intros Hcr Hi H. destruct t; simpl in H;
    apply bind_Some in H as ([[] ?] & Hs & H) || apply bind_Some in H as ([] & Hs & H); simplify_eq/=.
  - by eapply worker_step_inv.
  - by eapply scaler_step_inv.
  - by eapply submit_step_inv.
  - by eapply close_step_inv.
  - by eapply start_step_inv.
Qed.

Lemma step_inv st st' : step st st' -> inv (sh st) (threads st) -> inv (sh st') (threads st').
Proof.
  intros H Hi. destruct H as [s ts i c t s' t' new Hcr Ht Hs|s ts t Ht|s ts]; simpl in *.
  - destruct (thread_step ts i t t' new Ht) as (rest & Hp1 & Hp2).
    eapply inv_perm; [symmetry; exact Hp2|]. eapply tstep_inv; [exact Hcr| |exact Hs].
    by eapply inv_perm.
  - eapply inv_perm; [apply Permutation_cons_append|].
    destruct Ht as [->|[->|[d ->]]]; by apply inv_spawn.
  - by apply inv_cancel.
Qed.

Lemma reachable_inv st : reachable st -> inv (sh st) (threads st).
Proof.
  unfold reachable. intros H. remember (mkState init []) as st0 eqn:E.
  assert (inv (sh st0) (threads st0)) as H0.
  { subst st0. destruct Hp as (? & ? & ?). split; simpl; try done; try lia.
    all: unfold len; simpl; lia. }
  clear E. induction H as [|st0 st1 st2 H1 _ IH]; [done|]. apply IH. by eapply step_inv.
Qed.

(** C5: in every interleaving of any number of [Start], [Submit] and [Close] calls, the
    counters never run over: [0 <= busy <= active <= max], [ActiveWorkers] and
    [BusyWorkers] are the numbers of workers in their loop and in the handler, and
    neither channel exceeds its capacity. *)
Theorem Pool_bounds st :
  reachable st ->
  let s := sh st in
  0 <= BusyWorkers s <= ActiveWorkers s /\ ActiveWorkers s <= max cfg /\
  ActiveWorkers s = sum_map live (threads st) /\ BusyWorkers s = sum_map busy (threads st) /\
  QueueSize s <= max cfg /\ 0 <= deflateCh s <= max cfg.
Proof.
  intros H%reachable_inv s. pose proof (inv_counts _ _ H). destruct H.
  destruct Hp as (? & ? & ?). subst s. unfold BusyWorkers, ActiveWorkers, QueueSize.
  repeat (split; [lia|]). lia.
Qed.

(** C6: no item is lost or handled twice while the pool runs: the accepted items are
    those queued, those a worker holds, those given to the handler and those thrown
    away, each once; items are thrown away only once [stopping] is set, and then the
    channel is closed and empty. *)
Theorem Pool_items st :
  reachable st ->
  let s := sh st in
  accepted s ≡ₚ dataCh s ++ concat (map held (threads st)) ++ started s ++ dropped s /\
  (stopping s = false -> dropped s = []) /\
  (stopping s = true -> dataCh s = [] /\ dataClosed s = true).
Proof.
  intros H%reachable_inv s. destruct H. split; [done|]. split; [|done].
  intros Hs. destruct (dropped (sh st)) as [|d l] eqn:E; [done|].
  assert (d :: l <> []) as Hne by done. apply inv_dropped0 in Hne. fold s in Hne. congruence.
Qed.

(** C34: when a pool panics, its handler apart. Only a [Submit] that sends on the closed
    channel does, and the autoscaler of a pool whose polling frequency is not positive
    ([New] rejects zero, not negative frequencies), which does so as soon as it is started;
    so a pool with a positive frequency that is never closed never panics, and in
    particular the channel is closed at most once, whoever calls [Close]. *)
Theorem Pool_panics :
  (forall st e, reachable st -> crashed (sh st) = Some e ->
     (e = PSendClosed /\ dataClosed (sh st) = true) \/ (e = PNewTicker /\ pollingFreq cfg <= 0)) /\
  (pollingFreq cfg <= 0 ->
     (forall c s s' t' new, tstep c s (TScaler STicker) = Some (s', t', new) -> crashed s' = Some PNewTicker) /\
     exists st, reachable st /\ crashed (sh st) = Some PNewTicker).
Proof.
  split.
  - intros st e H%reachable_inv He. exact (inv_crash _ _ H e He).
  - intros Hf. assert ((pollingFreq cfg <=? 0) = true) as Hle by (by apply Z.leb_le). split.
    + intros c s s' t' new H. destruct c; simpl in H; try done. rewrite Hle in H. by simplify_eq/=.
    + exists (mkState (crash PNewTicker init) [TStart (StSpawn (min cfg)); TScaler SSelect]). split; [|done].
      eapply rtc_l; [apply (step_call init []); right; left; reflexivity|].
      eapply rtc_l; [by apply (step_run init [TStart StStart] 0 ChNone (TStart StStart))|]. simpl.
      apply rtc_once. apply (step_run init [TStart (StSpawn (min cfg)); TScaler STicker] 1 ChNone
        (TScaler STicker) (crash PNewTicker init) (TScaler SSelect) []); [done|done|]. simpl. by rewrite Hle.
Qed.
End pool.

Arguments state : clear implicits.
Arguments thread : clear implicits.

(** ** Running a schedule *)

Inductive action T :=
| Run (i : nat) (c : choice)
| CallSubmit (d : T)
| CallClose
| CallStart.
Arguments Run {T} i c.
Arguments CallSubmit {T} d.
Arguments CallClose {T}.
Arguments CallStart {T}.

Definition act {T} (p : Pool) (a : action T) (st : state T) : option (state T) :=
  match a with
  | Run i c =>
      match crashed (sh st) with
      | Some _ => None
      | None =>
          t ← threads st !! i;
          '(s', t', new) ← tstep p c (sh st) t;
          Some (mkState s' (<[i := t']> (threads st) ++ new))
      end
  | CallSubmit d => Some (mkState (sh st) (threads st ++ [TSubmit (SubStart d)]))
  | CallClose => Some (mkState (sh st) (threads st ++ [TClose CloStart]))
  | CallStart => Some (mkState (sh st) (threads st ++ [TStart StStart]))
  end.

Fixpoint run {T} (p : Pool) (l : list (action T)) (st : state T) : option (state T) :=
  match l with
  | [] => Some st
  | a :: l => st' ← act p a st; run p l st'
  end.

Lemma act_step {T} p (a : action T) st st' : act p a st = Some st' -> step p st st'.
Proof.
  destruct st as [s ts]. destruct a; simpl.
  - destruct (crashed s) eqn:Hc; [done|]. intros H.
    apply bind_Some in H as (t & Ht & H). apply bind_Some in H as ([[s' t'] new] & Hs & H).
    injection H as <-. by eapply step_run.
  - intros [= <-]. apply step_call. right; right. by eexists.
  - intros [= <-]. apply step_call. by left.
  - intros [= <-]. apply step_call. by right; left.
Qed.

Lemma run_steps {T} p (l : list (action T)) st st' : run p l st = Some st' -> rtc (step p) st st'.
Proof.
  revert st. induction l as [|a l IH]; intros st; simpl.
  - by intros [= <-].
  - intros H. apply bind_Some in H as (st1 & H1 & H). eapply rtc_l; [by eapply act_step|by apply IH].
Qed.

Lemma run_reachable {T} p (l : list (action T)) st :
  run p l (mkState init []) = Some st -> reachable p st.
Proof. apply run_steps. Qed.

Lemma New_pool_ok opts p :
  New opts = Ok p -> max (cfg p) < 2 ^ 31 -> pool_ok p.
Proof.
  unfold New. destruct (validate _) eqn:E; [done|]. unfold make_chan.
  apply validate_counts in E. destruct (Z.ltb_spec (max (apply_opts opts default_config)) 0); simpl; [done|].
  intros [= <-] Hm. unfold pool_ok. simpl in *. lia.
Qed.

Definition default_pool : Pool := mkPool default_config 5 5.

Lemma default_pool_ok : pool_ok default_pool.
Proof. apply (New_pool_ok []); vm_compute; reflexivity. Qed.

(** Start the pool, submit an item, and let one worker take it. *)
Definition sched_take (d : nat) : list (action nat) :=
  [ CallStart; Run 0 ChNone; Run 0 ChNone; Run 0 ChNone; Run 0 ChNone; Run 0 ChNone;
    Run 2 ChNone; Run 2 ChNone; Run 3 ChNone; Run 3 ChNone;
    CallSubmit d; Run 5 ChNone; Run 5 ChData; Run 2 ChData ].

Definition final {T} (p : Pool) (l : list (action T)) : state T :=
  default (mkState init []) (run p l (mkState init [])).

Lemma Pool_bounds_witness :
  let s := sh (final default_pool (sched_take 7)) in
  0 <= BusyWorkers s <= ActiveWorkers s /\ ActiveWorkers s = 2.
Proof.
  split; [|vm_compute; reflexivity].
  apply (Pool_bounds default_pool default_pool_ok (final default_pool (sched_take 7))).
  apply (run_reachable default_pool (sched_take 7)). vm_compute. reflexivity.
Defined.

Lemma Pool_items_witness : dropped (sh (final default_pool (sched_take 7))) = [].
Proof.
  refine (proj1 (proj2 (Pool_items default_pool default_pool_ok (final default_pool (sched_take 7)) _)) _);
    [apply (run_reachable default_pool (sched_take 7)); vm_compute; reflexivity
    | vm_compute; reflexivity].
Defined.

(** A [Submit] that has passed the test of [closed] when [Close] runs. *)
Definition sched_race : list (action nat) :=
  [ CallSubmit 7%nat; Run 0 ChNone; CallClose; Run 1 ChNone; Run 1 ChNone; Run 0 ChData ].

Lemma Pool_panics_witness :
  dataClosed (sh (final default_pool sched_race)) = true.
Proof.
  destruct (proj1 (Pool_panics default_pool default_pool_ok) (final default_pool sched_race) PSendClosed)
    as [[_ H]|[H _]]; [..|exact H|discriminate H].
  - apply (run_reachable default_pool sched_race). vm_compute. reflexivity.
  - vm_compute. reflexivity.
Defined.

(** One worker has the item, [Close] is called, another worker sees the closed channel and
    sets [stopping] before the first one tests it. *)
Definition sched_drop : list (action nat) :=
  sched_take 7 ++
  [ CallClose; Run 6 ChNone; Run 6 ChNone; Run 3 ChData; Run 3 ChNone; Run 2 ChNone ].

(** C33: what a concurrent [Close] can do to a running default pool, with no context
    cancelled: it can make a [Submit] panic that had seen the pool open, and it can make
    a worker throw away an item whose [Submit] had returned without an error. *)
Theorem Pool_close_races :
  (exists st : state nat, reachable default_pool st /\ ctxDone (sh st) = false /\
     crashed (sh st) = Some PSendClosed) /\
  (exists st : state nat, reachable default_pool st /\ ctxDone (sh st) = false /\
     crashed (sh st) = None /\ threads st !! 5%nat = Some (TSubmit (SubDone None)) /\
     accepted (sh st) = [7%nat] /\ dropped (sh st) = [7%nat] /\ started (sh st) = []).
Proof.
  split.
  - exists (final default_pool sched_race).
    split; [apply (run_reachable default_pool sched_race)|]; vm_compute; auto.
  - exists (final default_pool sched_drop).
    split; [apply (run_reachable default_pool sched_drop)|]; vm_compute; auto 10.
Qed.

(** ** The autoscaler *)

Lemma decide_scaling_bounds c active busy :
  0 < min c -> 0 <= active <= max c -> max c < 2 ^ 31 ->
  match decide_scaling c active busy with
  | Grow => active + 1 <= max c
  | Shrink n => 1 <= n /\ min c <= active - n
  | Keep => True
  end.
Proof.
  intros Hmin Ha Hmax. unfold decide_scaling.
  destruct (ge _ _ && _) eqn:E1.
  - apply andb_true_iff in E1 as [_ E1]. apply Z.ltb_lt in E1. lia.
  - destruct (_ && lt _ _) eqn:E2; [|done].
    apply andb_true_iff in E2 as [E2 _]. apply Z.ltb_lt in E2.
    rewrite wrap32_small by lia. lia.
Qed.

Lemma decide_scaling_default active busy :
  1 <= active <= 5 -> 0 <= busy <= active ->
  decide_scaling default_config active busy =
    if (7 * active <=? 10 * busy) && (active <? 5) then Grow
    else if (3 <? active) && (10 * busy <? 3 * active) then
      Shrink (Z.min (active - 3) (Z.max 1 (Z.quot active 2)))
    else Keep.
Proof.
  intros Ha Hb.
  assert (active = 1 \/ active = 2 \/ active = 3 \/ active = 4 \/ active = 5) as HA by lia.
  assert (busy = 0 \/ busy = 1 \/ busy = 2 \/ busy = 3 \/ busy = 4 \/ busy = 5) as HB by lia.
  destruct HA as [->|[->|[->|[->| ->]]]]; destruct HB as [->|[->|[->|[->|[->| ->]]]]];
    try lia; vm_compute; reflexivity.
Qed.

(** C36: one tick of the autoscaler. It never plans beyond the limits: it grows only below
    [max], and it asks at least one and at most [active - min] workers to leave. With the
    default options the floating-point tests are exact: a tick grows the pool iff at least
    7 of 10 workers are busy and fewer than five are active, and shrinks it iff more than
    three are active and fewer than 3 of 10 are busy, by half but not below three. *)
Theorem decide_scaling_spec c active busy :
  (0 < min c -> 0 <= active <= max c -> max c < 2 ^ 31 ->
   match decide_scaling c active busy with
   | Grow => active + 1 <= max c
   | Shrink n => 1 <= n /\ min c <= active - n
   | Keep => True
   end) /\
  (c = default_config -> 1 <= active <= 5 -> 0 <= busy <= active ->
   decide_scaling c active busy =
     if (7 * active <=? 10 * busy) && (active <? 5) then Grow
     else if (3 <? active) && (10 * busy <? 3 * active) then
       Shrink (Z.min (active - 3) (Z.max 1 (Z.quot active 2)))
     else Keep).
Proof. split; [apply decide_scaling_bounds|intros ->; apply decide_scaling_default]. Qed.

Lemma decide_scaling_spec_witness :
  (1 <= 2 /\ 3 <= 5 - 2) /\ decide_scaling default_config 4 3 = Grow.
Proof.
  split.
  - apply (decide_scaling_spec default_config 5 1); vm_compute; (reflexivity || (split; discriminate)).
  - rewrite (proj2 (decide_scaling_spec default_config 4 3)) by (lia || reflexivity). reflexivity.
Defined.

(** ** Starvation *)

Section starvation.
Context {T : Type} (p : Pool).

(** No worker is left and the autoscaler, which only looks at the number of workers,
    will not start one. *)
Definition dead_thread (t : thread T) : Prop :=
  match t with
  | TWorker (WDone _) => True
  | TWorker _ => False
  | TScaler (SSelect | SActive | SDone _) => True
  | TScaler (SBusy active) => active = 0
  | TScaler _ => False
  | TStart (StWait | StDone _) => True
  | TStart _ => False
  | TSubmit _ | TClose _ => True
  end.

Definition dead (st : state T) : Prop :=
  activeWorkers (sh st) = 0 /\ Forall dead_thread (threads st).

(** Steps of the running goroutines, new [Submit] and [Close] calls, and cancellation:
    everything but a new [Start]. *)
Inductive step_no_start : state T -> state T -> Prop :=
| no_start st st' : step p st st' -> (forall ts s, st' = mkState s (ts ++ [TStart StStart]) -> False) ->
    step_no_start st st'.

Lemma dead_tstep c s t s' t' new :
  activeWorkers s = 0 -> dead_thread t -> tstep p c s t = Some (s', t', new) ->
  activeWorkers s' = 0 /\ dead_thread t' /\ new = [] /\ started s' = started s.
Proof.
  intros Ha Ht H. destruct t as [w|pc|pc|pc|pc]; simpl in H.
  - destruct w; done.
  - destruct pc, c; simpl in *; try done;
      repeat (case_match; simpl in H); simplify_eq/=; try done; rewrite ?Z.eqb_neq in *; lia.
  - destruct pc, c; simpl in *; try done; repeat (case_match; simpl in H); simplify_eq/=; done.
  - destruct pc, c; simpl in *; try done; repeat (case_match; simpl in H); simplify_eq/=; done.
  - destruct pc, c; simpl in *; done.
Qed.

Lemma dead_step st st' :
  dead st -> step_no_start st st' -> dead st' /\ started (sh st') = started (sh st).
Proof.
  intros Hdead Hn. destruct Hn as [st1 st2 H Hns]. destruct Hdead as [Ha Hts]. destruct H as [s ts i c t s' t' new Hcr Ht Hs|s ts t Ht|s ts]; simpl in *.
  - pose proof (Forall_lookup_1 _ _ _ _ Hts Ht) as Hd.
    destruct (dead_tstep c s t s' t' new Ha Hd Hs) as (Ha' & Ht' & -> & Hst).
    split; [split; [done|]|done]. simpl. rewrite app_nil_r. by apply Forall_insert.
  - split; [split; [done|]|done]. apply Forall_app. split; [done|]. constructor; [|done].
    destruct Ht as [->|[->|[d ->]]]; simpl; try done. by eapply Hns.
  - done.
Qed.
End starvation.

(** [max] is two and there is no cooldown. *)
Definition small_pool : Pool :=
  default default_pool
    match New [WithMinWorkerCount 1; WithMaxWorkerCount 2; WithScalingCooldown 0] with
    | Ok p => Some p | _ => None end.

Definition tick (n : nat) : list (action nat) :=
  [Run 1 ChTick; Run 1 ChNone; Run 1 ChNone; Run 1 (ChNow 0)] ++ repeat (Run 1 ChNone) n.

(** The pool grows to two workers, both become idle, two ticks find the surplus of one
    before any worker has taken the first request to leave, and both workers leave. *)
Definition sched_starve : list (action nat) :=
  [ CallStart; Run 0 ChNone; Run 0 ChNone; Run 0 ChNone; Run 2 ChNone; Run 2 ChNone;
    CallSubmit 7%nat; Run 3 ChNone; Run 3 ChData; Run 2 ChData; Run 2 ChNone; Run 2 ChNone;
    Run 1 ChNone ] ++
  tick 2 ++ [ Run 4 ChNone; Run 4 ChNone; Run 2 (ChReturn None); Run 2 ChNone ] ++
  tick 3 ++ tick 3 ++
  [ Run 2 ChDeflate; Run 2 ChNone; Run 4 ChDeflate; Run 4 ChNone;
    CallSubmit 9%nat; Run 5 ChNone; Run 5 ChData ].

(** C31: the number of workers can fall below [min], and from zero it never recovers: there
    is a run of a running, open and uncancelled pool with [min = 1] that accepts an item
    and in which, whatever happens next short of a second [Start], no worker exists and
    no item is ever handled again. *)
Theorem Pool_can_starve :
  exists st, reachable small_pool st /\ min (cfg small_pool) = 1 /\
    closed (sh st) = false /\ ctxDone (sh st) = false /\ crashed (sh st) = None /\
    dataCh (sh st) = [9%nat] /\
    forall st', rtc (step_no_start small_pool) st st' ->
      activeWorkers (sh st') = 0 /\ started (sh st') = started (sh st).
Proof.
  exists (final small_pool sched_starve).
  split; [apply (run_reachable small_pool sched_starve); vm_compute; reflexivity|].
  do 5 (split; [vm_compute; reflexivity|]).
  assert (dead (final small_pool sched_starve)) as Hd.
  { split; [vm_compute; reflexivity|]. vm_compute. repeat constructor. }
  intros st' H. revert Hd. induction H as [st|st0 st1 st2 H01 _ IH]; intros Hd.
  - split; [apply Hd|done].
  - destruct (dead_step _ _ _ Hd H01) as [Hd1 <-]. by apply IH.
Qed.
End Pool.
