(* ===== verification/PoolSpec.v ===== *)
(** What the worker pool of [Workers] promises as a queue: an abstract machine that accepts
    items while it is open, takes them in order, and handles each item it took or, once it
    is closed, may throw it away; a simulation of every interleaving of the pool by it; and
    what follows for a pool of one worker. *)

From S2P Require Import Prelude Workers.
#[local] Open Scope Z_scope.

Module PoolSpec.
Import PoolConfig Pool.

Section spec.
Context {T : Type}.

(** ** The abstract machine *)

(** Items that wait, items in the hands of workers (in no order), items handed to the
    handler and items thrown away, in order. At most [cap] items wait, and at most
    [workers] items are in hands. *)
Record queue := mkQueue {
  waiting : list T;
  hands : list T;
  handed : list T;
  thrown : list T;
  open : bool
}.

Inductive qstep (cap workers : Z) : queue -> queue -> Prop :=
| q_put d q : open q = true -> len (waiting q) < cap ->
    qstep cap workers q (mkQueue (waiting q ++ [d]) (hands q) (handed q) (thrown q) true)
| q_take d w h n t o : len h < workers ->
    qstep cap workers (mkQueue (d :: w) h n t o) (mkQueue w (d :: h) n t o)
| q_begin d w h h' n t o : h ≡ₚ d :: h' ->
    qstep cap workers (mkQueue w h n t o) (mkQueue w h' (n ++ [d]) t o)
| q_throw d w h h' n t : h ≡ₚ d :: h' ->
    qstep cap workers (mkQueue w h n t false) (mkQueue w h' n (t ++ [d]) false)
| q_shut q : qstep cap workers q (mkQueue (waiting q) (hands q) (handed q) (thrown q) false).

Definition q_init : queue := mkQueue [] [] [] [] true.

(** ** The correspondence *)

(** A state of the pool as a queue: a panic of [Submit] ends the program, not the queue. *)
Record corresponds (st : state T) (q : queue) : Prop := {
  c_waiting : waiting q = dataCh (sh st);
  c_hands : hands q ≡ₚ concat (map held (threads st));
  c_handed : handed q = started (sh st);
  c_thrown : thrown q = dropped (sh st);
  c_open : open q = negb (dataClosed (sh st))
}.

(** What one step of a goroutine does to the items. *)
Variant effect (p : Pool) (s s' : shared (T := T)) (t t' : thread T) : Prop :=
| e_none : dataCh s' = dataCh s -> started s' = started s -> dropped s' = dropped s ->
    accepted s' = accepted s -> dataClosed s' = dataClosed s -> held t' = held t -> effect p s s' t t'
| e_put d : dataCh s' = dataCh s ++ [d] -> started s' = started s -> dropped s' = dropped s ->
    accepted s' = accepted s ++ [d] -> dataClosed s = false -> dataClosed s' = false -> len (dataCh s) < dataCap p ->
    held t' = held t -> effect p s s' t t'
| e_take d : dataCh s = d :: dataCh s' -> started s' = started s -> dropped s' = dropped s ->
    accepted s' = accepted s -> dataClosed s' = dataClosed s -> held t = [] -> held t' = [d] ->
    effect p s s' t t'
| e_begin d : dataCh s' = dataCh s -> started s' = started s ++ [d] -> dropped s' = dropped s ->
    accepted s' = accepted s -> dataClosed s' = dataClosed s -> held t = [d] -> held t' = [] ->
    effect p s s' t t'
| e_throw d : dataCh s' = dataCh s -> started s' = started s -> dropped s' = dropped s ++ [d] ->
    accepted s' = accepted s -> dataClosed s' = dataClosed s -> stopping s = true ->
    held t = [d] -> held t' = [] -> effect p s s' t t'
| e_shut : dataCh s' = dataCh s -> started s' = started s -> dropped s' = dropped s ->
    accepted s' = accepted s -> dataClosed s' = true -> held t' = held t -> effect p s s' t t'.

Context (p : Pool).

Lemma tstep_effect c s t s' t' new :
  tstep p c s t = Some (s', t', new) -> effect p s s' t t' /\ concat (map held new) = [].
Proof.
  intros H. destruct t as [w|pc|pc|pc|pc]; simpl in H.
  - apply bind_Some in H as ([s1 w'] & H & [= <- <- <-]). split; [|done].
    unfold worker_step in H. destruct w, c; try discriminate H; step_cases H;
      try (by apply e_none); try (by eapply e_take); try (by eapply e_throw); try (by eapply e_begin).
  - apply bind_Some in H as ([[s1 pc'] new'] & H & [= <- <- <-]).
    unfold scaler_step in H. destruct pc, c; try discriminate H; step_cases H; (split; [by apply e_none|done]).
  - apply bind_Some in H as ([s1 pc'] & H & [= <- <- <-]). split; [|done].
    unfold submit_step in H. destruct pc, c; try discriminate H; step_cases H;
      first [by apply e_none | eapply e_put; (done || by apply Z.ltb_lt)].
  - apply bind_Some in H as ([s1 pc'] & H & [= <- <- <-]). split; [|done].
    unfold close_step in H. destruct pc, c; try discriminate H; step_cases H;
      first [by apply e_none | by apply e_shut].
  - apply bind_Some in H as ([[s1 pc'] new'] & H & [= <- <- <-]).
    unfold start_step in H. destruct pc, c; try discriminate H; step_cases H; (split; [by apply e_none|done]).
Qed.

(** ** The simulation *)

Context (Hp : pool_ok p).

Lemma reachable_step (st st' : state T) : reachable p st -> step p st st' -> reachable p st'.
Proof. intros H Hs. exact (rtc_r _ _ _ H Hs). Qed.

(** A worker holds one item at a time. *)
Lemma hands_le_live (ts : list (thread T)) : len (concat (map held ts)) <= sum_map live ts.
Proof.
  induction ts as [|t ts IH]; [done|]. rewrite sum_map_cons. cbn [map concat]. rewrite len_app.
  assert (len (held t) <= live t) by (destruct t as [[]| | | |]; simpl; unfold len; simpl; lia). lia.
Qed.

Lemma hands_bounded (st : state T) : reachable p st -> len (concat (map held (threads st))) <= max (cfg p).
Proof using Hp.
  intros H%(reachable_inv p Hp). pose proof (hands_le_live (threads st)).
  pose proof (inv_active _ _ _ H). pose proof (inv_max _ _ _ H). lia.
Qed.

#[local] Instance len_Permutation : Proper ((≡ₚ) ==> (=)) (len (A := T)).
Proof. intros l k H. unfold len. by rewrite H. Qed.

Lemma held_after t t' new rest (ts ts' : list (thread T)) h :
  ts ≡ₚ t :: rest -> ts' ≡ₚ t' :: new ++ rest -> concat (map held new) = [] ->
  h ≡ₚ concat (map held ts) ->
  (forall r, r ≡ₚ concat (map held rest) -> h ≡ₚ held t ++ r) /\
  (forall r, r ≡ₚ concat (map held rest) -> held t' ++ r ≡ₚ concat (map held ts')).
Proof.
  intros H1 H2 Hn Hh. split; intros r Hr.
  - by rewrite Hh, H1, Hr.
  - rewrite H2, Hr. simpl. by rewrite map_app, concat_app, Hn.
Qed.

(** Every step of the pool is a step of the queue, or none. *)
Lemma step_simulates st st' q :
  reachable p st -> step p st st' -> corresponds st q ->
  exists q', (q' = q \/ qstep (dataCap p) (max (cfg p)) q q') /\ corresponds st' q'.
Proof using Hp.
  intros Hr H [Ew Eh En Et Eo]. pose proof H as Hst0. destruct H as [s ts i c t s' t' new Hcr Ht Hs|s ts t Hen|s ts]; simpl in *.
  - destruct (thread_step ts i t t' new Ht) as (rest & Hp1 & Hp2).
    destruct (tstep_effect _ _ _ _ _ _ Hs) as [He Hnew].
    destruct (held_after _ _ _ _ _ _ _ Hp1 Hp2 Hnew Eh) as [Hb Ha].
    specialize (Hb _ (reflexivity _)). specialize (Ha _ (reflexivity _)).
    destruct q as [w h n th o]; simpl in *. subst w n th o.
    destruct He as [Hd Hst Hdr Hac Hcl Hh|d Hd Hst Hdr Hac Hc1 Hc2 Hcap Hh|d Hd Hst Hdr Hac Hcl Hh1 Hh2
      |d Hd Hst Hdr Hac Hcl Hh1 Hh2|d Hd Hst Hdr Hac Hcl Hsp Hh1 Hh2|Hd Hst Hdr Hac Hcl Hh];
      rewrite ?Hh, ?Hh1, ?Hh2 in *; simpl in *.
    + eexists. split; [by left|]. split; simpl; rewrite ?Hd, ?Hst, ?Hdr, ?Hcl; try done. by rewrite Hb.
    + eexists. split; [right; apply (q_put _ _ d); simpl; [by rewrite Hc1|done]|].
      split; simpl; rewrite ?Hd, ?Hst, ?Hdr, ?Hc2; try done. by rewrite Hb.
    + rewrite Hd. eexists. split; [right; apply q_take|].
      { pose proof (hands_bounded _ (reachable_step _ _ Hr Hst0)) as Hn. simpl in Hn.
        rewrite <-Ha, len_cons in Hn. rewrite Hb. lia. }
      split; simpl; rewrite ?Hst, ?Hdr, ?Hcl; try done. by rewrite Hb.
    + eexists. split; [right; by apply (q_begin _ _ d)|].
      split; simpl; rewrite ?Hd, ?Hst, ?Hdr, ?Hcl; done.
    + pose proof (reachable_inv p Hp _ Hr) as Hi. destruct (inv_stopping _ _ _ Hi Hsp) as [_ Hclosed]. simpl in Hclosed.
      rewrite Hclosed. eexists. split; [right; by apply (q_throw _ _ d)|].
      split; simpl; rewrite ?Hd, ?Hst, ?Hdr, ?Hcl, ?Hclosed; done.
    + eexists. split; [right; apply q_shut|].
      split; simpl; rewrite ?Hd, ?Hst, ?Hdr, ?Hcl; try done. by rewrite Hb.
  - exists q. split; [by left|]. split; simpl; try done.
    rewrite Eh, map_app, concat_app. destruct Hen as [->|[->|[d ->]]]; simpl; by rewrite app_nil_r.
  - exists q. split; [by left|]. by split.
Qed.

(** C7: the pool implements the queue. Whatever [Submit], [Close], [Start], the autoscaler
    and any number of workers do, in any interleaving, the items are where the abstract
    queue has them: accepted only while it is open and not full, taken from the front by a
    worker with free hands, of which there are at most the maximum, and handed to the
    handler or, only after [Close], thrown away by the worker that took them. *)
Theorem Pool_refines_queue (st : state T) :
  reachable p st ->
  (exists q, rtc (qstep (dataCap p) (max (cfg p))) q_init q /\ corresponds st q) /\
  (forall st' q, step p st st' -> corresponds st q ->
     exists q', (q' = q \/ qstep (dataCap p) (max (cfg p)) q q') /\ corresponds st' q').
Proof using Hp.
  intros Hr. split; [|intros; by eapply step_simulates].
  assert (forall st0, rtc (step p) st0 st -> reachable p st0 -> forall q0, rtc (qstep (dataCap p) (max (cfg p))) q_init q0 -> corresponds st0 q0 ->
    exists q, rtc (qstep (dataCap p) (max (cfg p))) q_init q /\ corresponds st q) as H.
  { intros st0 H. induction H as [st0|st0 st1 st2 H1 _ IH]; intros Hr0 q0 Hq Hc; [by exists q0|].
    destruct (step_simulates _ _ _ Hr0 H1 Hc) as (q1 & Hq1 & Hc1).
    apply (IH Hr (reachable_step _ _ Hr0 H1) q1); [|done]. destruct Hq1 as [->|Hq1]; [done|by eapply rtc_r]. }
  apply (H _ Hr (rtc_refl _ _) q_init); [apply rtc_refl|by split].
Qed.

(** ** One worker *)

Lemma short_list (l : list T) : len l <= 1 -> l = [] \/ exists d, l = [d].
Proof. destruct l as [|d [|d' l]]; unfold len; simpl; [by left|right; by exists d|lia]. Qed.

Lemma perm_short (l k : list T) : len l <= 1 -> l ≡ₚ k -> l = k.
Proof.
  intros [->|[d ->]]%short_list.
  - by intros ?%Permutation_nil.
  - by intros ?%Permutation_length_1_inv.
Qed.

(** [stopping] is set by a live worker with empty hands, and never reset. *)
Lemma tstep_stopping c s t s' t' new :
  tstep p c s t = Some (s', t', new) ->
  stopping s' = stopping s \/ stopping s' = true /\ held t = [] /\ held t' = [] /\ live (T := T) t = 1.
Proof.
  intros H. destruct t as [w|pc|pc|pc|pc]; simpl in H.
  - apply bind_Some in H as ([s1 w'] & H & [= <- <- <-]).
    unfold worker_step in H. destruct w, c; try discriminate H; step_cases H; first [by left | by right].
  - apply bind_Some in H as ([[s1 pc'] new'] & H & [= <- <- <-]).
    unfold scaler_step in H. destruct pc, c; try discriminate H; step_cases H; by left.
  - apply bind_Some in H as ([s1 pc'] & H & [= <- <- <-]).
    unfold submit_step in H. destruct pc, c; try discriminate H; step_cases H; by left.
  - apply bind_Some in H as ([s1 pc'] & H & [= <- <- <-]).
    unfold close_step in H. destruct pc, c; try discriminate H; step_cases H; by left.
  - apply bind_Some in H as ([[s1 pc'] new'] & H & [= <- <- <-]).
    unfold start_step in H. destruct pc, c; try discriminate H; step_cases H; by left.
Qed.

(** What a single worker keeps: nothing is thrown away, nothing is in hands when the pool
    stops, and the items stand in the order in which they were accepted. *)
Record lone (st : state T) : Prop := {
  lone_dropped : dropped (sh st) = [];
  lone_stopping : stopping (sh st) = true -> concat (map held (threads st)) = [];
  lone_order : accepted (sh st) = started (sh st) ++ concat (map held (threads st)) ++ dataCh (sh st)
}.

Lemma len_nil_inv {A} (l : list A) : len l <= 0 -> l = [].
Proof. destruct l as [|x l]; [done|]. rewrite len_cons. pose proof (len_nonneg l). lia. Qed.

Lemma lone_tstep s (ts : list (thread T)) i c t s' t' new :
  max (cfg p) = 1 -> reachable p (mkState s ts) -> ts !! i = Some t ->
  tstep p c s t = Some (s', t', new) -> reachable p (mkState s' (<[i := t']> ts ++ new)) ->
  lone (mkState s ts) -> lone (mkState s' (<[i := t']> ts ++ new)).
Proof using Hp.
  intros Hmax Hr Ht Hs Hr' [Ld Ls Lo].
  pose proof (hands_bounded _ Hr) as Ho. pose proof (hands_bounded _ Hr') as Ho'.
  pose proof (reachable_inv p Hp _ Hr) as Hi. pose proof (inv_active _ _ _ Hi) as Hact.
  pose proof (inv_max _ _ _ Hi) as Hlive. pose proof (inv_stopping _ _ _ Hi) as Hstop.
  rewrite Hmax in Ho, Ho', Hlive. clear Hi Hr Hr'. simpl in *.
  destruct (thread_step ts i t t' new Ht) as (rest & Hp1 & Hp2).
  destruct (tstep_effect _ _ _ _ _ _ Hs) as [He Hnew].
  destruct (held_after _ _ _ _ _ _ _ Hp1 Hp2 Hnew (reflexivity _)) as [Hb Ha].
  specialize (Hb _ (reflexivity _)). specialize (Ha _ (reflexivity _)).
  apply perm_short in Hb; [|done]. symmetry in Ha. apply perm_short in Ha; [|done].
  assert (live t = 1 -> concat (map held rest) = []) as Hlone.
  { intros H1. apply len_nil_inv. rewrite (hands_le_live rest).
    rewrite Hp1, sum_map_cons in Hact. lia. }
  assert (stopping s' = true -> stopping s = true \/ held t' = [] /\ concat (map held rest) = []) as Hset.
  { intros H. destruct (tstep_stopping _ _ _ _ _ _ Hs) as [E|(_ & _ & H2 & H3)].
    - left. by rewrite <-E.
    - right. split; [done|by apply Hlone]. }
  assert (held t <> [] -> live t = 1) as Hheld by (destruct t as [[]| | | |]; done).
  rewrite Hb in Ls, Lo. split; simpl; rewrite ?Ha.
  - destruct He as [Hd Hst Hdr|d Hd Hst Hdr|d Hd Hst Hdr|d Hd Hst Hdr|d Hd Hst Hdr Hac Hcl Hsp Hh1 Hh2|Hd Hst Hdr];
      try (by rewrite Hdr). specialize (Ls Hsp). by rewrite Hh1 in Ls.
  - intros [H|[-> ->]]%Hset; [|done]. specialize (Ls H). destruct (Hstop H) as [Hn _].
    destruct He as [? ? ? ? ? Hh|? ? ? ? ? ? ? ? Hh|d Hd|? ? ? ? ? ? Hh1 Hh2|? ? ? ? ? ? ? Hh1 Hh2|? ? ? ? ? Hh];
      rewrite ?Hh, ?Hh2; try done; [congruence|by rewrite Hh1 in Ls..].
  - destruct He as [Hd Hst Hdr Hac Hcl Hh|d Hd Hst Hdr Hac Hc1 Hc2 Hcap Hh|d Hd Hst Hdr Hac Hcl Hh1 Hh2
      |d Hd Hst Hdr Hac Hcl Hh1 Hh2|d Hd Hst Hdr Hac Hcl Hsp Hh1 Hh2|Hd Hst Hdr Hac Hcl Hh];
      rewrite ?Hh, ?Hac, ?Hst; try (by rewrite ?Hd).
    + rewrite Lo, Hd. by rewrite <-!app_assoc.
    + rewrite Ha, Hh2, len_app in Ho'. change (len [d]) with 1 in Ho'.
      rewrite Lo, Hh1, Hh2, Hd, (len_nil_inv (concat (map held rest))) by lia. done.
    + assert (live t = 1) as H1 by (apply Hheld; by rewrite Hh1).
      rewrite Lo, Hh1, Hh2, (Hlone H1), Hd. simpl. by rewrite <-app_assoc.
    + specialize (Ls Hsp). by rewrite Hh1 in Ls.
Qed.

Lemma lone_step (st st' : state T) :
  max (cfg p) = 1 -> reachable p st -> step p st st' -> lone st -> lone st'.
Proof using Hp.
  intros Hmax Hr Hstep. pose proof (reachable_step _ _ Hr Hstep) as Hr'.
  destruct Hstep as [s ts i c t s' t' new Hcr Ht Hs|s ts t Hen|s ts].
  - by apply (lone_tstep s ts i c t).
  - assert (concat (map held (ts ++ [t])) = concat (map held ts)) as E.
    { rewrite map_app, concat_app. destruct Hen as [->|[->|[d ->]]]; simpl; by rewrite !app_nil_r. }
    intros [Ld Ls Lo]. split; simpl; rewrite ?E; done.
  - by intros [Ld Ls Lo].
Qed.

(** C8: a pool of one worker keeps what a pool of several can break: the accepted items are,
    in the order in which [Submit] accepted them, those handed to the handler, the one the
    worker has just taken, and those that wait; none is ever thrown away; and when the
    worker has seen the closed channel, every accepted item has been handed over. *)
Theorem Pool_fifo (st : state T) :
  max (cfg p) = 1 -> reachable p st ->
  accepted (sh st) = started (sh st) ++ concat (map held (threads st)) ++ dataCh (sh st) /\
  dropped (sh st) = [] /\
  (stopping (sh st) = true -> started (sh st) = accepted (sh st)).
Proof using Hp.
  intros Hmax Hr.
  assert (forall st0, rtc (step p) st0 st -> reachable p st0 -> lone st0 -> lone st) as H.
  { intros st0 H. induction H as [st0|st0 st1 st2 H1 _ IH]; intros Hr0 H0; [done|].
    apply IH; [done|by eapply reachable_step|]. by apply (lone_step st0 st1). }
  destruct (H _ Hr (rtc_refl _ _) ltac:(by split)) as [Ld Ls Lo].
  split; [done|]. split; [done|]. intros Hst. rewrite Lo, (Ls Hst).
  destruct (inv_stopping _ _ _ (reachable_inv p Hp _ Hr) Hst) as [-> _]. by rewrite app_nil_r.
Qed.
End spec.

(** A worker of the default pool has taken an item. *)
Lemma Pool_refines_queue_witness :
  exists q, rtc (qstep (dataCap default_pool) (max (cfg default_pool))) q_init q /\ corresponds (final default_pool (sched_take 7)) q /\ hands q = [7%nat].
Proof.
  destruct (Pool_refines_queue default_pool default_pool_ok (final default_pool (sched_take 7))) as [(q & Hq & Hc) _].
  - apply (run_reachable default_pool (sched_take 7)). vm_compute. reflexivity.
  - exists q. split; [exact Hq|]. split; [exact Hc|]. destruct Hc as [_ Hh _ _ _].
    vm_compute in Hh. by apply Permutation_length_1_inv in Hh || (symmetry in Hh; by apply Permutation_length_1_inv in Hh).
Defined.

(** A pool of one worker, which has handed over the first of two items. *)
Definition one_worker : Pool :=
  mkPool (apply_opts [WithMinWorkerCount 1; WithMaxWorkerCount 1] default_config) 1 1.

Definition sched_two : list (action nat) :=
  [ CallStart; Run 0 ChNone; Run 0 ChNone; Run 0 ChNone; Run 2 ChNone; Run 2 ChNone;
    CallSubmit 7%nat; Run 3 ChNone; Run 3 ChData; CallSubmit 8%nat; Run 2 ChData;
    Run 4 ChNone; Run 4 ChData; Run 2 ChNone; Run 2 ChNone ].

Lemma Pool_fifo_witness :
  accepted (sh (final one_worker sched_two)) = [7%nat] ++ [] ++ [8%nat].
Proof.
  assert (pool_ok one_worker) as Hok by (apply (New_pool_ok [WithMinWorkerCount 1; WithMaxWorkerCount 1]); vm_compute; reflexivity).
  apply (Pool_fifo one_worker Hok (final one_worker sched_two)); [reflexivity|].
  apply (run_reachable one_worker sched_two). vm_compute. reflexivity.
Defined.
End PoolSpec.
