(* ===== verification/Effects.v ===== *)
(** Calls with effects: computations that thread a state of type [W] (a database, the log
    of what was sent and read) and return, fail or panic. Used by the models of
    src/db, src/cfg and src/jsonrpc. *)

From S2P Require Import Prelude.
#[local] Open Scope Z_scope.

Module Io.

(** A computation that changes a state of type [W] and returns, fails or panics. *)
Definition io (W A : Type) : Type := W -> W * outcome A.

#[global] Instance io_ret W : MRet (io W) := fun A a w => (w, Ok a).
#[global] Instance io_bind W : MBind (io W) := fun A B f m w =>
  match m w with
  | (w', Ok a) => f a w'
  | (w', Err e) => (w', Err e)
  | (w', Panic p) => (w', Panic p)
  | (w', NoFuel) => (w', NoFuel)
  end.

Definition throw {W A} (e : error) : io W A := fun w => (w, Err e).

(** The outcome of a call as a value: panics still propagate. *)
Definition attempt {W A} (m : io W A) : io W (A + error) := fun w =>
  match m w with
  | (w', Ok a) => (w', Ok (inl a))
  | (w', Err e) => (w', Ok (inr e))
  | (w', Panic p) => (w', Panic p)
  | (w', NoFuel) => (w', NoFuel)
  end.

Lemma bind_attempt {W A B} (m : io W A) (k : A + error -> io W B) w :
  (attempt m ≫= k) w =
  match m w with
  | (w', Ok a) => k (inl a) w'
  | (w', Err e) => k (inr e) w'
  | (w', Panic p) => (w', Panic p)
  | (w', NoFuel) => (w', NoFuel)
  end.
Proof. unfold mbind, io_bind, attempt. by destruct (m w) as [w' []]. Qed.

(** [defer d()]: [d] runs when [m] is left, by a panic too; what [d] returns is dropped, a
    panic of [d] takes over. *)
Definition defer {W A} (d : io W unit) (m : io W A) : io W A := fun w =>
  let (w', r) := m w in
  match d w' with
  | (w'', Panic p) => (w'', Panic p)
  | (w'', NoFuel) => (w'', NoFuel)
  | (w'', _) => (w'', r)
  end.

(** [r, err := m(); if err != nil { return ..., fmt.Errorf(fmt, ..., err) }] *)
Definition guard_err {W A B} (fmt : string) (m : io W A) (k : A -> io W B) : io W B :=
  r ← attempt m;
  match r with
  | inr err => throw (EWrap fmt [] err)
  | inl a => k a
  end.

Lemma guard_err_run {W A B} fmt (m : io W A) (k : A -> io W B) w :
  guard_err fmt m k w =
  match m w with
  | (w', Ok a) => k a w'
  | (w', Err e) => (w', Err (EWrap fmt [] e))
  | (w', Panic p) => (w', Panic p)
  | (w', NoFuel) => (w', NoFuel)
  end.
Proof. unfold guard_err. rewrite bind_attempt. by destruct (m w) as [w' []]. Qed.

(** ** Calls on record

    Computations over a state [W] and a record of events of type [E]: [record] is a call
    that leaves events according to its outcome. *)
Abbreviation traced W E := (io (W * list E)).

Definition record {W E A} (ev : outcome A -> list E) (m : io W A) : traced W E A := fun '(w, t) =>
  let (w', r) := m w in ((w', t ++ ev r), r).

Definition lift {W E A} : io W A -> traced W E A := record (fun _ => []).

(** The event of a call that returned a value. *)
Definition opened {E A} (ev : A -> E) (r : outcome A) : list E :=
  match r with Ok a => [ev a] | _ => [] end.

Lemma bind_lift {W E A B} (m : io W A) (k : A -> traced W E B) w t :
  (lift m ≫= k) (w, t) =
  match m w with
  | (w', Ok a) => k a (w', t)
  | (w', Err e) => ((w', t), Err e)
  | (w', Panic p) => ((w', t), Panic p)
  | (w', NoFuel) => ((w', t), NoFuel)
  end.
Proof.
  unfold mbind, io_bind, lift, record. by destruct (m w) as [w' []]; rewrite app_nil_r.
Qed.

Lemma bind_attempt_record {W E A B} ev (m : io W A) (k : A + error -> traced W E B) w t :
  (attempt (record ev m) ≫= k) (w, t) =
  match m w with
  | (w', Ok a) => k (inl a) (w', t ++ ev (Ok a))
  | (w', Err e) => k (inr e) (w', t ++ ev (Err e))
  | (w', Panic p) => ((w', t ++ ev (Panic p)), Panic p)
  | (w', NoFuel) => ((w', t ++ ev NoFuel), NoFuel)
  end.
Proof. rewrite bind_attempt. unfold record. by destruct (m w) as [w' []]. Qed.

End Io.
