(* ===== verification/Eris.v ===== *)
(** The interface to github.com/rotisserie/eris as src/graceful uses it: [Is] and [Wrap],
    on errors that may be nil, with what its documentation promises, and a reference
    instance over the errors of the model. *)

From S2P Require Import Prelude.
#[local] Open Scope Z_scope.

Module Eris.

Class Eris := {
  Is : option error -> error -> bool;
  Wrap : option error -> string -> option error
}.

(** nil is no error and wraps to nil; an error is itself; a wrapped error is an error
    through which everything is found that was found before. *)
Class LawfulEris `{Eris} : Prop := {
  Is_nil target : Is None target = false;
  Is_self e : Is (Some e) e = true;
  Wrap_nil msg : Wrap None msg = None;
  Wrap_err e msg : exists e', Wrap (Some e) msg = Some e' /\
    forall target, Is (Some e) target = true -> Is (Some e') target = true
}.

Lemma Is_Some `{LawfulEris} err target : Is err target = true -> is_Some err.
Proof. destruct err; [by eexists|]. by rewrite Is_nil. Qed.

Lemma Wrap_None_iff `{LawfulEris} err msg : Wrap err msg = None <-> err = None.
Proof.
  destruct err as [e|]; [|by rewrite Wrap_nil].
  destruct (Wrap_err e msg) as (e' & -> & _). done.
Qed.

(** ** A reference instance

    Errors are found along the causes of the model. *)
Module Reference.
#[export] Instance eris_ops : Eris := {|
  Is := fun err target => match err with Some e => errors_is e target | None => false end;
  Wrap := fun err msg => option_map (EWrap msg []) err
|}.

#[export] Instance eris_lawful : LawfulEris.
Proof.
  split; simpl; try done.
  - apply errors_is_refl.
  - intros e msg. eexists. split; [done|]. intros t Ht. simpl. rewrite Ht. by rewrite ?orb_true_r.
Qed.
End Reference.
End Eris.
