(* ===== verification/Url.v ===== *)
(** The parts of net/url and net of the standard library that the source builds addresses
    with: escaping, the text of a URL and [net.JoinHostPort], with a reference reader of
    what they write. *)

From S2P Require Import Prelude Types.
#[local] Open Scope Z_scope.

(** ** net/url *)
Module Url.

Inductive encoding := encodePath | encodeHost | encodeUserPassword.

Definition alnum (c : byte) : bool :=
  let v := byte_val c in
  ((97 <=? v) && (v <=? 122)) || ((65 <=? v) && (v <=? 90)) || ((48 <=? v) && (v <=? 57)).

Definition shouldEscape (c : byte) (mode : encoding) : bool :=
  if alnum c then false
  else if match mode with encodeHost => bool_decide (c ∈ str "!$&'()*+,;=:[]<>" ++ [x22]) | _ => false end
  then false
  else if bool_decide (c ∈ str "-_.~") then false
  else if bool_decide (c ∈ str "$&+,/:;=?@") then
    match mode with
    | encodePath => bool_decide (c = x3f)
    | encodeUserPassword => bool_decide (c ∈ str "@/?:")
    | encodeHost => true
    end
  else true.

Definition upperhex : list byte := str "0123456789ABCDEF".
Definition hexdigit (v : Z) : byte := default x00 (upperhex !! Z.to_nat v).

(** [escape] in the modes above. *)
Fixpoint escape (mode : encoding) (s : list byte) : list byte :=
  match s with
  | [] => []
  | c :: s =>
      (if shouldEscape c mode then [x25; hexdigit (byte_val c / 16); hexdigit (byte_val c mod 16)]
       else [c]) ++ escape mode s
  end.

(** The [URL]s the source builds: a user with a password, no opaque part, no encoded
    path of its own and no fragment. *)
Record URL := mkURL {
  Scheme : list byte;
  User : list byte * list byte;
  Host : list byte;
  Path : list byte;
  RawQuery : list byte
}.

(** [String] of a pointer to one of them. *)
Definition String (u : URL) : list byte :=
  let scheme := if bool_decide (Scheme u = []) then [] else Scheme u ++ str ":" in
  let userinfo := escape encodeUserPassword (fst (User u)) ++ str ":" ++
                  escape encodeUserPassword (snd (User u)) in
  let path := escape encodePath (Path u) in
  let slash := if bool_decide (path <> []) && bool_decide (head path <> Some x2f) &&
                  bool_decide (Host u <> []) then str "/" else [] in
  let query := if bool_decide (RawQuery u = []) then [] else str "?" ++ RawQuery u in
  scheme ++ str "//" ++ userinfo ++ str "@" ++ escape encodeHost (Host u) ++ slash ++ path ++ query.

(** [net.JoinHostPort] *)
Definition JoinHostPort (host port : list byte) : list byte :=
  if bool_decide (x3a ∈ host) then str "[" ++ host ++ str "]:" ++ port
  else host ++ str ":" ++ port.

(** *** Reading URLs back (a reference reader: RFC 3986 delimiters and percent escapes) *)

Fixpoint unescape (s : list byte) : option (list byte) :=
  match s with
  | [] => Some []
  | c :: s' =>
      if bool_decide (c = x25) then
        match s' with
        | a :: b :: rest =>
            hi ← Hex.digit_val a; lo ← Hex.digit_val b; bs ← unescape rest;
            Some (byte_of_Z (hi * 16 + lo) :: bs)
        | _ => None
        end
      else cons c <$> unescape s'
  end.

(** The parts before and after the first [c]. *)
Fixpoint cut (c : byte) (s : list byte) : option (list byte * list byte) :=
  match s with
  | [] => None
  | b :: s => if bool_decide (b = c) then Some ([], s)
              else '(l, r) ← cut c s; Some (b :: l, r)
  end.

Lemma cut_app c l r : c ∉ l -> cut c (l ++ c :: r) = Some (l, r).
Proof.
  induction l as [|b l IH]; intros H; simpl.
  - by rewrite bool_decide_eq_true_2.
  - apply not_elem_of_cons in H as [Hb H].
    rewrite bool_decide_eq_false_2 by congruence. by rewrite IH.
Qed.

Lemma cut_none c l : c ∉ l -> cut c l = None.
Proof.
  induction l as [|b l IH]; intros H; simpl; [done|].
  apply not_elem_of_cons in H as [Hb H].
  rewrite bool_decide_eq_false_2 by congruence. by rewrite IH.
Qed.

Lemma hexdigit_val v : 0 <= v < 16 ->
  Hex.digit_val (hexdigit v) = Some v /\ alnum (hexdigit v) = true.
Proof.
  intros Hv. assert (v = 0 \/ v = 1 \/ v = 2 \/ v = 3 \/ v = 4 \/ v = 5 \/ v = 6 \/ v = 7 \/
    v = 8 \/ v = 9 \/ v = 10 \/ v = 11 \/ v = 12 \/ v = 13 \/ v = 14 \/ v = 15) as H by lia.
  repeat (destruct H as [->|H]; [split; reflexivity|]). by subst v.
Qed.

Lemma nibbles c : 0 <= byte_val c / 16 < 16 /\ 0 <= byte_val c mod 16 < 16.
Proof.
  pose proof (byte_val_range c). split; [|apply Z.mod_pos_bound; lia].
  split; [apply Z.div_pos | apply Z.div_lt_upper_bound]; lia.
Qed.

Lemma unescape_escape mode s : unescape (escape mode s) = Some s.
Proof.
  induction s as [|c s IH]; simpl; [done|].
  destruct (shouldEscape c mode) eqn:E; simpl.
  - destruct (nibbles c) as [Hhi Hlo].
    rewrite (proj1 (hexdigit_val _ Hhi)), (proj1 (hexdigit_val _ Hlo)), IH. simpl.
    do 2 f_equal. rewrite (Z.mul_comm _ 16), <-Z.div_mod by lia. apply byte_of_Z_val.
  - rewrite bool_decide_eq_false_2; [by rewrite IH|].
    intros ->. by destruct mode.
Qed.

(** An escaped text holds no delimiter that its mode escapes. *)
Lemma escape_delimiter mode c s :
  shouldEscape c mode = true -> c <> x25 -> alnum c = false -> c ∉ escape mode s.
Proof.
  intros Hc Hp Ha. induction s as [|b s IH]; simpl; [set_solver|].
  rewrite not_elem_of_app. split; [|done].
  destruct (nibbles b) as [Hhi%hexdigit_val Hlo%hexdigit_val].
  destruct (shouldEscape b mode) eqn:E;
    rewrite ?not_elem_of_cons; repeat split; try apply not_elem_of_nil; naive_solver congruence.
Qed.
End Url.
