(* ===== verification/Config.v ===== *)
(** Configuration loading (src/cfg/loader.go) and the network parameters
    (src/utxo-lib/netparams/params.go). The environment and YAML libraries and the files
    are parameters; [strings.ToLower] is defined on ASCII text, and its Unicode branch is a
    parameter. *)

From S2P Require Import Prelude Effects.
Import Io.
#[local] Open Scope Z_scope.

(** ** cfg/loader.go *)
Module Loader.

Record loadCfg := mkLoadCfg { prefix : list byte; filePath : list byte }.

Definition Opt := loadCfg -> loadCfg.

Definition WithPrefix (p : list byte) : Opt := fun c => mkLoadCfg p (filePath c).
Definition WithFilePath (p : list byte) : Opt := fun c => mkLoadCfg (prefix c) p.

(** envconfig and the YAML decoder fill the value they are given, also when they fail in
    the middle; [os.Open] and [Close] are the file system's. *)
Class Sources (W File Cfg : Type) := {
  zero : Cfg;
  Process : list byte -> Cfg -> io W (Cfg * option error);
  os_Open : list byte -> io W File;
  file_Close : File -> io W unit;
  Decode : File -> Cfg -> io W (Cfg * option error)
}.

Section load.
Context {W File Cfg : Type} `{Lib : Sources W File Cfg}.

Inductive event := Opened (f : File) | Closed (f : File).

Definition load_config (opts : list Opt) : loadCfg :=
  fold_left (fun c opt => opt c) opts (mkLoadCfg [] []).

(** The named results are returned as they are when an error is returned. *)
Definition Load (opts : list Opt) : traced W event (Cfg * option error) :=
  let cfg := load_config opts in
  '(result, err) ← lift (Process (prefix cfg) zero);
  match err with
  | Some err => mret (result, Some (EWrap "failed to process envconfig: %w" [] err))
  | None =>
      if 0 <? len (filePath cfg) then
        o ← attempt (record (opened Opened) (os_Open (filePath cfg)));
        match o with
        | inr err => mret (result, Some (EWrap "failed to open file: %w" [] err))
        | inl file =>
            defer (record (fun _ => [Closed file]) (file_Close file)) (
              '(result, err) ← lift (Decode file result);
              match err with
              | Some err => mret (result, Some (EWrap "failed to decode yaml: %w" [] err))
              | None => mret (result, None)
              end)
        end
      else mret (result, None)
  end.

(** ** Precedence *)
Context {Key Value : Type} (get : Cfg -> Key -> Value).

(** What the YAML decoder documents: keys of the file are written, the others kept.
    [keys f w] is what the file says in the state [w]. *)
Definition overlays (keys : File -> W -> Key -> option Value) : Prop :=
  forall f c w w' c', Decode f c w = (w', Ok (c', None)) ->
    forall k, get c' k = default (get c k) (keys f w k).

(** C37: loading a configuration. A failure of the environment (a required key that is not
    set, say) is reported without a look at the file. A file is opened only when a path is
    given, and is then closed exactly once, on errors and panics too. A configuration
    that is loaded without an error has, for each key, the value of the file if the file
    has the key, and otherwise what the environment or the default says. *)
Theorem Load_spec keys opts w t : overlays keys ->
  let cfg := load_config opts in
  (forall w1 env err, Process (prefix cfg) zero w = (w1, Ok (env, Some err)) ->
     exists e, Load opts (w, t) = ((w1, t), Ok (env, Some e)) /\ errors_is e err = true) /\
  (exists t1, snd (fst (Load opts (w, t))) = t ++ t1 /\
     (t1 = [] \/ filePath cfg <> [] /\ exists f, t1 = [Opened f; Closed f])) /\
  (forall w' t' result, Load opts (w, t) = ((w', t'), Ok (result, None)) ->
     exists w1 env, Process (prefix cfg) zero w = (w1, Ok (env, None)) /\
       (filePath cfg = [] /\ result = env \/
        filePath cfg <> [] /\ exists w2 f, os_Open (filePath cfg) w1 = (w2, Ok f) /\
          forall k, get result k = default (get env k) (keys f w2 k))).
Proof.
  intros Hov cfg. unfold Load. fold cfg. rewrite bind_lift.
  split; [|split].
  - intros w1 env err ->. eexists. split; [done|]. simpl.
    by rewrite errors_is_refl, orb_true_r.
  - destruct (Process (prefix cfg) zero w) as [w1 [[env [err|]]|e|p|]];
      try (exists []; rewrite app_nil_r; split; [done|by left]).
    destruct (Z.ltb_spec 0 (len (filePath cfg))) as [Hp|];
      [|exists []; rewrite app_nil_r; split; [done|by left]].
    rewrite bind_attempt_record.
    destruct (os_Open (filePath cfg) w1) as [w2 [f|e|p|]]; cbn [opened];
      try (exists []; rewrite app_nil_r; split; [done|by left]).
    exists [Opened f; Closed f]. split.
    2: { right. split; [intros E; rewrite E in Hp; by vm_compute in Hp|]. by exists f. }
    unfold defer. rewrite bind_lift. unfold record.
    destruct (Decode f env w2) as [w3 [[env' [err|]]|e|p|]]; simpl;
      destruct (file_Close f w3) as [w4 []]; by rewrite <-app_assoc.
  - intros w' t' result.
    destruct (Process (prefix cfg) zero w) as [w1 [[env [err|]]|e|p|]]; try discriminate.
    intros H. exists w1, env. split; [done|]. revert H.
    destruct (Z.ltb_spec 0 (len (filePath cfg))) as [Hp|Hp].
    2: { intros [= <- <- <-]. left. split; [|done]. by destruct (filePath cfg). }
    assert (filePath cfg <> []) as Hf by (intros E; rewrite E in Hp; by vm_compute in Hp).
    rewrite bind_attempt_record.
    destruct (os_Open (filePath cfg) w1) as [w2 [f|e|p|]] eqn:Eo; try discriminate.
    intros H. right. split; [done|]. exists w2, f. split; [done|]. revert H.
    unfold defer. rewrite bind_lift. unfold record.
    destruct (Decode f env w2) as [w3 [[env' [err|]]|e|p|]] eqn:Ed; simpl;
      destruct (file_Close f w3) as [w4 []]; try discriminate; intros [= <- <- <-]; by eapply Hov.
Qed.
End load.

(** A configuration of two settings, of which the environment gives both and the file
    "c.yaml" the first. *)
#[local] Instance two_settings : Sources unit unit (Z * Z) := {|
  zero := (0, 0);
  Process := fun p c w => (w, Ok (if bool_decide (p = str "APP") then ((8080, 5), None) else (c, Some (EExt 1))));
  os_Open := fun p w => (w, if bool_decide (p = str "c.yaml") then Ok tt else Err (EExt 2));
  file_Close := fun _ w => (w, Ok tt);
  Decode := fun _ '(_, key) w => (w, Ok ((9090, key), None))
|}.

Lemma Load_spec_witness :
  let opts := [WithPrefix (str "APP"); WithFilePath (str "c.yaml")] in
  Load opts (tt, @nil event) = ((tt, [Opened tt; Closed tt]), Ok ((9090, 5), None)) /\
  exists w2 f, os_Open (str "c.yaml") tt = (w2, Ok f) /\
    forall k : bool, (if k then 9090 else 5) = default (if k then 8080 else 5) (if k then Some 9090 else None).
Proof.
  intros opts. split; [reflexivity|].
  destruct (Load_spec (fun (c : Z * Z) (k : bool) => if k then fst c else snd c)
    (fun _ _ k => if k then Some 9090 else None) opts tt []) as (_ & _ & H).
  - intros [] [a b] [] [] c' [= <-] []; reflexivity.
  - destruct (H tt [Opened tt; Closed tt] (9090, 5) eq_refl) as (w1 & env & E & [[Hf _]|(_ & w2 & f & Ho & Hk)]).
    + discriminate Hf.
    + injection E as <- <-. exists w2, f. split; [exact Ho|exact Hk].
Defined.
End Loader.

(** ** utxo-lib/netparams/params.go *)
Module NetParams.

Record NetParams := mkNetParams {
  Net : Z;
  PubKeyHashAddrID : byte;
  ScriptHashAddrID : byte;
  Bech32HRPSegwit : list byte
}.

Definition BitcoinMainNet : NetParams := mkNetParams 0xd9b4bef9 x00 x05 (str "bc").
Definition BitcoinRegNet : NetParams := mkNetParams 0xdab5bffa x6f xc4 (str "bcrt").
Definition BitcoinTestNet3 : NetParams := mkNetParams 0x0709110b x6f xc4 (str "tb").
Definition BitcoinTestNet4 : NetParams := mkNetParams 0x283f161c x6f xc4 (str "tb").

Definition lower (b : byte) : byte :=
  let v := byte_val b in if (65 <=? v) && (v <=? 90) then byte_of_Z (v + 32) else b.

Definition ascii (s : list byte) : Prop := Forall (fun b => byte_val b < 128) s.

Section prefix.
(** [strings.Map(unicode.ToLower, s)] *)
Context (map_ToLower : list byte -> list byte).

Definition ToLower (s : list byte) : list byte :=
  if forallb (fun b => byte_val b <? 128) s then map lower s else map_ToLower s.

Definition IsBech32SegwitPrefix (p : NetParams) (prefix : list byte) : bool :=
  bool_decide (Bech32HRPSegwit p ++ str "1" = ToLower prefix).

(** Outside of ASCII only the Kelvin sign and the dotted capital I have a lower case in
    ASCII, [k] and [i]: text that is not ASCII has another byte, a [k] or an [i] after
    the mapping. *)
Definition lower_outside_ascii : Prop :=
  forall s, ~ ascii s -> Exists (fun b => 128 <= byte_val b \/ b = x6b \/ b = x69) (map_ToLower s).

Lemma ascii_forallb s : forallb (fun b => byte_val b <? 128) s = true <-> ascii s.
Proof.
  unfold ascii. rewrite forallb_forall, Forall_forall. setoid_rewrite list_elem_of_In.
  by setoid_rewrite Z.ltb_lt.
Qed.

(** A network accepts exactly the spellings of its own prefix and the separator, in any
    mixture of cases. *)
Theorem IsBech32SegwitPrefix_iff p prefix : lower_outside_ascii ->
  p ∈ [BitcoinMainNet; BitcoinRegNet; BitcoinTestNet3; BitcoinTestNet4] ->
  IsBech32SegwitPrefix p prefix = true <-> map lower prefix = Bech32HRPSegwit p ++ str "1" /\ ascii prefix.
Proof.
  intros Hl Hp. unfold IsBech32SegwitPrefix, ToLower. rewrite bool_decide_eq_true.
  destruct (forallb _ prefix) eqn:E.
  - apply ascii_forallb in E. naive_solver.
  - assert (~ ascii prefix) as Ha by (rewrite <-ascii_forallb; congruence).
    split; [|naive_solver]. intros Hm. exfalso. apply Hl in Ha. rewrite <-Hm in Ha. revert Ha.
    rewrite Exists_exists. intros (b & Hb & Hc).
    assert (Forall (fun b => byte_val b < 128 /\ b <> x6b /\ b <> x69) (Bech32HRPSegwit p ++ str "1")) as HF.
    { repeat (apply elem_of_cons in Hp as [->|Hp]; [by repeat constructor|]). by apply not_elem_of_nil in Hp. }
    rewrite Forall_forall in HF. apply HF in Hb. destruct Hb as (? & ? & ?), Hc as [|[|]]; [lia|done..].
Qed.
End prefix.

Example testnets_share_a_prefix m :
  IsBech32SegwitPrefix m BitcoinTestNet3 (str "tB1") = true /\
  IsBech32SegwitPrefix m BitcoinTestNet4 (str "tB1") = true /\
  IsBech32SegwitPrefix m BitcoinMainNet (str "tB1") = false.
Proof. repeat split; reflexivity. Qed.
End NetParams.
