(* ===== verification/Tx.v ===== *)
(** The transaction managers (src/db/postgres/tx.go and src/db/sqlite/tx.go). The two
    packages have the same code over two drivers, so the operations are defined once over
    an interface to the driver ([TxDriver]: [BeginTx], [Commit], [Rollback], code outside
    the repository) and instantiated per package; contexts are immutable chains of
    values, and every operation threads the state of the database. *)

From S2P Require Import Prelude Effects.
#[local] Open Scope Z_scope.

(** ** Contexts *)
Module Ctx.

Inductive key := txCtxValue | queriesCtxValue | OtherKey (k : Z).

#[global] Instance key_eq_dec : EqDecision key.
Proof. solve_decision. Defined.

Section ctx.
Context {Tx T : Type}.

(** The values a context carries: a transaction, a pointer to queries (nil or not), or
    something of the caller's. *)
Inductive value := VTx (tx : Tx) | VQueries (q : option T) | VOther (v : Z).

(** [context.WithValue] chains, innermost value first. *)
Definition context := list (key * value).

Definition WithValue (ctx : context) (k : key) (v : value) : context := (k, v) :: ctx.

Fixpoint Value (ctx : context) (k : key) : option value :=
  match ctx with
  | [] => None
  | (k', v) :: ctx => if bool_decide (k' = k) then Some v else Value ctx k
  end.

(** [ctx.Value(txCtxValue).(pgx.Tx)] and [ctx.Value(queriesCtxValue).( *T )] *)
Definition tx_value (ctx : context) : option Tx :=
  match Value ctx txCtxValue with Some (VTx tx) => Some tx | _ => None end.

Definition queries_value (ctx : context) : option (option T) :=
  match Value ctx queriesCtxValue with Some (VQueries q) => Some q | _ => None end.

End ctx.

Arguments context : clear implicits.
Arguments value : clear implicits.

End Ctx.

(** ** The managers over any driver *)
Module TxManager.
Import Io Ctx.

(** A database driver, with its transaction handles and its transaction options. *)
Class TxDriver (W Tx T Opts : Type) := {
  BeginTx : context Tx T -> Opts -> io W Tx;
  tx_Commit : Tx -> context Tx T -> io W unit;
  tx_Rollback : Tx -> context Tx T -> io W unit
}.

Definition ErrNoTransaction : error := ENew "no transaction in context".

(** The [Queries] interface of a generated query type: [WithTx], and whether its dynamic
    type is [*T] (and then the pointer, which may be nil). *)
Record Queries (Tx T : Type) := mkQueries {
  q_WithTx : Tx -> option T;
  q_as_T : option (option T)
}.
Arguments q_WithTx {Tx T}.
Arguments q_as_T {Tx T}.

Section manager.
Context {W Tx T Opts : Type} `{Driver : TxDriver W Tx T Opts} (defaults : Opts).
Local Abbreviation ctx_t := (context Tx T).

Definition TxOption := Opts -> Opts.

Definition Begin (ctx : ctx_t) (opts : list TxOption) : io W ctx_t :=
  let cfg := fold_left (fun cfg opt => opt cfg) opts defaults in
  r ← attempt (BeginTx ctx cfg);
  match r with
  | inr err => throw (EWrap "begin tx: %w" [] err)
  | inl tx => mret (WithValue ctx txCtxValue (VTx tx))
  end.

Definition Commit (ctx : ctx_t) : io W unit :=
  match tx_value ctx with
  | None => throw ErrNoTransaction
  | Some tx =>
      r ← attempt (tx_Commit tx ctx);
      match r with
      | inr err => throw (EWrap "commit tx: %w" [] err)
      | inl _ => mret tt
      end
  end.

Definition Rollback (ctx : ctx_t) : io W unit :=
  match tx_value ctx with
  | None => throw ErrNoTransaction
  | Some tx =>
      r ← attempt (tx_Rollback tx ctx);
      match r with
      | inr err => throw (EWrap "rollback tx: %w" [] err)
      | inl _ => mret tt
      end
  end.

(** [queries] is [None] when the interface value is nil. *)
Record QueriesTxManager := NewQueriesTxManager { queries : option (Queries Tx T) }.

Definition TxCallback := ctx_t -> io W unit.

Definition Transactional (m : QueriesTxManager) (ctx : ctx_t) (callback : TxCallback)
    (opts : list TxOption) : io W unit :=
  b ← attempt (Begin ctx opts);
  match b with
  | inr err => throw (EWrap "begin query tx: %w" [] err)
  | inl txCtx =>
      match tx_value txCtx with
      | None => throw ErrNoTransaction
      | Some tx =>
          match queries m with
          | None => fun w => (w, Panic PNilDeref)
          | Some q =>
              let txQueries := q_WithTx q tx in
              let txCtx := WithValue txCtx queriesCtxValue (VQueries txQueries) in
              c ← attempt (callback txCtx);
              match c with
              | inr cbErr =>
                  r ← attempt (Rollback txCtx);
                  match r with
                  | inr rbErr => throw (EWrap2 "rollback query tx: %w (callback: %w)" rbErr cbErr)
                  | inl _ => throw (EWrap "query tx callback: %w" [] cbErr)
                  end
              | inl _ =>
                  r ← attempt (Commit txCtx);
                  match r with
                  | inr err => throw (EWrap "commit query tx: %w" [] err)
                  | inl _ => mret tt
                  end
              end
          end
      end
  end.

(** The result is a [*T]: [None] is nil. *)
Definition GetQueries (m : QueriesTxManager) (ctx : ctx_t) : option T :=
  match queries_value ctx with
  | Some (Some q) => Some q
  | _ => match queries m with
         | Some q => match q_as_T q with Some p => p | None => None end
         | None => None
         end
  end.

(** ** What [Transactional] does, outcome by outcome *)

(** The context the callback runs in. *)
Definition callback_ctx (q : Queries Tx T) (ctx : ctx_t) (tx : Tx) : ctx_t :=
  WithValue (WithValue ctx txCtxValue (VTx tx)) queriesCtxValue (VQueries (q_WithTx q tx)).

Lemma callback_ctx_tx q ctx tx : tx_value (callback_ctx q ctx tx) = Some tx.
Proof. done. Qed.

(** The transaction ends by one call, chosen by what the callback returned. *)
Definition finish (txCtx : ctx_t) (tx : Tx) (r : outcome unit) : io W unit :=
  match r with
  | Ok _ => fun w =>
      match tx_Commit tx txCtx w with
      | (w', Err e) => (w', Err (EWrap "commit query tx: %w" [] (EWrap "commit tx: %w" [] e)))
      | r => r
      end
  | Err cbErr => fun w =>
      match tx_Rollback tx txCtx w with
      | (w', Ok _) => (w', Err (EWrap "query tx callback: %w" [] cbErr))
      | (w', Err e) =>
          (w', Err (EWrap2 "rollback query tx: %w (callback: %w)" (EWrap "rollback tx: %w" [] e) cbErr))
      | r => r
      end
  | Panic p => fun w => (w, Panic p)
  | NoFuel => fun w => (w, NoFuel)
  end.

Lemma Transactional_eq q ctx callback opts w :
  Transactional (NewQueriesTxManager (Some q)) ctx callback opts w =
  match BeginTx ctx (fold_left (fun cfg opt => opt cfg) opts defaults) w with
  | (w1, Ok tx) =>
      match callback (callback_ctx q ctx tx) w1 with
      | (w2, r) => finish (callback_ctx q ctx tx) tx r w2
      end
  | (w1, Err e) => (w1, Err (EWrap "begin query tx: %w" [] (EWrap "begin tx: %w" [] e)))
  | (w1, Panic p) => (w1, Panic p)
  | (w1, NoFuel) => (w1, NoFuel)
  end.
Proof.
  unfold Transactional. rewrite bind_attempt. unfold Begin. rewrite bind_attempt.
  destruct (BeginTx ctx _ w) as [w1 [tx|e|p|]]; try reflexivity.
  cbv [mret io_ret queries]. cbv beta iota.
  change (tx_value (WithValue ctx txCtxValue (VTx tx))) with (Some tx). cbv beta zeta iota.
  rewrite bind_attempt.
  change (WithValue (WithValue ctx txCtxValue (VTx tx)) _ _) with (callback_ctx q ctx tx).
  destruct (callback _ w1) as [w2 [[]|cbErr|p|]]; try reflexivity; rewrite bind_attempt;
    unfold finish, Commit, Rollback; rewrite callback_ctx_tx; cbv beta iota; rewrite bind_attempt.
  - destruct (tx_Commit tx _ w2) as [w3 [[]|e|p|]]; reflexivity.
  - destruct (tx_Rollback tx _ w2) as [w3 [[]|e|p|]]; reflexivity.
Qed.

End manager.

(** ** Atomicity *)

(** What the documentation of the drivers and of the databases promises a single session:
    [committed] is what a new transaction sees, [pending] what an open one has made of it.
    A commit that reports an error has taken effect as a whole or not at all (when the
    connection breaks during a commit, the client cannot know which). *)
Class LawfulDriver {W Tx T Opts} (Driver : TxDriver W Tx T Opts) {DB : Type}
    (committed : W -> DB) (pending : W -> Tx -> option DB) : Prop := {
  begin_ok ctx o w w' tx :
    BeginTx ctx o w = (w', Ok tx) -> committed w' = committed w /\ pending w' tx = Some (committed w);
  begin_fail ctx o w w' e : BeginTx ctx o w = (w', Err e) -> committed w' = committed w;
  commit_ok tx ctx w w' u :
    tx_Commit tx ctx w = (w', Ok u) -> pending w tx = Some (committed w');
  commit_fail tx ctx w w' e :
    tx_Commit tx ctx w = (w', Err e) -> committed w' = committed w \/ pending w tx = Some (committed w');
  rollback_any tx ctx w w' r : tx_Rollback tx ctx w = (w', r) -> committed w' = committed w;
  begin_returns ctx o w : safe (fun _ => True) (snd (BeginTx ctx o w));
  commit_returns tx ctx w : safe (fun _ => True) (snd (tx_Commit tx ctx w));
  rollback_returns tx ctx w : safe (fun _ => True) (snd (tx_Rollback tx ctx w))
}.

(** A callback that works inside its transaction: it neither commits anything itself nor
    ends an open transaction. *)
Definition stays_inside {W Tx T DB} (committed : W -> DB) (pending : W -> Tx -> option DB)
    (callback : context Tx T -> io W unit) : Prop :=
  forall ctx w w' r, callback ctx w = (w', r) ->
    committed w' = committed w /\ forall tx, is_Some (pending w tx) -> is_Some (pending w' tx).

(** C13: [Transactional] is all or nothing, over a driver that keeps its promises and for a
    callback that stays inside its transaction. Success means that the callback succeeded
    and what it had made of the snapshot it began from is what is committed now. An error
    means that the committed state is as it was; the one exception is the error of the
    commit itself after a callback that succeeded, which may have taken effect, and then
    as a whole: what is committed is what the callback had made of its snapshot. A panic
    of the callback leaves the committed state as it was, and the transaction open. *)
Theorem Transactional_atomic {W Tx T Opts DB} (Driver : TxDriver W Tx T Opts) (committed : W -> DB)
    (pending : W -> Tx -> option DB) (defaults : Opts) q ctx callback opts w w' r :
  LawfulDriver Driver committed pending -> stays_inside committed pending callback ->
  Transactional defaults (NewQueriesTxManager (Some q)) ctx callback opts w = (w', r) ->
  match r with
  | Ok _ => exists tx w1 w2,
      pending w1 tx = Some (committed w) /\
      callback (callback_ctx q ctx tx) w1 = (w2, Ok tt) /\ pending w2 tx = Some (committed w')
  | Err e => committed w' = committed w \/
      exists tx w1 w2 e',
        e = EWrap "commit query tx: %w" [] (EWrap "commit tx: %w" [] e') /\
        pending w1 tx = Some (committed w) /\
        callback (callback_ctx q ctx tx) w1 = (w2, Ok tt) /\ pending w2 tx = Some (committed w')
  | Panic _ | NoFuel => committed w' = committed w /\ exists tx, is_Some (pending w' tx)
  end.
Proof.
  intros HD Hcb. rewrite Transactional_eq.
  destruct (BeginTx ctx _ w) as [w1 [tx|e|p|]] eqn:Eb.
  - pose proof (begin_ok _ _ _ _ _ Eb) as [Hc1 Hp1].
    destruct (callback (callback_ctx q ctx tx) w1) as [w2 rc] eqn:Ec.
    destruct (Hcb _ _ _ _ Ec) as [Hc2 Hopen]. specialize (Hopen tx (ex_intro _ _ Hp1)).
    destruct rc as [[]|cbErr|p|]; unfold finish.
    + pose proof (commit_returns tx (callback_ctx q ctx tx) w2) as Hret.
      destruct (tx_Commit tx _ w2) as [w3 [u|e|p|]] eqn:Et; simpl in Hret; try done; intros [= <- <-].
      * exists tx, w1, w2. split; [done|split; [done|]]. by apply (commit_ok _ _ _ _ _ Et).
      * destruct (commit_fail _ _ _ _ _ Et) as [Hsame|Hdone]; [left; congruence|].
        right. by exists tx, w1, w2, e.
    + pose proof (rollback_returns tx (callback_ctx q ctx tx) w2) as Hret.
      destruct (tx_Rollback tx _ w2) as [w3 [u|e|p|]] eqn:Et; simpl in Hret; try done; intros [= <- <-];
        left; pose proof (rollback_any _ _ _ _ _ Et); congruence.
    + intros [= <- <-]. split; [congruence|by exists tx].
    + intros [= <- <-]. split; [congruence|by exists tx].
  - intros [= <- <-]. left. by eapply begin_fail.
  - pose proof (begin_returns ctx (fold_left (fun cfg opt => opt cfg) opts defaults) w) as H. by rewrite Eb in H.
  - pose proof (begin_returns ctx (fold_left (fun cfg opt => opt cfg) opts defaults) w) as H. by rewrite Eb in H.
Qed.

(** ** The order of the driver calls *)

Inductive event Tx := EvBegin (tx : Tx) | EvCommit (tx : Tx) | EvRollback (tx : Tx).
Arguments EvBegin {Tx}.
Arguments EvCommit {Tx}.
Arguments EvRollback {Tx}.

(** Any driver, with a log of the transactions it began and of the calls that end them. *)
Definition logged {W Tx T Opts} (Driver : TxDriver W Tx T Opts)
    : TxDriver (W * list (event Tx)) Tx T Opts := {|
  BeginTx := fun ctx o '(w, l) =>
    match BeginTx ctx o w with
    | (w', Ok tx) => ((w', l ++ [EvBegin tx]), Ok tx)
    | (w', r) => ((w', l), r)
    end;
  tx_Commit := fun tx ctx '(w, l) => let '(w', r) := tx_Commit tx ctx w in ((w', l ++ [EvCommit tx]), r);
  tx_Rollback := fun tx ctx '(w, l) => let '(w', r) := tx_Rollback tx ctx w in ((w', l ++ [EvRollback tx]), r)
|}.

(** What is returned when the call that ends the transaction has the outcome [ended] and
    the callback had failed with [cause] or not: never nil after a failure of either, and
    every failure can be found in the error. *)
Definition returned_after (ended : outcome unit) (cause : option error) (r : outcome unit) : Prop :=
  match ended with
  | Ok _ =>
      match cause with
      | None => r = Ok tt
      | Some c => exists e, r = Err e /\ errors_is e c = true
      end
  | Err f => exists e, r = Err e /\ errors_is e f = true /\ forall c, cause = Some c -> errors_is e c = true
  | Panic p => r = Panic p
  | NoFuel => r = NoFuel
  end.

(** C14: the protocol of [Transactional] with any driver and any callback that does not end
    transactions itself. If no transaction can be begun, the callback is not called and
    the error of the driver is returned. Otherwise the callback is called once, in the
    context of the transaction, and the transaction is ended by exactly one call: a commit
    if the callback succeeded and a rollback if it failed, and by none if it panicked. nil
    is returned exactly when the callback and the commit succeeded; the error of a failed
    callback, and that of a failed commit or rollback, can be found in the error that is
    returned. *)
Theorem Transactional_protocol {W Tx T Opts} (Driver : TxDriver W Tx T Opts) (defaults : Opts)
    q ctx callback opts w l w' l' r :
  (forall c v k v' k' rc, callback c (v, k) = ((v', k'), rc) -> k' = k) ->
  @Transactional _ _ _ _ (logged Driver) defaults (NewQueriesTxManager (Some q)) ctx callback opts (w, l)
    = ((w', l'), r) ->
  let o := fold_left (fun cfg opt => opt cfg) opts defaults in
  match BeginTx ctx o w with
  | (v1, Ok tx) =>
      exists v2 rc,
      callback (callback_ctx q ctx tx) (v1, l ++ [EvBegin tx]) = ((v2, l ++ [EvBegin tx]), rc) /\
      match rc with
      | Ok _ => l' = l ++ [EvBegin tx; EvCommit tx] /\
          exists ended, tx_Commit tx (callback_ctx q ctx tx) v2 = (w', ended) /\ returned_after ended None r
      | Err cbErr => l' = l ++ [EvBegin tx; EvRollback tx] /\
          exists ended, tx_Rollback tx (callback_ctx q ctx tx) v2 = (w', ended) /\ returned_after ended (Some cbErr) r
      | Panic _ | NoFuel => l' = l ++ [EvBegin tx] /\ w' = v2 /\ r = rc
      end
  | (v1, Err e) => w' = v1 /\ l' = l /\ exists e', r = Err e' /\ errors_is e' e = true
  | (v1, Panic p) => w' = v1 /\ l' = l /\ r = Panic p
  | (v1, NoFuel) => w' = v1 /\ l' = l /\ r = NoFuel
  end.
Proof.
  intros Hcb H o. rewrite Transactional_eq in H. fold o in H. cbn [BeginTx logged] in H.
  pose proof errors_is_refl as Hrefl.
  assert (forall f m e, errors_is (EWrap f m e) e = true) as Hwrap
    by (intros; cbn [errors_is]; by rewrite Hrefl, ?orb_true_r).
  assert (forall f1 f2 e, errors_is (EWrap f1 [] (EWrap f2 [] e)) e = true) as Hwrap2
    by (intros; cbn [errors_is]; by rewrite Hrefl, ?orb_true_r).
  destruct (BeginTx ctx o w) as [v1 [tx|e|p|]].
  - destruct (callback (callback_ctx q ctx tx) (v1, l ++ [EvBegin tx])) as [[v2 k] rc] eqn:Ec.
    pose proof (Hcb _ _ _ _ _ _ Ec) as ->. exists v2, rc. split; [done|].
    destruct rc as [[]|cbErr|p|]; unfold finish in H; cbn [tx_Commit tx_Rollback logged] in H.
    + destruct (tx_Commit tx _ v2) as [v3 [[]|f|p|]]; injection H as <- <- <-; rewrite <-app_assoc;
        (split; [done|]); eexists; (split; [done|]); simpl; try done.
      eexists. split; [done|]. split; [apply Hwrap2|done].
    + destruct (tx_Rollback tx _ v2) as [v3 [[]|f|p|]]; injection H as <- <- <-; rewrite <-app_assoc;
        (split; [done|]); eexists; (split; [done|]); simpl; try done.
      * eexists. split; [done|]. apply Hwrap.
      * eexists. split; [done|]. split; [|intros c [= <-]]; cbn [errors_is]; by rewrite Hrefl, ?orb_true_r.
    + by injection H as <- <- <-.
    + by injection H as <- <- <-.
  - injection H as <- <- <-. split_and!; [done|done|]. eexists. split; [done|]. apply Hwrap2.
  - by injection H as <- <- <-.
  - by injection H as <- <- <-.
Qed.

(** C23: where [GetQueries] gets its queries from: in the callback, whatever the callback
    adds to its context, from the transaction, unless [WithTx] returned a nil pointer, in
    which case it silently falls back to the manager's own queries, outside the
    transaction, as it does for a context without a transaction. *)
Theorem GetQueries_spec {Tx T : Type} (m : QueriesTxManager (Tx := Tx) (T := T)) (q : Queries Tx T) ctx tx extra :
  queries m = Some q -> Forall (fun kv => exists n, fst kv = OtherKey n) extra ->
  let own := match q_as_T q with Some p => p | None => None end in
  (forall t, q_WithTx q tx = Some t -> GetQueries m (extra ++ callback_ctx q ctx tx) = Some t) /\
  (q_WithTx q tx = None -> GetQueries m (extra ++ callback_ctx q ctx tx) = own) /\
  GetQueries m extra = own.
Proof.
  intros Hm Hex own.
  assert (forall c : context Tx T, queries_value (extra ++ c) = queries_value c) as Hq.
  { intros c. unfold queries_value. f_equal.
    induction Hex as [|[k v] extra [n Hk] _ IH]; [done|]. simpl in Hk. subst k. exact IH. }
  assert (queries_value (extra : context Tx T) = None) as Hn
    by (rewrite <-(app_nil_r extra), Hq; done).
  unfold GetQueries. rewrite Hq, Hn, Hm.
  change (queries_value (callback_ctx q ctx tx)) with (Some (q_WithTx q tx)).
  split; [by intros t ->|]. split; [by intros ->|done].
Qed.

(** ** A database in memory *)

(** The committed value, and the values of the open transactions, numbered from zero. *)
Definition mem := (nat * list (option nat))%type.

#[local] Instance mem_driver : TxDriver mem nat nat unit := {|
  BeginTx := fun _ _ '(d, txs) => ((d, txs ++ [Some d]), Ok (length txs));
  tx_Commit := fun tx _ '(d, txs) =>
    match txs !! tx with
    | Some (Some d') => ((d', <[tx := None]> txs), Ok tt)
    | _ => ((d, txs), Err (ENew "tx is closed"))
    end;
  tx_Rollback := fun tx _ '(d, txs) =>
    match txs !! tx with
    | Some (Some _) => ((d, <[tx := None]> txs), Ok tt)
    | _ => ((d, txs), Err (ENew "tx is closed"))
    end
|}.

Definition mem_pending (w : mem) (tx : nat) : option nat :=
  match snd w !! tx with Some (Some d) => Some d | _ => None end.

Lemma mem_lawful : LawfulDriver mem_driver fst mem_pending.
Proof.
  split; simpl.
  - intros _ _ [d txs] w' tx [= <- <-]. split; [done|].
    unfold mem_pending. simpl. by rewrite lookup_app_r, Nat.sub_diag by lia.
  - by intros _ _ [d txs] w' e [=].
  - intros tx _ [d txs] w' u. unfold mem_pending. simpl.
    destruct (txs !! tx) as [[d'|]|]; try done. by intros [= <- _].
  - intros tx _ [d txs] w' e. simpl. destruct (txs !! tx) as [[d'|]|]; try done; intros [= <- _]; by left.
  - intros tx _ [d txs] w' r. destruct (txs !! tx) as [[d'|]|]; by intros [= <- _].
  - by intros _ _ [d txs].
  - intros tx _ [d txs]. by destruct (txs !! tx) as [[d'|]|].
  - intros tx _ [d txs]. by destruct (txs !! tx) as [[d'|]|].
Qed.

(** A callback that stores [n] in its transaction and then fails or not. *)
Definition store (n : nat) (r : outcome unit) (ctx : context nat nat) : io mem unit := fun '(d, txs) =>
  match tx_value ctx with
  | Some tx => ((d, alter (fun o => match o with Some _ => Some n | None => None end) tx txs), r)
  | None => ((d, txs), r)
  end.

Lemma store_stays n r : stays_inside fst mem_pending (store n r).
Proof.
  intros ctx [d txs] w' r'. unfold store. destruct (tx_value ctx) as [tx|]; intros [= <- <-]; [|done].
  split; [done|]. intros tx'. unfold mem_pending. simpl.
  destruct (decide (tx = tx')) as [<-|Hne].
  - rewrite list_lookup_alter_eq. destruct (txs !! tx) as [[]|]; simpl; [by eexists|done..].
  - by rewrite list_lookup_alter_ne.
Qed.

Definition mem_queries : Queries nat nat := mkQueries _ _ (fun tx => Some (tx + 100)%nat) (Some (Some 1%nat)).

Lemma Transactional_atomic_witness :
  match snd (Transactional tt (NewQueriesTxManager (Some mem_queries)) [] (store 7 (Ok tt)) [] (3%nat, [])) with
  | Ok _ => True | _ => False end /\
  fst (fst (Transactional tt (NewQueriesTxManager (Some mem_queries)) []
              (store 7 (Panic PNilDeref)) [] (3%nat, []))) = 3%nat.
Proof.
  split; [exact I|].
  refine (proj1 (Transactional_atomic mem_driver fst mem_pending tt mem_queries [] (store 7 (Panic PNilDeref)) []
    (3%nat, []) _ (Panic PNilDeref) mem_lawful (store_stays _ _) eq_refl)).
Defined.

Lemma Transactional_protocol_witness :
  exists e, snd (@Transactional _ _ _ _ (logged mem_driver) tt (NewQueriesTxManager (Some mem_queries)) []
    (fun _ v => (v, Err ErrNoTransaction)) [] ((3%nat, []), [])) = Err e /\ errors_is e ErrNoTransaction = true.
Proof.
  destruct (Transactional_protocol mem_driver tt mem_queries [] (fun _ v => (v, Err ErrNoTransaction)) []
    (3%nat, []) [] (3%nat, [None]) [EvBegin 0%nat; EvRollback 0%nat] _
    ltac:(by intros ?????? [= <- <- <-]) eq_refl) as (v2 & rc & E & H).
  injection E as <- <-. destruct H as (_ & ended & Hended & H). injection Hended as <-. exact H.
Defined.

Lemma GetQueries_spec_witness :
  GetQueries (NewQueriesTxManager (Some mem_queries))
    ([(OtherKey 5, VOther 6)] ++ callback_ctx mem_queries [] 2%nat) = Some 102%nat.
Proof.
  apply (GetQueries_spec (NewQueriesTxManager (Some mem_queries)) mem_queries [] 2%nat [(OtherKey 5, VOther 6)]);
    [reflexivity| |reflexivity].
  constructor; [by eexists|constructor].
Defined.
End TxManager.

(** ** The two packages *)

Module Postgres.
Import Io Ctx TxManager.

Section postgres.
(** pgx: its isolation levels and access modes, and its driver. *)
Context {IsoLevel AccessMode : Type} (Serializable : IsoLevel) (ReadWrite : AccessMode).

Record TxOptions := mkTxOptions { o_IsoLevel : IsoLevel; o_AccessMode : AccessMode }.

Context {W Tx T : Type} `{Driver : !TxDriver W Tx T TxOptions}.

Definition WithIsoLevel (lvl : IsoLevel) : TxOption (Opts := TxOptions) :=
  fun txOpts => mkTxOptions lvl (o_AccessMode txOpts).

Definition default_options : TxOptions := mkTxOptions Serializable ReadWrite.

Definition Begin := TxManager.Begin default_options.
Definition Transactional := TxManager.Transactional default_options.
Definition Commit (ctx : context Tx T) : io W unit := TxManager.Commit ctx.
Definition Rollback (ctx : context Tx T) : io W unit := TxManager.Rollback ctx.
End postgres.
End Postgres.

Module Sqlite.
Import Io Ctx TxManager.

(** database/sql: its driver ends transactions without a context. *)
Class SqlDriver (W Tx T Opts : Type) := {
  sql_BeginTx : context Tx T -> Opts -> io W Tx;
  sql_Commit : Tx -> io W unit;
  sql_Rollback : Tx -> io W unit
}.

#[global] Instance sql_TxDriver {W Tx T Opts} `{SqlDriver W Tx T Opts} : TxDriver W Tx T Opts := {|
  BeginTx := sql_BeginTx;
  tx_Commit := fun tx _ => sql_Commit tx;
  tx_Rollback := fun tx _ => sql_Rollback tx
|}.

Section sqlite.
Record TxOptions := mkTxOptions { o_ReadOnly : bool }.

Context {W Tx T : Type} `{Driver : !SqlDriver W Tx T TxOptions}.

(** The package's own copies of the types and the error of the managers. (Its context
    keys have a type of their own, so the two packages do not see each other's
    transactions; a context of the model belongs to one of them.) *)
Definition managerCtxKey := Ctx.key.
Definition ErrNoTransaction : error := TxManager.ErrNoTransaction.
Definition TxOption := TxManager.TxOption (Opts := TxOptions).
Definition Queries := TxManager.Queries Tx T.
Definition QueriesTxManager := TxManager.QueriesTxManager (Tx := Tx) (T := T).
Definition NewQueriesTxManager (queries : option Queries) : QueriesTxManager :=
  TxManager.NewQueriesTxManager queries.
Definition TxCallback := TxManager.TxCallback (W := W) (Tx := Tx) (T := T).

Definition WithReadOnly : TxOption := fun _ => mkTxOptions true.

Definition default_options : TxOptions := mkTxOptions false.

Definition Begin := TxManager.Begin default_options.
Definition Transactional := TxManager.Transactional default_options.
Definition GetQueries (m : QueriesTxManager) (ctx : context Tx T) : option T := TxManager.GetQueries m ctx.
Definition Commit (ctx : context Tx T) : io W unit := TxManager.Commit ctx.
Definition Rollback (ctx : context Tx T) : io W unit := TxManager.Rollback ctx.
End sqlite.
End Sqlite.
