(* ===== verification/JsonRpc.v ===== *)
(** The JSON-RPC client (src/jsonrpc/request.go, options.go, response.go, client.go):
    request construction, header handling, [Execute] with its limits, and the settings of
    the default client. The HTTP client, the
    JSON codec and the validity of URLs are parameters; what [Execute] does with them
    (requests sent, bytes read, bodies closed) is a log. *)

From stdpp Require Import pretty.
From S2P Require Import Prelude Effects.
Import Io.
#[local] Open Scope Z_scope.

(** ** net/http headers *)
Module Header.

(** RFC 7230 token bytes, as [textproto] tests them. *)
Definition valid_byte (b : byte) : bool :=
  let c := byte_val b in
  ((48 <=? c) && (c <=? 57)) || ((65 <=? c) && (c <=? 90)) || ((97 <=? c) && (c <=? 122)) ||
  bool_decide (b ∈ str "!#$%&'*+-.^_`|~").

Definition to_upper (b : byte) : byte :=
  let c := byte_val b in if (97 <=? c) && (c <=? 122) then byte_of_Z (c - 32) else b.

Definition to_lower (b : byte) : byte :=
  let c := byte_val b in if (65 <=? c) && (c <=? 90) then byte_of_Z (c + 32) else b.

Fixpoint canonicalize (upper : bool) (s : list byte) : list byte :=
  match s with
  | [] => []
  | b :: s =>
      (if upper then to_upper b else to_lower b) :: canonicalize (bool_decide (b = x2d)) s
  end.

(** [textproto.CanonicalMIMEHeaderKey]: a key with a byte that no header name has is left
    alone. *)
Definition CanonicalMIMEHeaderKey (s : list byte) : list byte :=
  if forallb valid_byte s then canonicalize true s else s.

Abbreviation header := (gmap (list byte) (list (list byte))).

Definition Add (h : header) (key value : list byte) : header :=
  let k := CanonicalMIMEHeaderKey key in <[k := default [] (h !! k) ++ [value]]> h.

Definition Set_ (h : header) (key value : list byte) : header :=
  <[CanonicalMIMEHeaderKey key := [value]]> h.

Definition Get (h : header) (key : list byte) : list byte :=
  match h !! CanonicalMIMEHeaderKey key with Some (v :: _) => v | _ => [] end.

(** All values under a name, in the order they were added. *)
Definition Values (h : header) (key : list byte) : list (list byte) :=
  default [] (h !! CanonicalMIMEHeaderKey key).

(** Names that [CanonicalMIMEHeaderKey] does not distinguish. *)
Definition same_name (k1 k2 : list byte) : Prop :=
  CanonicalMIMEHeaderKey k1 = CanonicalMIMEHeaderKey k2.

#[global] Instance same_name_dec k1 k2 : Decision (same_name k1 k2).
Proof. unfold same_name. apply _. Defined.

Lemma Values_Add h k v k' :
  Values (Add h k v) k' = if decide (same_name k k') then Values h k' ++ [v] else Values h k'.
Proof.
  unfold Values, Add. case_decide as H.
  - unfold same_name in H. by rewrite H, lookup_insert_eq.
  - by rewrite lookup_insert_ne.
Qed.

Lemma Values_Set h k v k' :
  Values (Set_ h k v) k' = if decide (same_name k k') then [v] else Values h k'.
Proof.
  unfold Values, Set_. case_decide as H.
  - unfold same_name in H. by rewrite H, lookup_insert_eq.
  - by rewrite lookup_insert_ne.
Qed.

Lemma Get_Values h k : Get h k = default [] (head (Values h k)).
Proof. unfold Get, Values. by destruct (h !! _) as [[|]|]. Qed.

End Header.

(** ** Requests and responses *)
Module JsonRpc.
Import Header.

Definition Version : list byte := str "2.0".
Definition DefaultMaxResponseBytes : Z := Z.shiftl 64 20.

Section jsonrpc.
(** Values of type [any] that the caller supplies, the HTTP clients, the result type, the
    contexts. *)
Context {Any Client Result Ctx : Type}.

(** An [any] holds a string or another value. *)
Inductive any := AnyString (s : list byte) | AnyOther (a : Any).

Record Request := mkRequest {
  Method : list byte;
  Params : list any;
  ID : any;
  JSONRPC : list byte
}.

Definition RequestOption := Request -> Request.

Definition WithRPCVersion (version : list byte) : RequestOption := fun req =>
  mkRequest (Method req) (Params req) (ID req) version.

Definition WithRPCid (id : any) : RequestOption := fun req =>
  mkRequest (Method req) (Params req) id (JSONRPC req).

(** [strconv.FormatInt(n, 10)] *)
Definition FormatInt (n : Z) : list byte := str (pretty n).

(** [now] is [time.Now().UnixNano()]. *)
Definition NewRequest (now : Z) (method : list byte) (params : list any) (opts : list RequestOption)
    : Request :=
  fold_left (fun req opt => opt req) opts
    (mkRequest method params (AnyString (FormatInt now)) Version).

Record RPCError := mkRPCError { Code : Z; Message : list byte }.

Definition RPCError_Error (e : RPCError) : list byte :=
  str "jsonrpc error: code=" ++ FormatInt (Code e) ++ str ", message=" ++ Message e.

(** The error value [*RPCError]. *)
Definition rpc_error (e : RPCError) : error :=
  EFmt "jsonrpc error: code=%d, message=%s" [AInt (Code e); ABytes (Message e)].

Record RPCResponse := mkRPCResponse { resp_Result : Result; resp_Error : option RPCError }.

(** ** Execution options *)

Record executeConfig := mkExecuteConfig {
  client : Client;
  headers : header;
  maxResponseBytes : Z
}.

Definition ExecuteOption := executeConfig -> executeConfig.

Definition WithClient (c : option Client) : ExecuteOption := fun cfg =>
  match c with
  | Some c => mkExecuteConfig c (headers cfg) (maxResponseBytes cfg)
  | None => cfg
  end.

Definition WithMaxResponseBytes (limit : Z) : ExecuteOption := fun cfg =>
  mkExecuteConfig (client cfg) (headers cfg) limit.

Definition WithHeader (key value : list byte) : ExecuteOption := fun cfg =>
  mkExecuteConfig (client cfg) (Add (headers cfg) key value) (maxResponseBytes cfg).

(** ** The outside *)

Record HttpRequest := mkHttpRequest {
  req_Ctx : Ctx;
  req_Method : list byte;
  req_URL : list byte;
  req_Body : list byte;
  req_Header : header
}.

(** [http.MethodPost] *)
Definition MethodPost : list byte := str "POST".

(** A body is the bytes the reader delivers before it ends, properly or with an error. *)
Record HttpResponse := mkHttpResponse {
  StatusCode : Z;
  ContentLength : Z;
  Body : list byte;
  BodyErr : option error
}.

(** What is seen of an execution from outside. *)
Inductive event := EvDo (c : Client) (req : HttpRequest) | EvRead (n : Z) | EvClose.

Context (defaultHTTPClient : Client)
        (Marshal : Request -> outcome (list byte))
        (Unmarshal : list byte -> outcome RPCResponse)
        (new_request : Ctx -> list byte -> list byte -> option error)
        (client_Do : Client -> HttpRequest -> outcome HttpResponse).

Definition log := list event.
Definition emit (e : event) : io log unit := fun l => (l ++ [e], Ok tt).
Definition lift {A} (m : outcome A) : io log A := fun l => (l, m).

(** [defer f()], run whether the rest returns, fails or panics. *)
Definition deferred {A} (e : event) (m : io log A) : io log A := fun l =>
  let '(l', r) := m l in (l' ++ [e], r).

Definition MinRead : Z := 512.

(** [body.Grow(n)] on an empty buffer. *)
Definition grow (n : Z) : outcome unit := if n <? 0 then Panic (PValue (str "bytes.Buffer.Grow: negative count")) else Ok tt.

(** [body.ReadFrom(io.LimitReader(resp.Body, n))]: an error behind the first [n] bytes is
    not met. *)
Definition read_limited (resp : HttpResponse) (n : Z) : io log (list byte) :=
  let taken := take (Z.to_nat n) (Body resp) in
  _ ← emit (EvRead (len taken));
  if n <=? len (Body resp) then mret taken
  else match BodyErr resp with
       | None => mret taken
       | Some e => throw e
       end.

Definition io_wrap {A} (fmt : string) (m : io log A) : io log A := fun l =>
  let '(l', r) := m l in (l', wrap fmt [] r).

(** What follows [defer resp.Body.Close()]. *)
Definition handle_response (limit : Z) (resp : HttpResponse) : io log Result :=
  if (StatusCode resp <? 200) || (300 <=? StatusCode resp)
  then throw (EFmt "unexpected HTTP status: %d %s" [AInt (StatusCode resp)])
  else if limit <? ContentLength resp
  then throw (EFmt "response exceeds %d bytes" [AInt limit])
  else
    _ ← lift (if (0 <? ContentLength resp) && (ContentLength resp <=? limit -! MinRead)
              then grow (ContentLength resp +! MinRead) else Ok tt);
    body ← io_wrap "failed to read response: %w" (read_limited resp (limit +! 1));
    if limit <? len body
    then throw (EFmt "response exceeds %d bytes" [AInt limit])
    else
      rpcResp ← io_wrap "failed to decode response: %w" (lift (Unmarshal body));
      match resp_Error rpcResp with
      | Some e => throw (rpc_error e)
      | None => mret (resp_Result rpcResp)
      end.

Definition content_type : list byte := str "Content-Type".

Definition execute_config (opts : list ExecuteOption) : executeConfig :=
  fold_left (fun cfg opt => opt cfg) opts (mkExecuteConfig defaultHTTPClient ∅ DefaultMaxResponseBytes).

Definition Execute (r : Request) (ctx : Ctx) (url : list byte) (opts : list ExecuteOption) : io log Result :=
  let cfg := execute_config opts in
  if (maxResponseBytes cfg <=? 0) || (maxResponseBytes cfg =? int64_max)
  then throw (EFmt "max response bytes must be between 1 and %d" [AInt (int64_max - 1)])
  else
    data ← io_wrap "failed to encode request: %w" (lift (Marshal r));
    _ ← io_wrap "failed to create request: %w"
          (lift (match new_request ctx MethodPost url with Some e => Err e | None => Ok tt end));
    let h := if bool_decide (Get (headers cfg) content_type = [])
             then Set_ (headers cfg) content_type (str "application/json") else headers cfg in
    let req := mkHttpRequest ctx MethodPost url data h in
    _ ← emit (EvDo (client cfg) req);
    resp ← io_wrap "failed to execute request: %w" (lift (client_Do (client cfg) req));
    deferred EvClose (handle_response (maxResponseBytes cfg) resp).


#[local] Set Default Proof Using "All".

(** ** The branches of [Execute] *)

(** The headers that are sent. *)
Definition sent_headers (cfg : executeConfig) : header :=
  if bool_decide (Get (headers cfg) content_type = [])
  then Set_ (headers cfg) content_type (str "application/json") else headers cfg.

Definition sent_request (cfg : executeConfig) (ctx : Ctx) (url data : list byte) : HttpRequest :=
  mkHttpRequest ctx MethodPost url data (sent_headers cfg).

(** What the body of a response within the limit decodes to. *)
Definition decode_body (body : list byte) : outcome Result :=
  rpcResp ← wrap "failed to decode response: %w" [] (Unmarshal body);
  match resp_Error rpcResp with Some e => Err (rpc_error e) | None => Ok (resp_Result rpcResp) end.

(** The result of a response whose head is accepted. *)
Definition read_result (limit : Z) (resp : HttpResponse) : outcome Result :=
  if limit <? len (Body resp) then Err (EFmt "response exceeds %d bytes" [AInt limit])
  else match BodyErr resp with
       | Some e => Err (EWrap "failed to read response: %w" [] e)
       | None => decode_body (Body resp)
       end.

Definition head_ok (limit : Z) (resp : HttpResponse) : Prop :=
  200 <= StatusCode resp < 300 /\ ContentLength resp <= limit.

Lemma grow_ok limit resp :
  0 < limit < int64_max -> ContentLength resp <= limit ->
  (if (0 <? ContentLength resp) && (ContentLength resp <=? limit -! MinRead)
   then grow (ContentLength resp +! MinRead) else Ok tt) = Ok tt.
Proof.
  unfold MinRead, int64_max. intros Hl Hc. destruct (_ && _) eqn:E; [|done].
  apply andb_true_iff in E as [E1 E2]. apply Z.ltb_lt in E1. apply Z.leb_le in E2. unwrap.
  unfold grow. rewrite (proj2 (Z.ltb_ge _ 0)) by lia. done.
Qed.

Lemma len_take {A} n (l : list A) : 0 <= n -> len (take (Z.to_nat n) l) = Z.min n (len l).
Proof. unfold len. rewrite length_take. lia. Qed.

(** A read of at most [limit + 1] bytes tells apart the bodies within the limit. *)
Lemma handle_response_ok limit resp l :
  0 < limit < int64_max -> head_ok limit resp ->
  handle_response limit resp l =
    (l ++ [EvRead (Z.min (limit + 1) (len (Body resp)))], read_result limit resp).
Proof.
  intros Hl [Hs Hc]. unfold handle_response.
  rewrite (proj2 (Z.ltb_ge _ 200)), (proj2 (Z.leb_gt 300 _)), (proj2 (Z.ltb_ge limit _)) by lia.
  cbn [orb]. unfold mbind, io_bind at 1, lift at 1. rewrite grow_ok by done.
  unfold int64_max in Hl. unwrap. unfold io_bind at 1, io_wrap at 1, read_limited.
  unfold mbind, io_bind at 1, emit. rewrite len_take by lia.
  pose proof (len_nonneg (Body resp)). unfold read_result, decode_body.
  destruct (Z.ltb_spec limit (len (Body resp))) as [Hlt|Hge].
  - rewrite (proj2 (Z.leb_le _ _)) by lia. unfold mret, io_ret. cbn [wrap].
    rewrite len_take by lia. by rewrite (proj2 (Z.ltb_lt limit _)) by lia.
  - rewrite (proj2 (Z.leb_gt _ _)) by lia. destruct (BodyErr resp) as [e|]; [done|].
    unfold mret, io_ret. cbn [wrap].
    rewrite take_ge by (unfold len in *; lia). rewrite (proj2 (Z.ltb_ge limit _)) by lia.
    unfold io_bind, io_wrap, lift. destruct (Unmarshal (Body resp)) as [rpc| | |]; try done.
    cbn. by destruct (resp_Error rpc).
Qed.

Lemma handle_response_bad limit resp l :
  ~ head_ok limit resp -> exists e, handle_response limit resp l = (l, Err e).
Proof.
  intros H. unfold handle_response, head_ok in *.
  destruct (Z.ltb_spec (StatusCode resp) 200); simpl; [by eexists|].
  destruct (Z.leb_spec 300 (StatusCode resp)); simpl; [by eexists|].
  destruct (Z.ltb_spec limit (ContentLength resp)); [by eexists|]. lia.
Qed.

#[global] Instance head_ok_dec limit resp : Decision (head_ok limit resp).
Proof. unfold head_ok. apply _. Defined.

(** [Execute], one branch after the other. *)
Lemma Execute_eq r ctx url opts l :
  let cfg := execute_config opts in
  let limit := maxResponseBytes cfg in
  let req data := sent_request cfg ctx url data in
  limit <= int64_max ->
  Execute r ctx url opts l =
    if (limit <=? 0) || (limit =? int64_max)
    then (l, Err (EFmt "max response bytes must be between 1 and %d" [AInt (int64_max - 1)]))
    else match Marshal r with
    | Ok data =>
        match new_request ctx MethodPost url with
        | Some e => (l, Err (EWrap "failed to create request: %w" [] e))
        | None =>
            let l := l ++ [EvDo (client cfg) (req data)] in
            match client_Do (client cfg) (req data) with
            | Ok resp =>
                if decide (head_ok limit resp)
                then (l ++ [EvRead (Z.min (limit + 1) (len (Body resp))); EvClose], read_result limit resp)
                else (l ++ [EvClose], snd (handle_response limit resp l))
            | Err e => (l, Err (EWrap "failed to execute request: %w" [] e))
            | Panic p => (l, Panic p)
            | NoFuel => (l, NoFuel)
            end
        end
    | Err e => (l, Err (EWrap "failed to encode request: %w" [] e))
    | Panic p => (l, Panic p)
    | NoFuel => (l, NoFuel)
    end.
Proof.
  intros cfg limit req Hmax. unfold Execute. fold cfg. fold limit.
  destruct (_ || _) eqn:E; [done|].
  apply orb_false_iff in E as [E1 E2]. apply Z.leb_gt in E1. apply Z.eqb_neq in E2.
  unfold mbind, io_bind at 1, io_wrap at 1, lift at 1.
  destruct (Marshal r) as [data|e|p|]; try done. cbn [wrap].
  unfold io_bind at 1, io_wrap at 1, lift at 1. destruct (new_request ctx MethodPost url) as [e|]; [done|]. cbn [wrap].
  unfold io_bind at 1, emit at 1. unfold io_bind at 1, io_wrap at 1, lift at 1.
  fold (sent_headers cfg). change (mkHttpRequest ctx MethodPost url data (sent_headers cfg)) with (req data).
  destruct (client_Do (client cfg) (req data)) as [resp|e|p|]; try done. cbn [wrap].
  unfold deferred. case_decide as Hh.
  - rewrite handle_response_ok by (done || lia). by rewrite <-app_assoc.
  - destruct (handle_response_bad limit resp (l ++ [EvDo (client cfg) (req data)]) Hh) as [e ->]. done.
Qed.

(** ** Properties *)

(** C16: [Execute] returns a result exactly when the size limit is in range, the request
    encodes and is sent, the status is 2xx, the declared and the delivered length are both
    within the limit, the body ends without an error, and it decodes to a response without
    a JSON-RPC error; the result is the decoded one. *)
Theorem Execute_ok_iff r ctx url opts l v :
  let cfg := execute_config opts in
  let limit := maxResponseBytes cfg in
  limit <= int64_max ->
  snd (Execute r ctx url opts l) = Ok v <->
  0 < limit < int64_max /\ exists data resp rpc,
    Marshal r = Ok data /\ new_request ctx MethodPost url = None /\
    client_Do (client cfg) (sent_request cfg ctx url data) = Ok resp /\
    200 <= StatusCode resp < 300 /\ ContentLength resp <= limit /\ len (Body resp) <= limit /\
    BodyErr resp = None /\ Unmarshal (Body resp) = Ok rpc /\ resp_Error rpc = None /\ v = resp_Result rpc.
Proof.
  intros cfg limit Hmax. rewrite Execute_eq by done. fold cfg. fold limit.
  destruct (_ || _) eqn:E.
  { split; [done|]. intros [Hl _]. apply orb_true_iff in E as [E|E];
      [apply Z.leb_le in E | apply Z.eqb_eq in E]; lia. }
  apply orb_false_iff in E as [E1 E2]. apply Z.leb_gt in E1. apply Z.eqb_neq in E2.
  destruct (Marshal r) as [data|e|p|]; try (split; [done|]; intros (_ & ? & ? & ? & [=] & _)).
  destruct (new_request ctx MethodPost url) as [e|]; [split; [done|]; intros (_ & ? & ? & ? & _ & [=] & _)|].
  cbv zeta. destruct (client_Do (client cfg) (sent_request cfg ctx url data)) as [resp|e|p|] eqn:Ed;
    try (split; [done|]; intros (_ & ? & ? & ? & [= <-] & _ & H & _); congruence).
  case_decide as Hh; simpl.
  - unfold read_result. destruct Hh as [Hs Hc]. split.
    + destruct (Z.ltb_spec limit (len (Body resp))); [done|].
      destruct (BodyErr resp) eqn:Eb; [done|]. unfold decode_body. intros H0. inv_ok.
      destruct (resp_Error a) eqn:Ee; [done|]. apply ok_inj in H0.
      split; [lia|]. exists data, resp, a. repeat (split; [first [assumption | reflexivity | lia]|]). congruence.
    + intros (_ & data' & resp' & rpc & [= <-] & _ & Hd & _ & _ & Hl & Hb & Hu & He & ->).
      rewrite Ed in Hd. injection Hd as <-.
      rewrite (proj2 (Z.ltb_ge _ _)) by lia. rewrite Hb. unfold decode_body. rewrite Hu. simpl. by rewrite He.
  - split.
    + destruct (handle_response_bad limit resp (l ++ [EvDo (client cfg) (sent_request cfg ctx url data)]) Hh) as [e ->].
      done.
    + intros (_ & data' & resp' & rpc & [= <-] & _ & Hd & Hs & Hc & _).
      rewrite Ed in Hd. injection Hd as <-. by destruct Hh.
Qed.

(** C17: what [Execute] does to the outside, in every case: it sends at most one request;
    every response it receives is closed, last and once; the body is read at most once,
    only after the status and the declared length were accepted, and never beyond one byte
    more than the limit. It panics only if the codec or the client does. *)
Theorem Execute_log r ctx url opts :
  let cfg := execute_config opts in
  let limit := maxResponseBytes cfg in
  limit <= int64_max ->
  match Execute r ctx url opts [] with
  | (evs, res) =>
      (evs = [] /\ forall v, res <> Ok v) \/
      exists data, Marshal r = Ok data /\
        match client_Do (client cfg) (sent_request cfg ctx url data) with
        | Ok resp =>
            if decide (head_ok limit resp)
            then evs = [EvDo (client cfg) (sent_request cfg ctx url data);
                        EvRead (Z.min (limit + 1) (len (Body resp))); EvClose] /\ 0 < limit
            else evs = [EvDo (client cfg) (sent_request cfg ctx url data); EvClose] /\ is_err res
        | Err e => evs = [EvDo (client cfg) (sent_request cfg ctx url data)] /\
                   res = Err (EWrap "failed to execute request: %w" [] e)
        | Panic p => res = Panic p
        | NoFuel => res = NoFuel
        end
  end.
Proof.
  intros cfg limit Hmax. rewrite Execute_eq by done. fold cfg. fold limit.
  destruct (_ || _) eqn:E; [by left|].
  apply orb_false_iff in E as [E1 _]. apply Z.leb_gt in E1.
  destruct (Marshal r) as [data|e|p|]; try by left.
  destruct (new_request ctx MethodPost url) as [e|]; [by left|].
  destruct (client_Do (client cfg) (sent_request cfg ctx url data)) as [resp|e|p|] eqn:Ed; cbv beta zeta iota;
    [case_decide as Hh; cbv beta iota|..]; right; exists data; (split; [done|]); rewrite Ed; try done.
  - by rewrite decide_True.
  - rewrite decide_False by done. split; [done|].
    destruct (handle_response_bad limit resp ([] ++ [EvDo (client cfg) (sent_request cfg ctx url data)]) Hh) as [e He].
    exists e. by rewrite He.
Qed.

(** The options of the package, as data. *)
Inductive option_desc := OHeader (key value : list byte) | OLimit (n : Z) | OClient (c : option Client).

Definition denote (o : option_desc) : ExecuteOption :=
  match o with
  | OHeader k v => WithHeader k v
  | OLimit n => WithMaxResponseBytes n
  | OClient c => WithClient c
  end.

(** The values supplied under a name. *)
Definition supplied (ds : list option_desc) (k : list byte) : list (list byte) :=
  omap (fun d => match d with
                 | OHeader k' v => if decide (same_name k' k) then Some v else None
                 | _ => None
                 end) ds.

Lemma execute_config_values ds cfg k :
  Values (headers (fold_left (fun cfg opt => opt cfg) (map denote ds) cfg)) k =
  Values (headers cfg) k ++ supplied ds k.
Proof.
  revert cfg. induction ds as [|d ds IH]; intros cfg; [by rewrite app_nil_r|].
  cbn [map fold_left]. rewrite IH. unfold supplied. cbn [omap list_omap].
  destruct d as [k' v|n|[c|]]; try done. cbn [denote WithHeader headers].
  rewrite Values_Add. case_decide; [|done]. by rewrite <-app_assoc.
Qed.

(** The headers of the request: under every name the values supplied with [WithHeader],
    under any spelling the server treats alike, in the order of the options; only the
    content type defaults to JSON, when the first value supplied for it is missing or
    empty. *)
Theorem sent_headers_spec ds k :
  let h := sent_headers (execute_config (map denote ds)) in
  Values h k =
    if decide (same_name content_type k) then
      match supplied ds content_type with
      | [] | [] :: _ => [str "application/json"]
      | vs => vs
      end
    else supplied ds k.
Proof.
  intros h. unfold h, sent_headers. rewrite Get_Values.
  assert (forall k, Values (headers (execute_config (map denote ds))) k = supplied ds k) as Hv.
  { intros k'. unfold execute_config. rewrite execute_config_values. unfold Values. simpl.
    by rewrite lookup_empty. }
  rewrite Hv. case_decide as Hk.
  - assert (supplied ds k = supplied ds content_type) as Hs.
    { rewrite <-!Hv. unfold Values. unfold same_name in Hk. by rewrite Hk. }
    destruct (supplied ds content_type) as [|[|b v] vs] eqn:E.
    + rewrite bool_decide_eq_true_2 by done. by rewrite Values_Set, decide_True.
    + rewrite bool_decide_eq_true_2 by done. by rewrite Values_Set, decide_True.
    + rewrite bool_decide_eq_false_2 by done. by rewrite Hv.
  - case_bool_decide; rewrite ?Values_Set, ?decide_False by done; apply Hv.
Qed.

End jsonrpc.

(** ** A client that answers every request with five bytes *)

Definition demo_marshal (r : Request (Any := unit)) : outcome (list byte) := Ok (JSONRPC r ++ Method r).
Definition demo_unmarshal (b : list byte) : outcome (RPCResponse (Result := Z)) :=
  Ok (mkRPCResponse (len b) None).
Definition demo_do (c : nat) (req : HttpRequest (Ctx := unit)) : outcome HttpResponse :=
  Ok (mkHttpResponse 200 5 (str "hello") None).

Definition demo_request : Request (Any := unit) := NewRequest 7 (str "m") [] [].

Definition demo_execute (opts : list (ExecuteOption (Client := nat))) : io (log (Client := nat) (Ctx := unit)) Z :=
  Execute 0%nat demo_marshal demo_unmarshal (fun _ _ _ => None) demo_do demo_request tt (str "http://h") opts.

Lemma Execute_ok_iff_witness : snd (demo_execute [WithMaxResponseBytes 5] []) = Ok 5.
Proof.
  apply Execute_ok_iff; [vm_compute; discriminate|].
  split; [vm_compute; done|].
  eexists _, (mkHttpResponse 200 5 (str "hello") None), (mkRPCResponse 5 None).
  repeat (split; [first [reflexivity | vm_compute; first [discriminate | split; discriminate] | done]|]). reflexivity.
Defined.

Lemma Execute_log_witness :
  exists data, fst (demo_execute [WithMaxResponseBytes 4] []) =
    [EvDo 0%nat (sent_request (execute_config 0%nat [WithMaxResponseBytes 4]) tt (str "http://h") data); EvClose].
Proof.
  destruct (Execute_log 0%nat demo_marshal demo_unmarshal (fun _ _ _ => None) demo_do demo_request tt (str "http://h")
    [WithMaxResponseBytes 4] ltac:(vm_compute; discriminate)) as [[H _]|(data & _ & H)].
  - discriminate H.
  - exists data. exact (proj1 H).
Defined.

End JsonRpc.

(** ** The default client (client.go) *)
Module Transport.

Definition dialTimeout : Z := 5 * 1000000000.
Definition dialKeepAlive : Z := 30 * 1000000000.
Definition tlsHandshakeTime : Z := 5 * 1000000000.
Definition idleConnTimeout : Z := 90 * 1000000000.
Definition expectContinue : Z := 250 * 1000000.
Definition requestTimeout : Z := 30 * 1000000000.
Definition headerTimeout : Z := 10 * 1000000000.
Definition maxIdleConns : Z := 100.
Definition maxIdleConnsPerHost : Z := 16.
Definition maxConnsPerHost : Z := 512.
Definition tlsSessionCacheSize : Z := 100.

(** [tls.VersionTLS12] *)
Definition VersionTLS12 : Z := 0x0303.

Section transport.
(** The values of net/http and crypto/tls that are not plain data: proxy functions, the
    dial method of a dialer with these two settings, session caches of a size. *)
Context {ProxyFun DialFun SessionCache : Type}
        (ProxyFromEnvironment : ProxyFun)
        (Dialer_DialContext : Z -> Z -> DialFun)
        (NewLRUClientSessionCache : Z -> SessionCache).

(** The fields of [tls.Config], [http.Transport] and [http.Client] that are set. *)
Record tls_Config := mkTls { MinVersion : Z; ClientSessionCache : SessionCache }.

Record http_Transport := mkTransport {
  Proxy : ProxyFun;
  DialContext : DialFun;
  ForceAttemptHTTP2 : bool;
  MaxIdleConns : Z;
  MaxIdleConnsPerHost : Z;
  MaxConnsPerHost : Z;
  IdleConnTimeout : Z;
  TLSHandshakeTimeout : Z;
  ExpectContinueTimeout : Z;
  ResponseHeaderTimeout : Z;
  DisableCompression : bool;
  TLSClientConfig : tls_Config
}.

Record http_Client := mkClient { client_Transport : http_Transport; client_Timeout : Z }.

Definition defaultHTTPTransport : http_Transport := {|
  Proxy := ProxyFromEnvironment;
  DialContext := Dialer_DialContext dialTimeout dialKeepAlive;
  ForceAttemptHTTP2 := true;
  MaxIdleConns := maxIdleConns;
  MaxIdleConnsPerHost := maxIdleConnsPerHost;
  MaxConnsPerHost := maxConnsPerHost;
  IdleConnTimeout := idleConnTimeout;
  TLSHandshakeTimeout := tlsHandshakeTime;
  ExpectContinueTimeout := expectContinue;
  ResponseHeaderTimeout := headerTimeout;
  DisableCompression := false;
  TLSClientConfig := mkTls VersionTLS12 (NewLRUClientSessionCache tlsSessionCacheSize)
|}.

(** The client that [Execute] uses unless [WithClient] names another. *)
Definition defaultHTTPClient : http_Client := mkClient defaultHTTPTransport requestTimeout.

(** The phases that have a limit of their own fit in the limit of the whole request, and
    the pool of idle connections holds several full hosts. *)
Lemma default_limits_fit :
  dialTimeout + TLSHandshakeTimeout defaultHTTPTransport + ExpectContinueTimeout defaultHTTPTransport +
    ResponseHeaderTimeout defaultHTTPTransport < client_Timeout defaultHTTPClient /\
  0 < MaxIdleConnsPerHost defaultHTTPTransport <= MaxIdleConns defaultHTTPTransport /\
  MaxIdleConnsPerHost defaultHTTPTransport <= MaxConnsPerHost defaultHTTPTransport.
Proof. vm_compute. repeat split; discriminate. Qed.
End transport.
End Transport.
