(* ===== verification/Runner.v ===== *)
(** Runners as processes, and groups of them. A [Runner] of src/graceful is a function of a
    context; here it is the transition system of its blocking points, so that runners can
    be composed as [WaitContext] and the servers compose them: goroutines of an errgroup,
    over shared memory and a context that is cancelled by the first error. The errgroup
    is an interface; what its documentation promises are the laws. *)

From S2P Require Import Prelude.
#[local] Open Scope Z_scope.

Module Runner.

(** ** Inputs

    What lets a goroutine that is blocked go on. [At n i] is input [i] for the goroutine
    [n] of a group. *)
Inductive input :=
| CtxDone                       (* the context is done *)
| Signal                        (* a signal is delivered *)
| Tick                          (* a tick of a time.Ticker *)
| Receive                       (* a value from a channel *)
| ChanClosed                    (* a closed and drained channel *)
| Return (err : option error)   (* the call in progress returns *)
| Internal                      (* nothing: the goroutine is not blocked *)
| ReqStart | ReqEnd             (* a request comes in, is answered *)
| Pass (d : Z)                  (* time passes *)
| Deadline                      (* a timeout is over *)
| Wait                          (* [group.Wait] returns *)
| At (n : nat) (i : input).

(** The inputs that the outside can repeat for ever ([select] may prefer a tick that is due
    to a context that is done) are charged; bounds on runs count the charges. *)
Fixpoint charge (i : input) : nat :=
  match i with
  | Tick | ReqStart => 1
  | At _ i => charge i
  | _ => 0
  end.

(** A goroutine over shared memory [X]: its states, and its step under a context (whose
    error it sees once the context is done). A step may return from the goroutine. *)
Record runner (X : Type) := mkRunner {
  rstate : Type;
  rstart : rstate;
  rstep : option error -> input -> X -> rstate -> option (X * (rstate + option error))
}.
Arguments mkRunner {X}.
Arguments rstate {X}.
Arguments rstart {X}.
Arguments rstep {X}.

(** ** errgroup *)

(** A group: started with a number of goroutines, told of what each returns; whether it has
    cancelled its context; what [Wait] returns, once it does. *)
Class ErrGroup (G : Type) := {
  eg_new : nat -> G;
  eg_return : option error -> G -> G;
  eg_cancelled : G -> bool;
  eg_wait : G -> option (option error)
}.

(** The first error that is not nil. *)
Fixpoint first_error (results : list (option error)) : option error :=
  match results with
  | [] => None
  | Some e :: _ => Some e
  | None :: results => first_error results
  end.

(** The documentation of errgroup: the first goroutine that returns an error cancels the
    context, and [Wait] returns that error once all goroutines have returned. *)
Class LawfulErrGroup (G : Type) `{ErrGroup G} : Prop := {
  eg_cancelled_spec n h : (length h <= n)%nat ->
    eg_cancelled (fold_left (fun g r => eg_return r g) h (eg_new n)) =
    bool_decide (Exists (fun r => is_Some r) h);
  eg_wait_spec n h : (length h <= n)%nat ->
    eg_wait (fold_left (fun g r => eg_return r g) h (eg_new n)) =
    if bool_decide (length h = n) then Some (first_error h) else None
}.

Definition Canceled : error := ENew "context canceled".

(** ** Groups of runners *)

Section group.
Context {X : Type}.

(** What the goroutines are at: running or returned. *)
Fixpoint states (rs : list (runner X)) : Type :=
  match rs with
  | [] => unit
  | r :: rs => (rstate r + option error) * states rs
  end.

Fixpoint start_all (rs : list (runner X)) : states rs :=
  match rs with
  | [] => tt
  | r :: rs => (inl (rstart r), start_all rs)
  end.

(** A step of goroutine [n], and what it returns if it does. *)
Fixpoint child_step (c : option error) (rs : list (runner X)) (n : nat) (i : input) (x : X)
    : states rs -> option (X * states rs * option (option error)) :=
  match rs, n with
  | [], _ => fun _ => None
  | r :: rs, O => fun '(s, ss) =>
      match s with
      | inr _ => None
      | inl s =>
          match rstep r c i x s with
          | None => None
          | Some (x', inl s') => Some (x', (inl s', ss), None)
          | Some (x', inr res) => Some (x', (inr res, ss), Some res)
          end
      end
  | r :: rs, S n => fun '(s, ss) =>
      match child_step c rs n i x ss with
      | None => None
      | Some (x', ss', res) => Some (x', (s, ss'), res)
      end
  end.

(** What the goroutines that are done have returned, in the order of the goroutines. *)
Fixpoint results (rs : list (runner X)) : states rs -> list (option error) :=
  match rs with
  | [] => fun _ => []
  | r :: rs => fun '(s, ss) => match s with inl _ => results rs ss | inr res => res :: results rs ss end
  end.

Context {G : Type} `{EG : ErrGroup G}.

Record gstate (rs : list (runner X)) := mkG {
  mem : X;
  kids : states rs;
  grp : G;
  own : option error   (* the group has cancelled its context, which was not done before *)
}.
Arguments mkG {rs}.
Arguments mem {rs}.
Arguments kids {rs}.
Arguments grp {rs}.
Arguments own {rs}.

(** The context of the goroutines, derived from the context [c] of the group. *)
Definition child_ctx {rs} (c : option error) (g : gstate rs) : option error :=
  match own g with Some e => Some e | None => c end.

Definition group_start (x0 : X) (rs : list (runner X)) : gstate rs :=
  mkG x0 (start_all rs) (eg_new (length rs)) None.

Definition group_step (post : option error -> option error) (rs : list (runner X))
    (c : option error) (i : input) (g : gstate rs) : option (gstate rs + option error) :=
  match i with
  | At n i =>
      match child_step (child_ctx c g) rs n i (mem g) (kids g) with
      | None => None
      | Some (x, ks, None) => Some (inl (mkG x ks (grp g) (own g)))
      | Some (x, ks, Some res) =>
          let grp' := eg_return res (grp g) in
          let own' := match child_ctx c g with
                      | Some _ => own g
                      | None => if eg_cancelled grp' then Some Canceled else None
                      end in
          Some (inl (mkG x ks grp' own'))
      end
  | Wait =>
      match eg_wait (grp g) with
      | Some err => Some (inr (post err))
      | None => None
      end
  | _ => None
  end.

(** [group, ctx := errgroup.WithContext(ctx)], a [group.Go] per runner, and
    [post(group.Wait())]; the group has memory of its own. *)
Definition group_runner {Y} (post : option error -> option error) (x0 : X) (rs : list (runner X))
    : runner Y := {|
  rstate := gstate rs;
  rstart := group_start x0 rs;
  rstep := fun c i y g =>
    match group_step post rs c i g with
    | Some o => Some (y, o)
    | None => None
    end
|}.
End group.
Arguments mkG {X G rs}.
Arguments mem {X G rs}.
Arguments kids {X G rs}.
Arguments grp {X G rs}.
Arguments own {X G rs}.

(** A function that does nothing but return, at some point. *)
Definition call {X} : runner X := {|
  rstate := unit;
  rstart := tt;
  rstep := fun _ i x _ => match i with Return res => Some (x, inr res) | _ => None end
|}.

(** A runner that makes a call first and returns its error, wrapped. *)
Definition after_call {X} (w : error -> option error) (r : runner X) : runner X := {|
  rstate := option (rstate r);
  rstart := None;
  rstep := fun c i x s =>
    match s, i with
    | None, Return (Some err) => Some (x, inr (w err))
    | None, Return None => Some (x, inl (Some (rstart r)))
    | None, _ => None
    | Some s, i =>
        match rstep r c i x s with
        | Some (x', inl s') => Some (x', inl (Some s'))
        | Some (x', inr res) => Some (x', inr res)
        | None => None
        end
    end
|}.

(** ** Runs *)

(** A runner without shared memory, under a context that may be cancelled at any time, with
    inputs that satisfy [P]. *)
Inductive reach_by (P : input -> Prop) (r : runner unit) : option error -> rstate r + option error -> Prop :=
| reach_start : reach_by P r None (inl (rstart r))
| reach_cancel e s : reach_by P r None s -> reach_by P r (Some e) s
| reach_step c i s o : reach_by P r c (inl s) -> P i -> rstep r c i tt s = Some (tt, o) -> reach_by P r c o.

Abbreviation reach := (reach_by (fun _ => True)).

(** The inputs in order, under one context. *)
Fixpoint exec (r : runner unit) (c : option error) (l : list input) (s : rstate r)
    : option (rstate r + option error) :=
  match l with
  | [] => Some (inl s)
  | i :: l =>
      match rstep r c i tt s with
      | Some (_, inl s') => exec r c l s'
      | Some (_, inr res) => if l is [] then Some (inr res) else None
      | None => None
      end
  end.

Lemma exec_reach (P : input -> Prop) (r : runner unit) c l s o :
  reach_by P r c (inl s) -> Forall P l -> exec r c l s = Some o -> reach_by P r c o.
Proof.
  intros Hr HP. revert s Hr. induction HP as [|i l Hi _ IH]; intros s Hr; simpl.
  - by intros [= <-].
  - destruct (rstep r c i tt s) as [[[] [s'|res]]|] eqn:E; [| |done].
    + apply IH. by eapply reach_step.
    + destruct l; [|done]. intros [= <-]. by eapply reach_step.
Qed.

(** What a run of inputs makes of a runner: where it returns, or that it still waits. *)
Fixpoint drive (r : runner unit) (c : option error) (l : list input) (s : rstate r)
    : option (option error) :=
  match l with
  | [] => None
  | i :: l =>
      match rstep r c i tt s with
      | Some (_, inl s') => drive r c l s'
      | Some (_, inr res) => Some res
      | None => None
      end
  end.

Definition charges (l : list input) : nat := foldr (fun i n => (charge i + n)%nat) O l.

(** From [s] on, under the context [c], every run is bounded but for [k] steps per charge,
    and until the runner has returned some input without a charge is possible: the runner
    returns in every run that does not take charged inputs for ever. *)
Definition settles (k : nat) (r : runner unit) (c : option error) (s : rstate r) : Prop :=
  exists bound, forall l o, exec r c l s = Some o ->
    (length l <= bound + k * charges l)%nat /\
    forall s', o = inl s' -> exists i o', charge i = O /\ rstep r c i tt s' = Some (tt, o').

(** A runner that honours its context: it has a measure that every step decreases once the
    context is done, but for [k] per charge, and it is never stuck then. *)
Definition responsive_by (k : nat) (r : runner unit) : Prop :=
  exists (Inv : rstate r -> Prop) (mu : rstate r -> nat),
    Inv (rstart r) /\
    (forall c i s s', Inv s -> rstep r c i tt s = Some (tt, inl s') -> Inv s') /\
    (forall e i s o, Inv s -> rstep r (Some e) i tt s = Some (tt, o) ->
       (match o with inl s' => mu s' | inr _ => 0 end + 1 <= mu s + k * charge i)%nat) /\
    (forall e s, Inv s -> exists i o, charge i = O /\ rstep r (Some e) i tt s = Some (tt, o)).

Definition responsive (r : runner unit) : Prop := exists k, responsive_by k r.

Lemma responsive_le k1 k2 r : (k1 <= k2)%nat -> responsive_by k1 r -> responsive_by k2 r.
Proof.
  intros Hk (Inv & mu & H0 & Hp & Hd & Hl). exists Inv, mu. split_and!; [done..| |done].
  intros e i s o Hs E. specialize (Hd e i s o Hs E).
  pose proof (Nat.mul_le_mono_r _ _ (charge i) Hk). lia.
Qed.

(** One factor for a list of runners. *)
Lemma responsive_all (rs : list (runner unit)) :
  Forall responsive rs -> exists k, Forall (responsive_by k) rs.
Proof.
  induction 1 as [|r rs [k Hr] _ [k' Hrs]]; [by exists O|]. exists (Nat.max k k'). constructor.
  - eapply responsive_le, Hr. lia.
  - eapply Forall_impl; [exact Hrs|]. intros r'. apply responsive_le. lia.
Qed.

(** ** Bounds from measures *)

Lemma measure_settles k (r : runner unit) c (Inv : rstate r -> Prop) (mu : rstate r -> nat) :
  (forall i s s', Inv s -> rstep r c i tt s = Some (tt, inl s') -> Inv s') ->
  (forall i s o, Inv s -> rstep r c i tt s = Some (tt, o) ->
     (match o with inl s' => mu s' | inr _ => 0 end + 1 <= mu s + k * charge i)%nat) ->
  (forall s, Inv s -> exists i o, charge i = O /\ rstep r c i tt s = Some (tt, o)) ->
  forall s, Inv s -> settles k r c s.
Proof.
  intros Hinv Hdec Hlive s Hs. exists (mu s). intros l o. revert s Hs.
  induction l as [|i l IH]; intros s Hs; simpl.
  - intros [= <-]. split; [lia|]. intros s' [= <-]. by apply Hlive.
  - destruct (rstep r c i tt s) as [[[] [s'|res]]|] eqn:E; [| |done].
    + intros H. pose proof (Hdec _ _ _ Hs E). apply IH in H as [Hl Ho]; [|by eapply Hinv].
      split; [unfold charges in *; simpl in *; lia|done].
    + destruct l as [|j l]; [|done]. intros [= <-]. pose proof (Hdec _ _ _ Hs E).
      split; [unfold charges in *; simpl in *; lia|done].
Qed.

Lemma responsive_reach (r : runner unit) (Inv : rstate r -> Prop) :
  Inv (rstart r) ->
  (forall c i s s', Inv s -> rstep r c i tt s = Some (tt, inl s') -> Inv s') ->
  forall c o, reach r c o -> forall s, o = inl s -> Inv s.
Proof.
  intros H0 Hp c o. induction 1 as [|e s H IH|c i s o H IH _ E]; intros s' Heq.
  - by injection Heq as <-.
  - by apply IH.
  - subst o. eapply Hp; [by apply IH|done].
Qed.

(** A responsive runner settles once its context is done, wherever it is. *)
Lemma responsive_settles k (r : runner unit) e s :
  responsive_by k r -> reach r (Some e) (inl s) -> settles k r (Some e) s.
Proof.
  intros (Inv & mu & H0 & Hp & Hd & Hl) Hr.
  apply (measure_settles _ _ _ Inv mu); eauto. by eapply responsive_reach.
Qed.

(** ** Groups *)

Section group_facts.
Context {X : Type}.

Lemma results_length (rs : list (runner X)) ss : (length (results rs ss) <= length rs)%nat.
Proof.
  induction rs as [|r rs IH]; simpl; [lia|].
  destruct ss as [[s|res] ss]; simpl; specialize (IH ss); lia.
Qed.

Lemma results_start (rs : list (runner X)) : results rs (start_all rs) = [].
Proof. induction rs as [|r rs IH]; simpl; done. Qed.

Lemma child_step_results c (rs : list (runner X)) n i x ss x' ss' res :
  child_step c rs n i x ss = Some (x', ss', res) ->
  results rs ss' ≡ₚ option_list res ++ results rs ss.
Proof.
  revert n ss ss'. induction rs as [|r rs IH]; intros n ss ss'; [done|].
  destruct n as [|n], ss as [s ss]; simpl.
  - destruct s as [s|]; [|done].
    destruct (rstep r c i x s) as [[x1 [s1|e1]]|]; intros [= <- <- <-]; done.
  - destruct (child_step c rs n i x ss) as [[[x1 ss1] r1]|] eqn:E; intros [= <- <- <-].
    apply IH in E. destruct s as [s|e]; [done|]. rewrite E. by rewrite Permutation_middle.
Qed.

(** The step of a group at goroutine [n] is a step of that runner. *)
Lemma child_step_runner c (rs : list (runner X)) n i x ss x' ss' res :
  child_step c rs n i x ss = Some (x', ss', res) ->
  exists r s o, rs !! n = Some r /\ rstep r c i x s = Some (x', o) /\
    res = match o with inl _ => None | inr e => Some e end.
Proof.
  revert n ss ss'. induction rs as [|r rs IH]; intros n ss ss'; [done|].
  destruct n as [|n], ss as [s ss]; simpl.
  - destruct s as [s|]; [|done].
    destruct (rstep r c i x s) as [[x1 [s1|e1]]|] eqn:E; intros [= <- <- <-]; eauto 10.
  - destruct (child_step c rs n i x ss) as [[[x1 ss1] r1]|] eqn:E; intros [= <- <- <-]. by eapply IH.
Qed.

(** Goroutine [n] has not returned. *)
Fixpoint running (rs : list (runner X)) (n : nat) : states rs -> Prop :=
  match rs, n with
  | [], _ => fun _ => False
  | r :: rs, O => fun '(s, _) => match s with inl _ => True | inr _ => False end
  | r :: rs, S n => fun '(_, ss) => running rs n ss
  end.

Lemma running_results (rs : list (runner X)) n ss :
  running rs n ss -> (length (results rs ss) < length rs)%nat.
Proof.
  revert n. induction rs as [|r rs IH]; intros n; simpl; [done|].
  pose proof (results_length rs). destruct n as [|n], ss as [[s|res] ss]; simpl; try done; intros Hr.
  - specialize (H ss). lia.
  - apply IH in Hr. lia.
  - apply IH in Hr. lia.
Qed.

Lemma running_start (rs : list (runner X)) n r :
  rs !! n = Some r ->
  running rs n (start_all rs) /\
  (forall d j y, rstep r d j y (rstart r) = None -> child_step d rs n j y (start_all rs) = None).
Proof.
  revert n. induction rs as [|r' rs IH]; intros [|n]; simpl; [done|done|..].
  - intros [= ->]. split; [done|]. intros d j y E. by rewrite E.
  - intros Hn. destruct (IH _ Hn) as [Hr Hs]. split; [done|]. intros d j y E. by rewrite (Hs _ _ _ E).
Qed.

(** The steps of one goroutine leave the others where they are. *)
Lemma child_step_other c (rs : list (runner X)) n m i x ss x' ss' res :
  child_step c rs n i x ss = Some (x', ss', res) -> n <> m ->
  (running rs m ss -> running rs m ss') /\
  (forall d j y, child_step d rs m j y ss = None -> child_step d rs m j y ss' = None).
Proof.
  revert n m ss ss'. induction rs as [|r rs IH]; intros n m ss ss'; [done|].
  destruct n as [|n], m as [|m], ss as [s ss]; simpl; try done.
  - destruct s as [s|]; [|done].
    destruct (rstep r c i x s) as [[x1 [s1|e1]]|]; [| |done]; intros [= <- <- <-] _;
      (split; [done|]); intros d j y; by destruct (child_step d rs m j y ss) as [[[]]|].
  - destruct (child_step c rs n i x ss) as [[[x1 ss1] r1]|]; [|done]; intros [= <- <- <-] _.
    split; [done|]. intros d j y. destruct s as [s|]; [|done]. by destruct (rstep r d j y s) as [[? [?|?]]|].
  - destruct (child_step c rs n i x ss) as [[[x1 ss1] r1]|] eqn:E; [|done]; intros [= <- <- <-] Hn.
    destruct (IH _ m _ _ E) as [H1 H2]; [congruence|]. split; [done|].
    intros d j y. specialize (H2 d j y).
    destruct (child_step d rs m j y ss) as [[[? ?] ?]|]; [done|]. intros _. by rewrite H2.
Qed.

Context {G : Type} `{EG0 : ErrGroup G} `{EG : !LawfulErrGroup G}.

Lemma first_error_Some h : Exists (fun r => is_Some r) h <-> is_Some (first_error h).
Proof.
  induction h as [|[e|] h IH]; simpl.
  - rewrite Exists_nil. split; [done|by intros [? ?]].
  - split; [by eexists|]. intros _. by apply Exists_cons_hd.
  - rewrite Exists_cons, IH. split; [by intros [[? ?]|]|by right].
Qed.

Lemma first_error_None h : first_error h = None -> Forall (fun r => r = None) h.
Proof. induction h as [|[e|] h IH]; simpl; intros; constructor; auto; done. Qed.

Lemma first_error_elem h e : first_error h = Some e -> Some e ∈ h.
Proof. induction h as [|[e'|] h IH]; simpl; [done|intros ->; left|right; auto]. Qed.

Lemma first_error_app h k e : first_error h = Some e -> first_error (h ++ k) = Some e.
Proof. induction h as [|[e'|] h IH]; simpl; naive_solver. Qed.

(** The group has been told of the results [h], in this order. *)
Definition told {rs : list (runner X)} (g : gstate (G := G) rs) (h : list (option error)) : Prop :=
  grp g = fold_left (fun g r => eg_return r g) h (eg_new (length rs)).

(** The results the group was told of are those of the goroutines; its context is done
    if one of them is an error. *)
Definition group_inv {rs : list (runner X)} (c : option error) (g : gstate (G := G) rs) : Prop :=
  exists h, told g h /\ h ≡ₚ results rs (kids g) /\
    (is_Some (first_error h) -> is_Some (child_ctx c g)) /\
    (is_Some (own g) -> is_Some (first_error h)).

Lemma told_length {rs : list (runner X)} (g : gstate (G := G) rs) h :
  h ≡ₚ results rs (kids g) -> (length h <= length rs)%nat.
Proof. intros ->. apply results_length. Qed.

Lemma group_inv_start x0 (rs : list (runner X)) c : group_inv c (group_start x0 rs).
Proof.
  exists []. split; [done|]. simpl. rewrite results_start. split; [done|]. by split; intros [? ?].
Qed.

Lemma child_ctx_done {rs : list (runner X)} e (g : gstate (G := G) rs) :
  child_ctx (Some e) g = Some (default e (own g)).
Proof. unfold child_ctx. by destruct (own g). Qed.

Lemma group_inv_cancel {rs : list (runner X)} c e (g : gstate rs) : group_inv c g -> group_inv (Some e) g.
Proof.
  intros (h & Ht & Hp & He & Ho). exists h. split_and!; [done|done| |done].
  intros _. rewrite child_ctx_done. by eexists.
Qed.

(** A step of a goroutine: what the group is told, and that a context that is done stays
    as it is. *)
Lemma group_step_inv post (rs : list (runner X)) c i g g' h :
  told g h -> h ≡ₚ results rs (kids g) ->
  group_step post rs c i g = Some (inl g') ->
  exists n j res ks, i = At n j /\
    child_step (child_ctx c g) rs n j (mem g) (kids g) = Some (mem g', ks, res) /\ ks = kids g' /\
    told g' (h ++ option_list res) /\ (h ++ option_list res) ≡ₚ results rs (kids g') /\
    own g' = match child_ctx c g, res with
             | None, Some _ => if bool_decide (is_Some (first_error (h ++ option_list res)))
                               then Some Canceled else None
             | _, _ => own g
             end.
Proof using EG.
  intros Ht Hp. unfold group_step. destruct i as [| | | | | | | | | | | |n j]; try done.
  { by destruct (eg_wait (grp g)). }
  destruct (child_step (child_ctx c g) rs n j (mem g) (kids g)) as [[[x ks] [res|]]|] eqn:E; [| |done].
  - intros [= <-]. exists n, j, (Some res), ks. simpl.
    assert (h ++ [res] ≡ₚ results rs ks) as Hp'.
    { apply child_step_results in E. simpl in E. rewrite E, <-Hp. symmetry. apply Permutation_cons_append. }
    assert (eg_return res (grp g) = fold_left (fun g r => eg_return r g) (h ++ [res]) (eg_new (length rs))) as Ht'
      by (rewrite fold_left_app; simpl; by rewrite <-Ht).
    split_and!; [done|done|done|done|done|].
    destruct (child_ctx c g) eqn:Ec; [done|].
    rewrite Ht', eg_cancelled_spec by (rewrite Hp'; apply results_length).
    by rewrite (bool_decide_ext _ _ (first_error_Some _)).
  - intros [= <-]. exists n, j, None, ks. simpl. rewrite app_nil_r.
    apply child_step_results in E as E'. simpl in E'. rewrite E'.
    split_and!; try done. by destruct (child_ctx c g).
Qed.

Lemma child_ctx_step post (rs : list (runner X)) c i g g' e :
  group_step post rs c i g = Some (inl g') -> child_ctx c g = Some e -> child_ctx c g' = Some e.
Proof.
  unfold group_step. intros H Hc. destruct i as [| | | | | | | | | | | |n j]; try done.
  { by destruct (eg_wait (grp g)). }
  rewrite Hc in H. by destruct (child_step _ rs n j (mem g) (kids g)) as [[[x ks] [res|]]|]; simplify_eq.
Qed.

Lemma group_inv_step post (rs : list (runner X)) c i g g' :
  group_inv c g -> group_step post rs c i g = Some (inl g') -> group_inv c g'.
Proof using EG.
  intros (h & Ht & Hp & He & Ho) H.
  destruct (group_step_inv _ _ _ _ _ _ _ Ht Hp H) as (n & j & res & ks & -> & E & -> & Ht' & Hp' & Hown).
  exists (h ++ option_list res). split; [done|]. split; [done|].
  assert (is_Some (first_error h) -> is_Some (first_error (h ++ option_list res))) as Hmono
    by (intros [e Hh]; exists e; by apply first_error_app).
  destruct (child_ctx c g) as [e|] eqn:Ec.
  - split.
    + intros _. exists e. by eapply child_ctx_step.
    + rewrite Hown. intros Hs. by apply Hmono, Ho.
  - assert (first_error h = None) as Hn.
    { destruct (first_error h) as [e|] eqn:Eh; [|done].
      destruct (He ltac:(by eexists)) as [? ?]. congruence. }
    destruct res as [res|]; simpl in *.
    + case_bool_decide as Hb; unfold child_ctx; rewrite Hown; [by split|].
      split; [done|by intros [? ?]].
    + rewrite app_nil_r in *. rewrite Hn. split; [by intros [? ?]|]. rewrite Hown. rewrite <-Hn. done.
Qed.

(** What a group returns: the first error it was told of, by the results of all its
    goroutines in the order they returned. *)
Lemma group_return post (rs : list (runner X)) c i g res h :
  told g h -> h ≡ₚ results rs (kids g) ->
  group_step post rs c i g = Some (inr res) ->
  i = Wait /\ length h = length rs /\ res = post (first_error h).
Proof using EG.
  intros Ht Hp. unfold group_step. destruct i as [| | | | | | | | | | | |n j]; try done.
  - rewrite Ht, eg_wait_spec by by eapply told_length.
    case_bool_decide; [|done]. by intros [= <-].
  - destruct (child_step _ rs n j (mem g) (kids g)) as [[[x ks] [r|]]|]; done.
Qed.

Lemma group_return_wait post (rs : list (runner X)) c i (g : gstate rs) res :
  group_step post rs c i g = Some (inr res) -> i = Wait.
Proof.
  unfold group_step. destruct i as [| | | | | | | | | | | |n j]; try done.
  by destruct (child_step _ rs n j (mem g) (kids g)) as [[[x ks] [r|]]|].
Qed.

(** The group has an error already: it will return this one. *)
Definition failed {rs : list (runner X)} (g : gstate rs) (e : error) : Prop :=
  exists h, told g h /\ h ≡ₚ results rs (kids g) /\ first_error h = Some e.

Lemma failed_step post (rs : list (runner X)) c i g g' e :
  failed g e -> group_step post rs c i g = Some (inl g') -> failed g' e.
Proof using EG.
  intros (h & Ht & Hp & He) H.
  destruct (group_step_inv _ _ _ _ _ _ _ Ht Hp H) as (n & j & res & ks & _ & _ & _ & Ht' & Hp' & _).
  exists (h ++ option_list res). split_and!; [done|done|by apply first_error_app].
Qed.

Lemma failed_return post (rs : list (runner X)) c i g res e :
  failed g e -> group_step post rs c i g = Some (inr res) -> res = post (Some e).
Proof using EG.
  intros (h & Ht & Hp & He) H.
  destruct (group_return _ _ _ _ _ _ _ Ht Hp H) as (_ & _ & ->). by rewrite He.
Qed.

(** A goroutine that returns the first error of the group. *)
Lemma failed_first post (rs : list (runner X)) c n j g g' e :
  group_inv c g -> child_ctx c g = None ->
  group_step post rs c (At n j) g = Some (inl g') ->
  (exists x ks, child_step (child_ctx c g) rs n j (mem g) (kids g) = Some (x, ks, Some (Some e))) ->
  failed g' e /\ child_ctx c g' = Some Canceled.
Proof using EG.
  intros (h & Ht & Hp & He & Ho) Hc H (x & ks0 & E0).
  destruct (group_step_inv _ _ _ _ _ _ _ Ht Hp H) as (n' & j' & res & ks & [= <- <-] & E & -> & Ht' & Hp' & Hown).
  rewrite E0 in E. injection E as -> -> <-. simpl in *.
  assert (first_error (h ++ [Some e]) = Some e) as Hf.
  { destruct (first_error h) as [e'|] eqn:Eh.
    - destruct (He ltac:(by eexists)) as [? ?]. congruence.
    - clear -Eh. induction h as [|[e'|] h IH]; simpl in *; [done|done|by apply IH]. }
  split; [by exists (h ++ [Some e])|].
  rewrite Hc, Hf, bool_decide_eq_true_2 in Hown by by eexists.
  unfold child_ctx. by rewrite Hown.
Qed.
End group_facts.

Lemma after_call_responsive k w r : responsive_by k r -> responsive_by k (after_call w r).
Proof.
  intros (Inv & mu & H0 & Hp & Hd & Hl).
  exists (fun s => match s with Some s => Inv s | None => True end),
    (fun s => match s with Some s => mu s | None => S (mu (rstart r)) end).
  split; [done|]. split; [|split].
  - intros c i [s|] s' Hs; simpl.
    + destruct (rstep r c i tt s) as [[[] [s1|res]]|] eqn:E; intros [= <-]. by eapply Hp.
    + destruct i as [| | | | |[err|]| | | | | | |]; intros [= <-]. done.
  - intros e i [s|] o Hs; simpl.
    + destruct (rstep r (Some e) i tt s) as [[[] [s1|res]]|] eqn:E; intros [= <-];
        apply Hd in E; simpl in *; (lia || done).
    + destruct i as [| | | | |[err|]| | | | | | |]; intros [= <-]; simpl; lia.
  - intros e [s|] Hs; simpl.
    + destruct (Hl e s Hs) as (i & o & Hc & E). exists i. rewrite E. destruct o; by eexists.
    + by exists (Return None), (inl (Some (rstart r))).
Qed.

(** ** Groups that settle *)

(** What makes the goroutines of a group stop together once their context is done: an
    invariant of memory and goroutines, and a measure. *)
Record stops_together (k : nat) {X} (rs : list (runner X)) (x0 : X)
    (Inv : X -> states rs -> Prop) (mu : X -> states rs -> nat) : Prop := {
  stops_start : Inv x0 (start_all rs);
  stops_step c n i x ss x' ss' res :
    Inv x ss -> child_step c rs n i x ss = Some (x', ss', res) -> Inv x' ss';
  stops_measure e n i x ss x' ss' res :
    Inv x ss -> child_step (Some e) rs n i x ss = Some (x', ss', res) ->
    (mu x' ss' + 1 <= mu x ss + k * charge i)%nat;
  stops_live e x ss :
    Inv x ss -> (length (results rs ss) < length rs)%nat ->
    exists n i o, charge i = O /\ child_step (Some e) rs n i x ss = Some o
}.

Section group_settles.
Context {X : Type} (rs : list (runner X)) (x0 : X) (post : option error -> option error).
Context (k : nat) (Inv : X -> states rs -> Prop) (mu : X -> states rs -> nat).
Context (HS : stops_together k rs x0 Inv mu).
Context {G : Type} `{EG0 : ErrGroup G} `{EG : !LawfulErrGroup G}.

#[local] Abbreviation gr := (group_runner (Y := unit) post x0 rs).

Definition kids_inv (g : gstate (G := G) rs) : Prop :=
  (exists h, told g h /\ h ≡ₚ results rs (kids g)) /\ Inv (mem g) (kids g).

Definition group_measure (g : gstate (G := G) rs) : nat := S (mu (mem g) (kids g)).

Lemma group_rstep c i g o :
  rstep gr c i tt g = Some (tt, o) <-> group_step post rs c i g = Some o.
Proof. simpl. destruct (group_step post rs c i g); naive_solver. Qed.

Lemma kids_inv_start : kids_inv (group_start x0 rs).
Proof using HS.
  split; [|apply (stops_start _ _ _ _ _ HS)]. exists []. split; [done|]. simpl. by rewrite results_start.
Qed.

Lemma kids_inv_step c i g g' :
  kids_inv g -> group_step post rs c i g = Some (inl g') -> kids_inv g'.
Proof using EG HS.
  intros [(h & Ht & Hp) Hi] H.
  destruct (group_step_inv _ _ _ _ _ _ _ Ht Hp H) as (n & j & res & ks & _ & E & -> & Ht' & Hp' & _).
  split; [by eexists|by eapply (stops_step _ _ _ _ _ HS)].
Qed.

Lemma group_dec c i g o e :
  kids_inv g -> child_ctx c g = Some e -> group_step post rs c i g = Some o ->
  (match o with inl g' => group_measure g' | inr _ => 0 end + 1 <= group_measure g + k * charge i)%nat.
Proof using EG HS.
  intros [(h & Ht & Hp) Hi] Hc H. destruct o as [g'|res]; [|unfold group_measure; lia].
  destruct (group_step_inv _ _ _ _ _ _ _ Ht Hp H) as (n & j & res & ks & -> & E & -> & _).
  rewrite Hc in E. pose proof (stops_measure _ _ _ _ _ HS _ _ _ _ _ _ _ _ Hi E).
  unfold group_measure. simpl. lia.
Qed.

Lemma group_live c g e :
  kids_inv g -> child_ctx c g = Some e ->
  exists i o, charge i = O /\ group_step post rs c i g = Some o.
Proof using EG HS.
  intros [(h & Ht & Hp) Hi] Hc.
  destruct (decide (length h = length rs)) as [Hl|Hl].
  - exists Wait, (inr (post (first_error h))). split; [done|]. simpl.
    rewrite Ht, eg_wait_spec by by eapply told_length. by rewrite bool_decide_eq_true_2.
  - pose proof (told_length _ _ Hp) as Hl'. rewrite Hp in Hl, Hl'.
    destruct (stops_live _ _ _ _ _ HS e _ _ Hi) as (n & i & [[x' ks] res] & Hz & E); [lia|].
    exists (At n i). simpl. rewrite Hc, E. destruct res; by eexists.
Qed.

(** A group whose goroutines stop together honours its context... *)
Lemma group_responsive : responsive_by k gr.
Proof using EG HS.
  exists kids_inv, group_measure. split; [apply kids_inv_start|]. split; [|split].
  - intros c i g g' Hg H%group_rstep. by eapply kids_inv_step.
  - intros e i g o Hg H%group_rstep. by eapply group_dec, H; [|apply child_ctx_done].
  - intros e g Hg. destruct (group_live (Some e) g _ Hg (child_ctx_done e g)) as (i & o & Hz & H).
    exists i, o. split; [done|]. by apply group_rstep.
Qed.

Lemma group_reach_inv c o : reach gr c o -> forall g, o = inl g -> kids_inv g /\ group_inv c g.
Proof using EG HS.
  induction 1 as [|e g H IH|c i g o H IH _ E]; intros g' Heq.
  - injection Heq as <-. split; [apply kids_inv_start|apply group_inv_start].
  - destruct (IH _ Heq) as [? ?]. split; [done|by eapply group_inv_cancel].
  - subst o. apply group_rstep in E. destruct (IH _ eq_refl) as [? ?].
    split; [by eapply kids_inv_step|by eapply group_inv_step].
Qed.

(** ... and settles as soon as the context of its goroutines is done, because its own is or
    because one of them has returned an error. *)
Lemma group_settles c g e :
  reach gr c (inl g) -> child_ctx c g = Some e -> settles k gr c g.
Proof using EG HS.
  intros Hr Hc. apply (measure_settles k gr c (fun g => kids_inv g /\ child_ctx c g = Some e) group_measure).
  - intros i s s' [Hs He] H%group_rstep. split; [by eapply kids_inv_step|by eapply child_ctx_step].
  - intros i s o [Hs He] H%group_rstep. by eapply group_dec.
  - intros s [Hs He]. destruct (group_live c s e Hs He) as (i & o & Hz & H).
    exists i, o. split; [done|]. by apply group_rstep.
  - split; [|done]. by eapply group_reach_inv.
Qed.
End group_settles.

(** ** Independent runners *)

Definition mrest {X} (r : runner X) (mu : rstate r -> nat) (o : rstate r + option error) : nat :=
  match o with inl s => mu s | inr _ => O end.

(** Runners without shared memory that honour their contexts one by one do so together. *)
Lemma responsive_together k (rs : list (runner unit)) :
  Forall (responsive_by k) rs -> exists Inv mu, stops_together k rs tt Inv mu.
Proof.
  induction 1 as [|r rs (Inv & mu & H0 & Hp & Hd & Hl) _ (Invs & mus & HS)].
  - exists (fun _ _ => True), (fun _ _ => O). split; simpl; try done. lia.
  - exists (fun x '(s, ss) => match s with inl s => Inv s | inr _ => True end /\ Invs x ss),
      (fun x '(s, ss) => (mrest r mu s + mus x ss)%nat).
    split.
    + split; [done|]. by apply (stops_start _ _ _ _ _ HS).
    + intros c [|n] i [] [s ss] [] [s' ss'] res; simpl.
      * destruct s as [s|]; [|done]. intros [Hs Hss].
        destruct (rstep r c i tt s) as [[[] [s1|e1]]|] eqn:E; intros [= <- <- <-]; split; try done.
        by eapply Hp.
      * intros [Hs Hss]. destruct (child_step c rs n i tt ss) as [[[[] ss1] r1]|] eqn:E; intros [= <- <- <-].
        split; [done|]. by eapply (stops_step _ _ _ _ _ HS).
    + intros e [|n] i [] [s ss] [] [s' ss'] res; simpl.
      * destruct s as [s|]; [|done]. intros [Hs Hss].
        destruct (rstep r (Some e) i tt s) as [[[] [s1|e1]]|] eqn:E; intros [= <- <- <-];
          apply Hd in E; simpl in *; (lia || done).
      * intros [Hs Hss]. destruct (child_step (Some e) rs n i tt ss) as [[[[] ss1] r1]|] eqn:E; intros [= <- <- <-].
        apply (stops_measure _ _ _ _ _ HS) in E; [lia|done].
    + intros e [] [[s|res] ss] [Hs Hss] Hl'; simpl in *.
      * destruct (Hl e s Hs) as (i & o & Hz & E). exists O, i. rewrite E. destruct o; by eexists.
      * destruct (stops_live _ _ _ _ _ HS e tt ss Hss) as (n & i & [[x' ss'] r1] & Hz & E); [lia|].
        exists (S n), i. rewrite E. by eexists.
Qed.
End Runner.

(** ** A reference errgroup *)
Module RefGroup.
Import Runner.

(** The goroutines that have not returned, and the first error. *)
Record egroup := mkGroup { pending : nat; first : option error }.

#[export] Instance egroup_ops : ErrGroup egroup := {|
  eg_new := fun n => mkGroup n None;
  eg_return := fun r g => mkGroup (pred (pending g)) (match first g with Some e => Some e | None => r end);
  eg_cancelled := fun g => bool_decide (is_Some (first g));
  eg_wait := fun g => if bool_decide (pending g = O) then Some (first g) else None
|}.

Lemma egroup_run n h : (length h <= n)%nat ->
  fold_left (fun g r => eg_return r g) h (eg_new n) = mkGroup (n - length h) (first_error h).
Proof.
  induction h as [|r h IH] using rev_ind; intros Hl; simpl in *.
  - by rewrite Nat.sub_0_r.
  - rewrite length_app in *. simpl in *. rewrite fold_left_app, IH by lia. simpl.
    f_equal; [lia|]. clear. induction h as [|[e|] h IH]; simpl; [by destruct r|done|done].
Qed.

#[export] Instance egroup_lawful : LawfulErrGroup egroup.
Proof.
  split; intros n h Hl; rewrite egroup_run by done; simpl.
  - apply bool_decide_ext. by rewrite first_error_Some.
  - rewrite (bool_decide_ext (n - length h = 0)%nat (length h = n)); [done|lia].
Qed.
End RefGroup.
