(* ===== verification/Graceful.v ===== *)
(** Runners and their supervision (src/graceful): [WaitContext] and [Signals]
    (graceful.go), [Ticker] and its logger (tiker.go), [Worker] and its logger (worker.go),
    [ScheduleRunner] (cron.go). [Supervise] has the same runners side by side.

    A runner that waits is modelled on the sequence of things that happen to it: it
    returns at some point of the sequence, or is still waiting when the sequence ends.
    errgroup, eris and the cron library are parameters. *)

From S2P Require Import Prelude Effects Eris Runner.
Import Io Eris Runner(first_error).
#[local] Open Scope Z_scope.

(** ** graceful.go *)
Module Graceful.

Definition ErrShutdownBySignal : error := ENew "shutdown by signal".
Definition ErrTickerFailure : error := ENew "ticker failure".
Definition ErrWorkerFailure : error := ENew "worker failure".

(** Where a runner is when its input is used up. *)
Inductive progress := Waiting | Returned (err : option error).

(** What [Signals] selects on. *)
Inductive signal_event := SigReceived | SigCtxDone (err : error).

Definition Signals (events : list signal_event) : progress :=
  match events with
  | [] => Waiting
  | SigReceived :: _ => Returned (Some ErrShutdownBySignal)
  | SigCtxDone err :: _ => Returned (Some err)
  end.

Section wait.
Context `{ER : Eris}.

(** errgroup: the result of [Wait] when the goroutines of the group returned these errors
    in this order. *)
Context (group_Wait : list (option error) -> option error).

(** [WaitContext], given the results of the runners in the order they return. *)
Definition WaitContext (results : list (option error)) : option error :=
  let err := group_Wait results in
  if Is err ErrShutdownBySignal then None else Wrap err "shutting down with error".

(** [WaitContext] over an errgroup: nil exactly when every runner returned nil or the first
    error was the shutdown signal (wrapped or not); so after a signal the errors of the
    other runners, those of a failed shutdown included, are not reported, and in every
    other case the first error can be found in the result with [eris.Is]. *)
Theorem WaitContext_result `{!LawfulEris} results :
  (forall rs, group_Wait rs = first_error rs) ->
  (WaitContext results = None <->
     first_error results = None \/ Is (first_error results) ErrShutdownBySignal = true) /\
  (forall err, WaitContext results = Some err ->
     exists e, first_error results = Some e /\ forall target, Is (Some e) target = true -> Is (Some err) target = true).
Proof.
  intros Hg. unfold WaitContext. rewrite Hg.
  destruct (Is (first_error results) ErrShutdownBySignal) eqn:E.
  - split; [|done]. split; [by right|done].
  - rewrite Wrap_None_iff. split; [naive_solver|].
    intros err Herr. destruct (first_error results) as [e|]; [|by rewrite Wrap_nil in Herr].
    destruct (Wrap_err e "shutting down with error") as (e' & He' & Hw).
    rewrite He' in Herr. injection Herr as <-. by exists e.
Qed.
End wait.

(** ** tiker.go and worker.go *)

Section options.
(** The loggers of zerolog; [Nop] is the one that writes nothing. *)
Context {Logger : Type} (Nop : Logger).

Record ticker := mkTicker { ticker_logger : Logger }.
Definition TickerOpt := ticker -> ticker.

(** A nil logger is ignored. *)
Definition WithTickerLogger (logger : option Logger) : TickerOpt := fun t =>
  match logger with Some logger => mkTicker logger | None => t end.

Definition ticker_config (opts : list TickerOpt) : ticker :=
  fold_left (fun t opt => opt t) opts (mkTicker Nop).

Record worker := mkWorker { worker_logger : Logger }.
Definition WorkerOpt := worker -> worker.

Definition WithWorkerLogger (logger : option Logger) : WorkerOpt := fun w =>
  match logger with Some logger => mkWorker logger | None => w end.

Definition worker_config (opts : list WorkerOpt) : worker :=
  fold_left (fun w opt => opt w) opts (mkWorker Nop).

(** The loop writes to the last logger that is not nil, and to none if there is no such. *)
Lemma loggers_last ls :
  ticker_logger (ticker_config (map WithTickerLogger ls)) = default Nop (last (omap id ls)) /\
  worker_logger (worker_config (map WithWorkerLogger ls)) = default Nop (last (omap id ls)).
Proof.
  unfold ticker_config, worker_config. induction ls as [|o ls IH] using rev_ind; [done|].
  rewrite !map_app, !fold_left_app, omap_app. destruct o as [l|]; simpl.
  - by rewrite last_snoc.
  - by rewrite app_nil_r.
Qed.
End options.

Section runners.
Context `{ER : Eris} {T : Type}.

(** What happens at the [select] of a ticker: a tick, with what the runner returns for
    it, or the end of the context. *)
Inductive tick_event := Tick (res : option error) | TickCtxDone (err : error).

(** What the loops log. *)
Inductive message := Started | Stopped | RunnerFailed (err : error).

Definition logger := list message.

(** The [for]/[select] loop of the returned runner. *)
Fixpoint ticker_loop (events : list tick_event) (l : logger) : logger * progress :=
  match events with
  | [] => (l, Waiting)
  | TickCtxDone err :: _ => (l, Returned (Some err))
  | Tick res :: events =>
      match res with
      | None => ticker_loop events l
      | Some err =>
          if Is (Some err) ErrTickerFailure then (l, Returned (Some err))
          else ticker_loop events (l ++ [RunnerFailed err])
      end
  end.

(** [Ticker]: the test of the interval when it is built, then its runner. *)
Definition Ticker (interval : Z) : outcome (list tick_event -> logger * progress) :=
  if interval <=? 0 then Panic (PValue (str "interval must be greater than zero"))
  else Ok (fun events =>
    let '(l, p) := ticker_loop events [Started] in
    match p with
    | Waiting => (l, p)
    | Returned _ => (l ++ [Stopped], p)
    end).

(** A channel that is received from: the values sent, and whether it is closed behind
    them. [ctxDone] is the state of the context. *)
Fixpoint worker_loop (runner : T -> option error) (values : list T) (closed : bool) (l : logger)
    : logger * progress :=
  match values with
  | [] => (l, if closed then Returned None else Waiting)
  | v :: values =>
      match runner v with
      | None => worker_loop runner values closed l
      | Some err =>
          if Is (Some err) ErrWorkerFailure then (l, Returned (Some err))
          else worker_loop runner values closed (l ++ [RunnerFailed err])
      end
  end.

Definition Worker (runner : bool -> T -> option error) (ctxDone : bool) (values : list T) (closed : bool)
    : logger * progress :=
  worker_loop (runner ctxDone) values closed [].

(** A run of results none of which stops the loop. *)
Definition survives (fatal : error) (r : option error) : Prop :=
  match r with Some err => Is (Some err) fatal = false | None => True end.

Definition failures (rs : list (option error)) : logger :=
  omap (option_map RunnerFailed) rs.

Lemma ticker_loop_app rs events l :
  Forall (survives ErrTickerFailure) rs ->
  ticker_loop (map Tick rs ++ events) l = ticker_loop events (l ++ failures rs).
Proof.
  intros H. revert l. induction H as [|[err|] rs Hr _ IH]; intros l; simpl.
  - by rewrite app_nil_r.
  - simpl in Hr. rewrite Hr, IH. by rewrite <-app_assoc.
  - apply IH.
Qed.

(** Every sequence is a run of ticks that survive, and then the end of the sequence or
    the event that returns. *)
Lemma ticker_split events :
  exists rs tl, events = map Tick rs ++ tl /\ Forall (survives ErrTickerFailure) rs /\
    (tl = [] \/ (exists err rest, tl = TickCtxDone err :: rest) \/
     exists err rest, tl = Tick (Some err) :: rest /\ Is (Some err) ErrTickerFailure = true).
Proof.
  induction events as [|ev events (rs & tl & -> & Hrs & Htl)].
  - exists [], []. split; [done|split; [done|by left]].
  - destruct ev as [r|err].
    + destruct (match r with Some err => Is (Some err) ErrTickerFailure | None => false end) eqn:E.
      * destruct r as [err|]; [|done]. exists [], (Tick (Some err) :: map Tick rs ++ tl).
        split; [done|split; [done|]]. right; right. by exists err, (map Tick rs ++ tl).
      * exists (r :: rs), tl. split; [done|split; [constructor; [by destruct r|done]|done]].
    + exists [], (TickCtxDone err :: map Tick rs ++ tl). split; [done|split; [done|]].
      right; left. by exists err, (map Tick rs ++ tl).
Qed.

(** C22: a ticker of positive interval: it returns only when its context is done, with the
    context's error, or when its runner returned an error that is a ticker failure, with
    that error as it is; every other error of the runner is logged, once and in order, and
    the ticker goes on. Nothing is wrapped in the ticker failure: that is for the runner to
    do (the documentation says that the ticker does it for any error of its handler). A
    ticker of another interval cannot be built. *)
Theorem Ticker_run interval :
  (interval <= 0 -> exists p, Ticker interval = Panic p) /\
  (0 < interval -> exists run, Ticker interval = Ok run /\
     forall rs, Forall (survives ErrTickerFailure) rs ->
       run (map Tick rs) = (Started :: failures rs, Waiting) /\
       (forall err rest, run (map Tick rs ++ TickCtxDone err :: rest) =
          (Started :: failures rs ++ [Stopped], Returned (Some err))) /\
       (forall err rest, Is (Some err) ErrTickerFailure = true ->
          run (map Tick rs ++ Tick (Some err) :: rest) =
          (Started :: failures rs ++ [Stopped], Returned (Some err)))).
Proof.
  unfold Ticker. split; intros Hi.
  - rewrite (proj2 (Z.leb_le _ _)) by lia. by eexists.
  - rewrite (proj2 (Z.leb_gt _ _)) by lia. eexists. split; [done|]. intros rs Hrs. cbv beta.
    split; [|split].
    + rewrite <-(app_nil_r (map Tick rs)), ticker_loop_app by done. done.
    + intros err rest. rewrite ticker_loop_app by done. done.
    + intros err rest He. rewrite ticker_loop_app by done. cbn [ticker_loop]. by rewrite He.
Qed.

Lemma worker_loop_app runner pre values closed l :
  Forall (fun v => survives ErrWorkerFailure (runner v)) pre ->
  worker_loop runner (pre ++ values) closed l =
  worker_loop runner values closed (l ++ failures (map runner pre)).
Proof.
  intros H. revert l. induction H as [|v pre Hv _ IH]; intros l; simpl.
  - by rewrite app_nil_r.
  - destruct (runner v) as [err|]; simpl in *; [|apply IH].
    rewrite Hv, IH. by rewrite <-app_assoc.
Qed.

(** A worker handles the values of its channel in order until the channel is closed,
    which returns nil, or the handler's error is a worker failure, which is returned;
    other errors are only logged. It never looks at its context: with an open channel it
    waits for the next value even when the context is done. *)
Theorem Worker_run (runner : bool -> T -> option error) ctxDone values closed :
  (Forall (fun v => survives ErrWorkerFailure (runner ctxDone v)) values ->
     Worker runner ctxDone values closed =
       (failures (map (runner ctxDone) values), if closed then Returned None else Waiting)) /\
  (forall pre v post err, values = pre ++ v :: post ->
     Forall (fun v => survives ErrWorkerFailure (runner ctxDone v)) pre ->
     runner ctxDone v = Some err -> Is (Some err) ErrWorkerFailure = true ->
     Worker runner ctxDone values closed =
       (failures (map (runner ctxDone) pre), Returned (Some err))).
Proof.
  unfold Worker. split.
  - intros H. rewrite <-(app_nil_r values), worker_loop_app by done. by rewrite app_nil_r.
  - intros pre v post err -> Hpre Hv He. rewrite worker_loop_app by done. simpl. by rewrite Hv, He.
Qed.
End runners.

(** ** cron.go *)

Section cron.
(** The cron library's parser of schedules. *)
Context (parse_spec : list byte -> option error).

Record Task := mkTask { Spec : list byte }.

(** The entries that are registered; a schedule that does not parse panics. *)
Fixpoint add_tasks (tasks : list Task) (entries : list Task) : outcome (list Task) :=
  match tasks with
  | [] => Ok entries
  | task :: tasks =>
      match parse_spec (Spec task) with
      | Some err => Panic (PValue (Spec task))
      | None => add_tasks tasks (entries ++ [task])
      end
  end.

(** The cron runs from [Start] to [Stop], which is deferred: until the context is done. *)
Definition ScheduleRunner (tasks : list Task) : outcome (option error -> progress) :=
  _ ← add_tasks tasks [];
  Ok (fun ctxErr => match ctxErr with Some err => Returned (Some err) | None => Waiting end).

Lemma add_tasks_ok tasks entries :
  Forall (fun t => parse_spec (Spec t) = None) tasks -> add_tasks tasks entries = Ok (entries ++ tasks).
Proof.
  intros H. revert entries. induction H as [|t ts Ht _ IH]; intros entries; simpl.
  - by rewrite app_nil_r.
  - by rewrite Ht, IH, <-app_assoc.
Qed.
End cron.

(** ** Concrete runs over the reference errors *)
Import Eris.Reference.

Lemma Ticker_run_witness :
  exists run, Ticker 5 = Ok run /\
    run [Tick (Some (ENew "x")); Tick None; TickCtxDone (ENew "context canceled")] =
    ([Started; RunnerFailed (ENew "x"); Stopped], Returned (Some (ENew "context canceled"))).
Proof.
  destruct (proj2 (Ticker_run 5) ltac:(lia)) as (run & Hrun & H). exists run. split; [done|].
  apply (H [Some (ENew "x"); None]). by repeat constructor.
Defined.

Lemma Worker_run_witness :
  Worker (fun _ v => if v =? 3 then Some ErrWorkerFailure else None) true [1; 2] false = ([], Waiting).
Proof. refine (proj1 (Worker_run _ true [1; 2] false) _). by repeat constructor. Defined.
End Graceful.
