(* ===== verification/Grpc.v ===== *)
(** The servers of src/graceful: the options of the gRPC server and its unary
    interceptors (grpc.go), and the options of the HTTP server (http.go). The library
    function that chains interceptors is a parameter with its documented behaviour: the
    first interceptor is the outermost. *)

From S2P Require Import Prelude Effects.
Import Io.
#[local] Open Scope Z_scope.

Module Grpc.

Section grpc.
(** The requests and responses of the services. *)
Context {Req Resp : Type}.

(** What is logged. The duration is not modelled. *)
Inductive message :=
| IncomingRequest (method : list byte)
| RecoverAfterPanic (r : panic)
| Other (m : list byte).

Definition log := list message.

Definition UnaryHandler := Req -> io log Resp.

(** [info.FullMethod] is the only field of the server info that is read. *)
Definition UnaryServerInterceptor := Req -> list byte -> UnaryHandler -> io log Resp.

Record grpcSrv := mkGrpcSrv {
  port : list byte;
  connectionTimeout : Z;
  unaryInterceptors : list UnaryServerInterceptor
}.

Definition GRPCOpt := grpcSrv -> grpcSrv.

Definition defaultGRPCPort : list byte := str "50051".
Definition defaultConnectionTimeout : Z := 120 * 1000000000.

Definition WithGRPCPort (p : list byte) : GRPCOpt := fun g =>
  mkGrpcSrv p (connectionTimeout g) (unaryInterceptors g).

Definition WithConnectionTimeout (timeout : Z) : GRPCOpt := fun g =>
  mkGrpcSrv (port g) timeout (unaryInterceptors g).

Definition WithUnaryInterceptor (i : UnaryServerInterceptor) : GRPCOpt := fun g =>
  mkGrpcSrv (port g) (connectionTimeout g) (unaryInterceptors g ++ [i]).

(** [status.Error(codes.Internal, "internal error")] *)
Definition internal_error : error := EFmt "rpc error: code = Internal desc = internal error" [].

(** The deferred [recover]: a panic is logged and replaced by the internal error. *)
Definition recovery : UnaryServerInterceptor := fun req _ handler l =>
  match handler req l with
  | (l', Panic r) => (l' ++ [RecoverAfterPanic r], Err internal_error)
  | res => res
  end.

Definition WithPanicReocvery : GRPCOpt := fun g =>
  mkGrpcSrv (port g) (connectionTimeout g) (unaryInterceptors g ++ [recovery]).

(** The deferred log entry is written however the handler ends. *)
Definition request_logger : UnaryServerInterceptor := fun req method handler l =>
  let '(l', res) := handler req l in (l' ++ [IncomingRequest method], res).

Definition WithRequestLogger : GRPCOpt := fun g =>
  mkGrpcSrv (port g) (connectionTimeout g) (unaryInterceptors g ++ [request_logger]).

(** The configuration of [GRPCRunner]. *)
Definition grpc_config (opts : list GRPCOpt) : grpcSrv :=
  fold_left (fun g opt => opt g) opts (mkGrpcSrv defaultGRPCPort defaultConnectionTimeout []).

(** [grpc.ChainUnaryInterceptor], code of the grpc library. *)
Context (chain : list UnaryServerInterceptor -> UnaryServerInterceptor).

(** A request to a server that [GRPCRunner] built, for a method with this handler. *)
Definition serve (opts : list GRPCOpt) (req : Req) (method : list byte) (handler : UnaryHandler)
    : io log Resp :=
  chain (unaryInterceptors (grpc_config opts)) req method handler.

(** The options of the package, as data. *)
Inductive option_desc :=
| OPort (p : list byte)
| OTimeout (t : Z)
| OUser (i : UnaryServerInterceptor)
| ORecovery
| OLogger.

Definition denote (o : option_desc) : GRPCOpt :=
  match o with
  | OPort p => WithGRPCPort p
  | OTimeout t => WithConnectionTimeout t
  | OUser i => WithUnaryInterceptor i
  | ORecovery => WithPanicReocvery
  | OLogger => WithRequestLogger
  end.

Definition interceptor_of (o : option_desc) : list UnaryServerInterceptor :=
  match o with
  | OPort _ | OTimeout _ => []
  | OUser i => [i]
  | ORecovery => [recovery]
  | OLogger => [request_logger]
  end.

Lemma grpc_config_interceptors ds g :
  unaryInterceptors (fold_left (fun g opt => opt g) (map denote ds) g) =
  unaryInterceptors g ++ concat (map interceptor_of ds).
Proof.
  revert g. induction ds as [|d ds IH]; intros g; simpl; [by rewrite app_nil_r|].
  rewrite IH. destruct d; simpl; by rewrite <-?app_assoc.
Qed.

(** A user interceptor is the only one with code of its own. *)
Definition builtin (d : option_desc) : Prop := match d with OUser _ => False | _ => True end.

Definition is_recovery (d : option_desc) : Prop := match d with ORecovery => True | _ => False end.
Definition is_logger (d : option_desc) : Z := match d with OLogger => 1 | _ => 0 end.

#[global] Instance is_recovery_dec d : Decision (is_recovery d).
Proof. destruct d; simpl; apply _. Defined.

(** The log entries of a request, by kind. *)
Definition requests (l : log) : Z :=
  sum_map (fun e => match e with IncomingRequest _ => 1 | _ => 0 end) l.
Definition recovered (l : log) : list panic :=
  omap (fun e => match e with RecoverAfterPanic p => Some p | _ => None end) l.

(** What a stack of built-in interceptors makes of the outcome of the handler. *)
Definition guarded (ds : list option_desc) (r : outcome Resp) : outcome Resp :=
  match r with
  | Panic p => if decide (Exists is_recovery ds) then Err internal_error else Panic p
  | r => r
  end.

Definition guarded_panics (ds : list option_desc) (r : outcome Resp) : list panic :=
  match r with
  | Panic p => if decide (Exists is_recovery ds) then [p] else []
  | _ => []
  end.

(** The documentation of the library. *)
Context (chain_nil : forall req m h, chain [] req m h = h req)
        (chain_cons : forall i rest req m h, chain (i :: rest) req m h = i req m (fun r => chain rest r m h)).
#[local] Set Default Proof Using "All".

(** A recovery with only built-in interceptors outside of it stops every panic. *)
Lemma chain_no_panic ds tl req m h l p :
  Forall builtin ds ->
  snd (chain (concat (map interceptor_of ds) ++ recovery :: tl) req m h l) <> Panic p.
Proof.
  intros H. revert req l. induction H as [|d ds Hd _ IH]; intros req l; simpl.
  - rewrite chain_cons. unfold recovery. destruct (chain tl req m h l) as [l' []]; done.
  - destruct d as [?|?|i| |]; simpl; [apply IH|apply IH|done|..]; rewrite chain_cons.
    + unfold recovery at 1. destruct (chain _ req m h l) as [l' []]; done.
    + unfold request_logger at 1. specialize (IH req l). destruct (chain _ req m h l) as [l' r]. exact IH.
Qed.

Lemma recovered_app l1 l2 : recovered (l1 ++ l2) = recovered l1 ++ recovered l2.
Proof. apply omap_app. Qed.

Lemma guarded_cons d ds r :
  ~ is_recovery d -> guarded (d :: ds) r = guarded ds r /\ guarded_panics (d :: ds) r = guarded_panics ds r.
Proof.
  intros Hd. destruct r as [|e|p|]; try done. simpl.
  assert (Exists is_recovery (d :: ds) <-> Exists is_recovery ds) as He by (rewrite Exists_cons; tauto).
  by rewrite !(decide_ext _ _ _ _ He).
Qed.

Lemma chain_builtin ds req m h l l' r :
  Forall builtin ds -> h req l = (l', r) ->
  exists new,
    chain (concat (map interceptor_of ds)) req m h l = (l' ++ new, guarded ds r) /\
    requests new = sum_map is_logger ds /\ recovered new = guarded_panics ds r.
Proof.
  intros H Hh. induction H as [|d ds Hd _ (new & Hc & Hq & Hr)].
  - exists []. simpl. rewrite chain_nil, Hh, app_nil_r. split; [|split; [done|]]; by destruct r.
  - destruct d as [?|?|i| |]; simpl.
    + exists new. destruct (guarded_cons (OPort p) ds r) as [-> ->]; [tauto|done].
    + exists new. destruct (guarded_cons (OTimeout t) ds r) as [-> ->]; [tauto|done].
    + done.
    + rewrite chain_cons. unfold recovery. rewrite Hc. rewrite Z.add_0_l.
      destruct r as [v|e|p|]; [by exists new|by exists new| |by exists new].
      unfold guarded, guarded_panics in *.
      assert (Exists is_recovery (ORecovery :: ds)) as He by (left; exact I).
      repeat case_decide; try tauto; [by exists new|].
      exists (new ++ [RecoverAfterPanic p]). rewrite app_assoc, recovered_app, Hr.
      unfold requests in *. rewrite sum_map_app, Hq. simpl. split; [done|split; [lia|done]].
    + rewrite chain_cons. unfold request_logger. rewrite Hc.
      destruct (guarded_cons OLogger ds r) as [-> ->]; [tauto|].
      exists (new ++ [IncomingRequest m]). rewrite app_assoc, recovered_app, Hr, app_nil_r.
      unfold requests in *. rewrite sum_map_app, Hq. simpl. split; [done|split; [lia|done]].
Qed.

(** C18: the guarantee of [WithPanicReocvery]: no request panics the server when every
    interceptor outside the recovery is one of the package; and with only interceptors of
    the package, in any order and number, a panicking handler's client gets the internal
    error, without the panic value, the panic is logged exactly once, every request logger
    logs the request once, panic or not, and results and errors of handlers pass
    unchanged. *)
Theorem serve_recovers ds req m h l :
  (forall pre post p, ds = pre ++ ORecovery :: post -> Forall builtin pre ->
     snd (serve (map denote ds) req m h l) <> Panic p) /\
  (Forall builtin ds -> forall l' r, h req l = (l', r) ->
     exists new,
       serve (map denote ds) req m h l = (l' ++ new, guarded ds r) /\
       requests new = sum_map is_logger ds /\ recovered new = guarded_panics ds r).
Proof.
  unfold serve, grpc_config. rewrite grpc_config_interceptors. split.
  - intros pre post p -> Hpre. simpl. rewrite map_app, concat_app. simpl. by apply chain_no_panic.
  - intros Hds l' r Hh. by apply chain_builtin.
Qed.
End grpc.

(** The chaining the library documents. *)
Fixpoint nest {Req Resp} (its : list (UnaryServerInterceptor (Req := Req) (Resp := Resp)))
    : UnaryServerInterceptor :=
  fun req m h =>
    match its with
    | [] => h req
    | i :: its => i req m (fun r => nest its r m h)
    end.

Lemma serve_recovers_witness :
  snd (serve nest (map denote [OLogger; OPort (str "9090"); ORecovery; OUser (fun req _ h => h (req + 1))])
    1 (str "/svc/Get") (fun req l => (l, if req =? 2 then Panic PNilDeref else Ok req)) []) <> Panic PNilDeref.
Proof.
  refine (proj1 (serve_recovers nest _ _ _ _ _ _ _) [OLogger; OPort (str "9090")] _ PNilDeref eq_refl _);
    [reflexivity|reflexivity|by repeat constructor].
Defined.
End Grpc.

(** ** http.go *)
Module Http.

Record server := mkServer { Port : list byte; ReadTimeout : Z; WriteTimeout : Z }.

Definition ServerOpt := server -> server.

Definition defaultHTTPPort : list byte := str "8080".
Definition defaultReadTimeout : Z := 60 * 1000000000.
Definition defaultWriteTimeout : Z := 60 * 1000000000.

Definition WithPort (p : list byte) : ServerOpt := fun s => mkServer p (ReadTimeout s) (WriteTimeout s).
Definition WithReadTimeout (t : Z) : ServerOpt := fun s => mkServer (Port s) t (WriteTimeout s).
Definition WithWriteTimeout (t : Z) : ServerOpt := fun s => mkServer (Port s) (ReadTimeout s) t.

(** The configuration of [Server]. *)
Definition server_config (opts : list ServerOpt) : server :=
  fold_left (fun s opt => opt s) opts (mkServer defaultHTTPPort defaultReadTimeout defaultWriteTimeout).
End Http.
