(* ===== verification/Supervise.v ===== *)
(** The runners of src/graceful as processes, and their supervision: [WaitContext] and
    [Signals] (graceful.go), [Ticker] (tiker.go), [Worker] (worker.go), [ScheduleRunner]
    (cron.go), the HTTP server (http.go) and the gRPC server (grpc.go), composed with the
    groups of [Runner]. net/http's server is defined as far as the source uses it; the
    gRPC server is a parameter with the behaviour it documents. *)

From S2P Require Import Prelude Effects Eris Url Runner Graceful Grpc.
Import Runner Eris.
#[local] Open Scope Z_scope.

Module Supervise.
Import Graceful(ErrShutdownBySignal, ErrTickerFailure, ErrWorkerFailure, Task, add_tasks).

(** ** Combinators for the goroutines of the source *)

(** [err := r(); return f(err)] *)
Definition returning {X} (f : option error -> option error) (r : runner X) : runner X := {|
  rstate := rstate r;
  rstart := rstart r;
  rstep := fun c i x s =>
    match rstep r c i x s with
    | Some (x', inr res) => Some (x', inr (f res))
    | o => o
    end
|}.

(** [<-ctx.Done(); r()] *)
Definition on_done {X} (r : runner X) : runner X := {|
  rstate := option (rstate r);
  rstart := None;
  rstep := fun c i x s =>
    match s with
    | None =>
        match i, c with
        | CtxDone, Some _ => Some (x, inl (Some (rstart r)))
        | _, _ => None
        end
    | Some s =>
        match rstep r c i x s with
        | Some (x', inl s') => Some (x', inl (Some s'))
        | Some (x', inr res) => Some (x', inr res)
        | None => None
        end
    end
|}.

(** ** The runners *)

(** graceful.go: the [select] on a signal and the context. *)
Definition Signals : runner unit := {|
  rstate := unit;
  rstart := tt;
  rstep := fun c i x _ =>
    match i, c with
    | Signal, _ => Some (x, inr (Some ErrShutdownBySignal))
    | CtxDone, Some err => Some (x, inr (Some err))
    | _, _ => None
    end
|}.

Section supervise.
Context `{ER : Eris}.

(** tiker.go: at the [select], or in the runner that is called for a tick, which sees the
    same context. *)
Definition ticker_runner (r : runner unit) : runner unit := {|
  rstate := option (rstate r);
  rstart := None;
  rstep := fun c i x s =>
    match s with
    | None =>
        match i, c with
        | CtxDone, Some err => Some (x, inr (Some err))
        | Tick, _ => Some (x, inl (Some (rstart r)))
        | _, _ => None
        end
    | Some s =>
        match rstep r c i x s with
        | Some (x', inl s') => Some (x', inl (Some s'))
        | Some (x', inr None) => Some (x', inl None)
        | Some (x', inr (Some err)) =>
            if Is (Some err) ErrTickerFailure then Some (x', inr (Some err)) else Some (x', inl None)
        | None => None
        end
    end
|}.

Definition Ticker (interval : Z) (r : runner unit) : outcome (runner unit) :=
  if interval <=? 0 then Panic (PValue (str "interval must be greater than zero")) else Ok (ticker_runner r).

(** worker.go: at the receive of [range ch], or in the handler. *)
Inductive worker_pc := AtReceive | InHandler.

Definition Worker : runner unit := {|
  rstate := worker_pc;
  rstart := AtReceive;
  rstep := fun _ i x s =>
    match s, i with
    | AtReceive, Receive => Some (x, inl InHandler)
    | AtReceive, ChanClosed => Some (x, inr None)
    | InHandler, Return None => Some (x, inl AtReceive)
    | InHandler, Return (Some err) =>
        if Is (Some err) ErrWorkerFailure then Some (x, inr (Some err)) else Some (x, inl AtReceive)
    | _, _ => None
    end
|}.

(** cron.go: the cron runs in goroutines of its own between [Start] and [Stop]. *)
Definition schedule_runner : runner unit := {|
  rstate := unit;
  rstart := tt;
  rstep := fun c i x _ =>
    match i, c with
    | CtxDone, Some err => Some (x, inr (Some err))
    | _, _ => None
    end
|}.

Definition ScheduleRunner (parse_spec : list byte -> option error) (tasks : list Task)
    : outcome (runner unit) :=
  _ ← add_tasks parse_spec tasks [];
  Ok schedule_runner.

Context {G : Type} `{EG0 : ErrGroup G}.

(** graceful.go: what is made of the error of [group.Wait]. *)
Definition wait_result (err : option error) : option error :=
  if Is err ErrShutdownBySignal then None else Wrap err "shutting down with error".

(** The derived context of [context.WithCancel] is cancelled when [WaitContext] returns. *)
Definition WaitContext (runners : list (runner unit)) : runner unit :=
  group_runner (G := G) wait_result tt runners.

(** ** http.go *)

Definition ErrServerClosed : error := ENew "http: Server closed".
Definition DeadlineExceeded : error := ENew "context deadline exceeded".

(** 5 seconds, in nanoseconds. *)
Definition shutdownTimeout : Z := 5 * 1000000000.

(** net/http: what [ListenAndServe] and [Shutdown] of a server share. *)
Record http_server := mkHttp { inShutdown : bool; requests : nat }.

(** Before the test of [inShutdown], in [net.Listen], in the accept loop. *)
Inductive serve_pc := LEntry | LListen | LServing.

(** [ListenAndServe] returns [ErrServerClosed] as soon as [Shutdown] is called, and otherwise
    only the errors of listening and accepting, none of which [eris.Is] takes for this one;
    requests are handled while it serves and end any time. *)
Definition ListenAndServe : runner http_server := {|
  rstate := serve_pc;
  rstart := LEntry;
  rstep := fun _ i x s =>
    match s, i with
    | LEntry, Internal =>
        if inShutdown x then Some (x, inr (Some ErrServerClosed)) else Some (x, inl LListen)
    | LListen, Return (Some err) =>
        if Is (Some err) ErrServerClosed then None else Some (x, inr (Some err))
    | LListen, Return None => Some (x, inl LServing)
    | LServing, Internal => if inShutdown x then Some (x, inr (Some ErrServerClosed)) else None
    | LServing, Return (Some err) =>
        if inShutdown x || Is (Some err) ErrServerClosed then None else Some (x, inr (Some err))
    | LServing, ReqStart =>
        if inShutdown x then None else Some (mkHttp (inShutdown x) (S (requests x)), inl LServing)
    | LServing, ReqEnd =>
        match requests x with
        | O => None
        | S n => Some (mkHttp (inShutdown x) n, inl LServing)
        end
    | _, _ => None
    end
|}.

(** Before [inShutdown] is set and the listeners are closed; polling, with the time left in
    its context. *)
Inductive shutdown_pc := SEntry | SPoll (rem : Z).

(** [Shutdown(ctx)] waits until no request is in progress and returns the error of closing
    the listeners, or the error of its context. *)
Definition Shutdown (timeout : Z) : runner http_server := {|
  rstate := shutdown_pc;
  rstart := SEntry;
  rstep := fun _ i x s =>
    match s, i with
    | SEntry, Internal => Some (mkHttp true (requests x), inl (SPoll timeout))
    | SPoll rem, ReqEnd =>
        match requests x with
        | O => None
        | S n => Some (mkHttp (inShutdown x) n, inl (SPoll rem))
        end
    | SPoll rem, Pass d =>
        if (0 <? d) && (d <=? rem) then Some (x, inl (SPoll (rem - d))) else None
    | SPoll rem, Deadline => if rem <=? 0 then Some (x, inr (Some DeadlineExceeded)) else None
    | SPoll rem, Return err =>
        match requests x with O => Some (x, inr err) | S _ => None end
    | _, _ => None
    end
|}.

(** [if eris.Is(err, http.ErrServerClosed) { return nil }; return err] *)
Definition serve_result (err : option error) : option error :=
  if Is err ErrServerClosed then None else err.

(** The fields of [http.Server] that are set, besides the handler. *)
Record http_params := mkParams {
  Addr : list byte; p_ReadTimeout : Z; p_WriteTimeout : Z; p_MaxHeaderBytes : Z
}.

(** [http.DefaultMaxHeaderBytes] *)
Definition DefaultMaxHeaderBytes : Z := Z.shiftl 1 20.

Definition Server (opts : list Http.ServerOpt) : http_params * runner unit :=
  let cfg := Http.server_config opts in
  (mkParams (Url.JoinHostPort (str "0.0.0.0") (Http.Port cfg)) (Http.ReadTimeout cfg) (Http.WriteTimeout cfg)
     DefaultMaxHeaderBytes,
   group_runner (G := G) (fun err => err) (mkHttp false 0)
     [returning serve_result ListenAndServe; on_done (returning (fun err => err) (Shutdown shutdownTimeout))]).

(** ** grpc.go *)

(** The server of the grpc library: [NewServer] with the two options the source sets, the
    registration of the services, [Serve] and [GracefulStop]. *)
Context {Req Resp GX : Type}.
Context (NewServer : Z -> list (Grpc.UnaryServerInterceptor (Req := Req) (Resp := Resp)) -> GX).
Context (AttachToGRPC : GX -> GX) (grpc_Serve grpc_GracefulStop : runner GX).

(** The goroutines of the server. *)
Definition grpc_goroutines : list (runner GX) :=
  [returning (fun err => err) grpc_Serve; on_done (returning (fun _ => None) grpc_GracefulStop)].

(** The address it listens on, and the runner. *)
Definition GRPCRunner (opts : list Grpc.GRPCOpt) : list byte * runner unit :=
  let cfg := Grpc.grpc_config opts in
  let grpcServer := AttachToGRPC (NewServer (Grpc.connectionTimeout cfg) (Grpc.unaryInterceptors cfg)) in
  (Url.JoinHostPort [] (Grpc.port cfg),
   after_call (fun err => Wrap (Some err) "failed to listen")
     (group_runner (G := G) (fun err => err) grpcServer grpc_goroutines)).
End supervise.

(** ** The same runners as in [Graceful]

    Driven by the events of one run, the processes return what the functions of [Graceful]
    return. *)
Definition returned (p : Graceful.progress) : option (option error) :=
  match p with Graceful.Waiting => None | Graceful.Returned err => Some err end.

Section refines.
Context `{ER : Eris}.

(** One tick, with a run of the runner that uses up the inputs [l]. *)
Lemma ticker_tick (r : runner unit) c l rest res :
  exec r c l (rstart r) = Some (inr res) ->
  drive (ticker_runner r) c (Tick :: l ++ rest) None =
  if match res with Some err => Is (Some err) ErrTickerFailure | None => false end
  then Some res else drive (ticker_runner r) c rest None.
Proof.
  simpl. generalize (rstart r). induction l as [|i l IH]; intros s; simpl; [done|].
  destruct (rstep r c i tt s) as [[[] [s'|res']]|]; [apply IH| |done].
  destruct l; [|done]. intros [= ->]. destruct res as [err|]; simpl; [|done].
  by destruct (Is (Some err) ErrTickerFailure).
Qed.

(** The inputs of an event, where [run res] are the inputs of a run of the runner that
    returns [res]. *)
Definition tick_inputs (run : option error -> list input) (ev : Graceful.tick_event) : list input :=
  match ev with
  | Graceful.Tick res => Tick :: run res
  | Graceful.TickCtxDone _ => [CtxDone]
  end.

Lemma ticker_refines (r : runner unit) c run events l :
  (forall res, exec r c (run res) (rstart r) = Some (inr res)) ->
  Forall (fun ev => match ev with Graceful.TickCtxDone err => c = Some err | _ => True end) events ->
  drive (ticker_runner r) c (flat_map (tick_inputs run) events) None =
  returned (snd (Graceful.ticker_loop events l)).
Proof.
  intros Hrun H. revert l. induction H as [|[res|err] evs Hc _ IH]; intros l; [done| |].
  - cbn [flat_map tick_inputs app Graceful.ticker_loop].
    rewrite (ticker_tick r c (run res) _ res) by apply Hrun.
    destruct res as [err|]; [|apply IH]. destruct (Is (Some err) ErrTickerFailure); [done|apply IH].
  - simpl. by subst c.
Qed.

Definition value_inputs {T} (runner : T -> option error) (v : T) : list input := [Receive; Return (runner v)].

Lemma worker_refines {T} c (runner : T -> option error) values (closed : bool) l :
  drive Worker c (flat_map (value_inputs runner) values ++ (if closed then [ChanClosed] else [])) AtReceive =
  returned (snd (Graceful.worker_loop runner values closed l)).
Proof.
  revert l. induction values as [|v vs IH]; intros l; simpl; [by destruct closed|].
  destruct (runner v) as [err|]; simpl; [|apply IH].
  destruct (Is (Some err) ErrWorkerFailure); [done|apply IH].
Qed.
End refines.

Definition signal_input (ev : Graceful.signal_event) : input :=
  match ev with Graceful.SigReceived => Signal | Graceful.SigCtxDone _ => CtxDone end.

Lemma signals_refines c events :
  Forall (fun ev => match ev with Graceful.SigCtxDone err => c = Some err | _ => True end) events ->
  drive Signals c (map signal_input events) tt = returned (Graceful.Signals events).
Proof. intros [|[|err] evs Hc _]; simpl; [done|by destruct c|by subst c]. Qed.

(** ** Runners that honour their context *)

Section honour.
Context `{ER : Eris}.

(** A measure for a runner without an invariant. *)
Ltac measured mu :=
  exists O, (fun _ => True), mu; split; [done|split; [done|split]];
  [intros e i s o _ | intros e s _].

Lemma Signals_responsive : responsive Signals.
Proof.
  measured (fun _ : rstate Signals => 1%nat).
  - destruct i; simpl; intros [= <-]; lia.
  - by exists CtxDone, (inr (Some e)).
Qed.

Lemma schedule_responsive : responsive schedule_runner.
Proof.
  measured (fun _ : rstate schedule_runner => 1%nat).
  - destruct i; simpl; intros [= <-]; lia.
  - by exists CtxDone, (inr (Some e)).
Qed.

(** A function that just returns honours its context. *)
Lemma call_responsive : responsive call.
Proof.
  measured (fun _ : rstate (X := unit) call => 1%nat).
  - destruct i; simpl; intros [= <-]; lia.
  - by exists (Return None), (inr None).
Qed.

(** The select of a ticker may prefer a tick to the context; every tick it takes after the
    context is done is charged with a whole run of its runner. *)
Lemma ticker_responsive r : responsive r -> responsive (ticker_runner r).
Proof.
  intros (k & Inv & mu & H0 & Hp & Hd & Hl). exists (k + mu (rstart r) + 2)%nat,
    (fun s : rstate (ticker_runner r) => match s with None => True | Some s => Inv s end),
    (fun s : rstate (ticker_runner r) => match s with None => 1 | Some s => 2 + mu s end)%nat.
  split_and!; [done|..].
  - intros c i [s|] s' Hs; simpl.
    + destruct (rstep r c i tt s) as [[[] [s1|[err|]]]|] eqn:E;
        [|destruct (Is (Some err) ErrTickerFailure)|..]; intros [= <-]; try done. by eapply Hp.
    + destruct i, c; intros [= <-]; done.
  - intros e i [s|] o Hs; simpl.
    + destruct (rstep r (Some e) i tt s) as [[[] [s1|[err|]]]|] eqn:E; [..|done];
        apply (Hd e i s _ Hs) in E; [|destruct (Is (Some err) ErrTickerFailure)|];
        intros [= <-]; simpl in *; nia.
    + destruct i; intros [= <-]; simpl; lia.
  - intros e [s|] Hs; simpl.
    + destruct (Hl e s Hs) as (i & o & Hz & E). exists i. rewrite E.
      destruct o as [s'|[err|]]; [|destruct (Is (Some err) ErrTickerFailure)|]; by eexists.
    + by exists CtxDone, (inr (Some e)).
Qed.

Lemma Ticker_responsive interval r t : Ticker interval r = Ok t -> responsive r -> responsive t.
Proof. unfold Ticker. destruct (interval <=? 0); intros [= <-]. apply ticker_responsive. Qed.

Lemma ScheduleRunner_responsive parse tasks r : ScheduleRunner parse tasks = Ok r -> responsive r.
Proof.
  unfold ScheduleRunner. destruct (add_tasks parse tasks []); intros [= <-]. apply schedule_responsive.
Qed.
End honour.

(** ** Servers *)

(** What a server promises of the call that serves and of the call that stops it: both make
    progress that a measure bounds; the call that stops always goes on, and once it has
    returned, or at the latest then, the call that serves goes on too. *)
Class Stoppable {X} (serve stop : runner X) := {
  factor : nat;   (* steps per request that comes in *)
  phi : X -> nat;
  mu_serve : rstate serve -> nat;
  mu_stop : rstate stop -> nat;
  stopped : X -> Prop;
  inv_stop : X -> rstate stop -> Prop;
  stop_start x : inv_stop x (rstart stop);
  serve_step c i x s x' o : rstep serve c i x s = Some (x', o) ->
    (phi x' + mrest serve mu_serve o + 1 <= phi x + mu_serve s + factor * charge i)%nat /\
    (stopped x -> stopped x') /\ (forall t, inv_stop x t -> inv_stop x' t);
  stop_step c i x t x' o : inv_stop x t -> rstep stop c i x t = Some (x', o) ->
    (phi x' + mrest stop mu_stop o + 1 <= phi x + mu_stop t + factor * charge i)%nat /\
    (stopped x -> stopped x') /\
    match o with inl t' => inv_stop x' t' | inr _ => stopped x' end;
  serve_live c x s : stopped x -> exists i o, charge i = O /\ rstep serve c i x s = Some o;
  stop_live c x t : inv_stop x t -> exists i o, charge i = O /\ rstep stop c i x t = Some o
}.

Section servers.
Context {X : Type} {serve stop : runner X} {Srv : Stoppable serve stop}.
Context (f g : option error -> option error).

#[local] Abbreviation goroutines := [returning f serve; on_done (returning g stop)].

Definition server_inv (x : X) (ss : states goroutines) : Prop :=
  match snd ss with
  | (inl None, _) => True
  | (inl (Some t), _) => inv_stop (serve := serve) (stop := stop) x t
  | (inr _, _) => stopped (serve := serve) (stop := stop) x
  end.

Definition server_measure (x : X) (ss : states goroutines) : nat :=
  (phi (serve := serve) (stop := stop) x + match fst ss with inl s => mu_serve (serve := serve) (stop := stop) s | inr _ => 0 end
   + match snd ss with
     | (inl None, _) => S (mu_stop (serve := serve) (stop := stop) (rstart stop))
     | (inl (Some t), _) => mu_stop (serve := serve) (stop := stop) t
     | (inr _, _) => 0
     end)%nat.

(** Such a server, with one goroutine that serves and one that stops it when the context is
    done, comes to an end. *)
Ltac child_cases Hi :=
  try match goal with
  | |- context [rstep serve ?c ?i ?x ?s] =>
      let E := fresh "E" in destruct (rstep serve c i x s) as [[? [?|?]]|] eqn:E; [apply serve_step in E..|]
  | |- context [rstep stop ?c ?i ?x ?t] =>
      let E := fresh "E" in destruct (rstep stop c i x t) as [[? [?|?]]|] eqn:E; [apply stop_step in E; [|exact Hi]..|]
  end.

Lemma server_stops x0 :
  stops_together (factor (serve := serve) (stop := stop)) goroutines x0 server_inv server_measure.
Proof.
  split.
  - done.
  - intros c [|[|n]] i x [[s|r1] [[[t|]|r2] []]] x' ss' res Hi; unfold server_inv in *; simpl in *; try done;
      child_cases Hi; try (intros [= <- <- <-]; simpl in *; naive_solver);
      destruct i, c; intros [= <- <- <-]; apply stop_start.
  - intros e [|[|n]] i x [[s|r1] [[[t|]|r2] []]] x' ss' res Hi;
      unfold server_inv, server_measure in *; simpl in *; try done;
      child_cases Hi; try (intros [= <- <- <-]; simpl in *; naive_solver lia);
      destruct i; intros [= <- <- <-]; simpl; lia.
  - intros e x [s [[[t|]|r2] []]] Hi Hl; unfold server_inv in *; simpl in *.
    + destruct (stop_live (Some e) x t Hi) as (i & [x' [t'|r]] & Hz & E);
        exists 1%nat, i; simpl; rewrite E; by eexists.
    + exists 1%nat, CtxDone. by eexists.
    + destruct s as [s|r1]; simpl in Hl; [|lia].
      destruct (serve_live (Some e) x s Hi) as (i & [x' [s'|r]] & Hz & E);
        exists O, i; simpl; rewrite E; by eexists.
Qed.
End servers.

(** net/http: the poll of [Shutdown] stops by its deadline at the latest. *)
#[export] Instance http_stoppable `{ER : Eris} timeout : 0 <= timeout -> Stoppable ListenAndServe (Shutdown timeout).
Proof.
  intros Ht. refine {|
    factor := 2;
    phi := requests;
    mu_serve := fun s : rstate ListenAndServe => match s with LEntry => 3 | LListen => 2 | LServing => 1 end%nat;
    mu_stop := fun t : rstate (Shutdown timeout) =>
      match t with SEntry => 2 + Z.to_nat timeout | SPoll rem => 1 + Z.to_nat rem end%nat;
    stopped := fun x => inShutdown x = true;
    inv_stop := fun x (t : rstate (Shutdown timeout)) =>
      match t with SEntry => True | SPoll rem => inShutdown x = true /\ 0 <= rem end
  |}.
  - done.
  - intros c i [sd n] [] x' o; destruct i as [| | | | |[err|]| | | | | | |]; simpl; try done;
      try (case_match; intros [= <- <-]; simpl; split_and!; (lia || done || by intros []));
      try (intros [= <- <-]; simpl; split_and!; (lia || done || by intros [])).
  - intros c i [sd n] [|rem] x' o Hi; destruct i as [| | | | |err| | | |d| | |]; simpl in *; try done.
    + intros [= <- <-]. simpl. split_and!; (lia || done).
    + destruct n; intros [= <- <-]. simpl. destruct Hi. split_and!; (lia || done).
    + destruct n; intros [= <- <-]. simpl. destruct Hi. split_and!; (lia || done).
    + destruct (Z.ltb_spec 0 d), (Z.leb_spec d rem); simpl; intros [= <- <-]. simpl.
      destruct Hi. split_and!; (lia || done).
    + destruct (Z.leb_spec rem 0); intros [= <- <-]. simpl. destruct Hi. split_and!; (lia || done).
  - intros c [sd n] [] Hs; simpl in *; subst sd.
    + by exists Internal; eexists.
    + by exists (Return None); eexists.
    + by exists Internal; eexists.
  - intros c [sd n] [|rem] Hi; simpl in *.
    + by exists Internal; eexists.
    + destruct (Z.leb_spec rem 0) as [Hr|Hr].
      * exists Deadline. destruct (Z.leb_spec rem 0); [by eexists|lia].
      * exists (Pass rem). destruct (Z.ltb_spec 0 rem), (Z.leb_spec rem rem); simpl; (by eexists) || lia.
Defined.

Lemma shutdownTimeout_pos : 0 <= shutdownTimeout.
Proof. unfold shutdownTimeout. lia. Qed.

#[global] Opaque shutdownTimeout.

Section supervision.
Context `{ER : Eris} `{LER : !LawfulEris}.
Context {G : Type} `{EG0 : ErrGroup G} `{EG : !LawfulErrGroup G}.

Lemma Server_responsive opts : responsive_by 2 (snd (Server (G := G) opts)).
Proof using EG LER.
  eapply group_responsive; [apply (server_stops (Srv := http_stoppable _ shutdownTimeout_pos))|done].
Qed.

(** ** WaitContext *)

(** A runner has returned an error. *)
Definition a_runner_failed {rs : list (runner unit)} (g : gstate (G := G) rs) : Prop :=
  Exists (fun r => is_Some r) (results rs (kids g)).

Lemma failed_child_ctx {rs : list (runner unit)} c (g : gstate (G := G) rs) :
  group_inv c g -> is_Some c \/ a_runner_failed g -> is_Some (child_ctx c g).
Proof.
  intros (h & _ & Hp & He & _) [[e ->]|Hf].
  - rewrite child_ctx_done. by eexists.
  - apply He, first_error_Some. unfold a_runner_failed in Hf. by rewrite <-Hp in Hf.
Qed.

Lemma WaitContext_settles (rs : list (runner unit)) :
  Forall responsive rs -> exists k, forall c g,
    reach (WaitContext (G := G) rs) c (inl g) -> is_Some c \/ a_runner_failed g ->
    settles k (WaitContext (G := G) rs) c g.
Proof using EG LER.
  intros [k Hrs]%responsive_all. exists k. intros c g Hr Hf.
  destruct (responsive_together _ _ Hrs) as (Inv & mu & HS).
  destruct (group_reach_inv _ _ _ _ _ _ HS _ _ Hr g eq_refl) as [_ Hg].
  destruct (failed_child_ctx _ _ Hg Hf) as [e He]. by eapply group_settles.
Qed.

(** No responsiveness is needed for what a group keeps track of. *)
Lemma WaitContext_inv P (rs : list (runner unit)) c o :
  reach_by P (WaitContext (G := G) rs) c o -> forall g, o = inl g -> group_inv c g.
Proof using EG LER.
  induction 1 as [|e g H IH|c i g o H IH _ E]; intros g' Heq.
  - injection Heq as <-. apply group_inv_start.
  - by eapply group_inv_cancel, IH.
  - subst o. apply group_rstep in E. by eapply group_inv_step, E; apply IH.
Qed.

(** C21: what [WaitContext] returns, from any state [g] of its runners. When it returns, all
    runners have returned, and the result is made of the first error in the order [h] in
    which they did (the documentation says that it returns once one of them fails or a
    signal arrives: that only cancels the context of the others). If a signal is delivered to [Signals] before any runner has failed and
    before the context is done, every run from there that returns, returns nil, whatever
    the other runners and the context do. *)
Theorem WaitContext_returns (rs : list (runner unit)) c g :
  reach (WaitContext (G := G) rs) c (inl g) ->
  (forall i res, rstep (WaitContext (G := G) rs) c i tt g = Some (tt, inr res) ->
     exists h, h ≡ₚ results rs (kids g) /\ length h = length rs /\
       res = Graceful.WaitContext first_error h) /\
  (forall k g', rs !! k = Some Signals -> c = None -> ~ a_runner_failed g ->
     rstep (WaitContext (G := G) rs) c (At k Signal) tt g = Some (tt, inl g') ->
     forall c' l res, exec (WaitContext (G := G) rs) c' l g' = Some (inr res) -> res = None).
Proof using EG LER.
  intros Hr. pose proof (WaitContext_inv _ _ _ _ Hr g eq_refl) as Hg. split.
  - intros i res H%group_rstep. destruct Hg as (h & Ht & Hp & _). exists h.
    destruct (group_return _ _ _ _ _ _ _ Ht Hp H) as (_ & Hl & ->). split_and!; done.
  - intros k g' Hk -> Hnf H%group_rstep c' l res.
    assert (child_ctx None g = None) as Hc.
    { unfold child_ctx. destruct (own g) as [e|] eqn:Eo; [|done]. destruct Hnf.
      destruct Hg as (h & _ & Hp & _ & Ho). unfold a_runner_failed. rewrite <-Hp.
      apply first_error_Some, Ho. by rewrite Eo. }
    assert (failed g' ErrShutdownBySignal) as Hf.
    { eapply failed_first; [done|done|exact H|]. simpl in H.
      destruct (child_step (child_ctx None g) rs k Signal (mem g) (kids g)) as [[[x ks] r]|] eqn:E; [|done].
      apply child_step_runner in E as E'. destruct E' as (r0 & s & o & Hr0 & Es & ->).
      rewrite Hk in Hr0. injection Hr0 as <-. simpl in Es. injection Es as <- <-. eauto. }
    clear H Hr Hg Hnf Hc. revert g' Hf. induction l as [|i l IH]; intros g' Hf; simpl; [done|].
    destruct (group_step wait_result rs c' i g') as [[g1|res']|] eqn:E; [| |done].
    + apply IH. by eapply failed_step.
    + destruct l; [|done]. intros [= <-]. eapply failed_return in E; [|done]. rewrite E.
      unfold wait_result. by rewrite Is_self.
Qed.

(** C19: shutdown terminates. Take runners that honour their contexts: once the context is
    done or a runner has returned an error, every run of [WaitContext] is bounded but for a
    fixed number of steps per tick that a ticker still takes and per request that still
    comes in, and until it has returned some step that is neither is possible. Such runners
    are the signal handler, every schedule that can be built, every ticker that can be
    built over a runner that honours its context itself (a ticker stops only between two
    calls of its runner), every HTTP server, and every gRPC server whose library keeps its
    promise on [GracefulStop]. *)
Theorem WaitContext_terminates :
  (forall rs : list (runner unit), Forall responsive rs -> exists k, forall c g,
     reach (WaitContext (G := G) rs) c (inl g) -> is_Some c \/ a_runner_failed g ->
     settles k (WaitContext (G := G) rs) c g) /\
  responsive Signals /\
  (forall interval r t, Ticker interval r = Ok t -> responsive r -> responsive t) /\
  (forall parse tasks r, ScheduleRunner parse tasks = Ok r -> responsive r) /\
  (forall opts, responsive (snd (Server (G := G) opts))) /\
  (forall Req Resp GX NewServer Attach (serve stop : runner GX) opts, Stoppable serve stop ->
     responsive (snd (GRPCRunner (G := G) (Req := Req) (Resp := Resp) NewServer Attach serve stop opts))).
Proof using EG LER.
  split_and!.
  - apply WaitContext_settles.
  - apply Signals_responsive.
  - apply Ticker_responsive.
  - apply ScheduleRunner_responsive.
  - intros opts. eexists. apply Server_responsive.
  - intros. eexists. apply after_call_responsive. eapply group_responsive; [|done].
    apply (server_stops (fun err => err)).
Qed.

(** The price of that condition: a ticker over a runner that ignores its context. As long
    as the call of the runner that is in progress does not return, nothing else moves the
    ticker. *)
Lemma ticker_waits c i r (s : rstate r) o :
  rstep (ticker_runner r) c i tt (Some s) = Some (tt, o) ->
  exists o', rstep r c i tt s = Some (tt, o') /\ forall s', o' = inl s' -> o = inl (Some s').
Proof.
  simpl. destruct (rstep r c i tt s) as [[[] [s1|[err|]]]|]; [| | |done].
  - intros [= <-]. eexists. split; [done|]. by intros s' [= ->].
  - intros _. eexists. by split.
  - intros _. eexists. by split.
Qed.

(** Goroutine [k] has not returned, and only its channel can move it. *)
Definition idle_at (rs : list (runner unit)) (k : nat) (g : gstate (G := G) rs) : Prop :=
  running rs k (kids g) /\
  forall d i x, i <> Receive -> i <> ChanClosed -> child_step d rs k i x (kids g) = None.

(** C32: a worker ignores its context. As long as nothing comes in on the channel of one
    worker, and the channel is not closed, [WaitContext] does not return, whatever the
    other runners do and whether or not a signal is delivered or the context cancelled. *)
Theorem idle_Worker_blocks (rs : list (runner unit)) k c o :
  rs !! k = Some Worker ->
  reach_by (fun i => i <> At k Receive /\ i <> At k ChanClosed) (WaitContext (G := G) rs) c o ->
  exists g, o = inl g.
Proof using EG LER.
  intros Hk Hr.
  cut ((exists g, o = inl g) /\ forall g, o = inl g -> idle_at rs k g); [by intros [? _]|].
  induction Hr as [|e s _ IH|c i g o Hr [_ IH] [Hi1 Hi2] E].
  - split; [by eexists|]. intros g [= <-]. destruct (running_start _ _ _ Hk) as [H1 H2].
    split; [done|]. intros d i x ? ?. apply H2. by destruct i.
  - done.
  - apply group_rstep in E. specialize (IH g eq_refl). destruct IH as [Hrun Hidle].
    destruct o as [g'|res].
    + split; [by eexists|]. intros g1 [= <-].
      destruct i as [| | | | | | | | | | | |n j]; try done.
      { simpl in E. by destruct (eg_wait (grp g)). }
      simpl in E. destruct (child_step (child_ctx c g) rs n j (mem g) (kids g)) as [[[x ks] r]|] eqn:Ec; [|done].
      destruct (decide (n = k)) as [->|Hn].
      * rewrite Hidle in Ec; [done|congruence..].
      * destruct (child_step_other _ _ _ k _ _ _ _ _ _ Ec Hn) as [H1 H2].
        destruct r; injection E as <-; (split; [by apply H1|]; intros; by apply H2, Hidle).
    + destruct (WaitContext_inv _ _ _ _ Hr g eq_refl) as (h & Ht & Hp & _).
      destruct (group_return _ _ _ _ _ _ _ Ht Hp E) as (_ & Hl & _).
      apply running_results in Hrun. rewrite Hp in Hl. lia.
Qed.

(** ** The HTTP server *)

#[local] Abbreviation http_goroutines :=
  [returning serve_result ListenAndServe; on_done (returning (fun err => err) (Shutdown shutdownTimeout))].
#[local] Abbreviation http_state := (gstate (G := G) http_goroutines).

(** What the goroutine that stops the server has done to it, when [done] says that the
    context is done. *)
Definition shutdown_inv (done : Prop) (x : http_server)
    (st : rstate (on_done (returning (fun err => err) (Shutdown shutdownTimeout))) + option error) : Prop :=
  match st with
  | inl None => inShutdown x = false
  | inl (Some SEntry) => done /\ inShutdown x = false
  | inl (Some (SPoll rem)) => done /\ inShutdown x = true /\ 0 <= rem <= shutdownTimeout
  | inr r => done /\ inShutdown x = true /\ (requests x = O \/ r = Some DeadlineExceeded)
  end.

Lemma shutdown_inv_mono (done done' : Prop) x x' st :
  (done -> done') -> inShutdown x' = inShutdown x ->
  (inShutdown x = true -> (requests x' <= requests x)%nat) ->
  shutdown_inv done x st -> shutdown_inv done' x' st.
Proof.
  intros Hd Hs Hr. unfold shutdown_inv. rewrite Hs. destruct st as [[[|rem]|]|r]; try naive_solver.
  intros (H1 & H2 & [H3|H3]); split_and!; [by auto|done|left; specialize (Hr H2); lia|by auto|done|by right].
Qed.

Lemma serve_effect c i x s x' o :
  rstep (returning serve_result ListenAndServe) c i x s = Some (x', o) ->
  inShutdown x' = inShutdown x /\ (inShutdown x = true -> (requests x' <= requests x)%nat) /\
  match o with
  | inl _ => True
  | inr r => Is r ErrServerClosed = false /\ (r = None -> inShutdown x = true)
  end.
Proof using LER.
  assert (serve_result (Some ErrServerClosed) = None) as Hclosed by (unfold serve_result; by rewrite Is_self).
  pose proof (Is_nil ErrServerClosed) as Hnil.
  destruct x as [sd n], s, i as [| | | | |[err|]| | | | | | |]; simpl; try done.
  - destruct sd; intros [= <- <-]; [by rewrite Hclosed|done].
  - destruct (Is (Some err) ErrServerClosed) eqn:E; [done|]. unfold serve_result. rewrite E.
    by intros [= <- <-].
  - by intros [= <- <-].
  - destruct sd; simpl; [done|]. destruct (Is (Some err) ErrServerClosed) eqn:E; [done|].
    unfold serve_result. rewrite E. by intros [= <- <-].
  - destruct sd; [|done]. intros [= <- <-]; by rewrite Hclosed.
  - destruct sd; intros [= <- <-]. done.
  - destruct n; intros [= <- <-]. simpl. split_and!; [done|lia|done].
Qed.

Lemma stop_effect done c i x st x' o :
  is_Some c = done -> shutdown_inv done x (inl st) ->
  rstep (on_done (returning (fun err => err) (Shutdown shutdownTimeout))) c i x st = Some (x', o) ->
  shutdown_inv done x' o /\ (inShutdown x = true -> inShutdown x' = true).
Proof.
  pose proof shutdownTimeout_pos. intros <-. destruct x as [sd n], st as [[|rem]|]; simpl.
  - intros [Hc ->]. destruct i; simpl; intros [= <- <-]. simpl. split; [|done]. split_and!; (done || lia).
  - intros (Hc & -> & Hr). destruct i as [| | | | |err| | | |d| | |]; simpl; try done.
    + destruct n; intros [= <- <-]. simpl. auto.
    + destruct n; intros [= <- <-]. simpl. auto.
    + destruct (Z.ltb_spec 0 d), (Z.leb_spec d rem); simpl; intros [= <- <-]. simpl.
      split; [|done]. split_and!; (done || lia).
    + destruct (rem <=? 0); intros [= <- <-]. simpl. auto.
  - intros ->. destruct i, c; intros [= <- <-]. simpl. split; [|done]. split; [by eexists|done].
Qed.

(** What the goroutines have done to the server and to their context. *)
Definition http_inv (c : option error) (g : http_state) : Prop :=
  match fst (kids g) with
  | inl _ => True
  | inr r => Is r ErrServerClosed = false /\ (r = None -> inShutdown (mem g) = true)
  end /\ shutdown_inv (is_Some (child_ctx c g)) (mem g) (fst (snd (kids g))).

Lemma http_inv_step opts c i g g' :
  http_inv c g -> rstep (snd (Server (G := G) opts)) c i tt g = Some (tt, inl g') -> http_inv c g'.
Proof using LER.
  intros [Hsv Hst] H%group_rstep.
  assert (is_Some (child_ctx c g) -> is_Some (child_ctx c g')) as Hctx
    by (intros [e He]; exists e; by eapply child_ctx_step).
  destruct i as [| | | | | | | | | | | |n j]; try done.
  { simpl in H. by destruct (eg_wait (grp g)). }
  cbn [group_step] in H.
  destruct (child_step _ _ n j (mem g) (kids g)) as [[[x ks] res]|] eqn:E; [|done].
  assert (mem g' = x /\ kids g' = ks) as [Hm Hk] by (destruct res; by injection H as <-).
  unfold http_inv. rewrite Hm, Hk. clear H Hm Hk. destruct (kids g) as [sv [st []]].
  destruct n as [|[|n]]; cbn [child_step] in E; [| |done].
  - destruct sv as [s|]; [|done].
    destruct (rstep _ (child_ctx c g) j (mem g) s) as [[x1 o]|] eqn:Es; [|done].
    apply serve_effect in Es as (E1 & E2 & E3).
    assert (x = x1 /\ ks = (o, (st, tt))) as [-> ->] by (destruct o; by simplify_eq).
    split; [|by eapply shutdown_inv_mono].
    destruct o as [|r]; [done|]. by rewrite E1.
  - destruct st as [t|]; [|done].
    destruct (rstep _ (child_ctx c g) j (mem g) t) as [[x1 o]|] eqn:Es; [|done].
    eapply stop_effect in Es as [E1 E2]; [|done|exact Hst].
    assert (x = x1 /\ ks = (sv, (o, tt))) as [-> ->] by (destruct o; by simplify_eq).
    split; [|by eapply shutdown_inv_mono, E1].
    destruct sv as [|r]; simpl in *; naive_solver.
Qed.

Lemma http_reach opts c o :
  reach (snd (Server (G := G) opts)) c o -> forall g, o = inl g -> http_inv c g.
Proof using LER.
  induction 1 as [|e g H IH|c i g o H IH _ E]; intros g' Heq.
  - injection Heq as <-. done.
  - destruct (IH _ Heq) as [H1 H2]. split; [done|]. eapply shutdown_inv_mono, H2; try done.
    intros _. rewrite child_ctx_done. by eexists.
  - subst o. by eapply http_inv_step; [apply IH|].
Qed.

(** The time that passes while [Shutdown] polls, and the time it has left. *)
Fixpoint passed (l : list input) : Z :=
  match l with
  | [] => 0
  | At 1 (Pass d) :: l => d + passed l
  | _ :: l => passed l
  end.

Definition time_left (st : rstate (on_done (returning (fun err => err) (Shutdown shutdownTimeout))) + option error) : Z :=
  match st with
  | inl (Some (SPoll rem)) => rem
  | inl _ => shutdownTimeout
  | inr _ => 0
  end.

Lemma passed_cons i l : passed (i :: l) = passed [i] + passed l.
Proof. destruct i as [| | | | | | | | | | | |[|[|n]] []]; simpl; lia. Qed.

Lemma time_left_bounds done x st : shutdown_inv done x st -> 0 <= time_left st <= shutdownTimeout.
Proof.
  pose proof shutdownTimeout_pos. destruct st as [[[|rem]|]|r]; simpl; lia || (intros (? & ? & ?); lia).
Qed.

Lemma time_left_step opts c i g g' :
  http_inv c g -> rstep (snd (Server (G := G) opts)) c i tt g = Some (tt, inl g') ->
  passed [i] + time_left (fst (snd (kids g'))) <= time_left (fst (snd (kids g))).
Proof.
  pose proof shutdownTimeout_pos as Hp.
  intros [_ Hst] H%group_rstep.
  destruct i as [| | | | | | | | | | | |n j]; try done.
  { simpl in H. by destruct (eg_wait (grp g)). }
  cbn [group_step] in H.
  destruct (child_step _ _ n j (mem g) (kids g)) as [[[x ks] res]|] eqn:E; [|done].
  assert (kids g' = ks) as -> by (destruct res; by injection H as <-).
  clear H. destruct (kids g) as [sv [st []]].
  destruct n as [|[|n]]; cbn [child_step] in E; [| |done].
  - destruct sv as [s|]; [|done].
    destruct (rstep _ (child_ctx c g) j (mem g) s) as [[x1 o]|]; [|done].
    assert (ks = (o, (st, tt))) as -> by (destruct o; by simplify_eq). simpl. lia.
  - destruct st as [t|]; [|done].
    destruct (rstep _ (child_ctx c g) j (mem g) t) as [[x1 o]|] eqn:Es; [|done].
    assert (ks = (sv, (o, tt))) as -> by (destruct o; by simplify_eq).
    revert Es. destruct (mem g) as [sd n], t as [[|rem]|]; unfold shutdown_inv in Hst; simpl in *.
    + destruct j; intros [= <- <-]; simpl; lia.
    + destruct j as [| | | | |err| | | |d| | |]; simpl; try done.
      * destruct n; intros [= <- <-]. simpl. lia.
      * destruct n; intros [= <- <-]. simpl. lia.
      * destruct (Z.ltb_spec 0 d), (Z.leb_spec d rem); simpl; intros [= <- <-]. simpl. lia.
      * destruct (rem <=? 0); intros [= <- <-]. simpl. lia.
    + destruct j, (child_ctx c g); intros [= <- <-]; simpl; lia.
Qed.

(** C20: stopping the HTTP server. Its runner settles once its context is done, and in no run
    does more than the shutdown timeout pass in [Shutdown]. It returns nil only after its
    context was cancelled, and then every request that had come in is answered;
    otherwise it returns the error of listening or accepting, or the error of the
    shutdown, which is that of closing the listeners or that of the deadline if requests
    were still in progress. That the server was closed is never reported as an error of
    serving. *)
Theorem Server_shutdown opts c g :
  reach (snd (Server (G := G) opts)) c (inl g) ->
  (is_Some c -> settles 2 (snd (Server (G := G) opts)) c g) /\
  (forall l o, exec (snd (Server (G := G) opts)) c l g = Some o -> passed l <= shutdownTimeout) /\
  (forall i res, rstep (snd (Server (G := G) opts)) c i tt g = Some (tt, inr res) ->
     exists served stopped, results _ (kids g) = [served; stopped] /\
       Is served ErrServerClosed = false /\
       (stopped = Some DeadlineExceeded \/ requests (mem g) = O) /\
       (res = None -> is_Some c /\ inShutdown (mem g) = true /\ requests (mem g) = O) /\
       (forall e, res = Some e -> served = Some e \/ stopped = Some e)).
Proof using EG LER.
  intros Hr. split_and!.
  - intros [e ->]. apply responsive_settles; [apply Server_responsive|done].
  - intros l o H. pose proof (http_reach _ _ _ Hr g eq_refl) as Hg. clear Hr.
    transitivity (time_left (fst (snd (kids g)))); [|by eapply time_left_bounds; apply Hg].
    revert g Hg H. induction l as [|i l IH]; intros g Hg H; [by eapply time_left_bounds; apply Hg|].
    rewrite passed_cons. cbn [exec] in H.
    destruct (rstep (snd (Server opts)) c i tt g) as [[[] [g'|res]]|] eqn:E; [| |done].
    + eapply Z.le_trans, (time_left_step _ _ _ _ _ Hg E). apply Zplus_le_compat_l.
      by apply IH; [eapply http_inv_step|].
    + destruct l; [|done]. apply group_rstep in E. apply group_return_wait in E as ->.
      by eapply time_left_bounds; apply Hg.
  - intros i res H%group_rstep. pose proof (http_stoppable _ shutdownTimeout_pos) as Hs.
    destruct (http_reach _ _ _ Hr g eq_refl) as [Hsv Hst].
    destruct (group_reach_inv _ _ _ _ _ _ (server_stops _ _ _) _ _ Hr g eq_refl) as [_ (h & Ht & Hp & He & Ho)].
    destruct (group_return _ _ _ _ _ _ _ Ht Hp H) as (_ & Hl & ->).
    destruct (kids g) as [[s|served] [[t|stopped] []]] eqn:Ek; simpl in Hp; rewrite Hp in Hl; try done.
    exists served, stopped. simpl in Hsv, Hst. destruct Hsv as [Hsv1 Hsv2], Hst as (Hc & Hd & Hq).
    split_and!; [done|done|tauto| |].
    + intros Hn. assert (served = None /\ stopped = None) as [-> ->].
      { pose proof (first_error_None _ Hn) as HF. rewrite Hp in HF. by apply Forall_cons in HF as [? [? _]%Forall_cons]. }
      split_and!; [|done|by destruct Hq].
      unfold child_ctx in Hc. destruct (own g) as [e|]; [|done].
      destruct (Ho ltac:(by eexists)) as [? ?]. congruence.
    + intros e Hf. apply first_error_elem in Hf. rewrite Hp in Hf.
      by apply elem_of_cons in Hf as [->|[->|[]%not_elem_of_nil]%elem_of_cons]; [left|right].
Qed.
End supervision.

(** ** A reference gRPC server

    [Serve] returns nil once the server is stopped; [GracefulStop] waits for the calls in
    progress, without a deadline. *)
Record rpc_server := mkRpc { draining : bool; calls : nat }.

Inductive rpc_stop_pc := GEntry | GDrain.

Definition rpc_Serve : runner rpc_server := {|
  rstate := unit;
  rstart := tt;
  rstep := fun _ i x _ =>
    match i with
    | Internal => if draining x then Some (x, inr None) else None
    | ReqStart => if draining x then None else Some (mkRpc false (S (calls x)), inl tt)
    | ReqEnd => match calls x with O => None | S n => Some (mkRpc (draining x) n, inl tt) end
    | _ => None
    end
|}.

Definition rpc_GracefulStop : runner rpc_server := {|
  rstate := rpc_stop_pc;
  rstart := GEntry;
  rstep := fun _ i x s =>
    match s, i with
    | GEntry, Internal => Some (mkRpc true (calls x), inl GDrain)
    | GDrain, ReqEnd => match calls x with O => None | S n => Some (mkRpc (draining x) n, inl GDrain) end
    | GDrain, Internal => match calls x with O => Some (x, inr None) | S _ => None end
    | _, _ => None
    end
|}.

#[export] Instance rpc_stoppable : Stoppable rpc_Serve rpc_GracefulStop.
Proof.
  refine {|
    factor := 2;
    phi := calls;
    mu_serve := fun _ : rstate rpc_Serve => 1%nat;
    mu_stop := fun t : rstate rpc_GracefulStop => match t with GEntry => 2 | GDrain => 1 end%nat;
    stopped := fun x => draining x = true;
    inv_stop := fun x (t : rstate rpc_GracefulStop) =>
      match t with GEntry => True | GDrain => draining x = true end
  |}.
  - done.
  - intros c i [dr n] [] x' o; destruct i; simpl; try done;
      case_match; intros [= <- <-]; simpl; split_and!; (lia || done || by intros []).
  - intros c i [dr n] [] x' o Hi; destruct i; simpl in *; try done;
      try case_match; intros [= <- <-]; simpl; split_and!; (lia || done).
  - intros c [dr n] [] Hs; simpl in *. subst dr. exists Internal. by eexists.
  - intros c [dr [|n]] [] Hi; simpl in *.
    + exists Internal. by eexists.
    + exists Internal. by eexists.
    + exists Internal. by eexists.
    + exists ReqEnd. by eexists.
Defined.

(** ** Concrete runs over the reference errgroup and the reference errors *)
Import RefGroup Eris.Reference.
#[local] Abbreviation ticking := (ticker_runner call).
#[local] Abbreviation wait rs := (WaitContext (G := egroup) rs).

(** A ticker in the middle of its runner when the signal comes. *)
Lemma WaitContext_returns_witness :
  exec (wait [Signals; ticking]) None
    [At 1 Tick; At 0 Signal; At 1 (Return (Some (ENew "x"))); At 1 CtxDone; Wait]
    (rstart (wait [Signals; ticking])) = Some (inr None) /\
  (forall c' l res, exec (wait [Signals; ticking]) c' l
     (mkG (rs := [Signals; ticking]) tt (inr (Some ErrShutdownBySignal), (inl (Some tt), tt)) (mkGroup 1 (Some ErrShutdownBySignal)) (Some Canceled)) =
       Some (inr res) -> res = None).
Proof.
  split; [reflexivity|].
  eapply (WaitContext_returns [Signals; ticking] None
    (mkG (rs := [Signals; ticking]) tt (inl tt, (inl (Some tt), tt)) (mkGroup 2 None) None)) with (k := O); [|reflexivity|reflexivity| |reflexivity].
  - eapply (exec_reach _ (wait [Signals; ticking]) None [At 1 Tick]); [apply reach_start| |reflexivity].
    by repeat constructor.
  - intros H. by apply Exists_nil in H.
Defined.

(** A ticker, an HTTP and a gRPC server, when a signal has come and nothing has stopped yet. *)
Lemma WaitContext_terminates_witness :
  let grpc := snd (GRPCRunner (G := egroup) (Req := unit) (Resp := unit) (fun _ _ => mkRpc false 0)
    (fun x => x) rpc_Serve rpc_GracefulStop []) in
  let rs := [Signals; ticking; snd (Server (G := egroup) []); grpc] in
  exists g k, exec (wait rs) None [At 2 (At 0 Internal); At 2 (At 0 (Return None)); At 1 Tick;
      At 3 (Return None); At 3 (At 0 ReqStart); At 0 Signal]
    (rstart (wait rs)) = Some (inl g) /\ settles k (wait rs) None g.
Proof.
  intros grpc rs.
  destruct (WaitContext_terminates (G := egroup)) as (Hset & Hsig & Htick & _ & Hsrv & Hgrpc).
  destruct (Hset rs) as [k Hk].
  { repeat apply Forall_cons_2; [apply Hsig|eapply (Htick 1); [reflexivity|apply call_responsive]
      |apply Hsrv|apply Hgrpc, rpc_stoppable|apply Forall_nil_2]. }
  set (l := [At 2 (At 0 Internal); _; _; _; _; _]).
  assert (match exec (wait rs) None l (rstart (wait rs)) with
          | Some (inl g) => results rs (kids g) | _ => [] end = [Some ErrShutdownBySignal]) as Hres
    by (vm_compute; reflexivity).
  destruct (exec (wait rs) None l (rstart (wait rs))) as [[g|]|] eqn:E; try discriminate Hres.
  exists g, k. split; [reflexivity|]. apply Hk.
  - eapply exec_reach, E; [apply reach_start|by repeat constructor].
  - right. unfold a_runner_failed. rewrite Hres. apply Exists_cons_hd. by eexists.
Defined.

(** The signal has come, the worker has handled one value, and its channel is quiet. *)
Lemma idle_Worker_blocks_witness :
  let rs := [Signals; Worker; ticking] in
  exists o, exec (wait rs) None [At 2 Tick; At 0 Signal; At 2 (Return None); At 2 CtxDone] (rstart (wait rs)) = Some o /\
    exists g, o = inl g.
Proof.
  intros rs. eexists. split; [reflexivity|]. apply (idle_Worker_blocks rs 1 None _); [reflexivity|].
  eapply (exec_reach _ (wait rs) None [At 2 Tick; At 0 Signal; At 2 (Return None); At 2 CtxDone]);
    [apply reach_start|by repeat constructor|reflexivity].
Defined.

(** A request is in progress when the server is stopped, and takes a second. *)
Lemma Server_shutdown_witness :
  let srv := snd (Server (G := egroup) []) in
  exists g, exec srv None [At 0 Internal; At 0 (Return None); At 0 ReqStart] (rstart srv) = Some (inl g) /\
    forall l o, exec srv (Some Canceled) l g = Some o -> passed l <= shutdownTimeout.
Proof.
  intros srv. eexists. split; [reflexivity|]. apply (Server_shutdown []).
  apply reach_cancel.
  eapply (exec_reach _ srv None [At 0 Internal; At 0 (Return None); At 0 ReqStart]);
    [apply reach_start|by repeat constructor|reflexivity].
Defined.
End Supervise.
