(* ===== verification/Observer.v ===== *)
(** The event subject (src/observer/observer.go) as a transition system: [Register],
    [Notify], [Run] and its workers in any interleaving. Handler lists are Go slices over
    shared backing arrays, because a worker iterates over the slice it read while
    [Register] appends to the same array; critical sections under the mutex are single
    steps, and a send on the unbuffered channel is a step of the sender and a receiver
    together. Every [Run] has an errgroup for its workers, and every event a worker handles
    has one for the calls of [Update]; errgroup is the interface [ErrGroup]. *)

From S2P Require Import Prelude Runner.
Import Runner(ErrGroup, LawfulErrGroup, eg_new, eg_return, eg_cancelled, eg_wait, eg_wait_spec, Canceled).
#[local] Open Scope Z_scope.

Module Observer.

Section observer.
Context {Data Obs : Type}.

Definition EventName := list byte.

Record Event := mkEvent { Name : EventName; EData : Data }.

(** ** The handlers

    An [Observer] value and an [*Event] may be nil: [None]. A backing array, and a slice
    that starts at its beginning. *)
Record array := mkArray { elems : list (option Obs); cap : nat }.
Record slice := mkSlice { arr : nat; slen : nat }.

(** The map of the subject over its arrays; [registrations] records the calls of [Register]
    in order. *)
Record handlers_map := mkHandlers {
  arrays : list array;
  workers : gmap EventName slice;
  registrations : list (EventName * option Obs)
}.

Definition no_handlers : handlers_map := mkHandlers [] ∅ [].

(** The observers that were registered for an event, in order. *)
Definition observers (m : handlers_map) (n : EventName) : list (option Obs) :=
  omap (fun x => if bool_decide (fst x = n) then Some (snd x) else None) (registrations m).

(** [a[n] = x] in a backing array. *)
Definition write (n : nat) (x : option Obs) (l : list (option Obs)) : list (option Obs) :=
  take n l ++ [x] ++ drop (S n) l.

(** [append(s, x)]: in place when the array has room, into a new array otherwise, whose
    spare capacity the runtime chooses. *)
Definition append (spare : nat) (s : slice) (x : option Obs) (arrays : list array)
    : option (list array * slice) :=
  a ← arrays !! arr s;
  if (slen s <? cap a)%nat
  then Some (<[arr s := mkArray (write (slen s) x (elems a)) (cap a)]> arrays, mkSlice (arr s) (S (slen s)))
  else Some (arrays ++ [mkArray (take (slen s) (elems a) ++ [x]) (S (slen s) + spare)],
             mkSlice (length arrays) (S (slen s))).

(** [Register], under the write lock. *)
Definition register (spare : nat) (n : EventName) (o : option Obs) (m : handlers_map) : option handlers_map :=
  let '(arrays0, workers0) :=
    match workers m !! n with
    | None => (arrays m ++ [mkArray [] 0], <[n := mkSlice (length (arrays m)) 0]> (workers m))
    | Some _ => (arrays m, workers m)
    end in
  sl ← workers0 !! n;
  '(arrays1, sl1) ← append spare sl o arrays0;
  Some (mkHandlers arrays1 (<[n := sl1]> workers0) (registrations m ++ [(n, o)])).

(** The elements a slice shows now. *)
Definition contents (arrays : list array) (sl : slice) : list (option Obs) :=
  match arrays !! arr sl with Some a => take (slen sl) (elems a) | None => [] end.

(** What the map and the arrays have to do with the registrations: every slice ends where its
    array ends, shows the observers of its event, and shares its array with no other. *)
Record handlers_ok (m : handlers_map) : Prop := {
  ok_owner n sl : workers m !! n = Some sl ->
    exists a, arrays m !! arr sl = Some a /\ slen sl = length (elems a) /\ observers m n = elems a;
  ok_none n : workers m !! n = None -> observers m n = [];
  ok_disjoint n1 n2 sl1 sl2 :
    workers m !! n1 = Some sl1 -> workers m !! n2 = Some sl2 -> arr sl1 = arr sl2 -> n1 = n2
}.

Lemma no_handlers_ok : handlers_ok no_handlers.
Proof. split; simpl; intros *; by rewrite ?lookup_empty. Qed.

Lemma write_end x l : write (length l) x l = l ++ [x].
Proof. unfold write. by rewrite take_ge, drop_ge, app_nil_r by lia. Qed.

(** Arrays only grow at their ends, so what a slice shows stays. *)
Definition arrays_le (a1 a2 : list array) : Prop :=
  forall i a, a1 !! i = Some a -> exists a', a2 !! i = Some a' /\ elems a `prefix_of` elems a'.

Lemma arrays_le_refl l : arrays_le l l.
Proof. intros i a Hi. by exists a. Qed.

Lemma arrays_le_app l k : arrays_le l (l ++ k).
Proof. intros i a Hi. exists a. split; [|done]. by apply lookup_app_l_Some. Qed.

Lemma arrays_le_trans l1 l2 l3 : arrays_le l1 l2 -> arrays_le l2 l3 -> arrays_le l1 l3.
Proof.
  intros H1 H2 i a Hi. destruct (H1 _ _ Hi) as (a1 & Hi1 & Hp1).
  destruct (H2 _ _ Hi1) as (a2 & Hi2 & Hp2). exists a2. split; [done|]. by etrans.
Qed.

(** [append] on a slice that ends where its array ends. *)
Lemma append_spec spare sl x ars a :
  ars !! arr sl = Some a -> slen sl = length (elems a) ->
  exists ars' sl' a', append spare sl x ars = Some (ars', sl') /\ arrays_le ars ars' /\
    ars' !! arr sl' = Some a' /\ elems a' = elems a ++ [x] /\ slen sl' = length (elems a') /\
    (arr sl' = arr sl \/ arr sl' = length ars) /\
    (forall i, i <> arr sl -> (i < length ars)%nat -> ars' !! i = ars !! i).
Proof.
  intros Ha Hl. unfold append. rewrite Ha. simpl. destruct (Nat.ltb_spec (slen sl) (cap a)) as [Hc|Hc].
  - eexists _, _, (mkArray (elems a ++ [x]) (cap a)). rewrite Hl, write_end. split; [done|].
    assert ((arr sl < length ars)%nat) by (by eapply lookup_lt_Some).
    split; [|split; [|split; [done|split; [|split; [by left|]]]]]; simpl.
    + intros i b Hi. destruct (decide (i = arr sl)) as [->|Hne].
      * rewrite Ha in Hi. injection Hi as <-. eexists. rewrite list_lookup_insert_eq by done.
        split; [done|]. simpl. by apply prefix_app_r.
      * exists b. by rewrite list_lookup_insert_ne.
    + by rewrite list_lookup_insert_eq.
    + rewrite length_app. simpl. lia.
    + intros i Hi _. by rewrite list_lookup_insert_ne.
  - eexists _, _, (mkArray (elems a ++ [x]) (S (slen sl) + spare)). rewrite take_ge by lia. split; [done|].
    split; [apply arrays_le_app|]. simpl. split; [by rewrite lookup_app_r, Nat.sub_diag by lia|].
    split; [done|]. split; [rewrite length_app; simpl; lia|]. split; [by right|].
    intros i _ Hi. by rewrite lookup_app_l.
Qed.

Lemma ok_arr_lt m n sl : handlers_ok m -> workers m !! n = Some sl -> (arr sl < length (arrays m))%nat.
Proof. intros Hi Hn. destruct (ok_owner _ Hi _ _ Hn) as (a & Ha & _). by eapply lookup_lt_Some. Qed.

(** The map [Register] appends to, with an empty slice when the event is new. *)
Definition prepared (n : EventName) (m : handlers_map) : handlers_map :=
  match workers m !! n with
  | None => mkHandlers (arrays m ++ [mkArray [] 0]) (<[n := mkSlice (length (arrays m)) 0]> (workers m))
              (registrations m)
  | Some _ => m
  end.

Lemma prepared_ok n m :
  handlers_ok m -> handlers_ok (prepared n m) /\ is_Some (workers (prepared n m) !! n) /\
    arrays_le (arrays m) (arrays (prepared n m)) /\ registrations (prepared n m) = registrations m.
Proof.
  intros Hi. unfold prepared. destruct (workers m !! n) as [sl|] eqn:En.
  { split; [done|]. split; [by rewrite En|]. split; [apply arrays_le_refl|done]. }
  split; [|split; [simpl; rewrite lookup_insert_eq; by eexists|split; [apply arrays_le_app|done]]].
  pose proof (ok_none _ Hi _ En) as Hobs. pose proof (ok_arr_lt m) as Hlt.
  pose proof Hi as [Hown Hnone Hdis]. split; simpl.
  - intros n' sl' [[<- <-]|[Hne Hn']]%lookup_insert_Some; simpl.
    + exists (mkArray [] 0). by rewrite lookup_app_r, Nat.sub_diag by lia.
    + destruct (Hown _ _ Hn') as (a & Ha & Hl & Hr). exists a.
      split; [|done]. by apply lookup_app_l_Some.
  - intros n' [Hn' _]%lookup_insert_None. by apply Hnone.
  - intros n1 n2 sl1 sl2 [[<- <-]|[? H1]]%lookup_insert_Some [[<- <-]|[? H2]]%lookup_insert_Some; simpl; try done.
    + intros Heq. apply Hlt in H2; [lia|done].
    + intros Heq. apply Hlt in H1; [lia|done].
    + by eapply Hdis.
Qed.

Lemma observers_snoc m ars ws n o n' :
  observers (mkHandlers ars ws (registrations m ++ [(n, o)])) n' =
  observers m n' ++ (if bool_decide (n = n') then [o] else []).
Proof. unfold observers. simpl. rewrite omap_app. simpl. by case_bool_decide. Qed.

(** [Register] adds the observer to those of its event, moves no other, and overwrites nothing
    that a slice shows. *)
Lemma register_ok spare n o m :
  handlers_ok m ->
  exists m', register spare n o m = Some m' /\ handlers_ok m' /\ arrays_le (arrays m) (arrays m') /\
    forall n', observers m' n' = observers m n' ++ (if bool_decide (n = n') then [o] else []).
Proof.
  intros Hi.
  assert (register spare n o m =
    (sl ← workers (prepared n m) !! n;
     '(arrays1, sl1) ← append spare sl o (arrays (prepared n m));
     Some (mkHandlers arrays1 (<[n := sl1]> (workers (prepared n m)))
             (registrations (prepared n m) ++ [(n, o)])))) as ->.
  { unfold register, prepared. by destruct (workers m !! n) as [sl|] eqn:En; [rewrite En|]. }
  destruct (prepared_ok n m Hi) as (Hi0 & [sl Hsl] & Hle0 & Hreg).
  assert (forall n', observers m n' = observers (prepared n m) n') as Hobs
    by (intros; unfold observers; by rewrite Hreg).
  set (m0 := prepared n m) in *. clearbody m0. rewrite Hsl. simpl.
  pose proof (fun n1 sl1 => ok_arr_lt m0 n1 sl1 Hi0) as Hlt. pose proof Hi0 as [Hown Hnone Hdis].
  destruct (Hown _ _ Hsl) as (a & Ha & Hl & Hr).
  destruct (append_spec spare sl o _ _ Ha Hl) as (ars' & sl' & a' & -> & Hle & Ha' & He' & Hl' & Harr & Hother).
  simpl. eexists. split; [done|].
  split; [|split; [simpl; by eapply arrays_le_trans|intros n'; by rewrite observers_snoc, Hobs]].
  split; simpl.
  - intros n' sl2 [[<- <-]|[Hne Hn']]%lookup_insert_Some; rewrite observers_snoc.
    + exists a'. rewrite bool_decide_eq_true_2, Hr, He' by done. by rewrite He' in Hl'.
    + destruct (Hown _ _ Hn') as (b & Hb & Hbl & Hbr). exists b.
      rewrite bool_decide_eq_false_2, app_nil_r, Hother; [done| |by eapply lookup_lt_Some|done].
      intros Heq. apply Hne. by apply (Hdis _ _ _ _ Hsl Hn').
  - intros n' [Hn' Hne]%lookup_insert_None. rewrite observers_snoc, bool_decide_eq_false_2, app_nil_r by done.
    by apply Hnone.
  - intros n1 n2 sl1 sl2 [[<- <-]|[Hne1 H1]]%lookup_insert_Some [[<- <-]|[Hne2 H2]]%lookup_insert_Some; try done.
    + intros Heq. destruct Harr as [Harr|Harr];
        [exfalso; apply Hne2; apply (Hdis _ _ _ _ Hsl H2); congruence|apply Hlt in H2; lia].
    + intros Heq. destruct Harr as [Harr|Harr];
        [exfalso; apply Hne1; apply (Hdis _ _ _ _ Hsl H1); congruence|apply Hlt in H1; lia].
    + by eapply Hdis.
Qed.

(** The slice that a worker finds. *)
Lemma contents_observers m n sl :
  handlers_ok m -> workers m !! n = Some sl ->
  contents (arrays m) sl = observers m n /\ slen sl = length (observers m n) /\
  exists a, arrays m !! arr sl = Some a /\ elems a = observers m n.
Proof.
  intros Hi Hn. destruct (ok_owner _ Hi _ _ Hn) as (a & Ha & Hl & ->).
  unfold contents. rewrite Ha, take_ge by lia. split; [done|]. split; [done|]. by exists a.
Qed.

(** ** Goroutines

    [G] is the type of errgroup's groups. Workers name the [Run] they belong to, handlers the
    group they run in, by their indices in the shared state. [hs] is what a worker read. *)
Context {G : Type} `{EG0 : ErrGroup G}.

Inductive worker_pc :=
| OSelect
| OGot (e : option Event)
| OLoop (e : Event) (handlers : slice) (i : nat) (hs : list (option Obs)) (g : nat)
| OWait (g : nat)
| ODone (err : option error).

Inductive thread :=
| TWorker (r : nat) (w : worker_pc)
| THandler (g : nat) (e : Event) (o : option Obs)   (* at [handler.Update] *)
| TUpdate (g : nat)                                 (* in [Update] *)
| THandled
| TNotify (e : option Event)                        (* at the send *)
| TNotified
| TRegister (n : EventName) (o : option Obs)
| TRegistered
| TRun
| TStarting (r : nat) (todo : Z)                    (* in the loop of [Run] *)
| TRunWait (r : nat)
| TRunClose (r : nat) (err : option error)          (* at the deferred [close] *)
| TRunDone (r : nat) (err : option error).

(** The group of a [Run], and the error of the context of its workers once that is done. *)
Record run_state := mkRun { rgrp : G; rctx : option error }.

(** [notified], [taken] and [delivered] record the history: the events that a worker received,
    the events it looked up, each with the observers registered for it at that moment, and the
    calls of [Update]. *)
Record shared := mkShared {
  sub : handlers_map;
  chClosed : bool;
  runs : list run_state;
  groups : list G;
  crashed : option panic;
  notified : list (option Event);
  taken : list (Event * list (option Obs));
  delivered : list (Event * option Obs)
}.

Definition init : shared := mkShared no_handlers false [] [] None [] [] [].

Definition set_sub (m : handlers_map) (s : shared) : shared :=
  mkShared m (chClosed s) (runs s) (groups s) (crashed s) (notified s) (taken s) (delivered s).
Definition close_ch (s : shared) : shared :=
  mkShared (sub s) true (runs s) (groups s) (crashed s) (notified s) (taken s) (delivered s).
Definition set_runs (rs : list run_state) (s : shared) : shared :=
  mkShared (sub s) (chClosed s) rs (groups s) (crashed s) (notified s) (taken s) (delivered s).
Definition set_groups (gs : list G) (s : shared) : shared :=
  mkShared (sub s) (chClosed s) (runs s) gs (crashed s) (notified s) (taken s) (delivered s).
Definition crash (p : panic) (s : shared) : shared :=
  mkShared (sub s) (chClosed s) (runs s) (groups s) (Some p) (notified s) (taken s) (delivered s).
Definition log_notified (e : option Event) (s : shared) : shared :=
  mkShared (sub s) (chClosed s) (runs s) (groups s) (crashed s) (notified s ++ [e]) (taken s) (delivered s).
Definition log_taken (e : Event) (s : shared) : shared :=
  mkShared (sub s) (chClosed s) (runs s) (groups s) (crashed s) (notified s)
    (taken s ++ [(e, observers (sub s) (Name e))]) (delivered s).
Definition log_delivered (e : Event) (o : Obs) (s : shared) : shared :=
  mkShared (sub s) (chClosed s) (runs s) (groups s) (crashed s) (notified s) (taken s)
    (delivered s ++ [(e, Some o)]).

(** A worker of the [Run] number [r] returns [err] to its group. *)
Definition worker_return (r : nat) (err : option error) (ru : run_state) : run_state :=
  let g := eg_return err (rgrp ru) in
  mkRun g (match rctx ru with Some e => Some e | None => if eg_cancelled g then Some Canceled else None end).

Definition leave (r : nat) (err : option error) (s : shared) : option (shared * thread * list thread) :=
  ru ← runs s !! r;
  Some (set_runs (<[r := worker_return r err ru]> (runs s)) s, TWorker r (ODone err), []).

(** What the scheduler and the outside decide. *)
Inductive choice :=
| ChNone
| ChCtx                         (* the context is done *)
| ChRecv                        (* the closed channel *)
| ChSpare (n : nat)             (* the capacity of a new array *)
| ChReturn (err : option error).

(** [workersCount] of [NewSubject]. *)
Context (workersCount : Z).

(** The iteration of a worker up to the loop over the handlers. *)
Definition take_event (r : nat) (e : Event) (s : shared) : option (shared * thread * list thread) :=
  match workers (sub s) !! Name e with
  | None => Some (log_taken e s, TWorker r OSelect, [])
  | Some handlers =>
      if (slen handlers =? 0)%nat then Some (log_taken e s, TWorker r OSelect, [])
      else Some (set_groups (groups s ++ [eg_new (slen handlers)]) (log_taken e s),
             TWorker r (OLoop e handlers 0 (contents (arrays (sub s)) handlers) (length (groups s))), [])
  end.

(** A step of one goroutine, with the goroutines it starts. *)
Definition tstep (c : choice) (s : shared) (t : thread) : option (shared * thread * list thread) :=
  match t, c with
  | TWorker r OSelect, ChCtx =>
      ru ← runs s !! r;
      err ← rctx ru;
      leave r (Some err) s
  | TWorker r OSelect, ChRecv => if chClosed s then leave r None s else None
  | TWorker r (OGot None), ChNone => Some (crash PNilDeref s, TWorker r (OGot None), [])
  | TWorker r (OGot (Some e)), ChNone => take_event r e s
  | TWorker r (OLoop e handlers i hs g), ChNone =>
      if (i <? slen handlers)%nat then
        a ← arrays (sub s) !! arr handlers;
        o ← elems a !! i;
        Some (s, TWorker r (OLoop e handlers (S i) hs g), [THandler g e o])
      else Some (s, TWorker r (OWait g), [])
  | TWorker r (OWait g), ChNone =>
      group ← groups s !! g;
      match eg_wait group with
      | None => None
      | Some None => Some (s, TWorker r OSelect, [])
      | Some (Some err) => leave r (Some err) s
      end
  | THandler g e None, ChNone => Some (crash PNilDeref s, THandler g e None, [])
  | THandler g e (Some o), ChNone => Some (log_delivered e o s, TUpdate g, [])
  | TUpdate g, ChReturn err =>
      group ← groups s !! g;
      Some (set_groups (<[g := eg_return err group]> (groups s)) s, THandled, [])
  | TNotify e, ChNone => if chClosed s then Some (crash PSendClosed s, TNotify e, []) else None
  | TRegister n o, ChSpare spare => m ← register spare n o (sub s); Some (set_sub m s, TRegistered, [])
  | TRun, ChNone =>
      Some (set_runs (runs s ++ [mkRun (eg_new (Z.to_nat workersCount)) None]) s,
            TStarting (length (runs s)) workersCount, [])
  | TStarting r todo, ChNone =>
      if todo <=? 0 then Some (s, TRunWait r, [])
      else Some (s, TStarting r (todo - 1), [TWorker r OSelect])
  | TRunWait r, ChNone =>
      ru ← runs s !! r;
      err ← eg_wait (rgrp ru);
      Some (s, TRunClose r err, [])
  | TRunClose r err, ChNone =>
      if chClosed s then Some (crash PCloseClosed s, TRunClose r err, [])
      else Some (close_ch s, TRunDone r err, [])
  | _, _ => None
  end.

(** The context of a [Run] ends, with [err]. *)
Definition cancel (r : nat) (err : error) (s : shared) : option shared :=
  ru ← runs s !! r;
  Some (set_runs (<[r := mkRun (rgrp ru) (Some (default err (rctx ru)))]> (runs s)) s).

Record state := mkState { sh : shared; threads : list thread }.

(** An API call that starts. *)
Definition entry (t : thread) : Prop :=
  (exists e, t = TNotify e) \/ (exists n o, t = TRegister n o) \/ t = TRun.

Inductive step : state -> state -> Prop :=
| step_run s ts i c t s' t' new :
    crashed s = None -> ts !! i = Some t -> tstep c s t = Some (s', t', new) ->
    step (mkState s ts) (mkState s' (<[i := t']> ts ++ new))
| step_rendezvous s ts i j e r :
    crashed s = None -> chClosed s = false ->
    ts !! i = Some (TNotify e) -> ts !! j = Some (TWorker r OSelect) ->
    step (mkState s ts) (mkState (log_notified e s) (<[j := TWorker r (OGot e)]> (<[i := TNotified]> ts)))
| step_call s ts t : entry t -> step (mkState s ts) (mkState s (ts ++ [t]))
| step_cancel s ts r err s' : cancel r err s = Some s' -> step (mkState s ts) (mkState s' ts).

Definition reachable (st : state) : Prop := rtc step (mkState init []) st.

(** ** The invariant *)

(** The event a worker holds but has not looked up. *)
Definition in_hand (t : thread) : list (option Event) :=
  match t with TWorker _ (OGot e) => [e] | _ => [] end.

(** The calls of [Update] that are still due from a goroutine. *)
Definition due (t : thread) : list (Event * option Obs) :=
  match t with
  | TWorker _ (OLoop e _ i hs _) => map (pair e) (drop i hs)
  | THandler _ e o => [(e, o)]
  | _ => []
  end.

Definition pairs (x : Event * list (option Obs)) : list (Event * option Obs) := map (pair (fst x)) (snd x).

(** The slice a worker iterates over still shows what it showed when it was read. *)
Definition snapshot_ok (s : shared) (t : thread) : Prop :=
  match t with
  | TWorker _ (OLoop e sl i hs g) =>
      exists a, arrays (sub s) !! arr sl = Some a /\ hs `prefix_of` elems a /\ slen sl = length hs
  | _ => True
  end.

(** Why the subject panics. *)
Definition crash_cause (s : shared) (p : panic) : Prop :=
  ((p = PSendClosed \/ p = PCloseClosed) /\ chClosed s = true) \/
  (p = PNilDeref /\ (None ∈ notified s \/ exists e, (e, None) ∈ concat (map pairs (taken s)))).

Record inv (s : shared) (ts : list thread) : Prop := {
  inv_handlers : handlers_ok (sub s);
  inv_snapshots : Forall (snapshot_ok s) ts;
  inv_prefix : Forall (fun x => snd x `prefix_of` observers (sub s) (Name (fst x))) (taken s);
  inv_notified : notified s ≡ₚ map (Some ∘ fst) (taken s) ++ concat (map in_hand ts);
  inv_delivered : concat (map pairs (taken s)) ≡ₚ delivered s ++ concat (map due ts);
  inv_crash p : crashed s = Some p -> crash_cause s p
}.

Lemma subject_inv_perm s ts1 ts2 : ts1 ≡ₚ ts2 -> inv s ts1 -> inv s ts2.
Proof. intros Hp []. split; try done; rewrite <-?Hp; done. Qed.

(** Steps that leave alone what the invariant is about. *)
Definition same_history (s s' : shared) : Prop :=
  sub s' = sub s /\ notified s' = notified s /\ taken s' = taken s /\ delivered s' = delivered s /\
  crashed s' = crashed s /\ chClosed s' = chClosed s.

Lemma subject_inv_pc s s' t t' rest :
  same_history s s' -> snapshot_ok s t' -> due t' = due t -> in_hand t' = in_hand t ->
  inv s (t :: rest) -> inv s' (t' :: rest).
Proof.
  destruct s, s'. intros (?&?&?&?&?&?); simpl in *; simplify_eq. intros Hs Hd Hh [? Hsn]. split; simpl in *; try done.
  - constructor; [done|]. by eapply Forall_inv_tail.
  - by rewrite Hh.
  - by rewrite Hd.
Qed.

Lemma subject_inv_spawn s ts t :
  snapshot_ok s t -> due t = [] -> in_hand t = [] -> inv s ts -> inv s (t :: ts).
Proof.
  intros Hs Hd Hh []. split; try done; [by constructor| |]; cbn [map concat]; by rewrite ?Hh, ?Hd.
Qed.

Lemma subject_inv_crash p s ts : crash_cause s p -> inv s ts -> inv (crash p s) ts.
Proof. intros Hp []. split; try done. by intros q [= <-]. Qed.

Lemma snapshot_ok_le s s' t :
  arrays_le (arrays (sub s)) (arrays (sub s')) -> snapshot_ok s t -> snapshot_ok s' t.
Proof.
  intros Hle. destruct t as [r [| |e sl i hs g| |]| | | | | | | | | | | |]; simpl; try done.
  intros (a & Ha & Hp & Hl). destruct (Hle _ _ Ha) as (a' & Ha' & Htl).
  exists a'. split; [done|]. split; [by etrans|done].
Qed.

Lemma register_inv spare n o s ts m :
  inv s ts -> register spare n o (sub s) = Some m -> inv (set_sub m s) ts.
Proof.
  intros [] Hm. destruct (register_ok spare n o (sub s)) as (m' & Hm' & Hok & Hle & Hobs); [done|].
  rewrite Hm in Hm'. injection Hm' as <-. split; simpl; try done.
  - eapply Forall_impl; [exact inv_snapshots0|]. intros t. by apply snapshot_ok_le.
  - eapply Forall_impl; [exact inv_prefix0|]. intros [e hs]; simpl. rewrite Hobs. intros. by apply prefix_app_r.
Qed.

(** A worker looks an event up. *)
Lemma take_event_inv r e s s' t' new rest :
  inv s (TWorker r (OGot (Some e)) :: rest) -> take_event r e s = Some (s', t', new) ->
  inv s' (t' :: new ++ rest).
Proof.
  intros [] H. cbn [map concat due in_hand app] in *. apply Forall_cons in inv_snapshots0 as [_ Hsn].
  assert (new = [] /\ in_hand t' = [] /\ due t' = map (pair e) (observers (sub s) (Name e)) /\ snapshot_ok s t' /\
    exists gs, s' = set_groups gs (log_taken e s)) as (-> & Hh & Hd & Ht & gs & ->).
  { unfold take_event in H. destruct (workers (sub s) !! Name e) as [sl|] eqn:Ew.
    - destruct (contents_observers _ _ _ inv_handlers0 Ew) as (Hc & Hl & a & Ha & He). rewrite Hc in H.
      destruct (Nat.eqb_spec (slen sl) 0) as [Hz|Hz]; simplify_eq/=.
      + rewrite Hz in Hl. destruct (observers (sub s) (Name e)); [|done]. split_and!; try done. by exists (groups s).
      + split_and!; try done; [|by eexists]. exists a. by rewrite He.
    - rewrite (ok_none _ inv_handlers0 _ Ew). simplify_eq/=. split_and!; try done. by exists (groups s). }
  split; simpl; try done.
  - by constructor.
  - apply Forall_app. split; [done|]. by constructor.
  - rewrite map_app, Hh, inv_notified0. simpl. by rewrite <-app_assoc.
  - rewrite map_app, concat_app, Hd, inv_delivered0. simpl. unfold pairs. simpl. rewrite app_nil_r.
    rewrite <-app_assoc. by rewrite (Permutation_app_comm (concat _)).
  - intros p Hp. destruct (inv_crash0 p Hp) as [?|(? & [?|[e0 He0]])]; [by left|by right; auto|right].
    split; [done|]. right. exists e0. simpl. rewrite map_app, concat_app, elem_of_app. by left.
Qed.

(** The loop over the handlers. *)
Lemma loop_inv r e sl i hs g s s' t' new rest :
  inv s (TWorker r (OLoop e sl i hs g) :: rest) ->
  tstep ChNone s (TWorker r (OLoop e sl i hs g)) = Some (s', t', new) -> inv s' (t' :: new ++ rest).
Proof.
  intros Hi H. pose proof (inv_snapshots _ _ Hi) as Hsn.
  apply Forall_cons in Hsn as [(a & Ha & [tl Htl] & Hl) Hsn]. simpl in H. rewrite Ha in H. simpl in H.
  destruct (Nat.ltb_spec i (slen sl)) as [Hlt|Hge].
  - rewrite Htl, lookup_app_l in H by lia. destruct (hs !! i) as [o|] eqn:Ho; [|done]. simplify_eq/=.
    destruct Hi. split; try done.
    + constructor; [|by constructor]. exists a. split; [done|]. split; [by exists tl|done].
    + cbn [map concat due app] in *. rewrite inv_delivered0, (drop_S _ _ _ Ho). cbn [map]. solve_Permutation.
  - simplify_eq/=. eapply subject_inv_pc; [..|exact Hi]; [done|done| |done]. simpl. by rewrite drop_ge by lia.
Qed.

Lemma leave_inv r err t s s' t' new rest :
  due t = [] -> in_hand t = [] ->
  inv s (t :: rest) -> leave r err s = Some (s', t', new) -> inv s' (t' :: new ++ rest).
Proof.
  intros Hd Hh Hi H. unfold leave in H. destruct (runs s !! r) as [ru|]; [|done]. simplify_eq/=.
  eapply subject_inv_pc; [..|exact Hi]; done.
Qed.

Lemma inv_due s t rest x : inv s (t :: rest) -> x ∈ due t -> x ∈ concat (map pairs (taken s)).
Proof.
  intros Hi Hx. rewrite (inv_delivered _ _ Hi). cbn [map concat]. rewrite !elem_of_app. by right; left.
Qed.

Lemma subject_tstep_inv c s t s' t' new rest :
  inv s (t :: rest) -> tstep c s t = Some (s', t', new) -> inv s' (t' :: new ++ rest).
Proof.
  intros Hi H. destruct t as [r w|g e [o|]|g| |e| |n o| | |r todo|r|r err|r err];
    [destruct w as [|[e|]|e sl i hs g|g|err]|..]; destruct c as [| | |spare|res]; try discriminate H;
    try (by eapply loop_inv); try (by eapply take_event_inv); simpl in H.
  - destruct (runs s !! r) as [ru|]; [|done]. simpl in H. destruct (rctx ru); [|done]. by eapply leave_inv; [| |exact Hi|exact H].
  - case_match; [|done]. by eapply leave_inv; [| |exact Hi|exact H].
  - simplify_eq. apply subject_inv_crash; [|done]. right. split; [done|]. left.
    rewrite (inv_notified _ _ Hi). cbn [map concat in_hand]. set_solver.
  - destruct (groups s !! g); [|done]. simpl in H. destruct (eg_wait _) as [[err|]|]; [| |done].
    + by eapply leave_inv; [| |exact Hi|exact H].
    + simplify_eq. by eapply subject_inv_pc; [..|exact Hi].
  - simplify_eq. pose proof (inv_due _ _ _ (e, Some o) Hi) as Hdue. destruct Hi. split; simpl; try done.
    + constructor; [done|]. by eapply Forall_inv_tail.
    + cbn [map concat due app] in *. rewrite inv_delivered0. solve_Permutation.
  - simplify_eq. apply subject_inv_crash; [|done]. right. split; [done|]. right. exists e.
    eapply inv_due; [exact Hi|]. set_solver.
  - destruct (groups s !! g); [|done]. simplify_eq/=. by eapply subject_inv_pc; [..|exact Hi].
  - case_match eqn:E; [|done]. simplify_eq. apply subject_inv_crash; [|done]. left. by split; [left|].
  - destruct (register spare n o (sub s)) as [m|] eqn:Hm; [|done]. simplify_eq/=.
    eapply subject_inv_pc; [..|eapply register_inv; [exact Hi|exact Hm]]; done.
  - simplify_eq. by eapply subject_inv_pc; [..|exact Hi].
  - case_match; simplify_eq.
    + by eapply subject_inv_pc; [..|exact Hi].
    + eapply subject_inv_perm; [apply perm_swap|]. apply subject_inv_spawn; [done..|].
      by eapply subject_inv_pc; [..|exact Hi].
  - destruct (runs s !! r) as [ru|]; [|done]. simpl in H. destruct (eg_wait _); [|done]. simplify_eq/=.
    by eapply subject_inv_pc; [..|exact Hi].
  - case_match eqn:E; simplify_eq.
    + apply subject_inv_crash; [|done]. left. by split; [right|].
    + assert (inv s (TRunDone r err :: rest)) as [] by (by eapply subject_inv_pc; [..|exact Hi]).
      split; simpl; try done. intros p Hp. destruct (inv_crash0 p Hp) as [[? _]|?]; [by left|by right].
Qed.

(** A worker receives an event. *)
Lemma receive_inv s e r rest :
  crashed s = None -> inv s (TWorker r OSelect :: rest) -> inv (log_notified e s) (TWorker r (OGot e) :: rest).
Proof.
  intros Hcr []. split; simpl; try done.
  - constructor; [done|]. by eapply Forall_inv_tail.
  - cbn [map concat in_hand app] in *. rewrite inv_notified0. solve_Permutation.
  - by rewrite Hcr.
Qed.

(** A property of the goroutines' multiset is kept by a change of one of them. *)
Lemma thread_change (P : list thread -> Prop) (Q : list thread -> Prop) ts i t t' new :
  (forall ts1 ts2, ts1 ≡ₚ ts2 -> P ts1 -> P ts2) -> (forall ts1 ts2, ts1 ≡ₚ ts2 -> Q ts1 -> Q ts2) ->
  ts !! i = Some t -> (forall rest, P (t :: rest) -> Q (t' :: new ++ rest)) ->
  P ts -> Q (<[i := t']> ts ++ new).
Proof.
  intros HP HQ Ht H Hts. destruct (thread_step ts i t t' new Ht) as (rest & Hp1 & Hp2).
  eapply HQ; [symmetry; exact Hp2|]. apply H. by eapply HP.
Qed.

Lemma subject_step_inv st st' : step st st' -> inv (sh st) (threads st) -> inv (sh st') (threads st').
Proof.
  intros H. destruct H as [s ts i c t s' t' new Hcr Ht Hs|s ts i j e r Hcr Hch Hti Htj|s ts t Ht|s ts r err s' Hs]; simpl.
  - apply thread_change with t; [apply subject_inv_perm..|done|]. intros rest Hi. by eapply subject_tstep_inv.
  - intros Hi. assert (i <> j) as Hij by (intros ->; congruence).
    rewrite <-(app_nil_r (<[j := _]> _)).
    eapply (thread_change (inv s));
      [apply subject_inv_perm..|by rewrite list_lookup_insert_ne|intros rest; by apply receive_inv|].
    rewrite <-(app_nil_r (<[i := _]> _)). eapply (thread_change (inv s)); [apply subject_inv_perm..|exact Hti| |exact Hi].
    intros rest. by apply subject_inv_pc.
  - intros Hi. eapply subject_inv_perm; [apply Permutation_cons_append|].
    destruct Ht as [[e ->]|[(n & o & ->)| ->]]; by apply subject_inv_spawn.
  - intros []. unfold cancel in Hs. destruct (runs s !! r); [|done]. simplify_eq/=. by split.
Qed.

Lemma subject_reachable_inv st : reachable st -> inv (sh st) (threads st).
Proof.
  unfold reachable. intros H. remember (mkState init []) as st0 eqn:E.
  assert (inv (sh st0) (threads st0)) as H0.
  { subst st0. split; simpl; done || apply no_handlers_ok. }
  clear E. induction H as [|st0 st1 st2 H1 _ IH]; [done|]. apply IH. by eapply subject_step_inv.
Qed.

(** What a step adds to the history of the events. *)
Lemma taken_step st st' :
  step st st' ->
  taken (sh st') = taken (sh st) \/
  exists i r e, threads st !! i = Some (TWorker r (OGot (Some e))) /\
    taken (sh st') = taken (sh st) ++ [(e, observers (sub (sh st)) (Name e))].
Proof.
  intros H. destruct H as [s ts i c t s' t' new Hcr Ht Hs|s ts i j e r Hcr Hch Hti Htj|s ts t Ht|s ts r err s' Hs];
    simpl; [|by left|by left|].
  - destruct t as [r w|g e [o|]|g| |e| |n o| | |r todo|r|r err|r err];
      [destruct w as [|[e|]|e sl i' hs g|g|err]|..]; destruct c; try discriminate Hs; simpl in Hs;
      unfold leave, take_event in Hs;
      repeat first [match goal with H : _ ≫= _ = Some _ |- _ => apply bind_Some in H as (? & ? & H) end
                   |case_match|progress simplify_eq/=]; try (by left).
    all: right; by exists i, r, e.
  - left. unfold cancel in Hs. destruct (runs s !! r); [|done]. by simplify_eq/=.
Qed.

(** ** The errgroups

    With what errgroup documents: the goroutines that a group still waits for are among
    those of the state, and those that have returned are the history [h] of the group. *)
Context `{EG : !LawfulErrGroup G}.

(** A group that was told of some returns and waits for [n] more. *)
Definition waits_for (grp : G) (n : nat) : Prop :=
  exists h, grp = fold_left (fun g r => eg_return r g) h (eg_new (length h + n)).

Lemma waits_for_new n : waits_for (eg_new n) n.
Proof. by exists []. Qed.

Lemma waits_for_return err grp n : waits_for grp (S n) -> waits_for (eg_return err grp) n.
Proof.
  intros [h ->]. exists (h ++ [err]). rewrite fold_left_app, length_app. simpl. do 3 f_equal. lia.
Qed.

Lemma waits_for_wait grp n err : waits_for grp n -> eg_wait grp = Some err -> n = 0%nat.
Proof using EG. intros [h ->]. rewrite eg_wait_spec by lia. case_bool_decide; [lia|done]. Qed.

Definition weight (w : thread -> nat) (ts : list thread) : nat := sum_list_with w ts.

Lemma weight_cons w t ts : weight w (t :: ts) = (w t + weight w ts)%nat.
Proof. done. Qed.

Lemma weight_app w ts1 ts2 : weight w (ts1 ++ ts2) = (weight w ts1 + weight w ts2)%nat.
Proof. induction ts1 as [|t ts1 IH]; [done|]. cbn [app]. rewrite !weight_cons. lia. Qed.

Lemma weight_perm w ts1 ts2 : ts1 ≡ₚ ts2 -> weight w ts1 = weight w ts2.
Proof. induction 1; rewrite ?weight_cons; lia. Qed.

(** Groups [gs] whose debts, the returns they wait for, are in the threads: [debt i] in each
    thread for the group number [i]. [other i] counts the threads on which the group has some
    further claim, by [P]. *)
Section accounts.
Context (debt other : nat -> thread -> nat) (P : nat -> nat -> Prop).
Context (P_zero : forall n, P 0 n) (P_pred : forall n m, P (S n) m -> P n m).

Definition accounts (gs : list G) (ts : list thread) : Prop :=
  forall i, match gs !! i with
    | Some grp => waits_for grp (weight (debt i) ts) /\ P (weight (debt i) ts) (weight (other i) ts)
    | None => weight (debt i) ts = 0%nat /\ weight (other i) ts = 0%nat
    end.

Lemma accounts_perm gs ts1 ts2 : ts1 ≡ₚ ts2 -> accounts gs ts1 -> accounts gs ts2.
Proof using. intros Hp H i. rewrite <-!(weight_perm _ _ _ Hp). apply H. Qed.

(** Debts are passed on; a claim on a group without debts may end. *)
Lemma accounts_pc gs t t' new rest :
  (forall i, debt i t' + weight (debt i) new = debt i t)%nat ->
  (forall i, other i t' + weight (other i) new = other i t \/
     is_Some (gs !! i) /\ weight (debt i) (t :: rest) = 0)%nat ->
  accounts gs (t :: rest) -> accounts gs (t' :: new ++ rest).
Proof using P_zero.
  intros Hd Ho H i. specialize (H i). specialize (Hd i). specialize (Ho i).
  rewrite !weight_cons in H. rewrite !weight_cons, !weight_app.
  assert (forall n, debt i t' + (weight (debt i) new + n) = debt i t + n)%nat as -> by lia.
  destruct Ho as [Ho|[[grp Hg] Hz]].
  - by assert (forall n, other i t' + (weight (other i) new + n) = other i t + n)%nat as -> by lia.
  - rewrite Hg in *. rewrite weight_cons in Hz. rewrite Hz in *. split; [apply H|apply P_zero].
Qed.

Lemma accounts_spawn gs t ts :
  (forall i, debt i t = 0 /\ other i t = 0)%nat -> accounts gs ts -> accounts gs (t :: ts).
Proof using. intros Hz H i. rewrite !weight_cons. destruct (Hz i) as [-> ->]. apply H. Qed.

(** A new group, of [n] goroutines. *)
Lemma accounts_new gs n m t t' rest :
  (forall i, debt i t = 0 /\ other i t = 0)%nat ->
  (forall i, debt i t' = if decide (length gs = i) then n else 0)%nat ->
  (forall i, other i t' = if decide (length gs = i) then m else 0)%nat -> P n m ->
  accounts gs (t :: rest) -> accounts (gs ++ [eg_new n]) (t' :: rest).
Proof using.
  intros Ht Hd Ho Hnm H i. specialize (H i). rewrite !weight_cons in *. rewrite Hd, Ho.
  destruct (Ht i) as [Hz1 Hz2]. rewrite Hz1, Hz2 in H. simpl in H. case_decide as Hi.
  - subst i. rewrite lookup_app_r, Nat.sub_diag by lia. simpl.
    rewrite lookup_ge_None_2 in H by lia. destruct H as [-> ->]. rewrite !Nat.add_0_r.
    split; [apply waits_for_new|done].
  - simpl. destruct (gs !! i) as [grp|] eqn:Hg.
    + by rewrite (lookup_app_l_Some _ _ _ _ Hg).
    + apply lookup_ge_None in Hg. by rewrite lookup_ge_None_2 by (rewrite length_app; simpl; lia).
Qed.

(** A goroutine of the group number [k] returns. *)
Lemma accounts_return gs k err grp t t' rest :
  gs !! k = Some grp ->
  (forall i, debt i t = debt i t' + if decide (k = i) then 1 else 0)%nat ->
  (forall i, other i t' = other i t \/ is_Some (gs !! i) /\ weight (debt i) (t' :: rest) = 0)%nat ->
  accounts gs (t :: rest) -> accounts (<[k := eg_return err grp]> gs) (t' :: rest).
Proof using P_zero P_pred.
  intros Hk Hd Ho H i. specialize (H i). specialize (Ho i). rewrite !weight_cons in *. rewrite Hd in H.
  case_decide as Hi.
  - subst i. rewrite list_lookup_insert_eq by by eapply lookup_lt_Some. rewrite Hk in H.
    destruct H as [Hw HP]. rewrite <-Nat.add_assoc, Nat.add_1_l, <-plus_n_Sm in *.
    split; [by apply waits_for_return|]. destruct Ho as [->|[_ ->]]; [by apply P_pred|apply P_zero].
  - rewrite list_lookup_insert_ne, Nat.add_0_r in * by done.
    destruct Ho as [->|[[grp' Hg] Hz]]; [done|]. rewrite Hg in *. rewrite Hz in *. split; [apply H|apply P_zero].
Qed.
End accounts.

(** The calls that the group of an event waits for, started or to be started. *)
Definition pending (g : nat) (t : thread) : nat :=
  match t with
  | TWorker _ (OLoop _ _ i hs g') => if decide (g' = g) then length hs - i else 0
  | THandler g' _ _ | TUpdate g' => if decide (g' = g) then 1 else 0
  | _ => 0
  end.

(** The worker in whose iteration the group runs. *)
Definition attends (g : nat) (t : thread) : nat :=
  match t with
  | TWorker _ (OLoop _ _ _ _ g') | TWorker _ (OWait g') => if decide (g' = g) then 1 else 0
  | _ => 0
  end.

(** The workers that a [Run] waits for, started or to be started. *)
Definition working (r : nat) (t : thread) : nat :=
  match t with
  | TWorker _ (ODone _) => 0
  | TWorker r' _ => if decide (r' = r) then 1 else 0
  | TStarting r' todo => if decide (r' = r) then Z.to_nat todo else 0
  | _ => 0
  end.

(** [Run] has passed [group.Wait]. *)
Definition waited (r : nat) (t : thread) : nat :=
  match t with
  | TRunClose r' _ | TRunDone r' _ => if decide (r' = r) then 1 else 0
  | _ => 0
  end.

(** A group with calls in flight has its worker; a [Run] that has waited has no workers. *)
Definition attended (n m : nat) : Prop := (0 < n -> 0 < m)%nat.
Definition closed (n m : nat) : Prop := (0 < m -> n = 0)%nat.

Record quiet (s : shared) (ts : list thread) : Prop := {
  quiet_groups : accounts pending attends attended (groups s) ts;
  quiet_runs : accounts working waited closed (map rgrp (runs s)) ts
}.

Lemma attended_zero n : attended 0 n.
Proof. unfold attended. lia. Qed.
Lemma attended_pred n m : attended (S n) m -> attended n m.
Proof. unfold attended. lia. Qed.
Lemma closed_zero n : closed 0 n.
Proof. done. Qed.
Lemma closed_pred n m : closed (S n) m -> closed n m.
Proof. unfold closed. lia. Qed.

Lemma quiet_perm s ts1 ts2 : ts1 ≡ₚ ts2 -> quiet s ts1 -> quiet s ts2.
Proof. intros Hp []. split; by eapply accounts_perm. Qed.

(** Weights of given goroutines. *)
Ltac weigh := intros ?; unfold weight; simpl; repeat case_decide; subst; try lia; try (left; lia).

(** A goroutine moves and leaves both kinds of groups alone. *)
Lemma quiet_pc s s' t t' new rest :
  groups s' = groups s -> map rgrp (runs s') = map rgrp (runs s) ->
  (forall i, pending i t' + weight (pending i) new = pending i t)%nat ->
  (forall i, attends i t' + weight (attends i) new = attends i t)%nat ->
  (forall i, working i t' + weight (working i) new = working i t)%nat ->
  (forall i, waited i t' + weight (waited i) new = waited i t)%nat ->
  quiet s (t :: rest) -> quiet s' (t' :: new ++ rest).
Proof.
  intros Hgr Hr H1 H2 H3 H4 [Hg Hq]. split; rewrite ?Hr, ?Hgr.
  - eapply accounts_pc; [apply attended_zero|done| |done]. by left.
  - eapply accounts_pc; [apply closed_zero|done| |done]. by left.
Qed.

Lemma rgrp_lookup s r ru : runs s !! r = Some ru -> map rgrp (runs s) !! r = Some (rgrp ru).
Proof. intros H. by rewrite list_lookup_fmap, H. Qed.

(** A worker that is in no group of an event returns. *)
Lemma leave_quiet r w err s s' t' new rest :
  (match w with OSelect | OWait _ => True | _ => False end) ->
  (forall g, w = OWait g -> weight (pending g) (TWorker r w :: rest) = 0 /\ is_Some (groups s !! g))%nat ->
  quiet s (TWorker r w :: rest) -> leave r err s = Some (s', t', new) -> quiet s' (t' :: new ++ rest).
Proof.
  intros Hw Hg [Hq Hr] H. unfold leave in H. destruct (runs s !! r) as [ru|] eqn:Eru; [|done].
  injection H as <- <- <-. split; simpl.
  - apply (accounts_pc _ _ _ attended_zero _ (TWorker r w) _ []); [by destruct w|..|done].
    intros i. simpl. destruct w as [| | |g|]; try done; [by left|].
    destruct (decide (g = i)) as [->|Hne]; [|by left]. right. by destruct (Hg i eq_refl).
  - rewrite list_fmap_insert. eapply accounts_return; [apply closed_zero|apply closed_pred| | | |done].
    + by apply rgrp_lookup.
    + destruct w; try done; weigh.
    + destruct w; try done; weigh.
Qed.

Lemma take_event_quiet r e s s' t' new rest :
  inv s (TWorker r (OGot (Some e)) :: rest) ->
  quiet s (TWorker r (OGot (Some e)) :: rest) -> take_event r e s = Some (s', t', new) ->
  quiet s' (t' :: new ++ rest).
Proof.
  intros Hi Hq H. unfold take_event in H. destruct (workers (sub s) !! Name e) as [sl|] eqn:Ew.
  - destruct (contents_observers _ _ _ (inv_handlers _ _ Hi) Ew) as (Hc & Hl & _). rewrite Hc in H.
    destruct (slen sl =? 0)%nat eqn:Ez; simplify_eq/=; [by eapply (quiet_pc _ _ _ _ []); [..|exact Hq]; try done; weigh|].
    destruct Hq as [Hg Hr]. split; simpl.
    + eapply accounts_new with (m := 1%nat); [..|exact Hg]; simpl; try done; [|by weigh].
      intros i. by rewrite <-Hl, Nat.sub_0_r.
    + eapply (accounts_pc _ _ _ closed_zero _ _ _ []); [..|exact Hr]; weigh.
  - simplify_eq/=. by eapply (quiet_pc _ _ _ _ []); [..|exact Hq]; try done; weigh.
Qed.

Lemma quiet_waits s ts g grp err :
  quiet s ts -> groups s !! g = Some grp -> eg_wait grp = Some err -> weight (pending g) ts = 0%nat.
Proof using EG.
  intros [Hg _] Hgrp Hw. specialize (Hg g). rewrite Hgrp in Hg. destruct Hg as [Hg _].
  by eapply waits_for_wait.
Qed.

Lemma subject_tstep_quiet c s t s' t' new rest :
  inv s (t :: rest) -> quiet s (t :: rest) -> tstep c s t = Some (s', t', new) -> quiet s' (t' :: new ++ rest).
Proof using EG.
  intros Hi Hq H. destruct t as [r w|g e [o|]|g| |e| |n o| | |r todo|r|r err|r err];
    [destruct w as [|[e|]|e sl i hs g|g|err]|..]; destruct c as [| | |spare|res]; try discriminate H;
    try (by eapply take_event_quiet); simpl in H.
  - destruct (runs s !! r) as [ru|]; [|done]. simpl in H. destruct (rctx ru); [|done]. by eapply leave_quiet; [| |exact Hq|exact H].
  - case_match; [|done]. by eapply leave_quiet; [| |exact Hq|exact H].
  - simplify_eq. by eapply (quiet_pc _ _ _ _ []); [..|exact Hq]; try done; weigh.
  - pose proof (inv_snapshots _ _ Hi) as Hsn. apply Forall_cons in Hsn as [(a & _ & _ & Hl) _].
    destruct (Nat.ltb_spec i (slen sl)) as [Hlt|Hge].
    + destruct (arrays (sub s) !! arr sl) as [a'|]; [|done]. simpl in H. destruct (elems a' !! i) as [o|]; [|done].
      simplify_eq/=. by eapply (quiet_pc _ _ _ _ [_]); [..|exact Hq]; try done; weigh.
    + simplify_eq/=. by eapply (quiet_pc _ _ _ _ []); [..|exact Hq]; try done; weigh.
  - destruct (groups s !! g) as [grp|] eqn:Eg; [|done]. simpl in H. destruct (eg_wait grp) as [[err|]|] eqn:Ew; [| |done].
    + eapply leave_quiet; [| |exact Hq|exact H]; [done|]. intros g' [= <-]. split; [by eapply quiet_waits|by eexists].
    + simplify_eq. pose proof (quiet_waits _ _ _ _ _ Hq Eg Ew) as Hz. destruct Hq as [Hg Hr]. split.
      * apply (accounts_pc _ _ _ attended_zero _ (TWorker r (OWait g)) _ []); [done| |done].
        intros i. simpl. case_decide; [|by left]. subst i. right. split; [by eexists|done].
      * apply (accounts_pc _ _ _ closed_zero _ (TWorker r (OWait g)) _ []); [weigh|weigh|done].
  - simplify_eq. by eapply (quiet_pc _ _ _ _ []); [..|exact Hq]; try done; weigh.
  - simplify_eq. by eapply (quiet_pc _ _ _ _ []); [..|exact Hq]; try done; weigh.
  - destruct (groups s !! g) as [grp|] eqn:Eg; [|done]. simplify_eq/=. destruct Hq as [Hg Hr]. split; simpl.
    + apply accounts_return with (t := TUpdate g); [apply attended_zero|apply attended_pred|done|weigh|weigh|done].
    + apply (accounts_pc _ _ _ closed_zero _ (TUpdate g) _ []); [weigh|weigh|done].
  - case_match; [|done]. simplify_eq. by eapply (quiet_pc _ _ _ _ []); [..|exact Hq]; try done; weigh.
  - destruct (register spare n o (sub s)) as [m|]; [|done]. simplify_eq/=.
    by eapply (quiet_pc _ _ _ _ []); [..|exact Hq]; try done; weigh.
  - simplify_eq. destruct Hq as [Hg Hr]. split; simpl.
    + apply (accounts_pc _ _ _ attended_zero _ TRun _ []); [weigh|weigh|done].
    + rewrite fmap_app. simpl. eapply accounts_new with (m := 0%nat); [..|exact Hr]; simpl; try done.
      * intros i. by rewrite length_fmap.
      * intros i. by case_decide.
      * unfold closed. lia.
  - destruct (Z.leb_spec todo 0); simplify_eq;
      [by eapply (quiet_pc _ _ _ _ []); [..|exact Hq]; try done; weigh
      |by eapply (quiet_pc _ _ _ _ [_]); [..|exact Hq]; try done; weigh].
  - destruct (runs s !! r) as [ru|] eqn:Er; [|done]. simpl in H.
    destruct (eg_wait (rgrp ru)) as [err|] eqn:Ew; [|done]. simplify_eq/=. destruct Hq as [Hg Hr]. split.
    + apply (accounts_pc _ _ _ attended_zero _ (TRunWait r) _ []); [weigh|weigh|done].
    + apply (accounts_pc _ _ _ closed_zero _ (TRunWait r) _ []); [weigh| |done].
      intros i. simpl. case_decide; [|by left]. subst i. right. apply rgrp_lookup in Er. split; [by eexists|].
      specialize (Hr r). rewrite Er in Hr. destruct Hr as [Hr _]. by eapply waits_for_wait.
  - case_match; simplify_eq; by eapply (quiet_pc _ _ _ _ []); [..|exact Hq]; try done; weigh.
Qed.

Lemma subject_step_quiet st st' :
  step st st' -> inv (sh st) (threads st) -> quiet (sh st) (threads st) -> quiet (sh st') (threads st').
Proof using EG.
  intros H Hi Hq. assert (inv (sh st) (threads st) /\ quiet (sh st) (threads st)) as Hiq by done. clear Hi Hq. revert Hiq.
  assert (forall s ts1 ts2, ts1 ≡ₚ ts2 -> inv s ts1 /\ quiet s ts1 -> inv s ts2 /\ quiet s ts2) as Hperm
    by (intros * Hp []; split; [by eapply subject_inv_perm|by eapply quiet_perm]).
  destruct H as [s ts i c t s' t' new Hcr Ht Hs|s ts i j e r Hcr Hch Hti Htj|s ts t Ht|s ts r err s' Hs]; simpl.
  - apply (thread_change (fun ts => inv s ts /\ quiet s ts) (quiet s')) with t; [apply Hperm|apply quiet_perm|done|].
    intros rest []. by eapply subject_tstep_quiet.
  - intros [_ Hq]. assert (i <> j) as Hij by (intros ->; congruence).
    rewrite <-(app_nil_r (<[j := _]> _)).
    eapply (thread_change (quiet s));
      [apply quiet_perm..|by rewrite list_lookup_insert_ne| |].
    { intros rest Hq'. by eapply (quiet_pc _ _ _ _ []); [..|exact Hq']; try done; weigh. }
    rewrite <-(app_nil_r (<[i := _]> _)). eapply (thread_change (quiet s)); [apply quiet_perm..|exact Hti| |exact Hq].
    intros rest Hq'. by eapply (quiet_pc _ _ _ _ []); [..|exact Hq']; try done; weigh.
  - intros [_ [Hg Hr]]. eapply quiet_perm; [apply Permutation_cons_append|].
    split; apply accounts_spawn; try done; destruct Ht as [[e ->]|[(n & o & ->)| ->]]; done.
  - intros [_ [Hg Hr]]. unfold cancel in Hs. destruct (runs s !! r) as [ru|] eqn:Er; [|done]. simplify_eq/=.
    split; [done|]. simpl. rewrite list_fmap_insert. simpl. by rewrite list_insert_id by by apply rgrp_lookup.
Qed.

Lemma subject_reachable_quiet st : reachable st -> inv (sh st) (threads st) /\ quiet (sh st) (threads st).
Proof using EG.
  unfold reachable. intros H. split; [by apply subject_reachable_inv|]. remember (mkState init []) as st0 eqn:E.
  assert (inv (sh st0) (threads st0) /\ quiet (sh st0) (threads st0)) as H0.
  { subst st0. split; [apply (subject_reachable_inv (mkState init [])), rtc_refl|]. by split; intros i. }
  clear E. induction H as [|st0 st1 st2 H1 _ IH]; [apply H0|]. apply IH. destruct H0. split;
    [by eapply subject_step_inv|by eapply subject_step_quiet].
Qed.

Lemma weight_pos w ts : (0 < weight w ts)%nat -> exists i t, ts !! i = Some t /\ (0 < w t)%nat.
Proof using.
  induction ts as [|t ts IH]; rewrite ?weight_cons; [unfold weight; simpl; lia|]. intros H.
  destruct (decide (w t = 0)%nat) as [Hz|Hz]; [|exists 0%nat, t; split; [done|lia]].
  destruct IH as (i & t' & Hi & Ht'); [lia|]. by exists (S i), t'.
Qed.

Lemma weight_lookup w ts i t : ts !! i = Some t -> (w t <= weight w ts)%nat.
Proof using.
  intros Hi. destruct (thread_step ts i t t [] Hi) as (rest & Hp & _).
  rewrite (weight_perm _ _ _ Hp), weight_cons. lia.
Qed.

(** The calls in flight belong to the iteration of a worker that has not gone on. *)
Definition calls_attended (ts : list thread) : Prop :=
  forall i t g, ts !! i = Some t -> (t = TUpdate g \/ exists e o, t = THandler g e o) ->
    exists j r w, ts !! j = Some (TWorker r w) /\ (w = OWait g \/ exists e sl k hs, w = OLoop e sl k hs g).

(** A [Run] that has come to its deferred [close] has no worker left. *)
Definition workers_left (ts : list thread) : Prop :=
  forall i j r w err, ts !! i = Some (TRunClose r err) \/ ts !! i = Some (TRunDone r err) ->
    ts !! j = Some (TWorker r w) -> exists res, w = ODone res.

Lemma quiet_calls_attended s ts : quiet s ts -> calls_attended ts.
Proof using.
  intros [Hg _] i t g Ht Hk. specialize (Hg g).
  assert (0 < weight (pending g) ts)%nat as Hp.
  { apply (weight_lookup (pending g)) in Ht.
    destruct Hk as [->|(e & o & ->)]; simpl in Ht; rewrite decide_True in Ht by done; lia. }
  assert (0 < weight (attends g) ts)%nat as (j & t' & Hj & Ha)%weight_pos.
  { destruct (groups s !! g); [|lia]. by apply Hg. }
  exists j. destruct t' as [r w| | | | | | | | | | | |]; simpl in Ha; try lia.
  exists r, w. split; [done|].
  destruct w; try lia; case_decide; try lia; subst; [right; by eexists _, _, _, _|by left].
Qed.

Lemma quiet_workers_left s ts : quiet s ts -> workers_left ts.
Proof using.
  intros [_ Hr] i j r w err Hi Hj. specialize (Hr r).
  assert (0 < weight (waited r) ts)%nat as Hw.
  { destruct Hi as [Hi|Hi]; apply (weight_lookup (waited r)) in Hi; simpl in Hi;
      rewrite decide_True in Hi by done; lia. }
  assert (weight (working r) ts = 0)%nat as Hz.
  { destruct (map rgrp (runs s) !! r); [|lia]. by apply Hr. }
  apply (weight_lookup (working r)) in Hj. rewrite Hz in Hj.
  destruct w; simpl in Hj; try (rewrite decide_True in Hj by done; lia). by eexists.
Qed.

(** C15: delivery, in every interleaving of [Register], [Notify], [Run] and the ends of
    contexts. Every event that a worker received is looked up once, but for those still in a
    worker's hands; when it is, it is given the observers registered for its name at that
    moment, all of them. The calls of [Update] made and still due are, each once, those of the
    events looked up with the observers they were given, whatever [Register] does to the
    backing array meanwhile; what was registered stays registered. A worker goes on only
    after the calls for its event have returned, and [Run] closes the channel only after its
    workers have. The subject panics only for a send on its channel or a second close of it,
    after it was closed, or because of a nil event or a nil observer. *)
Theorem Observer_delivery st :
  reachable st ->
  let s := sh st in
  notified s ≡ₚ map (Some ∘ fst) (taken s) ++ concat (map in_hand (threads st)) /\
  (forall st', step st st' -> taken (sh st') = taken s \/
     exists i r e, threads st !! i = Some (TWorker r (OGot (Some e))) /\
       taken (sh st') = taken s ++ [(e, observers (sub s) (Name e))]) /\
  concat (map pairs (taken s)) ≡ₚ delivered s ++ concat (map due (threads st)) /\
  Forall (fun x => snd x `prefix_of` observers (sub s) (Name (fst x))) (taken s) /\
  calls_attended (threads st) /\ workers_left (threads st) /\
  (forall p, crashed s = Some p -> crash_cause s p).
Proof using EG.
  intros [Hi Hq]%subject_reachable_quiet s. destruct Hi. split_and!; try done.
  - intros st'. apply taken_step.
  - by eapply quiet_calls_attended.
  - by eapply quiet_workers_left.
Qed.

(** ** Running a schedule *)

Inductive action := Act (i : nat) (c : choice) | Meet (i j : nat)
  | CallNotify (e : option Event) | CallRegister (n : EventName) (o : option Obs) | CallRun
  | Cancel (r : nat) (err : error).

Definition act (a : action) (st : state) : option state :=
  let '(mkState s ts) := st in
  match a with
  | Act i c =>
      match crashed s with
      | Some _ => None
      | None => t ← ts !! i; '(s', t', new) ← tstep c s t; Some (mkState s' (<[i := t']> ts ++ new))
      end
  | Meet i j =>
      match crashed s, chClosed s, ts !! i, ts !! j with
      | None, false, Some (TNotify e), Some (TWorker r OSelect) =>
          Some (mkState (log_notified e s) (<[j := TWorker r (OGot e)]> (<[i := TNotified]> ts)))
      | _, _, _, _ => None
      end
  | CallNotify e => Some (mkState s (ts ++ [TNotify e]))
  | CallRegister n o => Some (mkState s (ts ++ [TRegister n o]))
  | CallRun => Some (mkState s (ts ++ [TRun]))
  | Cancel r err => s' ← cancel r err s; Some (mkState s' ts)
  end.

Fixpoint run (l : list action) (st : state) : option state :=
  match l with [] => Some st | a :: l => st' ← act a st; run l st' end.

Lemma subject_act_step a st st' : act a st = Some st' -> step st st'.
Proof using.
  destruct st as [s ts]. destruct a; simpl.
  - destruct (crashed s) eqn:Hc; [done|]. intros H.
    apply bind_Some in H as (t & Ht & H). apply bind_Some in H as ([[s' t'] new] & Hs & H).
    injection H as <-. by eapply step_run.
  - destruct (crashed s) eqn:Hc, (chClosed s) eqn:Hch; try done.
    destruct (ts !! i) as [[]|] eqn:Hi; try done.
    destruct (ts !! j) as [[r []| | | | | | | | | | | |]|] eqn:Hj; try done.
    intros [= <-]. by eapply step_rendezvous.
  - intros [= <-]. apply step_call. left. by eexists.
  - intros [= <-]. apply step_call. right; left. by eexists _, _.
  - intros [= <-]. apply step_call. by right; right.
  - intros H. apply bind_Some in H as (s' & Hs & [= <-]). by eapply step_cancel.
Qed.

Lemma subject_run_reachable l st : run l (mkState init []) = Some st -> reachable st.
Proof using.
  unfold reachable. generalize (mkState init []). induction l as [|a l IH]; intros st0; simpl.
  - by intros [= <-].
  - intros H. apply bind_Some in H as (st1 & H1 & H). eapply rtc_l; [by eapply subject_act_step|by apply IH].
Qed.
End observer.

Import RefGroup.

#[local] Abbreviation demo_state := (state (Data := Z) (Obs := nat) (G := egroup)).
#[local] Abbreviation demo_action := (action (Data := Z) (Obs := nat)).

Definition demo_event : Event := mkEvent (str "block.new") 1.

(** One worker takes the event while a third observer is registered; one of the calls has
    been made, the other is due. *)
Definition demo_schedule : list demo_action :=
  [ CallRegister (str "block.new") (Some 10%nat); Act 0 (ChSpare 3);
    CallRegister (str "block.new") (Some 20%nat); Act 1 (ChSpare 0);
    CallRun; Act 2 ChNone; Act 2 ChNone; CallNotify (Some demo_event); Meet 4 3; Act 3 ChNone;
    CallRegister (str "block.new") (Some 30%nat); Act 5 (ChSpare 0); Act 3 ChNone; Act 6 ChNone ].

Definition final (l : list demo_action) : demo_state :=
  default (mkState init []) (run 1 l (mkState init [])).

Lemma Observer_delivery_witness :
  [(demo_event, Some 10%nat); (demo_event, Some 20%nat)] ≡ₚ
    delivered (sh (final demo_schedule)) ++ concat (map due (threads (final demo_schedule))).
Proof.
  apply (Observer_delivery 1 (final demo_schedule)).
  apply (subject_run_reachable 1 demo_schedule). vm_compute. reflexivity.
Defined.

(** The context ends while a caller is about to notify. *)
Definition panic_schedule : list demo_action :=
  [ CallRun; Act 0 ChNone; Act 0 ChNone; Cancel 0 Canceled; Act 1 ChCtx; Act 0 ChNone; Act 0 ChNone;
    Act 0 ChNone; CallNotify (Some demo_event); Act 2 ChNone ].

(** A [Notify] after [Run] returned panics, whatever made [Run] return. *)
Theorem Notify_after_Run_panics :
  exists st : demo_state, reachable 1 st /\ crashed (sh st) = Some PSendClosed.
Proof.
  exists (final panic_schedule). split; [|vm_compute; reflexivity].
  apply (subject_run_reachable 1 panic_schedule). vm_compute. reflexivity.
Qed.
End Observer.
